(** * Ingram freight-rate integration: rate combiner, TTL cache, freight
      request coalescer, SKU mapping resolver and cart-estimate endpoint.

    A shallow embedding of the TypeScript sources
      app/services/rate-combiner.server.ts
      app/utils/ttl-cache.server.ts
      app/services/ingram.server.ts
      app/routes/api.cart-estimate.ts
    with the properties their specification states about them. *)

From Stdlib Require Import ZArith List String Ascii Bool Lia Permutation.
From Stdlib Require Import Sorted SpecFloat DecimalString DecimalNat OrdersEx.
Import ListNotations.
Local Open Scope Z_scope.

(* ================================================================== *)
(** * JavaScript numbers

    A JS [number] is an IEEE 754 binary64 value.  The embedding uses the
    Standard Library's executable specification of binary floating point
    ([spec_float], precision 53, exponent bound 1024), so sums, products
    and differences round exactly as the engine's do. *)
(* ================================================================== *)
Module JSNumber.

Definition prec : Z := 53.
Definition emax : Z := 1024.

Definition number := spec_float.

Definition NaN : number := S754_nan.
Definition zero : number := S754_zero false.

(** The number a decimal integer literal denotes. *)
Definition of_Z (n : Z) : number := binary_normalize prec emax n 0 false.

Definition add : number -> number -> number := SFadd prec emax.
Definition sub : number -> number -> number := SFsub prec emax.
Definition mul : number -> number -> number := SFmul prec emax.
Definition div : number -> number -> number := SFdiv prec emax.

(** A binary64 value: the mantissa is canonical and the exponent in range. *)
Definition is_double (x : number) : Prop := valid_binary prec emax x = true.

(** The integer [sign * m * 2^(e - c)]: the value of a finite number in
    units of [2^c], exact whenever [c <= e]. *)
Definition scaled (x : number) (c : Z) : Z :=
  match x with
  | S754_finite s m e => cond_Zopp s (Zpos m * 2 ^ (e - c))
  | _ => 0
  end.

Definition exponent_or (x : number) (d : Z) : Z :=
  match x with
  | S754_finite _ _ e => e
  | _ => d
  end.

(** Comparison of the values two numbers denote ([None] when one of them is
    NaN); both zeros denote 0. *)
Definition compare (x y : number) : option comparison :=
  match x, y with
  | S754_nan, _ | _, S754_nan => None
  | S754_infinity sx, S754_infinity sy =>
      Some (match sx, sy with
            | true, false => Lt
            | false, true => Gt
            | _, _ => Eq
            end)
  | S754_infinity s, _ => Some (if s then Lt else Gt)
  | _, S754_infinity s => Some (if s then Gt else Lt)
  | _, _ =>
      let c := Z.min (exponent_or x (exponent_or y 0))
                     (exponent_or y (exponent_or x 0)) in
      Some (Z.compare (scaled x c) (scaled y c))
  end.

(** [x < y], [x <= y] and [x > y] of the language: false when NaN is
    involved. *)
Definition ltb (x y : number) : bool :=
  match compare x y with Some Lt => true | _ => false end.

Definition leb (x y : number) : bool :=
  match compare x y with Some (Lt | Eq) => true | _ => false end.

Definition gtb (x y : number) : bool := ltb y x.

(** Truthiness of a number: NaN, +0 and -0 are falsy. *)
Definition truthy (x : number) : bool :=
  match x with
  | S754_nan | S754_zero _ => false
  | _ => true
  end.

(** [x || 0] *)
Definition or_zero (x : number) : number := if truthy x then x else zero.

(** [Number.isFinite] *)
Definition isFinite (x : number) : bool :=
  match x with
  | S754_zero _ | S754_finite _ _ _ => true
  | _ => false
  end.

(** [Math.round]: the integer nearest to [x], ties going up; integers,
    infinities, zeros and NaN are returned unchanged and a result of zero
    keeps the sign of [x]. *)
Definition round_half_up (s : bool) (m : positive) (e : Z) : Z :=
  if 0 <=? e then cond_Zopp s (Zpos m) * 2 ^ e
  else (2 * cond_Zopp s (Zpos m) + 2 ^ (- e)) / 2 ^ (1 - e).

Definition Math_round (x : number) : number :=
  match x with
  | S754_finite s m e =>
      if 0 <=? e then x
      else
        let n := round_half_up s m e in
        if n =? 0 then S754_zero s else of_Z n
  | _ => x
  end.

(** [Math.max] of two numbers: NaN if either is, and +0 above -0. *)
Definition Math_max (x y : number) : number :=
  match compare x y with
  | None => NaN
  | Some Lt => y
  | Some Gt => x
  | Some Eq => match x with S754_zero true => y | _ => x end
  end.

(** The integer a finite number denotes, when it denotes one. *)
Definition to_Z (x : number) : option Z :=
  match x with
  | S754_zero _ => Some 0
  | S754_finite s m e =>
      if 0 <=? e then Some (cond_Zopp s (Zpos m) * 2 ^ e)
      else if (Zpos m mod 2 ^ (- e)) =? 0
           then Some (cond_Zopp s (Zpos m / 2 ^ (- e)))
           else None
  | _ => None
  end.

Definition decimal (n : Z) : string := NilZero.string_of_int (Z.to_int n).

(** [Number.prototype.toString] on the values the embedded code prints:
    NaN, the infinities and the integers of magnitude at most [2^53],
    which the engine prints digit for digit.  Other numbers (fractions,
    larger integers, printed in shortest round-trip form) are left out:
    [None]. *)
Definition toString (x : number) : option string :=
  match x with
  | S754_nan => Some "NaN"%string
  | S754_infinity false => Some "Infinity"%string
  | S754_infinity true => Some "-Infinity"%string
  | _ =>
      match to_Z x with
      | Some n => if Z.abs n <=? 2 ^ 53 then Some (decimal n) else None
      | None => None
      end
  end.

(** The least exponent of a binary64 mantissa. *)
Definition emin : Z := -1074.

(** The exponent of a finite number is at least [emin]: what rounding keeps
    and what every binary64 value satisfies. *)
Definition wf (x : number) : Prop :=
  match x with S754_finite _ _ e => emin <= e | _ => True end.

Definition finite_or_zero (x : number) : Prop :=
  match x with S754_zero _ | S754_finite _ _ _ => True | _ => False end.

(** [n - 1/2 <= v < n + 1/2] for the value [v = sign * m * 2^e], written
    over the integers. *)
Definition nearest_integer (s : bool) (m : positive) (e n : Z) : Prop :=
  let k := 2 ^ Z.max 0 (- e) in
  let v := cond_Zopp s (Zpos m) * 2 ^ Z.max 0 e in
  (2 * n - 1) * k <= 2 * v < (2 * n + 1) * k.


(** ** Facts about rounding and comparison *)

Lemma iter_pos_nat {A} (f : A -> A) (n : positive) (x : A) :
  iter_pos f n x = Nat.iter (Pos.to_nat n) f x.
Proof.
  revert x. induction n as [n IH | n IH |]; intros x.
  - rewrite Pos2Nat.inj_xI. cbn [iter_pos]. rewrite !IH.
    replace (S (2 * Pos.to_nat n))%nat with (Pos.to_nat n + S (Pos.to_nat n))%nat by lia.
    rewrite Nat.iter_add. f_equal. now rewrite Nat.iter_succ_r.
  - rewrite Pos2Nat.inj_xO. cbn [iter_pos]. rewrite !IH.
    replace (2 * Pos.to_nat n)%nat with (Pos.to_nat n + Pos.to_nat n)%nat by lia.
    now rewrite Nat.iter_add.
  - reflexivity.
Qed.

Lemma shr_1_m (r : shr_record) :
  0 <= shr_m r -> shr_m (shr_1 r) = shr_m r / 2.
Proof.
  destruct r as [m r s]; simpl. intros Hm.
  destruct m as [| p | p]; try lia; [reflexivity|].
  destruct p as [p | p |]; simpl.
  - apply Z.div_unique with (r := 1); lia.
  - apply Z.div_unique with (r := 0); lia.
  - reflexivity.
Qed.

Lemma shr_iter_m (k : nat) (r : shr_record) :
  0 <= shr_m r -> shr_m (Nat.iter k shr_1 r) = shr_m r / 2 ^ Z.of_nat k.
Proof.
  intros Hm. induction k as [| k IH].
  - simpl. now rewrite Z.div_1_r.
  - assert (0 < 2 ^ Z.of_nat k) by (apply Z.pow_pos_nonneg; lia).
    rewrite Nat2Z.inj_succ, Z.pow_succ_r by lia.
    change (Nat.iter (S k) shr_1 r) with (shr_1 (Nat.iter k shr_1 r)).
    rewrite shr_1_m.
    + rewrite IH. rewrite Z.div_div; try lia. f_equal. lia.
    + rewrite IH. apply Z.div_pos; lia.
Qed.

Lemma digits2_size (p : positive) : digits2_pos p = Pos.size p.
Proof. induction p; simpl; congruence. Qed.

Lemma digits2_bounds (p : positive) :
  2 ^ (Zpos (digits2_pos p) - 1) <= Zpos p < 2 ^ Zpos (digits2_pos p).
Proof.
  rewrite digits2_size. split.
  - pose proof (Pos.size_le p) as H.
    assert (2 * 2 ^ (Zpos (Pos.size p) - 1) <= 2 * Zpos p); [|lia].
    rewrite <- Z.pow_succ_r by lia.
    replace (Z.succ (Zpos (Pos.size p) - 1)) with (Zpos (Pos.size p)) by lia.
    rewrite <- Pos2Z.inj_pow. lia.
  - pose proof (Pos.size_gt p) as H.
    rewrite <- Pos2Z.inj_pow. lia.
Qed.


Lemma fexp_eq (x : Z) : fexp prec emax x = Z.max (x - 53) emin.
Proof. reflexivity. Qed.

Lemma shr_record_of_loc_m (m : Z) (l : location) :
  shr_m (shr_record_of_loc m l) = m.
Proof. destruct l as [| []]; reflexivity. Qed.

Lemma shr_fexp_pos (p : positive) (e : Z) (l : location) :
  emin <= e ->
  0 < shr_m (fst (shr_fexp prec emax (Zpos p) e l)) /\
  e <= snd (shr_fexp prec emax (Zpos p) e l).
Proof.
  intros He. unfold shr_fexp, shr. rewrite fexp_eq.
  cbn [Zdigits2].
  pose proof (digits2_bounds p) as [Hlo _].
  set (d := Zpos (digits2_pos p)) in *.
  destruct (Z.max (d + e - 53) emin - e) as [| q | q] eqn:Hn;
    cbn [fst snd]; rewrite ?shr_record_of_loc_m; try lia.
  rewrite iter_pos_nat, shr_iter_m, shr_record_of_loc_m
    by (rewrite shr_record_of_loc_m; lia).
  rewrite positive_nat_Z. split; [|lia].
  assert (Hq : Zpos q <= d - 1) by lia.
  assert (0 < 2 ^ Zpos q) by (apply Z.pow_pos_nonneg; lia).
  assert (2 ^ Zpos q <= 2 ^ (d - 1)) by (apply Z.pow_le_mono_r; lia).
  apply Z.div_str_pos. lia.
Qed.

Lemma round_nearest_even_ge (m : Z) (l : location) :
  m <= round_nearest_even m l.
Proof.
  destruct l as [| []]; simpl; try lia.
  destruct (Z.even m); lia.
Qed.

Lemma binary_round_aux_shape (sx : bool) (p : positive) (e : Z) (l : location) :
  emin <= e ->
  (exists m e', binary_round_aux prec emax sx (Zpos p) e l = S754_finite sx m e'
                /\ emin <= e')
  \/ binary_round_aux prec emax sx (Zpos p) e l = S754_infinity sx.
Proof.
  intros He. unfold binary_round_aux.
  pose proof (shr_fexp_pos p e l He) as [H1 H2].
  destruct (shr_fexp prec emax (Zpos p) e l) as [mrs' e']. cbn [fst snd] in *.
  pose proof (round_nearest_even_ge (shr_m mrs') (loc_of_shr_record mrs')) as Hr.
  destruct (round_nearest_even (shr_m mrs') (loc_of_shr_record mrs')) as [| p2 | p2];
    try lia.
  assert (He' : emin <= e') by lia.
  pose proof (shr_fexp_pos p2 e' loc_Exact He') as [H3 H4].
  destruct (shr_fexp prec emax (Zpos p2) e' loc_Exact) as [mrs'' e''].
  cbn [fst snd] in *.
  destruct (shr_m mrs'') as [| m | m]; try lia.
  destruct (e'' <=? emax - prec); [left | right; reflexivity].
  exists m, e''. split; [reflexivity | lia].
Qed.

Lemma binary_round_shape (sx : bool) (p : positive) (e : Z) :
  emin <= e ->
  (exists m e', binary_round prec emax sx p e = S754_finite sx m e' /\ emin <= e')
  \/ binary_round prec emax sx p e = S754_infinity sx.
Proof.
  intros He. unfold binary_round, shl_align. rewrite fexp_eq.
  destruct (Z.max (Zpos (digits2_pos p) + e - 53) emin - e) eqn:Hn;
    apply binary_round_aux_shape; lia.
Qed.

Lemma binary_normalize_shape (m e : Z) (sz : bool) :
  emin <= e ->
  match m with
  | 0 => binary_normalize prec emax m e sz = S754_zero sz
  | _ =>
    (exists m' e', binary_normalize prec emax m e sz = S754_finite (m <? 0) m' e'
                   /\ emin <= e')
    \/ binary_normalize prec emax m e sz = S754_infinity (m <? 0)
  end.
Proof.
  intros He. destruct m; simpl; [reflexivity | |]; now apply binary_round_shape.
Qed.

Lemma is_double_wf (x : number) : is_double x -> wf x.
Proof.
  destruct x as [| | | s m e]; simpl; trivial.
  unfold is_double, valid_binary, bounded, canonical_mantissa.
  rewrite fexp_eq. intros H. apply andb_prop in H as [H _].
  apply Z.eqb_eq in H. lia.
Qed.

Lemma add_wf (x y : number) : wf x -> wf y -> wf (add x y).
Proof.
  intros Hx Hy.
  destruct x as [sx | sx | | sx mx ex], y as [sy | sy | | sy my ey];
    try exact I; try assumption;
    try (destruct sx, sy; exact I).
  unfold add, SFadd.
  match goal with
  | |- wf (binary_normalize _ _ ?m ?e ?z) =>
      pose proof (binary_normalize_shape m e z) as H; destruct m
  end.
  - rewrite H; [exact I | simpl in *; lia].
  - destruct H as [(m' & e' & -> & He) | ->]; [simpl in *; lia | exact He | exact I].
  - destruct H as [(m' & e' & -> & He) | ->]; [simpl in *; lia | exact He | exact I].
Qed.

Lemma iter_xO_mul (m d : positive) :
  Zpos (Pos.iter xO m d) = Zpos m * 2 ^ Zpos d.
Proof.
  induction d as [| d IH] using Pos.peano_ind.
  - cbn [Pos.iter]. change (2 ^ 1) with 2. lia.
  - rewrite Pos.iter_succ, Pos2Z.inj_xO, IH, Pos2Z.inj_succ, Z.pow_succ_r; lia.
Qed.

Lemma shl_align_fst (m : positive) (e c : Z) :
  c <= e -> Zpos (fst (shl_align m e c)) = Zpos m * 2 ^ (e - c).
Proof.
  intros Hc. unfold shl_align.
  destruct (c - e) as [| d | d] eqn:Hd; cbn [fst]; try lia.
  - replace (e - c) with 0 by lia. lia.
  - rewrite iter_xO_mul. f_equal. f_equal. lia.
Qed.

Lemma compare_zero_finite (sz s : bool) (m : positive) (e : Z) :
  compare (S754_zero sz) (S754_finite s m e) = Some (if s then Gt else Lt).
Proof.
  unfold compare. cbn [exponent_or scaled]. rewrite Z.min_id, Z.sub_diag.
  destruct s; reflexivity.
Qed.

Lemma compare_finite_zero (sz s : bool) (m : positive) (e : Z) :
  compare (S754_finite s m e) (S754_zero sz) = Some (if s then Lt else Gt).
Proof.
  unfold compare. cbn [exponent_or scaled]. rewrite Z.min_id, Z.sub_diag.
  destruct s; reflexivity.
Qed.

Lemma compare_finite (sx sy : bool) (mx my : positive) (ex ey : Z) :
  compare (S754_finite sx mx ex) (S754_finite sy my ey) =
  Some (Z.compare (cond_Zopp sx (Zpos mx * 2 ^ (ex - Z.min ex ey)))
                  (cond_Zopp sy (Zpos my * 2 ^ (ey - Z.min ex ey)))).
Proof. reflexivity. Qed.

(** The sign of a rounded difference is the sign of the exact one. *)
Lemma sub_gt_zero (x y : number) :
  wf x -> wf y -> ltb zero (sub x y) = ltb y x.
Proof.
  intros Hx Hy. unfold ltb.
  destruct x as [sx | sx | | sx mx ex], y as [sy | sy | | sy my ey];
    try (destruct sx, sy; reflexivity);
    try (destruct sx; reflexivity);
    try (destruct sy; reflexivity);
    try reflexivity.
  - (* zero - finite *)
    cbn [sub SFsub]. rewrite compare_finite_zero.
    unfold zero. rewrite compare_zero_finite. destruct sy; reflexivity.
  - (* finite - finite *)
    rewrite compare_finite, (Z.min_comm ey ex). unfold sub, SFsub.
    rewrite !shl_align_fst by lia.
    set (a := cond_Zopp sx _). set (b := cond_Zopp sy _).
    simpl in Hx, Hy.
    pose proof (binary_normalize_shape (a - b) (Z.min ex ey) false) as H.
    destruct (a - b) as [| d | d] eqn:Hd.
    + rewrite H by lia. replace (b ?= a) with Eq; [reflexivity|].
      symmetry. apply Z.compare_eq_iff. lia.
    + replace (b ?= a) with Lt by (symmetry; apply Z.compare_lt_iff; lia).
      destruct H as [(m' & e' & -> & He) | ->]; [lia | |]; try reflexivity.
      unfold zero. now rewrite compare_zero_finite.
    + replace (b ?= a) with Gt by (symmetry; apply Z.compare_gt_iff; lia).
      destruct H as [(m' & e' & -> & He) | ->]; [lia | |]; try reflexivity.
      unfold zero. now rewrite compare_zero_finite.
Qed.


Lemma scaled_rescale (x : number) (c c' : Z) :
  c' <= c -> c <= exponent_or x c ->
  scaled x c' = scaled x c * 2 ^ (c - c').
Proof.
  intros H1 H2. destruct x as [| | | s m e]; cbn [scaled exponent_or] in *; try lia.
  replace (e - c') with ((e - c) + (c - c')) by lia.
  rewrite Z.pow_add_r by lia. destruct s; cbn [cond_Zopp]; lia.
Qed.

Lemma compare_scaled (x y : number) (c : Z) :
  finite_or_zero x -> finite_or_zero y ->
  c <= exponent_or x c -> c <= exponent_or y c ->
  compare x y = Some (Z.compare (scaled x c) (scaled y c)).
Proof.
  intros Fx Fy Hx Hy.
  set (c0 := Z.min (exponent_or x (exponent_or y 0)) (exponent_or y (exponent_or x 0))).
  assert (Hc : compare x y = Some (Z.compare (scaled x c0) (scaled y c0))).
  { destruct x, y; try contradiction; reflexivity. }
  rewrite Hc. f_equal.
  assert (Hle : (c <= c0 /\ c0 <= exponent_or x c0 /\ c0 <= exponent_or y c0)
                \/ (scaled x c0 = 0 /\ scaled y c0 = 0
                    /\ scaled x c = 0 /\ scaled y c = 0)).
  { subst c0. destruct x, y; try contradiction; cbn [exponent_or scaled] in *;
      (left; lia) || (right; repeat split; reflexivity). }
  destruct Hle as [(H1 & H2 & H3) | (-> & -> & -> & ->)]; [|reflexivity].
  rewrite (scaled_rescale x c0 c), (scaled_rescale y c0 c) by assumption.
  assert (0 < 2 ^ (c0 - c)) by (apply Z.pow_pos_nonneg; lia).
  apply Zmult_compare_compat_r. lia.
Qed.

Lemma compare_antisym (x y : number) :
  compare y x = option_map CompOpp (compare x y).
Proof.
  destruct x as [sx | sx | | sx mx ex], y as [sy | sy | | sy my ey];
    try (destruct sx, sy; reflexivity);
    try (destruct sx; reflexivity);
    try (destruct sy; reflexivity);
    try reflexivity.
  - rewrite compare_finite_zero, compare_zero_finite. now destruct sy.
  - rewrite compare_finite_zero, compare_zero_finite. now destruct sx.
  - rewrite !compare_finite. cbn [option_map].
    rewrite (Z.min_comm ey ex). f_equal. apply Z.compare_antisym.
Qed.

Lemma ltb_trans (x y z : number) :
  ltb x y = true -> ltb y z = true -> ltb x z = true.
Proof.
  unfold ltb.
  destruct x as [sx | sx | | sx mx ex], y as [sy | sy | | sy my ey],
    z as [sz | sz | | sz mz ez];
    try discriminate;
    try (destruct sx; discriminate); try (destruct sy; discriminate);
    try (destruct sx, sy; discriminate); try (destruct sy, sz; discriminate);
    try (destruct sx, sz; reflexivity);
    try (destruct sx, sy; (discriminate || reflexivity));
    try (destruct sy, sz; (discriminate || reflexivity));
    try (rewrite ?compare_finite_zero, ?compare_zero_finite;
         destruct sx; try discriminate; destruct sy; try discriminate;
         destruct sz; (discriminate || reflexivity)).
  all: match goal with
       | |- context [compare ?a ?b] =>
           match goal with
           | |- (match compare ?x ?y with _ => _ end) = true -> 
                (match compare ?y ?z with _ => _ end) = true -> _ =>
               set (c := Z.min (exponent_or x (exponent_or y (exponent_or z 0)))
                         (Z.min (exponent_or y (exponent_or x (exponent_or z 0)))
                                (exponent_or z (exponent_or x (exponent_or y 0)))));
               rewrite (compare_scaled x y c), (compare_scaled y z c),
                 (compare_scaled x z c)
                 by (try exact I; subst c; cbn [exponent_or]; lia)
           end
       end.
  all: intros H1 H2;
    repeat match goal with
    | H : (match ?a ?= ?b with _ => _ end) = true |- _ =>
        destruct (Z.compare_spec a b); try discriminate; clear H
    end;
    match goal with
    | |- (match ?a ?= ?b with _ => _ end) = true =>
        destruct (Z.compare_spec a b); try reflexivity; lia
    end.
Qed.

Lemma compare_None (x y : number) :
  compare x y = None -> x = NaN \/ y = NaN.
Proof.
  destruct x, y; try discriminate; unfold NaN; auto.
Qed.

Lemma ltb_false_leb (x y : number) :
  x <> NaN -> y <> NaN -> ltb y x = false -> leb x y = true.
Proof.
  unfold ltb, leb. rewrite (compare_antisym x y). intros Hx Hy.
  destruct (compare x y) as [[]|] eqn:Hc; cbn; try congruence.
  apply compare_None in Hc. tauto.
Qed.

Lemma ltb_leb (x y : number) : ltb x y = true -> leb x y = true.
Proof. unfold ltb, leb. now destruct (compare x y) as [[]|]. Qed.

Lemma ltb_not_NaN (x y : number) : ltb x y = true -> x <> NaN /\ y <> NaN.
Proof.
  unfold ltb. destruct x, y; try discriminate; split; discriminate.
Qed.

Lemma digits2_iter_xO (p k : positive) :
  digits2_pos (Pos.iter xO p k) = (digits2_pos p + k)%positive.
Proof.
  induction k as [| k IH] using Pos.peano_ind.
  - cbn. lia.
  - rewrite Pos.iter_succ. cbn [digits2_pos]. rewrite IH. lia.
Qed.

Lemma binary_round_aux_exact (s : bool) (m : positive) (e : Z) :
  Zpos (digits2_pos m) = 53 -> emin <= e <= 971 ->
  binary_round_aux prec emax s (Zpos m) e loc_Exact = S754_finite s m e.
Proof.
  intros Hd He. unfold binary_round_aux, shr_fexp. cbn [Zdigits2].
  rewrite Hd, fexp_eq.
  replace (Z.max (53 + e - 53) emin - e) with 0 by lia.
  cbn [shr shr_record_of_loc shr_m loc_of_shr_record round_nearest_even Zdigits2].
  rewrite Hd, fexp_eq.
  replace (Z.max (53 + e - 53) emin - e) with 0 by lia.
  cbn [shr shr_record_of_loc shr_m].
  replace (e <=? emax - prec) with true; [reflexivity|].
  symmetry. apply Z.leb_le. unfold emax, prec. lia.
Qed.

Lemma of_Z_exact (s : bool) (p : positive) :
  Zpos p < 2 ^ 53 ->
  exists m e, of_Z (cond_Zopp s (Zpos p)) = S754_finite s m e
              /\ to_Z (S754_finite s m e) = Some (cond_Zopp s (Zpos p)).
Proof.
  intros Hp.
  pose proof (digits2_bounds p) as [Hlo _].
  assert (Hd : Zpos (digits2_pos p) <= 53).
  { assert (Zpos (digits2_pos p) - 1 < 53); [|lia].
    apply (Z.pow_lt_mono_r_iff 2); lia. }
  assert (Hof : of_Z (cond_Zopp s (Zpos p)) = binary_round prec emax s p 0).
  { destruct s; reflexivity. }
  rewrite Hof. unfold binary_round, shl_align. rewrite fexp_eq.
  destruct (Z.max (Zpos (digits2_pos p) + 0 - 53) emin - 0) as [| k | k] eqn:Hk;
    try (unfold emin in Hk; lia).
  - exists p, 0. split.
    + apply binary_round_aux_exact; unfold emin in *; lia.
    + cbn. now rewrite Z.mul_1_r.
  - exists (Pos.iter xO p k), (Z.max (Zpos (digits2_pos p) + 0 - 53) emin). split.
    + apply binary_round_aux_exact.
      * rewrite digits2_iter_xO. unfold emin in *. lia.
      * unfold emin in *. lia.
    + unfold to_Z.
      replace (0 <=? _) with false by (symmetry; apply Z.leb_gt; unfold emin in *; lia).
      replace (- Z.max (Zpos (digits2_pos p) + 0 - 53) emin) with (Zpos k)
        by (unfold emin in *; lia).
      rewrite iter_xO_mul.
      assert (0 < 2 ^ Zpos k) by (apply Z.pow_pos_nonneg; lia).
      rewrite Z.mod_mul, Z.eqb_refl, Z.div_mul by lia. reflexivity.
Qed.

Lemma round_half_up_nearest (s : bool) (m : positive) (e : Z) :
  nearest_integer s m e (round_half_up s m e).
Proof.
  unfold nearest_integer, round_half_up.
  destruct (0 <=? e) eqn:He.
  - apply Z.leb_le in He.
    rewrite (Z.max_l 0 (- e)), (Z.max_r 0 e) by lia.
    change (2 ^ 0) with 1. lia.
  - apply Z.leb_gt in He.
    rewrite (Z.max_r 0 (- e)), (Z.max_l 0 e) by lia.
    change (2 ^ 0) with 1.
    replace (1 - e) with (Z.succ (- e)) by lia.
    rewrite Z.pow_succ_r by lia.
    set (k := 2 ^ (- e)). set (v := cond_Zopp s (Zpos m)).
    assert (Hk : 0 < k) by (apply Z.pow_pos_nonneg; lia).
    pose proof (Z.mul_div_le (2 * v + k) (2 * k) ltac:(lia)).
    pose proof (Z.mul_succ_div_gt (2 * v + k) (2 * k) ltac:(lia)).
    set (q := (2 * v + k) / (2 * k)) in *. nia.
Qed.

Lemma leb_trans (x y z : number) :
  leb x y = true -> leb y z = true -> leb x z = true.
Proof.
  unfold leb.
  destruct x as [sx | sx | | sx mx ex], y as [sy | sy | | sy my ey],
    z as [sz | sz | | sz mz ez];
    try discriminate;
    try (destruct sx; discriminate); try (destruct sy; discriminate);
    try (destruct sx, sy; discriminate); try (destruct sy, sz; discriminate);
    try (destruct sx, sz; reflexivity);
    try (destruct sx, sy; (discriminate || reflexivity));
    try (destruct sy, sz; (discriminate || reflexivity));
    try (destruct sx, sy, sz; (discriminate || reflexivity));
    try (rewrite ?compare_finite_zero, ?compare_zero_finite;
         destruct sx; try discriminate; destruct sy; try discriminate;
         destruct sz; (discriminate || reflexivity)).
  all: match goal with
       | |- (match compare ?x ?y with _ => _ end) = true ->
            (match compare ?y ?z with _ => _ end) = true -> _ =>
           set (c := Z.min (exponent_or x (exponent_or y (exponent_or z 0)))
                     (Z.min (exponent_or y (exponent_or x (exponent_or z 0)))
                            (exponent_or z (exponent_or x (exponent_or y 0)))));
           rewrite (compare_scaled x y c), (compare_scaled y z c),
             (compare_scaled x z c)
             by (try exact I; subst c; cbn [exponent_or]; lia)
       end.
  all: intros H1 H2;
    repeat match goal with
    | H : (match ?a ?= ?b with _ => _ end) = true |- _ =>
        destruct (Z.compare_spec a b); try discriminate; clear H
    end;
    match goal with
    | |- (match ?a ?= ?b with _ => _ end) = true =>
        destruct (Z.compare_spec a b); try reflexivity; lia
    end.
Qed.

Lemma ltb_irrefl (x : number) : ltb x x = false.
Proof.
  unfold ltb. pose proof (compare_antisym x x) as H.
  destruct (compare x x) as [[]|]; try reflexivity. discriminate.
Qed.

Lemma or_zero_wf (x : number) : is_double x -> wf (or_zero x).
Proof.
  intros H. unfold or_zero. destruct (truthy x); [now apply is_double_wf | exact I].
Qed.

End JSNumber.

(* ================================================================== *)
(** * rate-combiner.server.ts: formatting *)
(* ================================================================== *)
Module RateFormat.
Import JSNumber.

(** The part of [CombinedRate] that [formatRateForShopify] turns into the
    price and the service code. *)
Record PricedRate := {
  pr_carrierCode : string;
  pr_totalCharge : number;
}.

(** [Math.max(0, Math.round(rate.totalCharge * 100))] *)
Definition minor_units (totalCharge : number) : number :=
  Math_max zero (Math_round (mul totalCharge (of_Z 100))).

Record ShopifyRate := {
  service_code : string;
  total_price : option string;
  currency : string;
}.

(** [formatRateForShopify]: the service code, the price and the currency
    of the returned object ([service_name] and [description] do not enter
    the price). *)
Definition formatRateForShopify (rate : PricedRate) (currency : string)
  : ShopifyRate :=
  {| service_code := "INGRAM_" ++ pr_carrierCode rate;
     total_price := toString (minor_units (pr_totalCharge rate));
     currency := currency |}.

(** The binary64 value of the literal [19.995]. *)
Definition charge_19_995 : number :=
  S754_finite false 5628092159329567 (-48).

(** [19.995] is the quotient [19995 / 1000], correctly rounded. *)
Lemma charge_19_995_literal : div (of_Z 19995) (of_Z 1000) = charge_19_995.
Proof. vm_compute. reflexivity. Qed.

Lemma minor_units_string (p : number) (s : bool) (m : positive) (e : Z) :
  p = S754_finite s m e ->
  Z.max 0 (round_half_up s m e) < 2 ^ 53 ->
  toString (Math_max zero (Math_round p))
  = Some (decimal (Z.max 0 (round_half_up s m e))).
Proof.
  intros -> Hb. unfold Math_round, round_half_up in *.
  destruct (0 <=? e) eqn:He.
  - (* an integer already *)
    apply Z.leb_le in He.
    assert (0 < 2 ^ e) by (apply Z.pow_pos_nonneg; lia).
    unfold Math_max, zero. rewrite compare_zero_finite.
    destruct s; cbn [cond_Zopp] in *.
    + rewrite Z.max_l by nia. reflexivity.
    + rewrite Z.max_r in * by nia.
      unfold toString, to_Z. apply Z.leb_le in He. rewrite He.
      cbn [cond_Zopp].
      replace (Z.abs (Zpos m * 2 ^ e) <=? 2 ^ 53) with true; [reflexivity|].
      symmetry. apply Z.leb_le. lia.
  - set (n := (2 * cond_Zopp s (Zpos m) + 2 ^ (- e)) / 2 ^ (1 - e)) in *.
    destruct (n =? 0) eqn:Hn.
    + apply Z.eqb_eq in Hn. rewrite Hn. destruct s; reflexivity.
    + apply Z.eqb_neq in Hn. destruct n as [| q | q]; [lia | |].
      * destruct (of_Z_exact false q) as (m' & e' & Hof & Hz); [lia|].
        cbn [cond_Zopp] in Hof, Hz. rewrite Hof.
        unfold Math_max, zero. rewrite compare_zero_finite.
        unfold toString. rewrite Hz.
        replace (Z.abs (Zpos q) <=? 2 ^ 53) with true
          by (symmetry; apply Z.leb_le; lia).
        now rewrite Z.max_r by lia.
      * rewrite Z.max_l by lia.
        pose proof (binary_normalize_shape (Zneg q) 0 false) as Hs.
        cbn beta iota in Hs. unfold of_Z.
        destruct Hs as [(m' & e' & -> & _) | ->]; [unfold emin; lia | |].
        -- unfold Math_max, zero. rewrite compare_zero_finite. reflexivity.
        -- reflexivity.
Qed.

(** C8. [formatRateForShopify] prices a rate at the integer nearest to the
    binary64 product [totalCharge * 100] (ties going up), floored at zero,
    printed in decimal; the charge [19.995] is priced ["2000"]. *)
Theorem formatRateForShopify_total_price :
  (forall (rate : PricedRate) (cur : string) (s : bool) (m : positive) (e : Z),
      mul (pr_totalCharge rate) (of_Z 100) = S754_finite s m e ->
      Z.max 0 (round_half_up s m e) < 2 ^ 53 ->
      nearest_integer s m e (round_half_up s m e) /\
      total_price (formatRateForShopify rate cur)
      = Some (decimal (Z.max 0 (round_half_up s m e))))
  /\ total_price (formatRateForShopify
                    {| pr_carrierCode := "UPS"; pr_totalCharge := charge_19_995 |}
                    "USD")
     = Some "2000"%string.
Proof.
  split; [|vm_compute; reflexivity].
  intros rate cur s m e Hp Hb. split.
  - apply round_half_up_nearest.
  - cbn [formatRateForShopify total_price]. unfold minor_units.
    now apply minor_units_string.
Qed.

Lemma formatRateForShopify_total_price_witness :
  nearest_integer false 8793893998952448 (-42)
    (round_half_up false 8793893998952448 (-42)) /\
  total_price (formatRateForShopify
                 {| pr_carrierCode := "UPS"; pr_totalCharge := charge_19_995 |}
                 "USD")
  = Some (decimal (Z.max 0 (round_half_up false 8793893998952448 (-42)))).
Proof.
  apply (proj1 formatRateForShopify_total_price
           {| pr_carrierCode := "UPS"; pr_totalCharge := charge_19_995 |}
           "USD"%string false 8793893998952448%positive (-42)).
  - vm_compute. reflexivity.
  - vm_compute. reflexivity.
Defined.

End RateFormat.

(* ================================================================== *)
(** * JavaScript [Set] of strings: members in insertion order *)
(* ================================================================== *)
Module JSSet.

Definition t := list string.

(** [Set.prototype.add]: a member already present stays where it is, a new
    one goes to the back. *)
Definition add (x : string) (s : t) : t :=
  if in_dec string_dec x s then s else (s ++ [x])%list.

(** The set a sequence of [add]s builds: its distinct members, each at its
    first occurrence. *)
Definition add_all (xs : list string) (s : t) : t :=
  fold_left (fun acc x => add x acc) xs s.

Definition of_list (xs : list string) : t := add_all xs [].

Definition size (s : t) : Z := Z.of_nat (List.length s).

Lemma In_add x y s : In y (add x s) <-> y = x \/ In y s.
Proof.
  unfold add. destruct (in_dec string_dec x s) as [Hin | Hin].
  - split; [auto | intros [-> | H]; auto].
  - rewrite in_app_iff. cbn. split; intros H.
    + destruct H as [H | [H | []]]; auto.
    + destruct H as [H | H]; auto.
Qed.

Lemma NoDup_add x s : NoDup s -> NoDup (add x s).
Proof.
  unfold add. intros Hnd. destruct (in_dec string_dec x s) as [Hin | Hin].
  - assumption.
  - apply NoDup_app; [assumption | repeat constructor; intros [] |].
    intros y Hy [<- | []]. contradiction.
Qed.

Lemma In_add_all xs : forall s y, In y (add_all xs s) <-> In y xs \/ In y s.
Proof.
  induction xs as [| x xs IH]; intros s y; cbn.
  - tauto.
  - unfold add_all in IH. rewrite IH, In_add. split; intros H.
    + destruct H as [H | [H | H]]; auto.
    + destruct H as [[H | H] | H]; auto.
Qed.

Lemma NoDup_add_all xs : forall s, NoDup s -> NoDup (add_all xs s).
Proof.
  induction xs as [| x xs IH]; intros s Hs; cbn; [assumption|].
  apply IH. now apply NoDup_add.
Qed.

Lemma In_of_list xs y : In y (of_list xs) <-> In y xs.
Proof. unfold of_list. rewrite In_add_all. cbn. tauto. Qed.

Lemma NoDup_of_list xs : NoDup (of_list xs).
Proof. apply NoDup_add_all. constructor. Qed.

End JSSet.

(* ================================================================== *)
(** * JavaScript [Map]: keys in insertion order

    A [Map] iterates its keys in the order of their first insertion;
    [set] on a key already present replaces the value where the key
    stands.  Keys are strings throughout the embedded code. *)
(* ================================================================== *)
Module JSMap.
Section Map.
Context {V : Type}.

Definition t := list (string * V).

Definition empty : t := [].

Fixpoint get (k : string) (m : t) : option V :=
  match m with
  | [] => None
  | (k', v) :: m' => if String.eqb k k' then Some v else get k m'
  end.

Definition has (k : string) (m : t) : bool :=
  match get k m with Some _ => true | None => false end.

Fixpoint set (k : string) (v : V) (m : t) : t :=
  match m with
  | [] => [(k, v)]
  | (k', v') :: m' =>
      if String.eqb k k' then (k', v) :: m' else (k', v') :: set k v m'
  end.

Fixpoint delete (k : string) (m : t) : t :=
  match m with
  | [] => []
  | (k', v') :: m' =>
      if String.eqb k k' then m' else (k', v') :: delete k m'
  end.

Definition keys (m : t) : list string := map fst m.

Definition size (m : t) : Z := Z.of_nat (List.length m).

(** [m.set(k, f(m.get(k)))] *)
Definition update (k : string) (f : option V -> V) (m : t) : t :=
  set k (f (get k m)) m.

End Map.
Arguments t : clear implicits.

Section MapFacts.
Context {V : Type}.
Implicit Types (m : JSMap.t V) (k : string) (v : V).

Lemma get_set_same m k v : get k (set k v m) = Some v.
Proof.
  induction m as [| [k' v'] m IH]; cbn.
  - now rewrite String.eqb_refl.
  - destruct (String.eqb k k') eqn:E; cbn; rewrite E; auto.
Qed.

Lemma get_set_other m k k' v : k' <> k -> get k' (set k v m) = get k' m.
Proof.
  intros Hne. induction m as [| [k0 v0] m IH]; cbn.
  - apply String.eqb_neq in Hne. now rewrite Hne.
  - destruct (String.eqb k k0) eqn:E; cbn.
    + apply String.eqb_eq in E. subst k0.
      apply String.eqb_neq in Hne. now rewrite Hne.
    + now rewrite IH.
Qed.

Lemma get_In_keys m k : get k m <> None <-> In k (keys m).
Proof.
  induction m as [| [k' v'] m IH]; cbn.
  - tauto.
  - destruct (String.eqb k k') eqn:E.
    + apply String.eqb_eq in E. subst. split; [auto | discriminate].
    + apply String.eqb_neq in E. rewrite IH. split; [auto|].
      intros [H|H]; [congruence | exact H].
Qed.

Lemma get_None_keys m k : get k m = None <-> ~ In k (keys m).
Proof.
  rewrite <- get_In_keys. destruct (get k m); split; intros H.
  - discriminate.
  - exfalso. apply H. discriminate.
  - intros H'. now apply H'.
  - reflexivity.
Qed.

Lemma keys_set_present m k v : In k (keys m) -> keys (set k v m) = keys m.
Proof.
  induction m as [| [k' v'] m IH]; cbn; [tauto|].
  intros H. destruct (String.eqb k k') eqn:E; [reflexivity|].
  cbn. f_equal. apply IH. apply String.eqb_neq in E.
  destruct H; [congruence | assumption].
Qed.

Lemma keys_set_absent m k v :
  ~ In k (keys m) -> keys (set k v m) = (keys m ++ [k])%list.
Proof.
  induction m as [| [k' v'] m IH]; cbn; [reflexivity|].
  intros H. destruct (String.eqb k k') eqn:E.
  - apply String.eqb_eq in E. subst. tauto.
  - cbn. f_equal. apply IH. tauto.
Qed.

Lemma keys_set m k v : keys (set k v m) = JSSet.add k (keys m).
Proof.
  unfold JSSet.add. destruct (in_dec string_dec k (keys m)).
  - now apply keys_set_present.
  - now apply keys_set_absent.
Qed.

Lemma set_not_nil m k v : set k v m <> [].
Proof.
  destruct m as [| [k' v'] m]; cbn; [discriminate|].
  destruct (String.eqb k k'); discriminate.
Qed.

Lemma delete_head k v m : delete k ((k, v) :: m) = m.
Proof. cbn. now rewrite String.eqb_refl. Qed.

Lemma get_delete_same m k : NoDup (keys m) -> get k (delete k m) = None.
Proof.
  induction m as [| [k' v'] m IH]; cbn; [reflexivity|].
  intros Hnd. inversion Hnd as [| ? ? Hnot Hnd']; subst.
  destruct (String.eqb k k') eqn:E.
  - apply String.eqb_eq in E. subst. now apply get_None_keys.
  - cbn. rewrite E. now apply IH.
Qed.

Lemma get_delete_other m k k' : k' <> k -> get k' (delete k m) = get k' m.
Proof.
  intros Hne. induction m as [| [k0 v0] m IH]; cbn; [reflexivity|].
  destruct (String.eqb k k0) eqn:E.
  - apply String.eqb_eq in E. subst k0.
    apply String.eqb_neq in Hne. now rewrite Hne.
  - cbn. now rewrite IH.
Qed.

Lemma keys_delete_incl m k : incl (keys (delete k m)) (keys m).
Proof.
  induction m as [| [k0 v0] m IH]; cbn; [apply incl_refl|].
  destruct (String.eqb k k0).
  - apply incl_tl, incl_refl.
  - cbn. intros x [H|H]; [now left | right; now apply IH].
Qed.

Lemma NoDup_keys_delete m k : NoDup (keys m) -> NoDup (keys (delete k m)).
Proof.
  induction m as [| [k0 v0] m IH]; cbn; [auto|].
  intros Hnd. inversion Hnd as [| ? ? Hnot Hnd']; subst.
  destruct (String.eqb k k0); [assumption|].
  cbn. constructor; [|auto].
  intros Hin. apply Hnot. now apply (keys_delete_incl m k).
Qed.

Lemma NoDup_keys_set m k v : NoDup (keys m) -> NoDup (keys (set k v m)).
Proof.
  intros Hnd. destruct (in_dec string_dec k (keys m)) as [Hin | Hin].
  - now rewrite keys_set_present.
  - rewrite keys_set_absent by assumption.
    apply NoDup_app; [assumption | repeat constructor; intros [] |].
    intros x Hx [<- | []]. contradiction.
Qed.

Lemma set_get_id m k v : get k m = Some v -> set k v m = m.
Proof.
  induction m as [| [k' v'] m IH]; cbn; [discriminate|].
  destruct (String.eqb k k') eqn:E.
  - intros [= ->]. reflexivity.
  - intros H. now rewrite IH.
Qed.

Lemma set_set m k v v' : set k v (set k v' m) = set k v m.
Proof.
  induction m as [| [k0 v0] m IH]; cbn.
  - now rewrite String.eqb_refl.
  - destruct (String.eqb k k0) eqn:E; cbn; rewrite E; [reflexivity|].
    now rewrite IH.
Qed.

Lemma get_update_same m k f : get k (update k f m) = Some (f (get k m)).
Proof. apply get_set_same. Qed.

Lemma get_update_other m k k' f : k' <> k -> get k' (update k f m) = get k' m.
Proof. apply get_set_other. Qed.

Lemma In_get m k v : NoDup (keys m) -> (In (k, v) m <-> get k m = Some v).
Proof.
  induction m as [| [k' v'] m IH]; cbn; intros Hnd.
  - split; [tauto | discriminate].
  - inversion Hnd as [| ? ? Hnot Hnd']; subst.
    destruct (String.eqb k k') eqn:E.
    + apply String.eqb_eq in E. subst k'. split.
      * intros [[= ->] | Hin]; [reflexivity|].
        exfalso. apply Hnot. change k with (fst (k, v)). now apply in_map.
      * intros [= ->]. now left.
    + apply String.eqb_neq in E. rewrite <- IH by assumption. split.
      * intros [[= -> ->] | Hin]; [congruence | assumption].
      * auto.
Qed.

(** A map is the list of its keys, each with the value [get] finds. *)
Lemma map_keys_get m (f : string -> V) :
  NoDup (keys m) ->
  (forall k, In k (keys m) -> get k m = Some (f k)) ->
  m = map (fun k => (k, f k)) (keys m).
Proof.
  induction m as [| [k v] m IH]; cbn; intros Hnd Hf; [reflexivity|].
  inversion Hnd as [| ? ? Hnot Hnd']; subst.
  f_equal.
  - specialize (Hf k (or_introl eq_refl)). rewrite String.eqb_refl in Hf.
    congruence.
  - apply IH; [assumption|]. intros k' Hk'.
    specialize (Hf k' (or_intror Hk')).
    destruct (String.eqb k' k) eqn:E; [|assumption].
    apply String.eqb_eq in E. subst. contradiction.
Qed.

Section FoldUpdate.
Context {X : Type} (upd : X -> option V -> V).

Definition apply_updates (es : list (string * X)) (m : JSMap.t V) : JSMap.t V :=
  fold_left (fun acc e => update (fst e) (upd (snd e)) acc) es m.

Definition for_key (k : string) (es : list (string * X)) : list X :=
  map snd (filter (fun e => String.eqb (fst e) k) es).

Lemma get_apply_updates k es : forall m,
  get k (apply_updates es m)
  = fold_left (fun s x => Some (upd x s)) (for_key k es) (get k m).
Proof.
  induction es as [| [k' x] es IH]; intros m; cbn; [reflexivity|].
  unfold apply_updates in IH. rewrite IH.
  destruct (String.eqb k' k) eqn:E; cbn.
  - apply String.eqb_eq in E. subst. now rewrite get_update_same.
  - apply String.eqb_neq in E. rewrite get_update_other by congruence.
    reflexivity.
Qed.

Lemma keys_apply_updates es : forall m,
  keys (apply_updates es m) = JSSet.add_all (map fst es) (keys m).
Proof.
  induction es as [| [k' x] es IH]; intros m; [reflexivity|].
  change (apply_updates ((k', x) :: es) m)
    with (apply_updates es (update k' (upd x) m)).
  change (JSSet.add_all (map fst ((k', x) :: es)) (keys m))
    with (JSSet.add_all (map fst es) (JSSet.add k' (keys m))).
  rewrite IH. unfold update. now rewrite keys_set.
Qed.

End FoldUpdate.
End MapFacts.

End JSMap.

(* ================================================================== *)
(** * utils/ttl-cache.server.ts

    [Date.now()] is the argument [now] (milliseconds). *)
(* ================================================================== *)
Module TtlCache.
Section Cache.
Context {V : Type}.

Record CacheEntry := {
  value : V;
  expiresAt : Z;
}.

(** The closure [createTtlCache] returns: its options and its [store]. *)
Record cache := {
  ttlMs : Z;
  maxEntries : Z;
  store : JSMap.t CacheEntry;
}.

(** [createTtlCache({ ttlMs, maxEntries = 500 })] *)
Definition createTtlCache (ttl : Z) (maxEntries : option Z) : cache :=
  {| ttlMs := ttl;
     maxEntries := match maxEntries with Some n => n | None => 500 end;
     store := JSMap.empty |}.

Definition with_store (c : cache) (s : JSMap.t CacheEntry) : cache :=
  {| ttlMs := ttlMs c; maxEntries := maxEntries c; store := s |}.

(** [get(key)]: the value, if present and not expired; an expired entry is
    deleted. *)
Definition get (now : Z) (key : string) (c : cache) : option V * cache :=
  match JSMap.get key (store c) with
  | None => (None, c)
  | Some entry =>
      if expiresAt entry <=? now
      then (None, with_store c (JSMap.delete key (store c)))
      else (Some (value entry), c)
  end.

(** [set(key, value, customTtlMs)] *)
Definition set (now : Z) (key : string) (v : V) (customTtlMs : option Z)
    (c : cache) : cache :=
  let expires :=
    now + match customTtlMs with Some t => t | None => ttlMs c end in
  let store1 := JSMap.set key {| value := v; expiresAt := expires |} (store c) in
  if JSMap.size store1 >? maxEntries c then
    match JSMap.keys store1 with
    | oldestKey :: _ => with_store c (JSMap.delete oldestKey store1)
    | [] => with_store c store1
    end
  else with_store c store1.

Definition deleteKey (key : string) (c : cache) : cache :=
  with_store c (JSMap.delete key (store c)).

Definition size (c : cache) : Z := JSMap.size (store c).

Definition keys (c : cache) : list string := JSMap.keys (store c).

(** The insertion order after [store.set(key, _)]: a key already present
    stays where it is, a new key goes to the back. *)
Definition keys_after_insert (key : string) (ks : list string) : list string :=
  JSSet.add key ks.

End Cache.
Arguments CacheEntry : clear implicits.
Arguments cache : clear implicits.

Section CacheFacts.
Context {V : Type}.
Implicit Types (c : cache V) (k : string) (v : V).

Lemma keys_set_insert (m : JSMap.t (CacheEntry V)) k (e : CacheEntry V) :
  JSMap.keys (JSMap.set k e m) = keys_after_insert k (JSMap.keys m).
Proof.
  apply JSMap.keys_set.
Qed.

Lemma set_store c now k v ttl :
  store (set now k v ttl c) =
  let store1 :=
    JSMap.set k {| value := v;
                   expiresAt := now + match ttl with
                                      | Some t => t
                                      | None => ttlMs c
                                      end |} (store c) in
  if JSMap.size store1 >? maxEntries c then tl store1 else store1.
Proof.
  unfold set. cbv zeta.
  set (store1 := JSMap.set k _ (store c)).
  destruct (JSMap.size store1 >? maxEntries c); [|reflexivity].
  destruct store1 as [| [k0 e0] rest] eqn:E.
  - reflexivity.
  - cbn [JSMap.keys map fst with_store store tl]. apply JSMap.delete_head.
Qed.

(** C5, as the code has it.  A [set] inserts the key in insertion order (a
    key already present keeps its place, a new key goes to the back) and,
    when the entry count then exceeds [maxEntries], evicts exactly the
    first key of that order, the oldest-inserted one, and nothing else. *)
Theorem set_evicts_oldest_inserted c now k v ttl :
  let entry := {| value := v;
                  expiresAt := now + match ttl with
                                     | Some t => t
                                     | None => ttlMs c
                                     end |} in
  let store1 := JSMap.set k entry (store c) in
  let order := keys_after_insert k (keys c) in
  JSMap.keys store1 = order
  /\ store (set now k v ttl c)
     = (if JSMap.size store1 >? maxEntries c then tl store1 else store1)
  /\ keys (set now k v ttl c)
     = (if Z.of_nat (List.length order) >? maxEntries c then tl order else order).
Proof.
  cbv zeta. split; [apply keys_set_insert|]. split; [apply set_store|].
  unfold keys. rewrite set_store. cbv zeta.
  rewrite <- keys_set_insert with (e := {| value := v; expiresAt := now + match ttl with Some t => t | None => ttlMs c end |}).
  unfold JSMap.size, JSMap.keys. rewrite length_map.
  destruct (_ >? _); [|reflexivity].
  now destruct (JSMap.set _ _ _).
Qed.

End CacheFacts.

Section CacheFacts2.
Context {V : Type}.
Implicit Types (c : cache V) (k : string) (v : V).

Lemma NoDup_tl {A : Type} (l : list A) : NoDup l -> NoDup (tl l).
Proof. destruct l; cbn; [auto | now inversion 1]. Qed.

Lemma keys_tl (m : JSMap.t (CacheEntry V)) : JSMap.keys (tl m) = tl (JSMap.keys m).
Proof. now destruct m. Qed.

Lemma set_NoDup c now k v ttl : NoDup (keys c) -> NoDup (keys (set now k v ttl c)).
Proof.
  intros Hnd. unfold keys. rewrite set_store. cbv zeta.
  destruct (_ >? _).
  - rewrite keys_tl. apply NoDup_tl. now apply JSMap.NoDup_keys_set.
  - now apply JSMap.NoDup_keys_set.
Qed.

Lemma get_tl (m : JSMap.t (CacheEntry V)) k :
  NoDup (JSMap.keys m) ->
  JSMap.get k (tl m) = JSMap.get k m \/ JSMap.get k (tl m) = None.
Proof.
  destruct m as [| [k0 e0] m]; cbn; [auto|]. intros Hnd.
  inversion Hnd as [| ? ? Hnot _]; subst.
  destruct (String.eqb k k0) eqn:E; [|auto].
  apply String.eqb_eq in E. subst. right. now apply JSMap.get_None_keys.
Qed.

(** After [set(k, v, ttl)] the key holds the new entry, unless the size
    bound evicted it at once. *)
Lemma cache_get_set_same c now k v ttl :
  NoDup (keys c) ->
  let e := {| value := v;
              expiresAt := now + match ttl with Some t => t | None => ttlMs c end |} in
  JSMap.get k (store (set now k v ttl c)) = Some e
  \/ JSMap.get k (store (set now k v ttl c)) = None.
Proof.
  intros Hnd. cbv zeta. rewrite set_store. cbv zeta.
  set (e := {| value := v; expiresAt := _ |}).
  destruct (_ >? _).
  - destruct (get_tl (JSMap.set k e (store c)) k) as [H | H].
    + now apply JSMap.NoDup_keys_set.
    + left. rewrite H. apply JSMap.get_set_same.
    + now right.
  - left. apply JSMap.get_set_same.
Qed.

(** Another key keeps its entry, unless the size bound evicted it. *)
Lemma cache_get_set_other c now k k' v ttl :
  NoDup (keys c) -> k' <> k ->
  JSMap.get k' (store (set now k v ttl c)) = JSMap.get k' (store c)
  \/ JSMap.get k' (store (set now k v ttl c)) = None.
Proof.
  intros Hnd Hne. rewrite set_store. cbv zeta.
  set (e := {| value := v; expiresAt := _ |}).
  destruct (_ >? _).
  - destruct (get_tl (JSMap.set k e (store c)) k') as [H | H].
    + now apply JSMap.NoDup_keys_set.
    + left. rewrite H. now apply JSMap.get_set_other.
    + now right.
  - left. now apply JSMap.get_set_other.
Qed.

(** Below the size bound, [set] is the map's [set]. *)
Lemma set_within_bound c now k v ttl :
  Z.of_nat (List.length (JSSet.add k (keys c))) <= maxEntries c ->
  store (set now k v ttl c)
  = JSMap.set k {| value := v;
                   expiresAt := now + match ttl with
                                      | Some t => t
                                      | None => ttlMs c
                                      end |} (store c).
Proof.
  intros Hb. rewrite set_store. cbv zeta.
  set (e := {| value := v; expiresAt := _ |}).
  replace (JSMap.size (JSMap.set k e (store c)) >? maxEntries c) with false;
    [reflexivity|].
  symmetry. rewrite Z.gtb_ltb. apply Z.ltb_ge.
  unfold JSMap.size. rewrite <- (length_map fst).
  change (map fst (JSMap.set k e (store c))) with (JSMap.keys (JSMap.set k e (store c))).
  now rewrite JSMap.keys_set.
Qed.

Lemma set_options c now k v ttl :
  ttlMs (set now k v ttl c) = ttlMs c /\ maxEntries (set now k v ttl c) = maxEntries c.
Proof.
  unfold set. cbv zeta. destruct (_ >? _); [|split; reflexivity].
  destruct (JSMap.keys _); split; reflexivity.
Qed.

Lemma get_NoDup c now k : NoDup (keys c) -> NoDup (keys (snd (get now k c))).
Proof.
  intros Hnd. unfold get. destruct (JSMap.get k (store c)) as [e |]; [|assumption].
  destruct (expiresAt e <=? now); [|assumption].
  cbn. now apply JSMap.NoDup_keys_delete.
Qed.

Lemma get_options c now k :
  ttlMs (snd (get now k c)) = ttlMs c /\ maxEntries (snd (get now k c)) = maxEntries c.
Proof.
  unfold get. destruct (JSMap.get k (store c)) as [e |]; [|split; reflexivity].
  destruct (expiresAt e <=? now); split; reflexivity.
Qed.

(** [c] is [c0] but for entries expired at [now], which may be gone. *)
Definition pruned (now : Z) (c0 c : cache V) : Prop :=
  NoDup (keys c)
  /\ ttlMs c = ttlMs c0 /\ maxEntries c = maxEntries c0
  /\ incl (keys c) (keys c0)
  /\ forall k,
      JSMap.get k (store c) = JSMap.get k (store c0)
      \/ (JSMap.get k (store c) = None
          /\ exists e, JSMap.get k (store c0) = Some e /\ expiresAt e <= now).

Lemma pruned_refl now c : NoDup (keys c) -> pruned now c c.
Proof. intros H. repeat split; auto. apply incl_refl. Qed.

(** A read answers the same on a pruned cache, and leaves it pruned. *)
Lemma get_pruned now c0 c k :
  pruned now c0 c ->
  fst (get now k c) = fst (get now k c0) /\ pruned now c0 (snd (get now k c)).
Proof.
  intros (Hnd & Ht & Hm & Hincl & Hget). split.
  - unfold get. destruct (Hget k) as [H | (H & e & He & Hexp)].
    + rewrite H. destruct (JSMap.get k (store c0)) as [e |]; [|reflexivity].
      now destruct (expiresAt e <=? now).
    + rewrite H, He. apply Z.leb_le in Hexp. now rewrite Hexp.
  - unfold get. destruct (JSMap.get k (store c)) as [e |] eqn:Hk;
      [|repeat split; assumption].
    destruct (expiresAt e <=? now) eqn:Hexp; [|repeat split; assumption].
    cbn [snd]. unfold pruned, keys. cbn [store ttlMs maxEntries with_store].
    split; [now apply JSMap.NoDup_keys_delete|].
    split; [assumption|]. split; [assumption|]. split.
    + intros x Hx. apply Hincl. now apply (JSMap.keys_delete_incl (store c) k).
    + intros k'. destruct (string_dec k' k) as [-> | Hne].
      * right. split; [now apply JSMap.get_delete_same|].
        destruct (Hget k) as [H | (H & _)]; [|congruence].
        exists e. split; [congruence | now apply Z.leb_le].
      * rewrite JSMap.get_delete_other by assumption. apply Hget.
Qed.

End CacheFacts2.

(** C5, the claim as stated fails: with [maxEntries = 2], setting [a], [b]
    and [a] again leaves [a] first in the insertion order, not at the back,
    and the next insertion evicts [a], not [b]. *)
Lemma reinserted_key_stays_oldest :
  let c0 := createTtlCache (V := nat) 1000 (Some 2) in
  let c3 := set 3 "a" 30%nat None (set 2 "b" 20%nat None (set 1 "a" 10%nat None c0)) in
  keys c3 = ["a"; "b"]%string
  /\ keys (set 4 "c" 40%nat None c3) = ["b"; "c"]%string
  /\ fst (get 5 "a" (set 4 "c" 40%nat None c3)) = None.
Proof. vm_compute. repeat split. Qed.

End TtlCache.

(* ================================================================== *)
(** * JavaScript strings

    Strings are byte strings.  [trim] removes the ASCII white space and
    line terminators (tab, line feed, vertical tab, form feed, carriage
    return, space); the case mappings act on the ASCII letters. *)
(* ================================================================== *)
Module JSString.
Local Open Scope string_scope.

Definition is_space (a : ascii) : bool :=
  let n := nat_of_ascii a in
  ((9 <=? n) && (n <=? 13) || (n =? 32))%nat.

Fixpoint trimStart (s : string) : string :=
  match s with
  | String a r => if is_space a then trimStart r else s
  | EmptyString => EmptyString
  end.

Fixpoint trimEnd (s : string) : string :=
  match s with
  | String a r =>
      match trimEnd r with
      | EmptyString => if is_space a then EmptyString else String a EmptyString
      | r' => String a r'
      end
  | EmptyString => EmptyString
  end.

Definition trim (s : string) : string := trimEnd (trimStart s).

Definition lower (a : ascii) : ascii :=
  let n := nat_of_ascii a in
  if ((65 <=? n) && (n <=? 90))%nat then ascii_of_nat (n + 32) else a.

Definition upper (a : ascii) : ascii :=
  let n := nat_of_ascii a in
  if ((97 <=? n) && (n <=? 122))%nat then ascii_of_nat (n - 32) else a.

Fixpoint map_chars (f : ascii -> ascii) (s : string) : string :=
  match s with
  | String a r => String (f a) (map_chars f r)
  | EmptyString => EmptyString
  end.

Definition toLowerCase : string -> string := map_chars lower.
Definition toUpperCase : string -> string := map_chars upper.

(** Truthiness of a string: only the empty string is falsy. *)
Definition truthy (s : string) : bool := negb (String.eqb s "").

(** [s?.trim() || ""] for a field that may be absent. *)
Definition trim_or_empty (s : option string) : string :=
  match s with
  | Some x => trim x
  | None => ""
  end.

(** [a || b] on strings. *)
Definition or_else (a b : string) : string := if truthy a then a else b.

(** [Array.prototype.join] *)
Fixpoint join (sep : string) (l : list string) : string :=
  match l with
  | [] => ""
  | [x] => x
  | x :: rest => x ++ sep ++ join sep rest
  end.

(** ** Facts about concatenation and order *)

Lemma length_append (a b : string) :
  String.length (a ++ b) = (String.length a + String.length b)%nat.
Proof. induction a as [| x a IH]; cbn; [reflexivity | now rewrite IH]. Qed.

Lemma append_cancel_l (a b c : string) : (a ++ b = a ++ c)%string -> b = c.
Proof. induction a as [| x a IH]; cbn; [auto | intros [= H]; auto]. Qed.

Lemma append_cancel_r (a b c : string) : (a ++ c = b ++ c)%string -> a = b.
Proof.
  revert b. induction a as [| x a IH]; intros [| y b] H; cbn in H.
  - reflexivity.
  - apply (f_equal String.length) in H. cbn in H. rewrite length_append in H. lia.
  - apply (f_equal String.length) in H. cbn in H. rewrite length_append in H. lia.
  - injection H as -> H. f_equal. now apply IH.
Qed.

Lemma append_assoc (a b c : string) : ((a ++ b) ++ c = a ++ (b ++ c))%string.
Proof. induction a as [| x a IH]; cbn; [reflexivity | now rewrite IH]. Qed.

(** Changing the middle of a string changes the string. *)
Lemma append_middle (a b b' c : string) :
  (a ++ b ++ c = a ++ b' ++ c)%string <-> b = b'.
Proof.
  split.
  - intros H. apply append_cancel_l in H. now apply append_cancel_r in H.
  - now intros ->.
Qed.

Lemma string_leb_trans (a b c : string) :
  String.leb a b = true -> String.leb b c = true -> String.leb a c = true.
Proof.
  unfold String.leb.
  change (String.compare a b) with (String_as_OT.compare a b).
  change (String.compare b c) with (String_as_OT.compare b c).
  change (String.compare a c) with (String_as_OT.compare a c).
  destruct (String_as_OT.compare_spec a b) as [Hab | Hab | Hab]; try discriminate;
    intros _.
  - now rewrite Hab.
  - destruct (String_as_OT.compare_spec b c) as [Hbc | Hbc | Hbc]; try discriminate;
      intros _.
    + rewrite <- Hbc. unfold String_as_OT.lt in Hab. now rewrite Hab.
    + assert (H : String_as_OT.lt a c) by (etransitivity; eassumption).
      unfold String_as_OT.lt in H. now rewrite H.
Qed.

Lemma string_ltb_leb (a b : string) : String.ltb a b = true -> String.leb a b = true.
Proof. unfold String.ltb, String.leb. now destruct (String.compare a b). Qed.

Lemma string_ltb_false_leb (a b : string) : String.ltb b a = false -> String.leb a b = true.
Proof.
  unfold String.ltb, String.leb. rewrite (String.compare_antisym a b).
  now destruct (String.compare b a).
Qed.

Lemma append_nil_r (a : string) : (a ++ "")%string = a.
Proof. induction a as [| x a IH]; cbn; [reflexivity | now rewrite IH]. Qed.

(** The concatenation of a list of pieces. *)
Definition concat (l : list string) : string := fold_right String.append ""%string l.

Lemma concat_app (l1 l2 : list string) :
  concat (l1 ++ l2) = (concat l1 ++ concat l2)%string.
Proof.
  induction l1 as [| x l1 IH]; cbn; [reflexivity|].
  fold (concat (l1 ++ l2)). fold (concat l1). now rewrite IH, append_assoc.
Qed.

(** Changing one piece changes the concatenation. *)
Lemma concat_middle (l1 : list string) (x y : string) (l2 : list string) :
  concat (l1 ++ x :: l2) = concat (l1 ++ y :: l2) <-> x = y.
Proof.
  rewrite !concat_app. cbn. fold (concat l2). apply append_middle.
Qed.

End JSString.

(* ================================================================== *)
(** * [Array.prototype.sort] with a comparator

    The sort is stable, and on an array whose elements the comparator
    orders consistently its result is the one stable sorted arrangement,
    which insertion from the right computes.  [gt a b] stands for
    [compareFn(a, b) > 0]. *)
(* ================================================================== *)
Module JSArray.
Section Sort.
Context {A : Type} (gt : A -> A -> bool).

Fixpoint insert (x : A) (l : list A) : list A :=
  match l with
  | [] => [x]
  | y :: l' => if gt x y then y :: insert x l' else x :: l
  end.

Definition sort (l : list A) : list A := fold_right insert [] l.

End Sort.

Section SortFacts.
Context {A : Type} (gt : A -> A -> bool).

Lemma insert_perm (x : A) (l : list A) :
  Permutation (insert gt x l) (x :: l).
Proof.
  induction l as [| y l IH]; cbn; [reflexivity|].
  destruct (gt x y); [|reflexivity].
  rewrite IH. apply perm_swap.
Qed.

Lemma sort_perm (l : list A) : Permutation (sort gt l) l.
Proof.
  induction l as [| x l IH]; cbn; [reflexivity|].
  rewrite insert_perm. now constructor.
Qed.

Lemma In_sort (x : A) (l : list A) : In x (sort gt l) <-> In x l.
Proof.
  split; apply Permutation_in; [|symmetry]; apply sort_perm.
Qed.

(** When, on the elements that occur, [gt] is the strict part of a total
    preorder [le], the sort leaves the array in [le]-order. *)
Lemma insert_sorted (le : A -> A -> Prop) (P : A -> Prop) (x : A) (l : list A) :
  (forall a b, P a -> P b -> gt a b = true -> le b a) ->
  (forall a b, P a -> P b -> gt a b = false -> le a b) ->
  P x -> Forall P l -> Sorted le l -> Sorted le (insert gt x l).
Proof.
  intros Hgt Hle Hx Hl Hs. induction l as [| y l IH]; cbn.
  - repeat constructor.
  - inversion Hl as [| ? ? Hy Hl']; subst.
    inversion Hs as [| ? ? Hs' Hhd]; subst.
    destruct (gt x y) eqn:E.
    + constructor; [now apply IH|].
      destruct l as [| z l]; cbn.
      * constructor. now apply Hgt.
      * destruct (gt x z); constructor.
        -- now inversion Hhd.
        -- now apply Hgt.
    + constructor; [assumption|]. constructor. now apply Hle.
Qed.

Lemma sort_sorted (le : A -> A -> Prop) (P : A -> Prop) (l : list A) :
  (forall a b, P a -> P b -> gt a b = true -> le b a) ->
  (forall a b, P a -> P b -> gt a b = false -> le a b) ->
  Forall P l -> Sorted le (sort gt l).
Proof.
  intros Hgt Hle Hl. induction l as [| x l IH]; cbn; [constructor|].
  inversion Hl as [| ? ? Hx Hl']; subst.
  apply (insert_sorted le P); auto.
  apply Forall_forall. intros y Hy. apply (proj1 (In_sort y l)) in Hy.
  rewrite Forall_forall in Hl'. now apply Hl'.
Qed.

End SortFacts.

Section SortUnique.
Context {A : Type} (le : A -> A -> Prop).
Hypothesis le_antisym : forall a b, le a b -> le b a -> a = b.

Lemma sorted_perm_unique (l1 l2 : list A) :
  StronglySorted le l1 -> StronglySorted le l2 -> Permutation l1 l2 -> l1 = l2.
Proof.
  revert l2. induction l1 as [| x l1 IH]; intros l2 H1 H2 Hp.
  - now apply Permutation_nil in Hp.
  - destruct l2 as [| y l2].
    + symmetry in Hp. now apply Permutation_nil in Hp.
    + apply StronglySorted_inv in H1 as [H1 Hx].
      apply StronglySorted_inv in H2 as [H2 Hy].
      rewrite Forall_forall in Hx, Hy.
      assert (Hxy : x = y).
      { assert (Hin1 : In x (y :: l2)) by (apply (Permutation_in _ Hp); now left).
        assert (Hin2 : In y (x :: l1))
          by (apply (Permutation_in _ (Permutation_sym Hp)); now left).
        destruct Hin1 as [-> | Hin1]; [reflexivity|].
        destruct Hin2 as [-> | Hin2]; [reflexivity|].
        apply le_antisym; auto. }
      subst y. f_equal. apply IH; auto.
      now apply Permutation_cons_inv in Hp.
Qed.

End SortUnique.

End JSArray.

(* ================================================================== *)
(** * rate-combiner.server.ts: [combineRates]

    The numeric fields of a carrier hold the numbers the code parses out of
    them: [estimatedFreightCharge] is
    [parseFloat(String(carrier.estimatedFreightCharge))] and
    [daysInTransit] is [parseInt(String(carrier.daysInTransit), 10)]
    (either may be NaN).  String fields read through [?.] may be absent. *)
(* ================================================================== *)
Module RateCombiner.
Import JSNumber.

Record IngramCarrier := {
  carrierCode : option string;
  shipVia : option string;
  carrierMode : option string;
  estimatedFreightCharge : number;
  daysInTransit : number;
}.

Record IngramDistribution := {
  shipFromBranchNumber : string;
  carrierList : option (list IngramCarrier);
}.

Record DistributionCharge := {
  branchNumber : string;
  charge : number;
  dc_daysInTransit : number;
}.

Record CombinedRate := {
  cr_carrierCode : string;
  cr_shipVia : string;
  cr_carrierMode : string;
  totalCharge : number;
  maxDaysInTransit : number;
  distributions : list DistributionCharge;
  isComplete : bool;
}.

(** [dist.carrierList ?? []] *)
Definition carriers_of (dist : IngramDistribution) : list IngramCarrier :=
  match carrierList dist with
  | Some l => l
  | None => []
  end.

(** [(a, b) => a.totalCharge - b.totalCharge], as the sort reads it. *)
Definition by_totalCharge (a b : CombinedRate) : bool :=
  gtb (sub (totalCharge a) (totalCharge b)) zero.

(** The single-distribution path (lines 63-85). *)
Definition single_rate (dist : IngramDistribution) (carrier : IngramCarrier)
  : CombinedRate :=
  {| cr_carrierCode := JSString.trim_or_empty (carrierCode carrier);
     cr_shipVia := JSString.trim_or_empty (shipVia carrier);
     cr_carrierMode := JSString.trim_or_empty (carrierMode carrier);
     totalCharge := or_zero (estimatedFreightCharge carrier);
     maxDaysInTransit := or_zero (daysInTransit carrier);
     distributions :=
       [ {| branchNumber := shipFromBranchNumber dist;
            charge := or_zero (estimatedFreightCharge carrier);
            dc_daysInTransit := or_zero (daysInTransit carrier) |} ];
     isComplete := true |}.

Definition usable (rate : CombinedRate) : bool :=
  JSString.truthy (cr_carrierCode rate) && gtb (totalCharge rate) zero.

Definition combine_single (dist : IngramDistribution) : list CombinedRate :=
  JSArray.sort by_totalCharge
    (filter usable (map (single_rate dist) (carriers_of dist))).

(** The value [carrierMap] holds for a carrier code. *)
Record BranchCharge := {
  bc_charge : number;
  bc_daysInTransit : number;
}.

Record CarrierData := {
  cd_shipVia : string;
  cd_carrierMode : string;
  cd_distributions : JSMap.t BranchCharge;
}.

(** The body of the inner loop (lines 111-136) for one carrier of the
    distribution [branch]. *)
Definition add_carrier (branch : string)
    (carrierMap : JSMap.t CarrierData) (carrier : IngramCarrier)
  : JSMap.t CarrierData :=
  let code := JSString.trim_or_empty (carrierCode carrier) in
  if negb (JSString.truthy code) then carrierMap
  else
    let charge := or_zero (estimatedFreightCharge carrier) in
    let transit := or_zero (daysInTransit carrier) in
    let carrierMap1 :=
      if JSMap.has code carrierMap then carrierMap
      else JSMap.set code
             {| cd_shipVia :=
                  JSString.or_else (JSString.trim_or_empty (shipVia carrier)) code;
                cd_carrierMode := JSString.trim_or_empty (carrierMode carrier);
                cd_distributions := JSMap.empty |}
             carrierMap in
    match JSMap.get code carrierMap1 with
    | None => carrierMap1
    | Some carrierData =>
        let lower :=
          match JSMap.get branch (cd_distributions carrierData) with
          | None => true
          | Some existing => ltb charge (bc_charge existing)
          end in
        if lower then
          JSMap.set code
            {| cd_shipVia := cd_shipVia carrierData;
               cd_carrierMode := cd_carrierMode carrierData;
               cd_distributions :=
                 JSMap.set branch
                   {| bc_charge := charge; bc_daysInTransit := transit |}
                   (cd_distributions carrierData) |}
            carrierMap1
        else carrierMap1
    end.

(** The outer loop (lines 105-137): the state is [carrierMap] and
    [distributionBranches]. *)
Definition add_distribution
    (st : JSMap.t CarrierData * JSSet.t) (dist : IngramDistribution)
  : JSMap.t CarrierData * JSSet.t :=
  let branch := shipFromBranchNumber dist in
  (fold_left (add_carrier branch) (carriers_of dist) (fst st),
   JSSet.add branch (snd st)).

Definition sum_charges (ds : JSMap.t BranchCharge) : number :=
  fold_left (fun acc e => add acc (bc_charge (snd e))) ds zero.

Definition max_days (ds : JSMap.t BranchCharge) : number :=
  fold_left (fun acc e => Math_max acc (bc_daysInTransit (snd e))) ds zero.

(** The body of the second loop (lines 143-173): the rate pushed for one
    entry of [carrierMap], if any. *)
Definition combined_of (totalDistributions : Z)
    (entry : string * CarrierData) : list CombinedRate :=
  let '(code, data) := entry in
  let complete := JSMap.size (cd_distributions data) =? totalDistributions in
  let total := sum_charges (cd_distributions data) in
  if complete && gtb total zero then
    [ {| cr_carrierCode := code;
         cr_shipVia := cd_shipVia data;
         cr_carrierMode := cd_carrierMode data;
         totalCharge := total;
         maxDaysInTransit := max_days (cd_distributions data);
         distributions :=
           map (fun e => {| branchNumber := fst e;
                            charge := bc_charge (snd e);
                            dc_daysInTransit := bc_daysInTransit (snd e) |})
               (cd_distributions data);
         isComplete := complete |} ]
  else [].

Definition combine_multi (dists : list IngramDistribution) : list CombinedRate :=
  let '(carrierMap, distributionBranches) :=
    fold_left add_distribution dists (JSMap.empty, []) in
  let totalDistributions := JSSet.size distributionBranches in
  JSArray.sort by_totalCharge
    (flat_map (combined_of totalDistributions) carrierMap).

Definition combineRates (dists : list IngramDistribution) : list CombinedRate :=
  match dists with
  | [] => []
  | [dist] => combine_single dist
  | _ => combine_multi dists
  end.

(** ** The aggregate, read off the input *)

(** [carrier.carrierCode?.trim()], the key of [carrierMap]. *)
Definition code_of (carrier : IngramCarrier) : string :=
  JSString.trim_or_empty (carrierCode carrier).

(** The charge and transit days the loop reads from a carrier. *)
Definition charge_of (carrier : IngramCarrier) : BranchCharge :=
  {| bc_charge := or_zero (estimatedFreightCharge carrier);
     bc_daysInTransit := or_zero (daysInTransit carrier) |}.

(** The entries of carrier code [c]: for each distribution in turn, each of
    its carriers with that code, under the distribution's branch number. *)
Definition entries (c : string) (dists : list IngramDistribution)
  : list (string * BranchCharge) :=
  flat_map
    (fun d =>
       flat_map
         (fun carrier =>
            if String.eqb (code_of carrier) c
            then [(shipFromBranchNumber d, charge_of carrier)]
            else [])
         (carriers_of d))
    dists.

(** What a branch holds after one more entry: the new entry if the branch
    had none or the new charge is lower, else the existing one. *)
Definition keep_lower (x : BranchCharge) (existing : option BranchCharge)
  : BranchCharge :=
  match existing with
  | None => x
  | Some e => if ltb (bc_charge x) (bc_charge e) then x else e
  end.

Definition lowest (es : list BranchCharge) : option BranchCharge :=
  fold_left (fun s x => Some (keep_lower x s)) es None.

(** The branches that offer carrier [c], in the order of their first entry. *)
Definition branches_of (c : string) (dists : list IngramDistribution) : JSSet.t :=
  JSSet.of_list (map fst (entries c dists)).

(** Carrier [c]'s aggregate: for each branch that offers it, the lowest
    entry of that branch. *)
Definition kept (c : string) (dists : list IngramDistribution)
  : JSMap.t BranchCharge :=
  flat_map
    (fun b =>
       match lowest (JSMap.for_key b (entries c dists)) with
       | Some e => [(b, e)]
       | None => []
       end)
    (branches_of c dists).

(** Carrier [c] has an entry under every branch number of the input. *)
Definition offered_everywhere (c : string) (dists : list IngramDistribution)
  : Prop :=
  forall b, In b (map shipFromBranchNumber dists) ->
            In b (map fst (entries c dists)).

Definition details (ds : JSMap.t BranchCharge) : list DistributionCharge :=
  map (fun e => {| branchNumber := fst e;
                   charge := bc_charge (snd e);
                   dc_daysInTransit := bc_daysInTransit (snd e) |}) ds.

(** The loop over the carriers of the input, one step per carrier with a
    non-empty code: what [carrierMap] holds for that code afterwards. *)
Definition merge_carrier (x : string * IngramCarrier)
    (old : option CarrierData) : CarrierData :=
  let data :=
    match old with
    | Some d => d
    | None =>
        {| cd_shipVia :=
             JSString.or_else (JSString.trim_or_empty (shipVia (snd x)))
                              (code_of (snd x));
           cd_carrierMode := JSString.trim_or_empty (carrierMode (snd x));
           cd_distributions := JSMap.empty |}
    end in
  {| cd_shipVia := cd_shipVia data;
     cd_carrierMode := cd_carrierMode data;
     cd_distributions :=
       JSMap.update (fst x) (keep_lower (charge_of (snd x)))
                    (cd_distributions data) |}.

(** The carriers the loop does not skip, keyed by code, each with the
    branch of its distribution. *)
Definition tagged (dists : list IngramDistribution)
  : list (string * (string * IngramCarrier)) :=
  flat_map
    (fun d =>
       flat_map
         (fun carrier =>
            if JSString.truthy (code_of carrier)
            then [(code_of carrier, (shipFromBranchNumber d, carrier))]
            else [])
         (carriers_of d))
    dists.

(** [cd_distributions] after the entries [es], by the loop's updates. *)
Definition aggregate (es : list (string * BranchCharge)) : JSMap.t BranchCharge :=
  JSMap.apply_updates keep_lower es JSMap.empty.

(** A rate the sort's comparator orders as its charge does. *)
Definition comparable (r : CombinedRate) : Prop :=
  wf (totalCharge r) /\ gtb (totalCharge r) zero = true.


(** ** The first loop as a sequence of keyed updates *)

Lemma add_carrier_update (b : string) (cm : JSMap.t CarrierData)
    (carrier : IngramCarrier) :
  JSString.truthy (code_of carrier) = true ->
  add_carrier b cm carrier
  = JSMap.update (code_of carrier) (merge_carrier (b, carrier)) cm.
Proof.
  intros Ht. unfold add_carrier. fold (code_of carrier). rewrite Ht.
  cbn [negb]. unfold merge_carrier, JSMap.update, JSMap.has. cbn [fst snd].
  destruct (JSMap.get (code_of carrier) cm) as [d |] eqn:Hget.
  - rewrite Hget.
    destruct (JSMap.get b (cd_distributions d)) as [ex |] eqn:Hb;
      unfold keep_lower; cbn [charge_of bc_charge].
    + destruct (ltb _ (bc_charge ex)) eqn:Hlt.
      * reflexivity.
      * rewrite (JSMap.set_get_id (cd_distributions d) b ex Hb).
        destruct d. cbn. symmetry. now apply JSMap.set_get_id.
    + reflexivity.
  - rewrite JSMap.get_set_same. cbn [cd_distributions JSMap.get JSMap.empty].
    cbn [cd_shipVia cd_carrierMode]. now rewrite JSMap.set_set.
Qed.

Lemma add_carrier_skip (b : string) (cm : JSMap.t CarrierData)
    (carrier : IngramCarrier) :
  JSString.truthy (code_of carrier) = false -> add_carrier b cm carrier = cm.
Proof.
  intros Ht. unfold add_carrier. fold (code_of carrier). now rewrite Ht.
Qed.

Lemma fold_add_carrier (b : string) (cs : list IngramCarrier) :
  forall cm,
    fold_left (add_carrier b) cs cm
    = JSMap.apply_updates merge_carrier
        (flat_map (fun carrier =>
                     if JSString.truthy (code_of carrier)
                     then [(code_of carrier, (b, carrier))] else []) cs)
        cm.
Proof.
  induction cs as [| carrier cs IH]; intros cm; [reflexivity|].
  cbn [fold_left flat_map]. rewrite IH.
  destruct (JSString.truthy (code_of carrier)) eqn:Ht.
  - rewrite add_carrier_update by assumption. reflexivity.
  - rewrite add_carrier_skip by assumption. reflexivity.
Qed.

Lemma apply_updates_app {V X : Type} (upd : X -> option V -> V)
    (es1 es2 : list (string * X)) (m : JSMap.t V) :
  JSMap.apply_updates upd (es1 ++ es2) m
  = JSMap.apply_updates upd es2 (JSMap.apply_updates upd es1 m).
Proof. unfold JSMap.apply_updates. apply fold_left_app. Qed.

Lemma fold_add_distribution (dists : list IngramDistribution) :
  forall cm bs,
    fold_left add_distribution dists (cm, bs)
    = (JSMap.apply_updates merge_carrier (tagged dists) cm,
       JSSet.add_all (map shipFromBranchNumber dists) bs).
Proof.
  induction dists as [| d dists IH]; intros cm bs; [reflexivity|].
  cbn [fold_left]. unfold add_distribution at 2. cbn [fst snd].
  rewrite IH, fold_add_carrier. unfold tagged. cbn [flat_map map].
  now rewrite apply_updates_app.
Qed.

Lemma for_key_app {X : Type} (k : string) (a b : list (string * X)) :
  JSMap.for_key k (a ++ b) = (JSMap.for_key k a ++ JSMap.for_key k b)%list.
Proof. unfold JSMap.for_key. now rewrite filter_app, map_app. Qed.

Lemma truthy_empty (s : string) : JSString.truthy s = true <-> s <> ""%string.
Proof.
  unfold JSString.truthy. rewrite negb_true_iff. apply String.eqb_neq.
Qed.

Lemma entries_tagged (c : string) (dists : list IngramDistribution) :
  c <> ""%string ->
  map (fun x => (fst x, charge_of (snd x))) (JSMap.for_key c (tagged dists))
  = entries c dists.
Proof.
  intros Hc. unfold tagged, entries.
  induction dists as [| d dists IH]; [reflexivity|].
  cbn [flat_map]. rewrite for_key_app, map_app, IH. f_equal.
  induction (carriers_of d) as [| carrier cs IHc]; [reflexivity|].
  cbn [flat_map]. rewrite for_key_app, map_app, IHc. f_equal.
  destruct (String.eqb (code_of carrier) c) eqn:E.
  - apply String.eqb_eq in E. apply truthy_empty in Hc. rewrite E, Hc.
    unfold JSMap.for_key. cbn. now rewrite String.eqb_refl.
  - destruct (JSString.truthy (code_of carrier)); [|reflexivity].
    unfold JSMap.for_key. cbn. now rewrite E.
Qed.


Lemma fold_merge_carrier (L : list (string * IngramCarrier)) :
  forall d,
    fold_left (fun s x => Some (merge_carrier x s)) L (Some d)
    = Some {| cd_shipVia := cd_shipVia d;
              cd_carrierMode := cd_carrierMode d;
              cd_distributions :=
                JSMap.apply_updates keep_lower
                  (map (fun x => (fst x, charge_of (snd x))) L)
                  (cd_distributions d) |}.
Proof.
  induction L as [| x L IH]; intros d.
  - now destruct d.
  - cbn [fold_left map]. rewrite IH. reflexivity.
Qed.

Lemma get_carrierMap (c : string) (dists : list IngramDistribution) :
  c <> ""%string ->
  JSMap.get c (JSMap.apply_updates merge_carrier (tagged dists) JSMap.empty)
  = match JSMap.for_key c (tagged dists) with
    | [] => None
    | x :: _ =>
        Some {| cd_shipVia := cd_shipVia (merge_carrier x None);
                cd_carrierMode := cd_carrierMode (merge_carrier x None);
                cd_distributions := aggregate (entries c dists) |}
    end.
Proof.
  intros Hc. rewrite JSMap.get_apply_updates.
  rewrite <- (entries_tagged c dists Hc).
  destruct (JSMap.for_key c (tagged dists)) as [| x L]; [reflexivity|].
  cbn [fold_left JSMap.get JSMap.empty]. rewrite fold_merge_carrier.
  reflexivity.
Qed.

Lemma flat_map_ext_In {A B : Type} (f g : A -> list B) (l : list A) :
  (forall x, In x l -> f x = g x) -> flat_map f l = flat_map g l.
Proof.
  induction l as [| a l IH]; intros H; [reflexivity|].
  cbn. rewrite (H a (or_introl eq_refl)), IH; [reflexivity|].
  intros x Hx. apply H. now right.
Qed.

Lemma map_flat_keys {V : Type} (m : JSMap.t V) :
  NoDup (JSMap.keys m) ->
  m = flat_map (fun k => match JSMap.get k m with
                         | Some v => [(k, v)]
                         | None => []
                         end) (JSMap.keys m).
Proof.
  induction m as [| [k v] m IH]; intros Hnd; [reflexivity|].
  inversion Hnd as [| ? ? Hnot Hnd']; subst.
  cbn [JSMap.keys map fst flat_map JSMap.get]. rewrite String.eqb_refl.
  cbn [app]. f_equal. rewrite (IH Hnd') at 1.
  apply flat_map_ext_In. intros k' Hk'.
  destruct (String.eqb k' k) eqn:E; [|reflexivity].
  apply String.eqb_eq in E. subst. contradiction.
Qed.

Lemma keys_aggregate (es : list (string * BranchCharge)) :
  JSMap.keys (aggregate es) = JSSet.of_list (map fst es).
Proof. unfold aggregate. now rewrite JSMap.keys_apply_updates. Qed.

Lemma get_aggregate (b : string) (es : list (string * BranchCharge)) :
  JSMap.get b (aggregate es) = lowest (JSMap.for_key b es).
Proof. unfold aggregate. now rewrite JSMap.get_apply_updates. Qed.

Lemma aggregate_kept (c : string) (dists : list IngramDistribution) :
  aggregate (entries c dists) = kept c dists.
Proof.
  rewrite (map_flat_keys (aggregate (entries c dists))).
  - rewrite keys_aggregate. unfold kept, branches_of.
    apply flat_map_ext. intros b. now rewrite get_aggregate.
  - rewrite keys_aggregate. apply JSSet.NoDup_of_list.
Qed.

Lemma combine_multi_eq (dists : list IngramDistribution) :
  combine_multi dists
  = JSArray.sort by_totalCharge
      (flat_map
         (combined_of
            (JSSet.size (JSSet.of_list (map shipFromBranchNumber dists))))
         (JSMap.apply_updates merge_carrier (tagged dists) JSMap.empty)).
Proof.
  unfold combine_multi. rewrite fold_add_distribution. reflexivity.
Qed.

Lemma keys_kept (c : string) (dists : list IngramDistribution) :
  JSMap.keys (kept c dists) = branches_of c dists.
Proof. rewrite <- aggregate_kept. apply keys_aggregate. Qed.

Lemma entries_branch (c b : string) (dists : list IngramDistribution) :
  In b (map fst (entries c dists)) -> In b (map shipFromBranchNumber dists).
Proof.
  unfold entries. rewrite !in_map_iff. intros ([b' e] & <- & Hin).
  apply in_flat_map in Hin as (d & Hd & Hin).
  apply in_flat_map in Hin as (carrier & _ & Hin).
  destruct (String.eqb (code_of carrier) c); [|contradiction].
  destruct Hin as [[= <- <-] | []]. exists d. split; [reflexivity | assumption].
Qed.

Lemma complete_iff (c : string) (dists : list IngramDistribution) :
  (JSMap.size (kept c dists)
   =? JSSet.size (JSSet.of_list (map shipFromBranchNumber dists))) = true
  <-> offered_everywhere c dists.
Proof.
  unfold JSMap.size, JSSet.size.
  rewrite <- (length_map fst (kept c dists)).
  change (map fst (kept c dists)) with (JSMap.keys (kept c dists)).
  rewrite keys_kept. unfold branches_of, offered_everywhere.
  set (mine := JSSet.of_list (map fst (entries c dists))).
  set (all := JSSet.of_list (map shipFromBranchNumber dists)).
  assert (Hincl : incl mine all).
  { intros b Hb. apply (proj2 (JSSet.In_of_list _ b)).
    apply (proj1 (JSSet.In_of_list _ b)) in Hb.
    now apply (entries_branch c). }
  assert (Hm : NoDup mine) by apply JSSet.NoDup_of_list.
  assert (Ha : NoDup all) by apply JSSet.NoDup_of_list.
  rewrite Z.eqb_eq. split.
  - intros Hlen b Hb. apply (proj1 (JSSet.In_of_list _ b)).
    apply (@NoDup_length_incl _ mine all Hm); [lia | assumption |].
    now apply (proj2 (JSSet.In_of_list _ b)).
  - intros Hall.
    assert (incl all mine).
    { intros b Hb. apply (proj2 (JSSet.In_of_list _ b)). apply Hall.
      now apply (proj1 (JSSet.In_of_list _ b)) in Hb. }
    pose proof (NoDup_incl_length Hm Hincl).
    pose proof (NoDup_incl_length Ha H). lia.
Qed.

Lemma carrierMap_keys (c : string) (dists : list IngramDistribution) :
  In c (JSMap.keys (JSMap.apply_updates merge_carrier (tagged dists) JSMap.empty))
  -> c <> ""%string.
Proof.
  rewrite JSMap.keys_apply_updates. intros H.
  apply (proj1 (JSSet.In_add_all _ _ _)) in H as [H | []].
  apply in_map_iff in H as ([c' x] & <- & Hin). cbn [fst].
  unfold tagged in Hin.
  apply in_flat_map in Hin as (d & _ & Hin).
  apply in_flat_map in Hin as (carrier & _ & Hin).
  destruct (JSString.truthy (code_of carrier)) eqn:Ht; [|contradiction].
  destruct Hin as [[= <- _] | []]. now apply truthy_empty.
Qed.

Lemma carrierMap_NoDup (dists : list IngramDistribution) :
  NoDup (JSMap.keys (JSMap.apply_updates merge_carrier (tagged dists) JSMap.empty)).
Proof.
  rewrite JSMap.keys_apply_updates. apply JSSet.NoDup_add_all. constructor.
Qed.

(** The entries of [carrierMap] when the first loop is over. *)
Lemma In_carrierMap (c : string) (data : CarrierData)
    (dists : list IngramDistribution) :
  In (c, data) (JSMap.apply_updates merge_carrier (tagged dists) JSMap.empty)
  -> c <> ""%string /\ entries c dists <> []
     /\ cd_distributions data = kept c dists.
Proof.
  rewrite (JSMap.In_get _ c data (carrierMap_NoDup dists)). intros Hget.
  assert (Hc : c <> ""%string).
  { apply (carrierMap_keys c dists). apply JSMap.get_In_keys. congruence. }
  split; [assumption|]. rewrite (get_carrierMap c dists Hc) in Hget.
  rewrite <- (entries_tagged c dists Hc) at 1.
  destruct (JSMap.for_key c (tagged dists)) as [| x L]; [discriminate|].
  split; [discriminate|].
  injection Hget as <-. cbn [cd_distributions]. apply aggregate_kept.
Qed.

Lemma carrierMap_has (c : string) (dists : list IngramDistribution) :
  c <> ""%string -> entries c dists <> [] ->
  exists data,
    In (c, data) (JSMap.apply_updates merge_carrier (tagged dists) JSMap.empty)
    /\ cd_distributions data = kept c dists.
Proof.
  intros Hc He. rewrite <- (entries_tagged c dists Hc) in He.
  pose proof (get_carrierMap c dists Hc) as Hget.
  destruct (JSMap.for_key c (tagged dists)) as [| x L]; [now contradiction He|].
  eexists. split.
  - apply (JSMap.In_get _ c _ (carrierMap_NoDup dists)). exact Hget.
  - cbn [cd_distributions]. apply aggregate_kept.
Qed.

Lemma In_combined_of (n : Z) (c : string) (data : CarrierData) (r : CombinedRate) :
  In r (combined_of n (c, data)) <->
  (JSMap.size (cd_distributions data) =? n) = true
  /\ gtb (sum_charges (cd_distributions data)) zero = true
  /\ r = {| cr_carrierCode := c;
            cr_shipVia := cd_shipVia data;
            cr_carrierMode := cd_carrierMode data;
            totalCharge := sum_charges (cd_distributions data);
            maxDaysInTransit := max_days (cd_distributions data);
            distributions := details (cd_distributions data);
            isComplete := true |}.
Proof.
  unfold combined_of.
  destruct (JSMap.size (cd_distributions data) =? n); cbn [andb];
    [|split; [intros [] | intros [[=] _]]].
  destruct (gtb (sum_charges (cd_distributions data)) zero);
    [|split; [intros [] | intros [_ [[=] _]]]].
  cbn [In]. unfold details. split.
  - intros [<- | []]. auto.
  - intros (_ & _ & ->). now left.
Qed.

(** What every rate of the multi-distribution path is. *)
Lemma combine_multi_In (r : CombinedRate) (dists : list IngramDistribution) :
  In r (combine_multi dists) ->
  cr_carrierCode r <> ""%string
  /\ offered_everywhere (cr_carrierCode r) dists
  /\ totalCharge r = sum_charges (kept (cr_carrierCode r) dists)
  /\ gtb (totalCharge r) zero = true
  /\ maxDaysInTransit r = max_days (kept (cr_carrierCode r) dists)
  /\ distributions r = details (kept (cr_carrierCode r) dists)
  /\ isComplete r = true.
Proof.
  rewrite combine_multi_eq. intros Hin.
  apply (proj1 (JSArray.In_sort _ _ _)) in Hin.
  apply in_flat_map in Hin as ([c data] & Hcm & Hr).
  apply In_carrierMap in Hcm as (Hc & _ & Hk).
  apply In_combined_of in Hr as (Hsize & Hgt & ->). cbn.
  rewrite Hk in *. repeat split; try assumption.
  now apply complete_iff.
Qed.

(** Which carrier codes the multi-distribution path returns. *)
Lemma combine_multi_offers (c : string) (dists : list IngramDistribution) :
  dists <> [] -> c <> ""%string ->
  offered_everywhere c dists ->
  gtb (sum_charges (kept c dists)) zero = true ->
  exists r, In r (combine_multi dists) /\ cr_carrierCode r = c.
Proof.
  intros Hd Hc Hall Hgt.
  assert (He : entries c dists <> []).
  { destruct dists as [| d dists]; [contradiction|].
    specialize (Hall (shipFromBranchNumber d) (or_introl eq_refl)).
    intros E. rewrite E in Hall. contradiction. }
  destruct (carrierMap_has c dists Hc He) as (data & Hin & Hk).
  eexists. split.
  - rewrite combine_multi_eq. apply (proj2 (JSArray.In_sort _ _ _)).
    apply in_flat_map. exists (c, data). split; [exact Hin|].
    apply In_combined_of. rewrite Hk. split; [now apply complete_iff|].
    split; [assumption | reflexivity].
  - reflexivity.
Qed.

Lemma In_for_key {X : Type} (k : string) (x : X) (es : list (string * X)) :
  In x (JSMap.for_key k es) <-> In (k, x) es.
Proof.
  unfold JSMap.for_key. rewrite in_map_iff. split.
  - intros ([k' x'] & <- & Hin). apply filter_In in Hin as [Hin E].
    cbn in E. apply String.eqb_eq in E. now subst.
  - intros Hin. exists (k, x). split; [reflexivity|].
    apply filter_In. split; [assumption|]. apply String.eqb_refl.
Qed.

Lemma lowest_from (es : list BranchCharge) :
  forall (a : BranchCharge) (seen : list BranchCharge),
    In a seen ->
    (forall e, In e seen -> ltb (bc_charge e) (bc_charge a) = false) ->
    exists x,
      fold_left (fun s y => Some (keep_lower y s)) es (Some a) = Some x
      /\ In x (seen ++ es)
      /\ forall e, In e (seen ++ es) -> ltb (bc_charge e) (bc_charge x) = false.
Proof.
  induction es as [| y es IH]; intros a seen Ha Hmin.
  - exists a. rewrite app_nil_r. auto.
  - cbn [fold_left keep_lower].
    replace (seen ++ y :: es)%list with ((seen ++ [y]) ++ es)%list
      by now rewrite <- app_assoc.
    destruct (ltb (bc_charge y) (bc_charge a)) eqn:Hlt.
    + apply IH.
      * apply in_or_app. right. now left.
      * intros e He. apply in_app_or in He as [He | [<- | []]].
        -- destruct (ltb (bc_charge e) (bc_charge y)) eqn:E; [|reflexivity].
           rewrite <- (Hmin e He). symmetry.
           now apply (ltb_trans _ (bc_charge y)).
        -- apply ltb_irrefl.
    + apply IH.
      * apply in_or_app. now left.
      * intros e He. apply in_app_or in He as [He | [<- | []]]; auto.
Qed.

(** The entry a branch keeps is one of its entries, and none of them
    charges less. *)
Lemma lowest_spec (es : list BranchCharge) (x : BranchCharge) :
  lowest es = Some x ->
  In x es /\ forall e, In e es -> ltb (bc_charge e) (bc_charge x) = false.
Proof.
  unfold lowest. destruct es as [| a es]; [discriminate|].
  cbn [fold_left keep_lower]. intros H.
  destruct (lowest_from es a [a]) as (x' & Hx' & Hin & Hmin).
  - now left.
  - intros e [<- | []]. apply ltb_irrefl.
  - rewrite Hx' in H. injection H as <-. auto.
Qed.

Lemma In_kept (c b : string) (x : BranchCharge) (dists : list IngramDistribution) :
  In (b, x) (kept c dists) ->
  In (b, x) (entries c dists)
  /\ forall e, In (b, e) (entries c dists) ->
               ltb (bc_charge e) (bc_charge x) = false.
Proof.
  unfold kept. intros Hin. apply in_flat_map in Hin as (b' & _ & Hin).
  destruct (lowest (JSMap.for_key b' (entries c dists))) as [x' |] eqn:Hl;
    [|contradiction].
  destruct Hin as [[= -> ->] | []].
  apply lowest_spec in Hl as [Hin Hmin]. split.
  - now apply In_for_key.
  - intros e He. apply Hmin. now apply In_for_key.
Qed.

Lemma sum_charges_details (m : JSMap.t BranchCharge) :
  sum_charges m = fold_left add (map charge (details m)) zero.
Proof.
  unfold sum_charges, details. generalize zero.
  induction m as [| e m IH]; intros acc; [reflexivity|]. cbn. apply IH.
Qed.

Lemma branchNumber_details (m : JSMap.t BranchCharge) :
  map branchNumber (details m) = JSMap.keys m.
Proof. unfold details, JSMap.keys. rewrite map_map. reflexivity. Qed.

Lemma combineRates_multi (dists : list IngramDistribution) :
  (2 <= List.length dists)%nat -> combineRates dists = combine_multi dists.
Proof.
  destruct dists as [| d1 [| d2 dists]]; cbn; try lia. reflexivity.
Qed.

Lemma entries_double (c b : string) (e : BranchCharge)
    (dists : list IngramDistribution) :
  Forall (fun d => Forall (fun carrier => is_double (estimatedFreightCharge carrier))
                          (carriers_of d)) dists ->
  In (b, e) (entries c dists) -> wf (bc_charge e).
Proof.
  intros Hd Hin. unfold entries in Hin.
  apply in_flat_map in Hin as (d & Hdin & Hin).
  apply in_flat_map in Hin as (carrier & Hcin & Hin).
  destruct (String.eqb (code_of carrier) c); [|contradiction].
  destruct Hin as [[= <- <-] | []]. cbn. apply or_zero_wf.
  rewrite Forall_forall in Hd. specialize (Hd d Hdin).
  rewrite Forall_forall in Hd. now apply Hd.
Qed.

Lemma sum_charges_wf (m : JSMap.t BranchCharge) :
  (forall b e, In (b, e) m -> wf (bc_charge e)) -> wf (sum_charges m).
Proof.
  unfold sum_charges. assert (H0 : wf zero) by exact I. revert H0.
  generalize zero. induction m as [| [b e] m IH]; intros acc Hacc Hm; cbn.
  - assumption.
  - apply IH.
    + apply add_wf; [assumption|]. apply (Hm b). now left.
    + intros b' e' Hin. apply (Hm b'). now right.
Qed.


Lemma by_totalCharge_gt (a b : CombinedRate) :
  comparable a -> comparable b ->
  by_totalCharge a b = true -> leb (totalCharge b) (totalCharge a) = true.
Proof.
  intros [Ha _] [Hb _]. unfold by_totalCharge, gtb.
  rewrite sub_gt_zero by assumption. apply ltb_leb.
Qed.

Lemma by_totalCharge_le (a b : CombinedRate) :
  comparable a -> comparable b ->
  by_totalCharge a b = false -> leb (totalCharge a) (totalCharge b) = true.
Proof.
  intros [Ha Ha'] [Hb Hb']. unfold by_totalCharge, gtb.
  rewrite sub_gt_zero by assumption.
  apply ltb_false_leb.
  - now apply (ltb_not_NaN zero).
  - now apply (ltb_not_NaN zero).
Qed.

Lemma sort_by_totalCharge (l : list CombinedRate) :
  Forall comparable l ->
  Sorted (fun a b => leb (totalCharge a) (totalCharge b) = true)
         (JSArray.sort by_totalCharge l).
Proof.
  apply JSArray.sort_sorted.
  - apply by_totalCharge_gt.
  - apply by_totalCharge_le.
Qed.

Lemma combine_single_In (r : CombinedRate) (dist : IngramDistribution) :
  In r (combine_single dist) <->
  exists carrier, In carrier (carriers_of dist)
                  /\ r = single_rate dist carrier /\ usable r = true.
Proof.
  unfold combine_single. rewrite JSArray.In_sort, filter_In, in_map_iff. split.
  - intros [(carrier & <- & Hin) Hu]. eauto.
  - intros (carrier & Hin & -> & Hu). eauto.
Qed.

(** ** Properties of [combineRates] *)

Local Open Scope string_scope.

Definition carrier_ (code : string) (dollars days : Z) : IngramCarrier :=
  {| carrierCode := Some code;
     shipVia := Some code;
     carrierMode := None;
     estimatedFreightCharge := of_Z dollars;
     daysInTransit := of_Z days |}.

(** Two warehouses; the first lists UPS twice, charging 12 and 9. *)
Definition two_warehouses : list IngramDistribution :=
  [ {| shipFromBranchNumber := "A";
       carrierList := Some [carrier_ "UPS" 12 2; carrier_ "UPS" 9 5;
                            carrier_ "FDX" 5 1] |};
    {| shipFromBranchNumber := "B";
       carrierList := Some [carrier_ "UPS" 8 3] |} ].

(** UPS is offered by both warehouses, free of charge. *)
Definition free_everywhere : list IngramDistribution :=
  [ {| shipFromBranchNumber := "A"; carrierList := Some [carrier_ "UPS" 0 2] |};
    {| shipFromBranchNumber := "B"; carrierList := Some [carrier_ "UPS" 0 3] |} ].

Example combineRates_two_warehouses :
  map (fun r => (cr_carrierCode r, to_Z (totalCharge r),
                 to_Z (maxDaysInTransit r), isComplete r))
      (combineRates two_warehouses)
  = [("UPS", Some 17, Some 5, true)].
Proof. vm_compute. reflexivity. Qed.




(** C2.  For two or more distributions, every carrier with an entry under
    every branch number and a positive summed charge is returned, with one
    item in its breakdown for every branch number of the input; a returned
    rate's [totalCharge] is the sum of the charges in its breakdown, the
    breakdown has one item per branch number, and each item is an entry of
    the carrier under that branch than which no entry of the carrier under
    that branch charges less: of several occurrences only the
    lowest-charging one counts. *)
Theorem combineRates_keeps_lower_charge (dists : list IngramDistribution) :
  (2 <= List.length dists)%nat ->
  (forall r, In r (combineRates dists) ->
     totalCharge r = fold_left add (map charge (distributions r)) zero
     /\ NoDup (map branchNumber (distributions r))
     /\ forall d, In d (distributions r) ->
          In (branchNumber d,
              {| bc_charge := charge d; bc_daysInTransit := dc_daysInTransit d |})
             (entries (cr_carrierCode r) dists)
          /\ forall e, In (branchNumber d, e) (entries (cr_carrierCode r) dists) ->
                       ltb (bc_charge e) (charge d) = false)
  /\ (forall c,
        c <> "" -> offered_everywhere c dists ->
        gtb (sum_charges (kept c dists)) zero = true ->
        exists r,
          In r (combineRates dists) /\ cr_carrierCode r = c
          /\ forall b, In b (map shipFromBranchNumber dists) ->
               exists d,
                 In d (distributions r) /\ branchNumber d = b
                 /\ In (b, {| bc_charge := charge d;
                              bc_daysInTransit := dc_daysInTransit d |})
                       (entries c dists)
                 /\ forall e, In (b, e) (entries c dists) ->
                              ltb (bc_charge e) (charge d) = false).
Proof.
  intros Hlen. rewrite (combineRates_multi dists Hlen). split.
  - intros r Hin.
    apply combine_multi_In in Hin as (_ & _ & Ht & _ & _ & Hd & _).
    rewrite Hd, Ht. split; [apply sum_charges_details|]. split.
    + rewrite branchNumber_details, keys_kept. apply JSSet.NoDup_of_list.
    + intros d Hdin. unfold details in Hdin.
      apply in_map_iff in Hdin as ([b x] & <- & Hk). cbn.
      apply In_kept in Hk as [Hk Hmin]. split; [now destruct x | exact Hmin].
  - intros c Hc Hall Hgt.
    destruct (combine_multi_offers c dists) as (r & Hin & Hcode); auto.
    { intros ->. cbn in Hlen. lia. }
    exists r. split; [assumption|]. split; [assumption|].
    intros b Hb.
    pose proof (combine_multi_In r dists Hin) as (_ & _ & _ & _ & _ & Hd & _).
    rewrite Hcode in Hd.
    assert (Hkey : In b (JSMap.keys (kept c dists))).
    { rewrite keys_kept. unfold branches_of. apply JSSet.In_of_list.
      now apply Hall. }
    unfold JSMap.keys in Hkey. apply in_map_iff in Hkey as ([b' x] & Hb' & Hk).
    cbn in Hb'. subst b'.
    exists {| branchNumber := b; charge := bc_charge x;
              dc_daysInTransit := bc_daysInTransit x |}.
    split.
    { rewrite Hd. unfold details. apply in_map_iff. now exists (b, x). }
    split; [reflexivity|]. cbn.
    apply In_kept in Hk as [Hk Hmin]. split; [now destruct x | exact Hmin].
Qed.

Lemma combineRates_keeps_lower_charge_witness :
  Forall
    (fun r =>
       totalCharge r = fold_left add (map charge (distributions r)) zero
       /\ NoDup (map branchNumber (distributions r))
       /\ forall d, In d (distributions r) ->
            In (branchNumber d,
                {| bc_charge := charge d; bc_daysInTransit := dc_daysInTransit d |})
               (entries (cr_carrierCode r) two_warehouses)
            /\ forall e, In (branchNumber d, e)
                            (entries (cr_carrierCode r) two_warehouses) ->
                         ltb (bc_charge e) (charge d) = false)
    (combineRates two_warehouses)
  /\ exists r,
       In r (combineRates two_warehouses) /\ cr_carrierCode r = "UPS"
       /\ forall b, In b (map shipFromBranchNumber two_warehouses) ->
            exists d,
              In d (distributions r) /\ branchNumber d = b
              /\ In (b, {| bc_charge := charge d;
                           bc_daysInTransit := dc_daysInTransit d |})
                    (entries "UPS" two_warehouses)
              /\ (forall e, In (b, e) (entries "UPS" two_warehouses) ->
                            ltb (bc_charge e) (charge d) = false)
              /\ to_Z (charge d)
                 = (if String.eqb b "A" then Some 9 else Some 8).
Proof.
  destruct (combineRates_keeps_lower_charge two_warehouses) as [Hall Hex];
    [cbn; lia|].
  split.
  - apply Forall_forall. exact Hall.
  - destruct (Hex "UPS") as (r & Hr & Hcode & Hb).
    + discriminate.
    + intros b [<- | [<- | []]]; vm_compute; auto.
    + vm_compute. reflexivity.
    + exists r. split; [exact Hr|]. split; [exact Hcode|].
      intros b Hin. destruct (Hb b Hin) as (d & Hd & Hbr & Hentry & Hmin).
      exists d. repeat (split; [assumption|]).
      destruct Hr as [<- | []].
      destruct Hd as [<- | [<- | []]]; destruct Hin as [<- | [<- | []]];
        try reflexivity; discriminate Hbr.
Defined.

(** The duplicate of the specification: of the UPS entries charging 12 and
    9 in warehouse A, the 9 is what A contributes. *)
Example duplicate_carrier_lower_charge :
  map (fun r => (cr_carrierCode r,
                 map (fun d => (branchNumber d, to_Z (charge d)))
                     (distributions r)))
      (combineRates two_warehouses)
  = [("UPS", [("A", Some 9); ("B", Some 8)])].
Proof. vm_compute. reflexivity. Qed.

(** C9.  Whatever the input, single or multiple distributions,
    [totalCharge] does not decrease along the returned sequence: each rate
    charges at most what every later one does (the charges of the input
    being binary64 values). *)
Theorem combineRates_sorted (dists : list IngramDistribution) :
  Forall (fun d => Forall (fun carrier => is_double (estimatedFreightCharge carrier))
                          (carriers_of d)) dists ->
  StronglySorted (fun a b => leb (totalCharge a) (totalCharge b) = true)
                 (combineRates dists).
Proof.
  intros Hd. apply Sorted_StronglySorted.
  { intros a b c. apply leb_trans. }
  destruct dists as [| d1 [| d2 dists]].
  - constructor.
  - cbn [combineRates]. unfold combine_single. apply sort_by_totalCharge.
    apply Forall_forall. intros r Hr.
    apply filter_In in Hr as [Hr Hu]. apply in_map_iff in Hr as (carrier & <- & Hc).
    unfold usable in Hu. apply andb_prop in Hu as [_ Hgt].
    split; [|exact Hgt]. cbn. apply or_zero_wf.
    inversion Hd as [| ? ? H1 _]; subst. rewrite Forall_forall in H1. now apply H1.
  - change (combineRates (d1 :: d2 :: dists)) with (combine_multi (d1 :: d2 :: dists)).
    set (ds := d1 :: d2 :: dists) in *.
    rewrite combine_multi_eq. apply sort_by_totalCharge.
    apply Forall_forall. intros r Hr.
    assert (Hin : In r (combine_multi ds)).
    { rewrite combine_multi_eq. now apply (proj2 (JSArray.In_sort _ _ _)). }
    apply combine_multi_In in Hin as (_ & _ & Ht & Hgt & _).
    split; [|exact Hgt]. rewrite Ht. apply sum_charges_wf.
    intros b e He. apply In_kept in He as [He _].
    now apply (entries_double (cr_carrierCode r) b e ds Hd).
Qed.

(** One warehouse offering three carriers, the dearest first. *)
Definition dearest_first : list IngramDistribution :=
  [ {| shipFromBranchNumber := "A";
       carrierList := Some [carrier_ "UPS" 12 2; carrier_ "FDX" 5 1;
                            carrier_ "DHL" 9 3] |} ].

(** Two warehouses offering the same three carriers, the dearest first. *)
Definition dearest_first_twice : list IngramDistribution :=
  [ {| shipFromBranchNumber := "A";
       carrierList := Some [carrier_ "UPS" 12 2; carrier_ "FDX" 5 1;
                            carrier_ "DHL" 9 3] |};
    {| shipFromBranchNumber := "B";
       carrierList := Some [carrier_ "UPS" 8 3; carrier_ "FDX" 6 2;
                            carrier_ "DHL" 1 1] |} ].

Lemma combineRates_sorted_witness :
  (StronglySorted (fun a b => leb (totalCharge a) (totalCharge b) = true)
                  (combineRates dearest_first)
   /\ map (fun r => (cr_carrierCode r, to_Z (totalCharge r)))
          (combineRates dearest_first)
      = [("FDX", Some 5); ("DHL", Some 9); ("UPS", Some 12)])
  /\ (StronglySorted (fun a b => leb (totalCharge a) (totalCharge b) = true)
                     (combineRates dearest_first_twice)
      /\ map (fun r => (cr_carrierCode r, to_Z (totalCharge r)))
             (combineRates dearest_first_twice)
         = [("DHL", Some 10); ("FDX", Some 11); ("UPS", Some 20)]).
Proof.
  split; split.
  - apply (combineRates_sorted dearest_first).
    repeat (constructor; try reflexivity).
  - vm_compute. reflexivity.
  - apply (combineRates_sorted dearest_first_twice).
    repeat (constructor; try reflexivity).
  - vm_compute. reflexivity.
Defined.

(** C10.  Every returned rate has a non-empty carrier code and a strictly
    positive [totalCharge]; with two or more distributions, a carrier
    offered under every branch number whose summed charge is not positive
    is left out. *)
Theorem combineRates_positive_charge :
  (forall dists r, In r (combineRates dists) ->
                   cr_carrierCode r <> "" /\ gtb (totalCharge r) zero = true)
  /\ (forall dists c,
         (2 <= List.length dists)%nat ->
         offered_everywhere c dists ->
         gtb (sum_charges (kept c dists)) zero = false ->
         ~ exists r, In r (combineRates dists) /\ cr_carrierCode r = c).
Proof.
  split.
  - intros dists r Hin. destruct dists as [| d1 [| d2 dists]].
    + contradiction.
    + cbn [combineRates] in Hin.
      apply combine_single_In in Hin as (carrier & _ & _ & Hu).
      unfold usable in Hu. apply andb_prop in Hu as [Hc Hgt].
      split; [now apply truthy_empty | exact Hgt].
    + change (In r (combine_multi (d1 :: d2 :: dists))) in Hin.
      apply combine_multi_In in Hin as (Hc & _ & _ & Hgt & _). auto.
  - intros dists c Hlen Hall Hz (r & Hin & <-).
    rewrite (combineRates_multi dists Hlen) in Hin.
    apply combine_multi_In in Hin as (_ & _ & Ht & Hgt & _).
    rewrite Ht in Hgt. congruence.
Qed.

Lemma combineRates_positive_charge_witness :
  (forall r, In r (combineRates two_warehouses) ->
             cr_carrierCode r <> "" /\ gtb (totalCharge r) zero = true)
  /\ ~ (exists r, In r (combineRates free_everywhere) /\ cr_carrierCode r = "UPS").
Proof.
  split.
  - apply (proj1 combineRates_positive_charge two_warehouses).
  - apply (proj2 combineRates_positive_charge free_everywhere "UPS").
    + cbn. lia.
    + intros b [<- | [<- | []]]; vm_compute; auto.
    + vm_compute. reflexivity.
Defined.

End RateCombiner.

(* ================================================================== *)
(** * ingram.server.ts: the freight cache key

    [Number.prototype.toString], which renders a line's quantity, is the
    engine's: the key is built over an arbitrary rendering
    [Number_toString].  A line is read through [(line as any)]: a field is
    absent ([None]) or holds a string (a value of another type stands as
    its [String(...)] form); [quantity], when present, holds
    [Number(line.quantity)]. *)
(* ================================================================== *)
Module FreightCacheKey.
Import JSNumber.
Local Open Scope string_scope.

Record Address := {
  companyName : string;
  addressLine1 : string;
  addressLine2 : option string;
  city : string;
  state : string;
  postalCode : string;
  countryCode : string;
}.

Record Line := {
  ingramPartNumber : option string;
  itemNumber : option string;
  customerLineNumber : option string;
  sku : option string;
  quantity : option number;
}.

Record RateTestInput := {
  shipToAddress : Address;
  lines : list Line;
  billToAddressId : option string;
  shipToAddressId : option string;
}.

(** [normalizeString]: a string is trimmed, [null] and [undefined] give the
    empty string. *)
Definition normalizeString (value : option string) : string :=
  match value with
  | Some s => JSString.trim s
  | None => ""
  end.

(** [Array.prototype.sort()] without a comparator, on strings: ascending
    code-unit order. *)
Definition sort_strings (l : list string) : list string :=
  JSArray.sort (fun a b => String.ltb b a) l.

Section Key.
Variable Number_toString : number -> string.

(** The callback of [.map] over the lines (lines 86-96). *)
Definition lineToken (line : Line) : string :=
  let partNumber :=
    JSString.or_else
      (JSString.or_else
         (JSString.or_else (normalizeString (ingramPartNumber line))
                           (normalizeString (itemNumber line)))
         (normalizeString (customerLineNumber line)))
      (normalizeString (sku line)) in
  let qtyRaw := match quantity line with Some q => q | None => of_Z 1 end in
  let qty := if isFinite qtyRaw && gtb qtyRaw zero then qtyRaw else of_Z 1 in
  if JSString.truthy partNumber
  then partNumber ++ ":" ++ Number_toString qty
  else "".

Definition lineKey (ls : list Line) : string :=
  JSString.join "|" (sort_strings (filter JSString.truthy (map lineToken ls))).

Definition destinationKey (shopDomain : string) (address : Address) : string :=
  JSString.join "|"
    [ JSString.toLowerCase shopDomain;
      JSString.toUpperCase (normalizeString (Some (countryCode address)));
      JSString.toUpperCase (normalizeString (Some (state address)));
      normalizeString (Some (postalCode address));
      JSString.toLowerCase (normalizeString (Some (city address)));
      JSString.toLowerCase (normalizeString (Some (addressLine1 address))) ].

Definition buildFreightCacheKey (shopDomain : string) (payload : RateTestInput)
  : string :=
  JSString.join "|"
    [ destinationKey shopDomain (shipToAddress payload);
      normalizeString (billToAddressId payload);
      normalizeString (shipToAddressId payload);
      lineKey (lines payload) ].

End Key.

(** A request with one address field replaced. *)
Definition with_address (p : RateTestInput) (a : Address) : RateTestInput :=
  {| shipToAddress := a;
     lines := lines p;
     billToAddressId := billToAddressId p;
     shipToAddressId := shipToAddressId p |}.

Definition with_postalCode (p : RateTestInput) (v : string) : RateTestInput :=
  let a := shipToAddress p in
  with_address p
    {| companyName := companyName a; addressLine1 := addressLine1 a;
       addressLine2 := addressLine2 a; city := city a; state := state a;
       postalCode := v; countryCode := countryCode a |}.

Definition with_countryCode (p : RateTestInput) (v : string) : RateTestInput :=
  let a := shipToAddress p in
  with_address p
    {| companyName := companyName a; addressLine1 := addressLine1 a;
       addressLine2 := addressLine2 a; city := city a; state := state a;
       postalCode := postalCode a; countryCode := v |}.

Definition with_city (p : RateTestInput) (v : string) : RateTestInput :=
  let a := shipToAddress p in
  with_address p
    {| companyName := companyName a; addressLine1 := addressLine1 a;
       addressLine2 := addressLine2 a; city := v; state := state a;
       postalCode := postalCode a; countryCode := countryCode a |}.

Definition with_addressLine1 (p : RateTestInput) (v : string) : RateTestInput :=
  let a := shipToAddress p in
  with_address p
    {| companyName := companyName a; addressLine1 := v;
       addressLine2 := addressLine2 a; city := city a; state := state a;
       postalCode := postalCode a; countryCode := countryCode a |}.

(** The rendering of the examples: exact on the integer quantities. *)
Definition render (q : number) : string :=
  match toString q with
  | Some s => s
  | None => ""
  end.

Lemma Permutation_filter {A : Type} (f : A -> bool) (l l' : list A) :
  Permutation l l' -> Permutation (filter f l) (filter f l').
Proof.
  induction 1 as [| x l l' _ IH | x y l | l l' l'' _ IH1 _ IH2]; cbn.
  - constructor.
  - destruct (f x); [now constructor | assumption].
  - destruct (f x), (f y); try reflexivity. apply perm_swap.
  - now transitivity (filter f l').
Qed.

Lemma sort_strings_sorted (l : list string) :
  StronglySorted (fun a b => String.leb a b = true) (sort_strings l).
Proof.
  apply Sorted_StronglySorted.
  - intros a b c. apply JSString.string_leb_trans.
  - unfold sort_strings.
    apply (JSArray.sort_sorted _ _ (fun _ => True)).
    + intros a b _ _. apply JSString.string_ltb_leb.
    + intros a b _ _. apply JSString.string_ltb_false_leb.
    + apply Forall_forall. auto.
Qed.

(** Sorting forgets the order the strings came in. *)
Lemma sort_strings_perm (l l' : list string) :
  Permutation l l' -> sort_strings l = sort_strings l'.
Proof.
  intros Hp.
  apply (JSArray.sorted_perm_unique (fun a b => String.leb a b = true)).
  - apply String.leb_antisym.
  - apply sort_strings_sorted.
  - apply sort_strings_sorted.
  - unfold sort_strings.
    rewrite (JSArray.sort_perm _ l), (JSArray.sort_perm _ l'). exact Hp.
Qed.

Section KeyFacts.
Variable Number_toString : number -> string.

Lemma lineKey_perm (ls ls' : list Line) :
  Permutation ls ls' -> lineKey Number_toString ls = lineKey Number_toString ls'.
Proof.
  intros Hp. unfold lineKey. f_equal. apply sort_strings_perm.
  apply Permutation_filter. now apply Permutation_map.
Qed.

Lemma key_pieces (shop : string) (p : RateTestInput) :
  buildFreightCacheKey Number_toString shop p
  = JSString.concat
      [ JSString.toLowerCase shop; "|";
        JSString.toUpperCase (JSString.trim (countryCode (shipToAddress p))); "|";
        JSString.toUpperCase (JSString.trim (state (shipToAddress p))); "|";
        JSString.trim (postalCode (shipToAddress p)); "|";
        JSString.toLowerCase (JSString.trim (city (shipToAddress p))); "|";
        JSString.toLowerCase (JSString.trim (addressLine1 (shipToAddress p))); "|";
        normalizeString (billToAddressId p); "|";
        normalizeString (shipToAddressId p); "|";
        lineKey Number_toString (lines p) ].
Proof.
  unfold buildFreightCacheKey, destinationKey.
  cbn [JSString.join JSString.concat fold_right normalizeString].
  rewrite !JSString.append_assoc, JSString.append_nil_r. reflexivity.
Qed.

Lemma key_postalCode (shop : string) (p : RateTestInput) (v : string) :
  buildFreightCacheKey Number_toString shop (with_postalCode p v)
  = buildFreightCacheKey Number_toString shop p
  <-> JSString.trim v = JSString.trim (postalCode (shipToAddress p)).
Proof.
  rewrite !key_pieces. cbn [with_postalCode with_address shipToAddress lines
    billToAddressId shipToAddressId postalCode countryCode state city addressLine1].
  apply (JSString.concat_middle [_; _; _; _; _; _]).
Qed.

Lemma key_countryCode (shop : string) (p : RateTestInput) (v : string) :
  buildFreightCacheKey Number_toString shop (with_countryCode p v)
  = buildFreightCacheKey Number_toString shop p
  <-> JSString.toUpperCase (JSString.trim v)
      = JSString.toUpperCase (JSString.trim (countryCode (shipToAddress p))).
Proof.
  rewrite !key_pieces. cbn [with_countryCode with_address shipToAddress lines
    billToAddressId shipToAddressId postalCode countryCode state city addressLine1].
  apply (JSString.concat_middle [_; _]).
Qed.

Lemma key_city (shop : string) (p : RateTestInput) (v : string) :
  buildFreightCacheKey Number_toString shop (with_city p v)
  = buildFreightCacheKey Number_toString shop p
  <-> JSString.toLowerCase (JSString.trim v)
      = JSString.toLowerCase (JSString.trim (city (shipToAddress p))).
Proof.
  rewrite !key_pieces. cbn [with_city with_address shipToAddress lines
    billToAddressId shipToAddressId postalCode countryCode state city addressLine1].
  apply (JSString.concat_middle [_; _; _; _; _; _; _; _]).
Qed.

Lemma key_addressLine1 (shop : string) (p : RateTestInput) (v : string) :
  buildFreightCacheKey Number_toString shop (with_addressLine1 p v)
  = buildFreightCacheKey Number_toString shop p
  <-> JSString.toLowerCase (JSString.trim v)
      = JSString.toLowerCase (JSString.trim (addressLine1 (shipToAddress p))).
Proof.
  rewrite !key_pieces. cbn [with_addressLine1 with_address shipToAddress lines
    billToAddressId shipToAddressId postalCode countryCode state city addressLine1].
  apply (JSString.concat_middle [_; _; _; _; _; _; _; _; _; _]).
Qed.

End KeyFacts.

Definition line_ (part : string) (qty : Z) : Line :=
  {| ingramPartNumber := Some part;
     itemNumber := None;
     customerLineNumber := None;
     sku := None;
     quantity := Some (of_Z qty) |}.

Definition austin : Address :=
  {| companyName := "Customer";
     addressLine1 := "100 Main St";
     addressLine2 := None;
     city := "Austin";
     state := "tx";
     postalCode := " 78701 ";
     countryCode := "us" |}.

Definition request_ (ls : list Line) : RateTestInput :=
  {| shipToAddress := austin;
     lines := ls;
     billToAddressId := None;
     shipToAddressId := None |}.

Example buildFreightCacheKey_austin :
  buildFreightCacheKey render "Shop.MyShopify.com"
    (request_ [line_ "XYZ" 1; line_ " ABC " 2])
  = "shop.myshopify.com|US|TX|78701|austin|100 main st|||ABC:2|XYZ:1".
Proof. vm_compute. reflexivity. Qed.

(** C3, as the code has it.  Whatever renders the quantities, requests
    whose lines are permutations of each other (all else equal) have the
    same key; and replacing the postal code, the country code, the city or
    the first address line leaves the key unchanged exactly when the
    normalised value (trimmed; upper-cased for the country, lower-cased
    for the city and the address line) is unchanged. *)
Theorem buildFreightCacheKey_deterministic (Number_toString : number -> string) :
  (forall shop p1 p2,
      shipToAddress p1 = shipToAddress p2 ->
      billToAddressId p1 = billToAddressId p2 ->
      shipToAddressId p1 = shipToAddressId p2 ->
      Permutation (lines p1) (lines p2) ->
      buildFreightCacheKey Number_toString shop p1
      = buildFreightCacheKey Number_toString shop p2)
  /\ (forall shop p v,
         buildFreightCacheKey Number_toString shop (with_postalCode p v)
         = buildFreightCacheKey Number_toString shop p
         <-> JSString.trim v = JSString.trim (postalCode (shipToAddress p)))
  /\ (forall shop p v,
         buildFreightCacheKey Number_toString shop (with_countryCode p v)
         = buildFreightCacheKey Number_toString shop p
         <-> JSString.toUpperCase (JSString.trim v)
             = JSString.toUpperCase (JSString.trim (countryCode (shipToAddress p))))
  /\ (forall shop p v,
         buildFreightCacheKey Number_toString shop (with_city p v)
         = buildFreightCacheKey Number_toString shop p
         <-> JSString.toLowerCase (JSString.trim v)
             = JSString.toLowerCase (JSString.trim (city (shipToAddress p))))
  /\ (forall shop p v,
         buildFreightCacheKey Number_toString shop (with_addressLine1 p v)
         = buildFreightCacheKey Number_toString shop p
         <-> JSString.toLowerCase (JSString.trim v)
             = JSString.toLowerCase (JSString.trim (addressLine1 (shipToAddress p)))).
Proof.
  split; [|split; [|split; [|split]]].
  - intros shop p1 p2 Ha Hb Hs Hp. unfold buildFreightCacheKey.
    now rewrite Ha, Hb, Hs, (lineKey_perm _ _ _ Hp).
  - apply key_postalCode.
  - apply key_countryCode.
  - apply key_city.
  - apply key_addressLine1.
Qed.

Lemma buildFreightCacheKey_deterministic_witness :
  buildFreightCacheKey render "shop"
    (request_ [line_ "XYZ" 1; line_ "ABC" 2; line_ "LMN" 3])
  = buildFreightCacheKey render "shop"
      (request_ [line_ "LMN" 3; line_ "XYZ" 1; line_ "ABC" 2]).
Proof.
  apply (proj1 (buildFreightCacheKey_deterministic render) "shop").
  - reflexivity.
  - reflexivity.
  - reflexivity.
  - cbn [request_ lines]. symmetry.
    apply (Permutation_cons_app [line_ "XYZ" 1; line_ "ABC" 2] []).
    reflexivity.
Defined.

(** C3, the claim as stated fails: two requests that differ in the city
    only ("Austin", "AUSTIN") have the same key. *)
Lemma city_case_shares_key :
  city (shipToAddress (with_city (request_ [line_ "ABC" 2]) "AUSTIN"))
  <> city (shipToAddress (request_ [line_ "ABC" 2]))
  /\ forall Number_toString,
       buildFreightCacheKey Number_toString "shop"
         (with_city (request_ [line_ "ABC" 2]) "AUSTIN")
       = buildFreightCacheKey Number_toString "shop" (request_ [line_ "ABC" 2]).
Proof.
  split; [discriminate|].
  intros show. apply key_city. reflexivity.
Qed.

End FreightCacheKey.

(* ================================================================== *)
(** * ingram.server.ts: [requestFreightEstimate]

    The function is asynchronous: between its suspension points other
    requests run.  The embedding is a transition system over the module's
    two process-wide stores, [freightEstimateCache] and
    [inflightFreightRequests], with one transition per uninterrupted
    stretch of the function:
    - [Request]: lines 202-290, from the cache lookup to the registration
      of the in-flight promise (or an early return);
    - [Settle]: the upstream call of lines 218-288 comes back, with the
      answers of the credential store, the token service and the freight
      API, and the promise settles;
    - [Resume]: the caller that started the call resumes from
      [await requestPromise] and runs the [finally] block (lines 292-296).
    A promise is named by its index in the list of calls started so far. *)
(* ================================================================== *)
Module FreightEstimate.
Import JSNumber.
Local Open Scope string_scope.

Record CachedEstimate := {
  ingramCorrelationId : string;
  ce_response : string;
}.

Record EstimateResult := {
  correlationId : string;
  response : string;
  cacheHit : bool;
}.

(** A thrown error: an [IngramError] with its optional [status] and
    [details], or any other [Error] (both absent). *)
Record IngramError := {
  message : string;
  status : option Z;
  details : option string;
}.

Inductive outcome :=
| Fulfilled (r : EstimateResult)
| Rejected (e : IngramError).

Inductive promise_state :=
| Pending
| Settled (o : outcome).

(** An upstream call: its cache key, the state of [requestPromise], and
    whether the caller that started it has run its [finally] block. *)
Record call := {
  call_key : string;
  call_promise : promise_state;
  call_finalized : bool;
}.

Record state := {
  freightEstimateCache : TtlCache.cache CachedEstimate;
  inflightFreightRequests : JSMap.t nat;
  calls : list call;
}.

Definition FREIGHT_CACHE_TTL_MS : Z := 2 * 60 * 1000.
Definition FREIGHT_CACHE_MAX_ENTRIES : Z := 200.

Definition initial : state :=
  {| freightEstimateCache :=
       TtlCache.createTtlCache FREIGHT_CACHE_TTL_MS (Some FREIGHT_CACHE_MAX_ENTRIES);
     inflightFreightRequests := JSMap.empty;
     calls := [] |}.

(** What the collaborators answer to one upstream call: the credentials
    ([opts.credentials], or those on file; [None] when there are none and
    [getCredentialsOrThrow] throws), the access token (or the error
    [ensureAccessToken] throws), the fresh correlation id and the HTTP
    response of the freight API (or the error [fetch] throws). *)
Record Credentials := {
  contactEmail : string;
}.

Record HttpResponse := {
  ok : bool;
  http_status : Z;
  json : string;
}.

Record Upstream := {
  up_credentials : option Credentials;
  up_accessToken : IngramError + string;
  up_correlationId : string;
  up_response : IngramError + HttpResponse;
}.

(** The body of the async function of lines 218-288, but for the cache
    write: how the promise settles. *)
Definition upstream_outcome (u : Upstream) : outcome :=
  match up_credentials u with
  | None =>
      Rejected {| message := "No Ingram Micro credentials configured for shop.";
                  status := None; details := None |}
  | Some credentials =>
      if negb (JSString.truthy (contactEmail credentials)) then
        Rejected {| message := "Missing contact email. Update the credentials form before testing rates.";
                    status := None; details := None |}
      else
        match up_accessToken u with
        | inl e => Rejected e
        | inr _ =>
            match up_response u with
            | inl e => Rejected e
            | inr resp =>
                if ok resp then
                  Fulfilled {| correlationId := up_correlationId u;
                               response := json resp;
                               cacheHit := false |}
                else
                  Rejected {| message := "Failed to fetch freight estimate";
                              status := Some (http_status resp);
                              details := Some (json resp) |}
            end
        end
  end.

(** What a [Request] hands back to its caller before any suspension: a
    cached result, the in-flight promise of an earlier call, or the promise
    of the call it has just started. *)
Inductive reply :=
| CacheHit (r : EstimateResult)
| Joined (promise : nat)
| Started (promise : nat).

Section Machine.
Variable Number_toString : number -> string.

(** Lines 202-290. *)
Definition request (now : Z) (shopDomain : string)
    (payload : FreightCacheKey.RateTestInput) (st : state) : reply * state :=
  let cacheKey :=
    FreightCacheKey.buildFreightCacheKey Number_toString shopDomain payload in
  let '(cached, cache1) := TtlCache.get now cacheKey (freightEstimateCache st) in
  match cached with
  | Some entry =>
      (CacheHit {| correlationId := ingramCorrelationId entry;
                   response := ce_response entry;
                   cacheHit := true |},
       {| freightEstimateCache := cache1;
          inflightFreightRequests := inflightFreightRequests st;
          calls := calls st |})
  | None =>
      match JSMap.get cacheKey (inflightFreightRequests st) with
      | Some inflight =>
          (Joined inflight,
           {| freightEstimateCache := cache1;
              inflightFreightRequests := inflightFreightRequests st;
              calls := calls st |})
      | None =>
          let requestPromise := List.length (calls st) in
          (Started requestPromise,
           {| freightEstimateCache := cache1;
              inflightFreightRequests :=
                JSMap.set cacheKey requestPromise (inflightFreightRequests st);
              calls := (calls st ++ [ {| call_key := cacheKey;
                                         call_promise := Pending;
                                         call_finalized := false |} ])%list |})
      end
  end.

Fixpoint set_nth {A : Type} (n : nat) (x : A) (l : list A) : list A :=
  match l, n with
  | [], _ => []
  | _ :: l', O => x :: l'
  | y :: l', S n' => y :: set_nth n' x l'
  end.

(** The upstream call of [promise] comes back (lines 261-288): on success
    the result is cached; either way the promise settles. *)
Definition settle (now : Z) (promise : nat) (u : Upstream) (st : state)
  : option state :=
  match nth_error (calls st) promise with
  | Some {| call_key := cacheKey; call_promise := Pending; call_finalized := f |} =>
      let o := upstream_outcome u in
      Some {| freightEstimateCache :=
                match o with
                | Fulfilled r =>
                    TtlCache.set now cacheKey
                      {| ingramCorrelationId := correlationId r;
                         ce_response := response r |}
                      None (freightEstimateCache st)
                | Rejected _ => freightEstimateCache st
                end;
              inflightFreightRequests := inflightFreightRequests st;
              calls := set_nth promise
                         {| call_key := cacheKey;
                            call_promise := Settled o;
                            call_finalized := f |}
                         (calls st) |}
  | _ => None
  end.

(** The caller that started [promise] resumes from [await requestPromise]:
    whether the promise fulfilled (the [return]) or rejected (the rethrow),
    the [finally] block deletes the key (lines 292-296). *)
Definition resume (promise : nat) (st : state) : option state :=
  match nth_error (calls st) promise with
  | Some {| call_key := cacheKey; call_promise := Settled o;
            call_finalized := false |} =>
      Some {| freightEstimateCache := freightEstimateCache st;
              inflightFreightRequests :=
                JSMap.delete cacheKey (inflightFreightRequests st);
              calls := set_nth promise
                         {| call_key := cacheKey;
                            call_promise := Settled o;
                            call_finalized := true |}
                         (calls st) |}
  | _ => None
  end.

Inductive event :=
| Request (now : Z) (shopDomain : string) (payload : FreightCacheKey.RateTestInput)
| Settle (now : Z) (promise : nat) (u : Upstream)
| Resume (promise : nat).

Definition step (st : state) (ev : event) : option state :=
  match ev with
  | Request now shopDomain payload => Some (snd (request now shopDomain payload st))
  | Settle now promise u => settle now promise u st
  | Resume promise => resume promise st
  end.

(** The states the module's stores go through, from process start. *)
Inductive reachable : state -> Prop :=
| reachable_initial : reachable initial
| reachable_step st ev st' :
    reachable st -> step st ev = Some st' -> reachable st'.

End Machine.

(** What holds of the in-flight map in every state: its keys are distinct,
    and a key maps to a call started under that key whose [finally] block
    has not run yet. *)
Definition inflight_ok (st : state) : Prop :=
  NoDup (JSMap.keys (inflightFreightRequests st))
  /\ forall k promise,
       JSMap.get k (inflightFreightRequests st) = Some promise ->
       exists c, nth_error (calls st) promise = Some c
                 /\ call_key c = k /\ call_finalized c = false.

(** A [finally] block runs only after its promise has settled. *)
Definition calls_ok (st : state) : Prop :=
  forall promise c,
    nth_error (calls st) promise = Some c ->
    call_promise c = Pending -> call_finalized c = false.

Lemma nth_error_set_nth {A : Type} (l : list A) (n m : nat) (x : A) :
  nth_error (set_nth n x l) m
  = if Nat.eqb m n then option_map (fun _ => x) (nth_error l n)
    else nth_error l m.
Proof.
  revert n m. induction l as [| y l IH]; intros n m.
  - cbn. destruct (Nat.eqb m n); destruct n, m; reflexivity.
  - destruct n as [| n], m as [| m]; cbn; try reflexivity. apply IH.
Qed.

Section MachineFacts.
Variable Number_toString : number -> string.

Lemma request_inflight_ok now shop payload st :
  inflight_ok st -> inflight_ok (snd (request Number_toString now shop payload st)).
Proof.
  intros [Hnd Hin]. unfold request.
  set (k0 := FreightCacheKey.buildFreightCacheKey _ _ _).
  destruct (TtlCache.get now k0 (freightEstimateCache st)) as [[entry |] cache1];
    [split; assumption|].
  destruct (JSMap.get k0 (inflightFreightRequests st)) as [p |] eqn:Hg;
    [split; assumption|].
  cbn [snd]. split; cbn [inflightFreightRequests calls].
  - now apply JSMap.NoDup_keys_set.
  - intros k promise Hget. destruct (string_dec k k0) as [-> | Hne].
    + rewrite JSMap.get_set_same in Hget. injection Hget as <-.
      eexists. split.
      * rewrite nth_error_app2, Nat.sub_diag by lia. reflexivity.
      * split; reflexivity.
    + rewrite JSMap.get_set_other in Hget by assumption.
      destruct (Hin k promise Hget) as (c & Hc & Hk & Hf).
      exists c. split; [|auto].
      rewrite nth_error_app1; [assumption|].
      apply nth_error_Some. congruence.
Qed.

Lemma settle_inflight_ok now promise u st st' :
  inflight_ok st -> settle now promise u st = Some st' -> inflight_ok st'.
Proof.
  intros [Hnd Hin]. unfold settle.
  destruct (nth_error (calls st) promise) as [[k0 [| o] f] |] eqn:Hc;
    try discriminate.
  intros [= <-]. split; cbn [inflightFreightRequests calls]; [assumption|].
  intros k p Hget. destruct (Hin k p Hget) as (c & Hcp & Hk & Hf).
  rewrite nth_error_set_nth. destruct (Nat.eqb p promise) eqn:E.
  - apply Nat.eqb_eq in E. subst p. rewrite Hc in *. injection Hcp as <-.
    cbn in *. eexists. split; [reflexivity|]. cbn. auto.
  - exists c. auto.
Qed.

Lemma resume_inflight_ok promise st st' :
  inflight_ok st -> resume promise st = Some st' -> inflight_ok st'.
Proof.
  intros [Hnd Hin]. unfold resume.
  destruct (nth_error (calls st) promise) as [[k0 [| o] [|]] |] eqn:Hc;
    try discriminate.
  intros [= <-]. split; cbn [inflightFreightRequests calls].
  - now apply JSMap.NoDup_keys_delete.
  - intros k p Hget. destruct (string_dec k k0) as [-> | Hne].
    + rewrite JSMap.get_delete_same in Hget by assumption. discriminate.
    + rewrite JSMap.get_delete_other in Hget by assumption.
      destruct (Hin k p Hget) as (c & Hcp & Hk & Hf).
      rewrite nth_error_set_nth. destruct (Nat.eqb p promise) eqn:E.
      * apply Nat.eqb_eq in E. subst p. rewrite Hc in Hcp. injection Hcp as <-.
        cbn in Hk. congruence.
      * exists c. auto.
Qed.

Lemma reachable_inflight_ok st : reachable Number_toString st -> inflight_ok st.
Proof.
  induction 1 as [| st ev st' _ IH Hstep].
  - split; [constructor | discriminate].
  - destruct ev as [now shop payload | now promise u | promise]; cbn in Hstep.
    + injection Hstep as <-. now apply request_inflight_ok.
    + now apply (settle_inflight_ok now promise u st).
    + now apply (resume_inflight_ok promise st).
Qed.

Lemma reachable_calls_ok st : reachable Number_toString st -> calls_ok st.
Proof.
  induction 1 as [| st ev st' _ IH Hstep].
  - intros [|p] c H; discriminate.
  - destruct ev as [now shop payload | now promise u | promise]; cbn in Hstep.
    + injection Hstep as <-. unfold request.
      destruct (TtlCache.get now _ (freightEstimateCache st)) as [[entry |] cache1];
        [exact IH|].
      destruct (JSMap.get _ (inflightFreightRequests st)); [exact IH|].
      intros p c Hc Hp. cbn [snd calls] in Hc.
      destruct (Nat.lt_ge_cases p (List.length (calls st))) as [Hlt | Hge].
      * rewrite nth_error_app1 in Hc by assumption. now apply (IH p).
      * rewrite nth_error_app2 in Hc by assumption.
        destruct (p - List.length (calls st))%nat as [| [| n]];
          cbn in Hc; try discriminate.
        now injection Hc as <-.
    + unfold settle in Hstep.
      destruct (nth_error (calls st) promise) as [[k0 [| o] f] |] eqn:Hn;
        try discriminate.
      injection Hstep as <-. intros p c Hc Hp. cbn [calls] in Hc.
      rewrite nth_error_set_nth in Hc. destruct (Nat.eqb p promise).
      * rewrite Hn in Hc. cbn in Hc. injection Hc as <-. discriminate.
      * now apply (IH p).
    + unfold resume in Hstep.
      destruct (nth_error (calls st) promise) as [[k0 [| o] [|]] |] eqn:Hn;
        try discriminate.
      injection Hstep as <-. intros p c Hc Hp. cbn [calls] in Hc.
      rewrite nth_error_set_nth in Hc. destruct (Nat.eqb p promise).
      * rewrite Hn in Hc. cbn in Hc. injection Hc as <-. discriminate.
      * now apply (IH p).
Qed.

Lemma resume_clears promise c o st :
  inflight_ok st ->
  nth_error (calls st) promise = Some c ->
  call_promise c = Settled o -> call_finalized c = false ->
  exists st',
    resume promise st = Some st'
    /\ freightEstimateCache st' = freightEstimateCache st
    /\ JSMap.get (call_key c) (inflightFreightRequests st') = None.
Proof.
  intros [Hnd _] Hc Hp Hf. unfold resume. rewrite Hc.
  destruct c as [k0 p f]. cbn in *. subst p f.
  eexists. split; [reflexivity|]. split; [reflexivity|].
  cbn. now apply JSMap.get_delete_same.
Qed.

(** Once the key is neither cached nor in flight, a request starts an
    upstream call. *)
Lemma request_starts now shop payload st :
  fst (TtlCache.get now
         (FreightCacheKey.buildFreightCacheKey Number_toString shop payload)
         (freightEstimateCache st)) = None ->
  JSMap.get (FreightCacheKey.buildFreightCacheKey Number_toString shop payload)
            (inflightFreightRequests st) = None ->
  fst (request Number_toString now shop payload st)
  = Started (List.length (calls st)).
Proof.
  intros Hc Hi. unfold request.
  destruct (TtlCache.get now _ (freightEstimateCache st)) as [cached cache1].
  cbn in Hc. subst cached. now rewrite Hi.
Qed.

End MachineFacts.

(** C4.  In every state the stores can reach:
    - a call whose promise has settled, fulfilled or rejected alike, and
      whose starter has yet to resume: the starter's [finally] block runs,
      and after it the in-flight map has no entry for the call's key, so
      that a later request with that key and no live cached result starts
      a new upstream call;
    - a started call still pending: whatever the collaborators answer, the
      promise settles and the starter's [finally] block then clears the
      key;
    - an entry of the in-flight map always belongs to a call whose
      [finally] block has not run yet: no marker outlives its call. *)
Theorem inflight_marker_cleared_on_settlement
    (Number_toString : number -> string) (st : state) :
  reachable Number_toString st ->
  (forall promise c o,
      nth_error (calls st) promise = Some c ->
      call_promise c = Settled o -> call_finalized c = false ->
      exists st',
        resume promise st = Some st'
        /\ JSMap.get (call_key c) (inflightFreightRequests st') = None
        /\ forall now shop payload,
             FreightCacheKey.buildFreightCacheKey Number_toString shop payload
             = call_key c ->
             fst (TtlCache.get now (call_key c) (freightEstimateCache st')) = None ->
             fst (request Number_toString now shop payload st')
             = Started (List.length (calls st')))
  /\ (forall promise c now u,
         nth_error (calls st) promise = Some c ->
         call_promise c = Pending ->
         exists st1 st2,
           settle now promise u st = Some st1
           /\ nth_error (calls st1) promise
              = Some {| call_key := call_key c;
                        call_promise := Settled (upstream_outcome u);
                        call_finalized := false |}
           /\ resume promise st1 = Some st2
           /\ JSMap.get (call_key c) (inflightFreightRequests st2) = None)
  /\ (forall k promise,
         JSMap.get k (inflightFreightRequests st) = Some promise ->
         exists c, nth_error (calls st) promise = Some c
                   /\ call_key c = k /\ call_finalized c = false).
Proof.
  intros Hr.
  pose proof (reachable_inflight_ok Number_toString st Hr) as Hok.
  pose proof (reachable_calls_ok Number_toString st Hr) as Hcalls.
  split; [|split].
  - intros promise c o Hc Hp Hf.
    destruct (resume_clears promise c o st Hok Hc Hp Hf) as (st' & Hres & Hcache & Hget).
    exists st'. split; [assumption|]. split; [assumption|].
    intros now shop payload Hk Hmiss. apply request_starts; now rewrite Hk.
  - intros promise c now u Hc Hp.
    assert (Hf : call_finalized c = false) by now apply (Hcalls promise).
    destruct c as [k0 p f]. cbn in Hp, Hf. subst p f. cbn [call_key].
    assert (Hs : exists st1, settle now promise u st = Some st1).
    { unfold settle. rewrite Hc. eauto. }
    destruct Hs as (st1 & Hs).
    assert (Hn : nth_error (calls st1) promise
                 = Some {| call_key := k0;
                           call_promise := Settled (upstream_outcome u);
                           call_finalized := false |}).
    { unfold settle in Hs. rewrite Hc in Hs. injection Hs as <-. cbn [calls].
      rewrite nth_error_set_nth, Nat.eqb_refl, Hc. reflexivity. }
    pose proof (settle_inflight_ok now promise u st st1 Hok Hs) as Hok1.
    destruct (resume_clears promise _ _ st1 Hok1 Hn eq_refl eq_refl)
      as (st2 & Hres & _ & Hget).
    exists st1, st2. auto.
  - apply Hok.
Qed.

(** A freight API answering 500: the call fails. *)
Definition failing_upstream : Upstream :=
  {| up_credentials := Some {| contactEmail := "ops@example.com" |};
     up_accessToken := inr "token";
     up_correlationId := "c-1";
     up_response := inr {| ok := false; http_status := 500; json := "{}" |} |}.

Definition one_line_request : FreightCacheKey.RateTestInput :=
  FreightCacheKey.request_ [FreightCacheKey.line_ "ABC" 2].

Definition after_request : state :=
  snd (request FreightCacheKey.render 1 "shop" one_line_request initial).

Definition after_failure : state :=
  match settle 2 0 failing_upstream after_request with
  | Some st => st
  | None => after_request
  end.

Example failed_call_is_rejected :
  option_map call_promise (nth_error (calls after_failure) 0)
  = Some (Settled (Rejected {| message := "Failed to fetch freight estimate";
                               status := Some 500;
                               details := Some "{}" |})).
Proof. vm_compute. reflexivity. Qed.

Lemma inflight_marker_cleared_on_settlement_witness :
  exists st',
    resume 0 after_failure = Some st'
    /\ JSMap.get (FreightCacheKey.buildFreightCacheKey FreightCacheKey.render
                    "shop" one_line_request)
                 (inflightFreightRequests st') = None
    /\ forall now shop payload,
         FreightCacheKey.buildFreightCacheKey FreightCacheKey.render shop payload
         = FreightCacheKey.buildFreightCacheKey FreightCacheKey.render
             "shop" one_line_request ->
         fst (TtlCache.get now
                (FreightCacheKey.buildFreightCacheKey FreightCacheKey.render
                   "shop" one_line_request)
                (freightEstimateCache st')) = None ->
         fst (request FreightCacheKey.render now shop payload st')
         = Started (List.length (calls st')).
Proof.
  refine (proj1 (inflight_marker_cleared_on_settlement
                   FreightCacheKey.render after_failure _)
                0%nat
                {| call_key := FreightCacheKey.buildFreightCacheKey
                                 FreightCacheKey.render "shop" one_line_request;
                   call_promise := Settled (upstream_outcome failing_upstream);
                   call_finalized := false |}
                (upstream_outcome failing_upstream) _ _ _).
  - apply (reachable_step _ after_request (Settle 2 0 failing_upstream)).
    + apply (reachable_step _ initial (Request 1 "shop" one_line_request)).
      * apply reachable_initial.
      * reflexivity.
    + reflexivity.
  - reflexivity.
  - reflexivity.
  - reflexivity.
Defined.

End FreightEstimate.

(* ================================================================== *)
(** * ingram.server.ts: [getIngramMappingsForSkus] and
    [mappingArrayToRecord]

    The process-wide [skuCache] is threaded through the function.  The
    collaborators are arguments: the rows of the local [productMapping]
    table ([None] when the table cannot be read and [findMany] throws) and
    the remote catalogue, which is the message of the error
    [getSupabaseClient] throws, or the answer of the catalogue to a query
    ([None] for an error).  [Date.now()] is [now] while the cache is read,
    [now_local] once the local store has answered and [now_remote] once
    the remote has.  What the call does outside the cache is returned with
    its result: the queries sent to the remote and the rows written
    through to the local store.

    The record [mappingArrayToRecord] builds is a plain object: a
    property is read from the object's own properties and then from its
    prototype chain. *)
(* ================================================================== *)
Module ProductMapping.
Local Open Scope string_scope.

Record IngramSkuMapping := {
  sku : string;
  ingramPartNumber : string;
}.

(** A row of the local [productMapping] table. *)
Record ProductMappingRow := {
  row_shopDomain : string;
  row_sku : string;
  row_ingramPartNumber : string;
}.

(** A row of the remote table [final_product_table_us]. *)
Record RemoteRow := {
  price_vendor_part : string;
  price_part_nbr : string;
}.

Definition SKU_CACHE_TTL_MS : Z := 5 * 60 * 1000.
Definition SKU_CACHE_NEGATIVE_TTL_MS : Z := 60 * 1000.

(** The cached value is a mapping or [null]. *)
Definition SkuCache := TtlCache.cache (option IngramSkuMapping).

Definition skuCache : SkuCache :=
  TtlCache.createTtlCache SKU_CACHE_TTL_MS (Some 10000).

Definition cacheKeyOf (shopDomain s : string) : string :=
  shopDomain ++ "::" ++ s.

(** Lines 641-647. *)
Definition normalizedSkus (skus : list string) : list string :=
  JSSet.of_list (filter JSString.truthy (map JSString.trim skus)).

(** One round of the loop of lines 652-662. *)
Definition lookup_step (now : Z) (shopDomain : string)
    (acc : list IngramSkuMapping * list string * SkuCache) (s : string)
  : list IngramSkuMapping * list string * SkuCache :=
  let '(cachedResults, skusToQuery, cache) := acc in
  let '(cached, cache1) := TtlCache.get now (cacheKeyOf shopDomain s) cache in
  match cached with
  | Some (Some mapping) => ((cachedResults ++ [mapping])%list, skusToQuery, cache1)
  | Some None => (cachedResults, skusToQuery, cache1)
  | None => (cachedResults, (skusToQuery ++ [s])%list, cache1)
  end.

(** [prisma.productMapping.findMany({ where: { shopDomain, sku: { in } } })] *)
Definition findMany (shopDomain : string) (skus : list string)
    (table : list ProductMappingRow) : list ProductMappingRow :=
  filter (fun row => String.eqb (row_shopDomain row) shopDomain
                     && existsb (String.eqb (row_sku row)) skus)
         table.

Definition shaped (row : ProductMappingRow) : IngramSkuMapping :=
  {| sku := row_sku row; ingramPartNumber := row_ingramPartNumber row |}.

(** One round of the loop of lines 685-693. *)
Definition cache_local (now : Z) (shopDomain : string)
    (acc : list IngramSkuMapping * SkuCache) (row : ProductMappingRow)
  : list IngramSkuMapping * SkuCache :=
  let '(cachedResults, cache) := acc in
  ((cachedResults ++ [shaped row])%list,
   TtlCache.set now (cacheKeyOf shopDomain (row_sku row)) (Some (shaped row))
                None cache).

(** [dbMap.has(sku)] *)
Definition in_local (rows : list ProductMappingRow) (s : string) : bool :=
  existsb (fun row => String.eqb (row_sku row) s) rows.

(** One round of the loop of lines 702-705. *)
Definition cache_negative (now : Z) (shopDomain : string)
    (cache : SkuCache) (s : string) : SkuCache :=
  TtlCache.set now (cacheKeyOf shopDomain s) None
               (Some SKU_CACHE_NEGATIVE_TTL_MS) cache.

(** [fetchedBySku.get(sku)]: the last fetched row for the SKU. *)
Definition fetched_for (fetched : list IngramSkuMapping) (s : string)
  : option IngramSkuMapping :=
  find (fun m => String.eqb (sku m) s) (rev fetched).

(** One round of the loop of lines 753-761. *)
Definition cache_remote (now : Z) (shopDomain : string)
    (fetched : list IngramSkuMapping)
    (acc : list IngramSkuMapping * SkuCache) (s : string)
  : list IngramSkuMapping * SkuCache :=
  let '(cachedResults, cache) := acc in
  match fetched_for fetched s with
  | Some mapping =>
      ((cachedResults ++ [mapping])%list,
       TtlCache.set now (cacheKeyOf shopDomain s) (Some mapping)
                    (Some SKU_CACHE_TTL_MS) cache)
  | None =>
      (cachedResults,
       TtlCache.set now (cacheKeyOf shopDomain s) None
                    (Some SKU_CACHE_NEGATIVE_TTL_MS) cache)
  end.

(** A remote row as the mapping made of it (lines 723-726). *)
Definition of_remote (row : RemoteRow) : IngramSkuMapping :=
  {| sku := price_vendor_part row; ingramPartNumber := price_part_nbr row |}.

(** [supabase]: the message of the error [getSupabaseClient] throws when
    the client cannot be created, or what the client answers to the query
    for a list of SKUs ([None] for an error). *)
Record Collaborators := {
  productMapping : option (list ProductMappingRow);
  supabase : string + (list string -> option (list RemoteRow));
}.

Record Times := {
  now : Z;
  now_local : Z;
  now_remote : Z;
}.

Record Resolution := {
  returned : string + list IngramSkuMapping;
  cache_after : SkuCache;
  remoteQueries : list (list string);
  writtenThrough : list IngramSkuMapping;
}.

Definition getIngramMappingsForSkus (env : Collaborators) (t : Times)
    (shopDomain : string) (skus : list string)
    (allowSupabaseFallback : option bool) (cache : SkuCache) : Resolution :=
  match skus with
  | [] => {| returned := inr []; cache_after := cache;
             remoteQueries := []; writtenThrough := [] |}
  | _ =>
    let '(cachedResults, skusToQuery, cache1) :=
      fold_left (lookup_step (now t) shopDomain) (normalizedSkus skus)
                ([], [], cache) in
    match skusToQuery with
    | [] => {| returned := inr cachedResults; cache_after := cache1;
               remoteQueries := []; writtenThrough := [] |}
    | _ =>
      let '(dbMappings, prismaAvailable) :=
        match productMapping env with
        | Some table => (findMany shopDomain skusToQuery table, true)
        | None => ([], false)
        end in
      let '(cachedResults2, cache2) :=
        fold_left (cache_local (now_local t) shopDomain) dbMappings
                  (cachedResults, cache1) in
      let missingSkus :=
        filter (fun s => negb (in_local dbMappings s)) skusToQuery in
      match missingSkus with
      | [] => {| returned := inr cachedResults2; cache_after := cache2;
                 remoteQueries := []; writtenThrough := [] |}
      | _ =>
        match allowSupabaseFallback with
        | Some false =>
            {| returned := inr cachedResults2;
               cache_after :=
                 fold_left (cache_negative (now_local t) shopDomain)
                           missingSkus cache2;
               remoteQueries := [];
               writtenThrough := [] |}
        | _ =>
            match supabase env with
            | inl message =>
                {| returned := inl message;
                   cache_after := cache2;
                   remoteQueries := [];
                   writtenThrough := [] |}
            | inr query =>
                match query missingSkus with
                | None =>
                    {| returned :=
                         inl "Unable to retrieve SKU mappings from Supabase";
                       cache_after := cache2;
                       remoteQueries := [missingSkus];
                       writtenThrough := [] |}
                | Some data =>
                    let fetched := map of_remote data in
                    let '(cachedResults3, cache3) :=
                      fold_left (cache_remote (now_remote t) shopDomain fetched)
                                missingSkus (cachedResults2, cache2) in
                    {| returned := inr cachedResults3;
                       cache_after := cache3;
                       remoteQueries := [missingSkus];
                       writtenThrough :=
                         match fetched with
                         | [] => []
                         | _ => if prismaAvailable then fetched else []
                         end |}
                end
            end
        end
      end
    end
  end.

(** ** [mappingArrayToRecord]

    The record is a plain object [{}]: a read of [record[key]] that finds
    no own property goes on to the prototype.  The prototype is
    [Object.prototype] until an assignment to the key [__proto__], which
    creates no own property but makes the assigned mapping the prototype
    (whose own prototype is [Object.prototype]). *)

Record MappingRecord := {
  own : JSMap.t IngramSkuMapping;
  proto : option IngramSkuMapping;
}.

(** What a read of the record yields: a mapping (an own property, or the
    mapping made the prototype, read under [__proto__]); a string, the
    property [sku] or [ingramPartNumber] of the mapping made the prototype;
    or a member of [Object.prototype] (a function, or that object itself
    under [__proto__]). *)
Inductive property :=
| Mapping (mapping : IngramSkuMapping)
| Text (s : string)
| Inherited.

(** The names of the function-valued properties of [Object.prototype]. *)
Definition Object_prototype_names : list string :=
  [ "constructor"; "__defineGetter__"; "__defineSetter__"; "hasOwnProperty";
    "__lookupGetter__"; "__lookupSetter__"; "isPrototypeOf";
    "propertyIsEnumerable"; "toString"; "valueOf"; "toLocaleString" ].

(** [acc[mapping.sku] = mapping] *)
Definition assign (acc : MappingRecord) (mapping : IngramSkuMapping)
  : MappingRecord :=
  if String.eqb (sku mapping) "__proto__"
  then {| own := own acc; proto := Some mapping |}
  else {| own := JSMap.set (sku mapping) mapping (own acc); proto := proto acc |}.

Definition mappingArrayToRecord (mappings : list IngramSkuMapping)
  : MappingRecord :=
  fold_left assign mappings {| own := JSMap.empty; proto := None |}.

(** [record[key]]; [None] is [undefined]. *)
Definition read (record : MappingRecord) (key : string) : option property :=
  if String.eqb key "__proto__" then
    Some match proto record with
         | Some mapping => Mapping mapping
         | None => Inherited
         end
  else
    match JSMap.get key (own record) with
    | Some mapping => Some (Mapping mapping)
    | None =>
        let inherited :=
          if existsb (String.eqb key) Object_prototype_names
          then Some Inherited else None in
        match proto record with
        | Some mapping =>
            if String.eqb key "sku" then Some (Text (sku mapping))
            else if String.eqb key "ingramPartNumber"
                 then Some (Text (ingramPartNumber mapping))
                 else inherited
        | None => inherited
        end
    end.

(** Truthiness of what was read. *)
Definition truthy_property (p : option property) : bool :=
  match p with
  | Some (Text s) => JSString.truthy s
  | Some _ => true
  | None => false
  end.

(** [value.ingramPartNumber] of what was read and is not [undefined]: only
    a mapping has the property. *)
Definition part_number (p : property) : option string :=
  match p with
  | Mapping mapping => Some (ingramPartNumber mapping)
  | _ => None
  end.


(** ** The call, read off its input *)

(** [s] is a SKU the call asks for: an input SKU, trimmed, that is not
    blank. *)
Definition requested (skus : list string) (s : string) : Prop :=
  s <> "" /\ exists s0, In s0 skus /\ JSString.trim s0 = s.

(** The members of [l] not in [seen], each once, in order of first
    appearance. *)
Fixpoint first_occurrences (seen l : list string) : list string :=
  match l with
  | [] => []
  | x :: l' =>
      if existsb (String.eqb x) seen then first_occurrences seen l'
      else x :: first_occurrences (seen ++ [x]) l'
  end.

(** The requested SKUs, each once, in order of first appearance in the
    input. *)
Definition asked (skus : list string) : list string :=
  first_occurrences []
    (filter (fun s => negb (String.eqb s "")) (map JSString.trim skus)).

(** What the cache answers for a SKU when the call starts. *)
Definition cached_at (t : Times) (shopDomain : string) (cache : SkuCache)
    (s : string) : option (option IngramSkuMapping) :=
  fst (TtlCache.get (now t) (cacheKeyOf shopDomain s) cache).

Definition cache_hits (t : Times) (shopDomain : string) (cache : SkuCache)
    (skus : list string) : list IngramSkuMapping :=
  flat_map (fun s => match cached_at t shopDomain cache s with
                     | Some (Some mapping) => [mapping]
                     | _ => []
                     end)
           (asked skus).

Definition uncached (t : Times) (shopDomain : string) (cache : SkuCache)
    (skus : list string) : list string :=
  filter (fun s => match cached_at t shopDomain cache s with
                   | None => true
                   | Some _ => false
                   end)
         (asked skus).

Definition local_hits (env : Collaborators) (t : Times) (shopDomain : string)
    (cache : SkuCache) (skus : list string) : list ProductMappingRow :=
  match productMapping env with
  | Some table => findMany shopDomain (uncached t shopDomain cache skus) table
  | None => []
  end.

(** The SKUs still unresolved after the cache and the local store. *)
Definition unresolved (env : Collaborators) (t : Times) (shopDomain : string)
    (cache : SkuCache) (skus : list string) : list string :=
  filter (fun s => negb (in_local (local_hits env t shopDomain cache skus) s))
         (uncached t shopDomain cache skus).

(** The local table is readable and holds a row of the shop for [s]. *)
Definition local_row (env : Collaborators) (shopDomain s : string)
    (row : ProductMappingRow) : Prop :=
  exists table,
    productMapping env = Some table /\ In row table
    /\ row_shopDomain row = shopDomain /\ row_sku row = s.


(** What the call hands back when the cache and the local store are all
    it asks. *)
Definition resolved (env : Collaborators) (t : Times) (shopDomain : string)
    (cache : SkuCache) (skus : list string) : list IngramSkuMapping :=
  (cache_hits t shopDomain cache skus
   ++ map shaped (local_hits env t shopDomain cache skus))%list.

Lemma cacheKeyOf_inj (shopDomain s s' : string) :
  cacheKeyOf shopDomain s = cacheKeyOf shopDomain s' -> s = s'.
Proof.
  unfold cacheKeyOf. intros H.
  apply JSString.append_cancel_l in H. now apply JSString.append_cancel_l in H.
Qed.

(** ** The requested SKUs *)

Lemma existsb_eqb_In (x : string) (l : list string) :
  existsb (String.eqb x) l = true <-> In x l.
Proof.
  rewrite existsb_exists. split.
  - intros (y & Hy & E). apply String.eqb_eq in E. now subst.
  - intros H. exists x. split; [assumption | apply String.eqb_refl].
Qed.

Lemma add_all_first_occurrences (l : list string) :
  forall s, JSSet.add_all l s = (s ++ first_occurrences s l)%list.
Proof.
  induction l as [| x l IH]; intros s; cbn [first_occurrences].
  - cbn. now rewrite app_nil_r.
  - change (JSSet.add_all (x :: l) s) with (JSSet.add_all l (JSSet.add x s)).
    rewrite IH. unfold JSSet.add.
    destruct (in_dec string_dec x s) as [Hin | Hin].
    + apply existsb_eqb_In in Hin. now rewrite Hin.
    + assert (E : existsb (String.eqb x) s = false).
      { apply not_true_is_false. intros H. now apply existsb_eqb_In in H. }
      rewrite E. now rewrite <- app_assoc.
Qed.

Lemma normalizedSkus_asked (skus : list string) : normalizedSkus skus = asked skus.
Proof.
  unfold normalizedSkus, asked, JSSet.of_list.
  now rewrite add_all_first_occurrences.
Qed.

Lemma asked_requested (skus : list string) (s : string) :
  In s (asked skus) <-> requested skus s.
Proof.
  rewrite <- normalizedSkus_asked. unfold normalizedSkus, requested.
  rewrite JSSet.In_of_list, filter_In, in_map_iff. unfold JSString.truthy.
  rewrite negb_true_iff, String.eqb_neq. split.
  - intros [(s0 & E & Hin) Hne]. split; [assumption|]. now exists s0.
  - intros [Hne (s0 & Hin & E)]. split; [now exists s0 | assumption].
Qed.


(** ** The cache along the call *)


(** After a read that found nothing the key is not in the store. *)
Lemma get_absent (now : Z) (k : string) (c : SkuCache) :
  NoDup (TtlCache.keys c) ->
  fst (TtlCache.get now k c) = None ->
  ~ In k (TtlCache.keys (snd (TtlCache.get now k c))).
Proof.
  intros Hnd. unfold TtlCache.get.
  destruct (JSMap.get k (TtlCache.store c)) as [e |] eqn:Hg.
  - destruct (TtlCache.expiresAt e <=? now)%Z; [|discriminate].
    intros _. cbn. apply JSMap.get_None_keys. now apply JSMap.get_delete_same.
  - intros _. cbn. now apply JSMap.get_None_keys.
Qed.

Lemma lookup_step_cache (now : Z) (shopDomain : string)
    (acc : list IngramSkuMapping * list string * SkuCache) (s : string) :
  snd (lookup_step now shopDomain acc s)
  = snd (TtlCache.get now (cacheKeyOf shopDomain s) (snd acc)).
Proof.
  destruct acc as [[cr tq] cache]. unfold lookup_step. cbn [snd].
  destruct (TtlCache.get now (cacheKeyOf shopDomain s) cache) as [cached cache1].
  now destruct cached as [[mapping |] |].
Qed.

(** The first loop reads every SKU as the cache stood when the call
    started. *)
Lemma lookup_fold (now : Z) (shopDomain : string) (cache0 : SkuCache)
    (ss : list string) :
  forall cachedResults skusToQuery cache,
    TtlCache.pruned now cache0 cache ->
    exists cache1,
      fold_left (lookup_step now shopDomain) ss (cachedResults, skusToQuery, cache)
      = ((cachedResults
          ++ flat_map (fun s =>
                         match fst (TtlCache.get now (cacheKeyOf shopDomain s) cache0) with
                         | Some (Some mapping) => [mapping]
                         | _ => []
                         end) ss)%list,
         (skusToQuery
          ++ filter (fun s =>
                       match fst (TtlCache.get now (cacheKeyOf shopDomain s) cache0) with
                       | None => true
                       | Some _ => false
                       end) ss)%list,
         cache1)
      /\ TtlCache.pruned now cache0 cache1.
Proof.
  induction ss as [| s ss IH]; intros cr tq cache Hp.
  - exists cache. cbn. now rewrite !app_nil_r.
  - cbn [fold_left flat_map filter]. unfold lookup_step at 2.
    destruct (TtlCache.get_pruned now cache0 cache (cacheKeyOf shopDomain s) Hp)
      as [Hfst Hp'].
    destruct (TtlCache.get now (cacheKeyOf shopDomain s) cache) as [cached cache'].
    cbn [fst snd] in Hfst, Hp'. rewrite <- Hfst.
    destruct cached as [[mapping |] |].
    + destruct (IH (cr ++ [mapping])%list tq cache' Hp') as (c1 & -> & Hc1).
      exists c1. split; [|assumption]. now rewrite <- app_assoc.
    + destruct (IH cr tq cache' Hp') as (c1 & -> & Hc1).
      exists c1. split; [reflexivity | assumption].
    + destruct (IH cr (tq ++ [s])%list cache' Hp') as (c1 & -> & Hc1).
      exists c1. split; [|assumption]. now rewrite <- app_assoc.
Qed.

(** A SKU the cache did not know has no key in the store once the first
    loop is over: an expired entry is deleted by the read. *)
Lemma lookup_fold_absent (now : Z) (shopDomain : string) (cache0 : SkuCache)
    (ss : list string) :
  forall cachedResults skusToQuery cache s,
    TtlCache.pruned now cache0 cache ->
    In s ss ->
    fst (TtlCache.get now (cacheKeyOf shopDomain s) cache0) = None ->
    ~ In (cacheKeyOf shopDomain s)
         (TtlCache.keys
            (snd (fold_left (lookup_step now shopDomain) ss
                            (cachedResults, skusToQuery, cache)))).
Proof.
  induction ss as [| s0 ss IH]; intros cr tq cache s Hp Hin Hnone; [contradiction|].
  cbn [fold_left].
  destruct (TtlCache.get_pruned now cache0 cache (cacheKeyOf shopDomain s0) Hp)
    as [Hfst Hp'].
  pose proof (lookup_step_cache now shopDomain (cr, tq, cache) s0) as Hc.
  cbn [snd] in Hc.
  destruct (lookup_step now shopDomain (cr, tq, cache) s0) as [[cr1 tq1] cache1].
  cbn [snd] in Hc. subst cache1.
  destruct (string_dec s s0) as [-> | Hne].
  - assert (Habs : ~ In (cacheKeyOf shopDomain s0)
                        (TtlCache.keys
                           (snd (TtlCache.get now (cacheKeyOf shopDomain s0) cache)))).
    { apply get_absent; [apply Hp | congruence]. }
    destruct (lookup_fold now shopDomain _ ss cr1 tq1 _
                (TtlCache.pruned_refl now _ (proj1 Hp')))
      as (c1 & Hf & (_ & _ & _ & Hincl & _)).
    apply (f_equal snd) in Hf. cbn [snd] in Hf.
    intros H. apply Habs, Hincl. rewrite <- Hf. exact H.
  - destruct Hin as [-> | Hin]; [contradiction|]. now apply IH.
Qed.

Lemma cache_local_fold (now : Z) (shopDomain : string)
    (rows : list ProductMappingRow) :
  forall cachedResults cache,
    fst (fold_left (cache_local now shopDomain) rows (cachedResults, cache))
    = (cachedResults ++ map shaped rows)%list.
Proof.
  induction rows as [| row rows IH]; intros cr cache; cbn.
  - now rewrite app_nil_r.
  - rewrite IH. now rewrite <- app_assoc.
Qed.

Lemma set_keys_incl (now : Z) (k : string) (v : option IngramSkuMapping)
    (ttl : option Z) (c : SkuCache) (x : string) :
  In x (TtlCache.keys (TtlCache.set now k v ttl c)) ->
  x = k \/ In x (TtlCache.keys c).
Proof.
  unfold TtlCache.keys. rewrite TtlCache.set_store. cbv zeta. intros H.
  assert (H' : In x (JSMap.keys (JSMap.set k
                 {| TtlCache.value := v;
                    TtlCache.expiresAt :=
                      now + match ttl with
                            | Some t => t
                            | None => TtlCache.ttlMs c
                            end |} (TtlCache.store c)))).
  { destruct (_ >? _); [|assumption].
    rewrite TtlCache.keys_tl in H.
    destruct (JSMap.keys _); [contradiction | now right]. }
  rewrite JSMap.keys_set in H'. now apply JSSet.In_add in H'.
Qed.

(** The second loop adds keys of local rows only. *)
Lemma cache_local_cache (now : Z) (shopDomain : string)
    (rows : list ProductMappingRow) :
  forall cachedResults cache,
    NoDup (TtlCache.keys cache) ->
    let cache2 :=
      snd (fold_left (cache_local now shopDomain) rows (cachedResults, cache)) in
    NoDup (TtlCache.keys cache2)
    /\ TtlCache.maxEntries cache2 = TtlCache.maxEntries cache
    /\ forall k, In k (TtlCache.keys cache2) ->
         In k (TtlCache.keys cache)
         \/ exists row, In row rows /\ k = cacheKeyOf shopDomain (row_sku row).
Proof.
  induction rows as [| row rows IH]; intros cr cache Hnd; cbv zeta.
  - cbn. auto.
  - cbn [fold_left cache_local].
    specialize (IH (cr ++ [shaped row])%list
                   (TtlCache.set now (cacheKeyOf shopDomain (row_sku row))
                                 (Some (shaped row)) None cache)
                   (TtlCache.set_NoDup _ _ _ _ _ Hnd)).
    cbv zeta in IH. destruct IH as (Hnd' & Hmax & Hkeys).
    split; [assumption|]. split.
    + rewrite Hmax. apply TtlCache.set_options.
    + intros k Hk. apply Hkeys in Hk as [Hk | (r & Hr & ->)].
      * apply set_keys_incl in Hk as [-> | Hk]; [|now left].
        right. exists row. split; [now left | reflexivity].
      * right. exists r. split; [now right | reflexivity].
Qed.

Lemma findMany_nil (shopDomain : string) (table : list ProductMappingRow) :
  findMany shopDomain [] table = [].
Proof.
  unfold findMany. induction table as [| row table IH]; cbn; [reflexivity|].
  now rewrite andb_false_r.
Qed.

Lemma findMany_In (shopDomain : string) (ss : list string)
    (table : list ProductMappingRow) (row : ProductMappingRow) :
  In row (findMany shopDomain ss table)
  <-> In row table /\ row_shopDomain row = shopDomain /\ In (row_sku row) ss.
Proof.
  unfold findMany. rewrite filter_In, andb_true_iff, String.eqb_eq, existsb_eqb_In.
  tauto.
Qed.

Lemma findMany_sku (shopDomain : string) (ss : list string)
    (table : list ProductMappingRow) (row : ProductMappingRow) :
  In row (findMany shopDomain ss table) -> In (row_sku row) ss.
Proof. intros H. now apply findMany_In in H. Qed.

Lemma in_local_In (rows : list ProductMappingRow) (s : string) :
  in_local rows s = true <-> exists row, In row rows /\ row_sku row = s.
Proof.
  unfold in_local. rewrite existsb_exists. split.
  - intros (row & Hin & E). apply String.eqb_eq in E. now exists row.
  - intros (row & Hin & E). exists row. split; [assumption|].
    now apply String.eqb_eq.
Qed.







(** ** The call as its input determines it *)

Lemma unresolved_In (env : Collaborators) (t : Times) (shopDomain : string)
    (cache : SkuCache) (skus : list string) (s : string) :
  In s (unresolved env t shopDomain cache skus)
  <-> requested skus s
      /\ cached_at t shopDomain cache s = None
      /\ forall row, ~ local_row env shopDomain s row.
Proof.
  unfold unresolved, uncached. rewrite !filter_In, asked_requested.
  rewrite negb_true_iff. split.
  - intros [[Hr Hc] Hloc]. split; [assumption|]. split.
    + now destruct (cached_at t shopDomain cache s).
    + intros row (table & Htable & Hin & Hshop & Hsku).
      assert (E : in_local (local_hits env t shopDomain cache skus) s = true).
      { apply in_local_In. exists row. split; [|assumption].
        unfold local_hits. rewrite Htable. apply findMany_In.
        split; [assumption|]. split; [assumption|].
        unfold uncached. rewrite filter_In, asked_requested, Hsku.
        split; [assumption|]. exact Hc. }
      congruence.
  - intros (Hr & Hc & Hloc). split; [split; [assumption | now rewrite Hc]|].
    apply not_true_is_false. intros E. apply in_local_In in E as (row & Hin & Hsku).
    unfold local_hits in Hin.
    destruct (productMapping env) as [table |] eqn:Htable; [|contradiction].
    apply findMany_In in Hin as (Hin & Hshop & _).
    apply (Hloc row). now exists table.
Qed.



Lemma let_pair {A B C : Type} (p : A * B) (f : A -> B -> C) :
  (let '(a, b) := p in f a b) = f (fst p) (snd p).
Proof. now destruct p. Qed.

(** The call in one equation: what it returns and does, by the SKUs left
    unresolved, the option and the remote; [cache2] is the cache once the
    local rows are cached, where no unresolved SKU has a key. *)
Lemma resolution_shape (env : Collaborators) (t : Times) (shopDomain : string)
    (skus : list string) (allowSupabaseFallback : option bool) (cache : SkuCache) :
  NoDup (TtlCache.keys cache) ->
  exists cache2,
    NoDup (TtlCache.keys cache2)
    /\ TtlCache.maxEntries cache2 = TtlCache.maxEntries cache
    /\ (forall s, In s (unresolved env t shopDomain cache skus) ->
                  ~ In (cacheKeyOf shopDomain s) (TtlCache.keys cache2))
    /\ (forall k, In k (TtlCache.keys cache2) ->
           In k (TtlCache.keys cache)
           \/ exists row, In row (local_hits env t shopDomain cache skus)
                          /\ k = cacheKeyOf shopDomain (row_sku row))
    /\ getIngramMappingsForSkus env t shopDomain skus allowSupabaseFallback cache
       = let done := resolved env t shopDomain cache skus in
         let missing := unresolved env t shopDomain cache skus in
         match missing with
         | [] => {| returned := inr done; cache_after := cache2;
                    remoteQueries := []; writtenThrough := [] |}
         | _ =>
           match allowSupabaseFallback with
           | Some false =>
               {| returned := inr done;
                  cache_after :=
                    fold_left (cache_negative (now_local t) shopDomain)
                              missing cache2;
                  remoteQueries := []; writtenThrough := [] |}
           | _ =>
               match supabase env with
               | inl message =>
                   {| returned := inl message; cache_after := cache2;
                      remoteQueries := []; writtenThrough := [] |}
               | inr query =>
                   match query missing with
                   | None =>
                       {| returned :=
                            inl "Unable to retrieve SKU mappings from Supabase";
                          cache_after := cache2;
                          remoteQueries := [missing]; writtenThrough := [] |}
                   | Some data =>
                       let after :=
                         fold_left (cache_remote (now_remote t) shopDomain
                                                 (map of_remote data))
                                   missing (done, cache2) in
                       {| returned := inr (fst after);
                          cache_after := snd after;
                          remoteQueries := [missing];
                          writtenThrough :=
                            match productMapping env with
                            | Some _ => map of_remote data
                            | None => []
                            end |}
                   end
               end
           end
         end.
Proof.
  intros Hnd. cbv zeta.
  unfold resolved, unresolved, local_hits, cache_hits, uncached, cached_at.
  unfold getIngramMappingsForSkus. rewrite normalizedSkus_asked.
  assert (Hl : match productMapping env with
               | Some table => findMany shopDomain [] table
               | None => []
               end = []).
  { destruct (productMapping env); [apply findMany_nil | reflexivity]. }
  destruct skus as [| s0 skus'].
  { exists cache. cbn. rewrite Hl. cbn.
    split; [assumption|]. split; [reflexivity|]. split; [intros s []|].
    split; [now left | reflexivity]. }
  set (skus := s0 :: skus') in *.
  destruct (lookup_fold (now t) shopDomain cache (asked skus) [] [] cache
              (TtlCache.pruned_refl (now t) cache Hnd)) as (cache1 & Hfold & Hp).
  pose proof (lookup_fold_absent (now t) shopDomain cache (asked skus) [] [] cache)
    as Habs.
  assert (Hcache1 : snd (fold_left (lookup_step (now t) shopDomain) (asked skus)
                                   ([], [], cache)) = cache1)
    by (apply (f_equal snd) in Hfold; exact Hfold).
  match type of Hfold with
  | _ = ?rhs =>
      match goal with
      | |- context [fold_left (lookup_step ?n ?d) ?l ?a] =>
          replace (fold_left (lookup_step n d) l a) with rhs
            by (symmetry; exact Hfold)
      end
  end.
  cbn [app].
  set (hits := flat_map _ (asked skus)).
  set (toQuery := filter _ (asked skus)) in *.
  assert (Habs1 : forall s, In s toQuery ->
                            ~ In (cacheKeyOf shopDomain s) (TtlCache.keys cache1)).
  { intros s Hs. unfold toQuery in Hs. apply filter_In in Hs as [Hs Hc].
    rewrite <- Hcache1.
    apply Habs; [now apply TtlCache.pruned_refl | assumption |].
    now destruct (fst (TtlCache.get (now t) (cacheKeyOf shopDomain s) cache)). }
  destruct toQuery as [| q toQuery'] eqn:HtoQuery.
  { exists cache1. rewrite Hl. cbn. rewrite app_nil_r.
    split; [apply Hp|]. split; [apply Hp|]. split; [intros s []|].
    split; [|reflexivity].
    intros k Hk. left. now apply (proj1 (proj2 (proj2 (proj2 Hp)))). }
  rewrite <- HtoQuery in *. clear HtoQuery.
  set (rows := match productMapping env with
               | Some table => findMany shopDomain toQuery table
               | None => []
               end).
  assert (Hrows : match productMapping env with
                  | Some table => (findMany shopDomain toQuery table, true)
                  | None => ([], false)
                  end
                  = (rows, match productMapping env with
                           | Some _ => true
                           | None => false
                           end)).
  { subst rows. now destruct (productMapping env). }
  rewrite Hrows.
  set (F := fold_left (cache_local (now_local t) shopDomain) rows (hits, cache1)).
  assert (Hcr : fst F = (hits ++ map shaped rows)%list)
    by apply cache_local_fold.
  assert (Hc2 : NoDup (TtlCache.keys (snd F))
                /\ TtlCache.maxEntries (snd F) = TtlCache.maxEntries cache1
                /\ forall k, In k (TtlCache.keys (snd F)) ->
                     In k (TtlCache.keys cache1)
                     \/ exists row, In row rows
                                    /\ k = cacheKeyOf shopDomain (row_sku row))
    by (apply (cache_local_cache (now_local t) shopDomain rows hits cache1);
        apply Hp).
  clearbody F. destruct F as [cachedResults2 cache2].
  cbn [fst snd] in Hcr, Hc2. subst cachedResults2.
  destruct Hc2 as (Hnd2 & Hmax2 & Hkeys2).
  exists cache2. split; [assumption|].
  split; [rewrite Hmax2; apply Hp|]. split.
  { intros s Hs. apply filter_In in Hs as [Hs Hloc]. intros Hk.
    apply Hkeys2 in Hk as [Hk | (row & Hrow & Hk)].
    - now apply (Habs1 s).
    - apply cacheKeyOf_inj in Hk. apply negb_true_iff in Hloc.
      assert (E : in_local rows s = true)
        by (apply in_local_In; now exists row).
      congruence. }
  split.
  { intros k Hk. apply Hkeys2 in Hk as [Hk | Hk]; [left | now right].
    now apply (proj1 (proj2 (proj2 (proj2 Hp)))). }
  destruct (filter (fun s => negb (in_local rows s)) toQuery) as [| m ms] eqn:Hmiss;
    [reflexivity|].
  destruct allowSupabaseFallback as [[] |].
  - destruct (supabase env) as [message | query]; [reflexivity|].
    destruct (query (m :: ms)) as [data |]; [|reflexivity].
    etransitivity; [apply let_pair|]. cbv beta.
    f_equal; try reflexivity.
    destruct (productMapping env); destruct (map of_remote data); reflexivity.
  - reflexivity.
  - destruct (supabase env) as [message | query]; [reflexivity|].
    destruct (query (m :: ms)) as [data |]; [|reflexivity].
    etransitivity; [apply let_pair|]. cbv beta.
    f_equal; try reflexivity.
    destruct (productMapping env); destruct (map of_remote data); reflexivity.
Qed.


(** A shop whose local store knows [ABC] only; the remote would know
    [XYZ]. *)
Definition local_only : Collaborators :=
  {| productMapping :=
       Some [ {| row_shopDomain := "shop"; row_sku := "ABC";
                 row_ingramPartNumber := "IM-1" |} ];
     supabase := inr (fun _ =>
       Some [ {| price_vendor_part := "XYZ"; price_part_nbr := "IM-2" |} ]) |}.

Definition at_noon : Times :=
  {| now := 1000; now_local := 1005; now_remote := 1200 |}.

Example resolve_without_fallback :
  let R := getIngramMappingsForSkus local_only at_noon "shop"
             [" ABC"; "XYZ"; ""; "ABC"] (Some false) skuCache in
  returned R = inr [ {| sku := "ABC"; ingramPartNumber := "IM-1" |} ]
  /\ remoteQueries R = []
  /\ map (fun e => (fst e, TtlCache.value (snd e), TtlCache.expiresAt (snd e)))
         (TtlCache.store (cache_after R))
     = [ ("shop::ABC", Some {| sku := "ABC"; ingramPartNumber := "IM-1" |}, 301005);
         ("shop::XYZ", None, 61005) ].
Proof. vm_compute. repeat split. Qed.


(** ** A call that leaves more SKUs unresolved than the cache holds *)

(** The SKUs [0], [1], ... below [n]. *)
Definition number (k : nat) : string := NilEmpty.string_of_uint (Nat.to_uint k).














(** ** Facts about the record *)





End ProductMapping.

(* ================================================================== *)
(** * routes/api.cart-estimate.ts: [loader] and [action]

    The handler awaits its collaborators one after the other; each answer,
    a value or a thrown error, is an argument.  The [try] block is a
    computation in the error monad [result], with the early [return]s as
    its values, and the [catch] clause is applied to it.  The formatting of
    the rates of the successful answer (lines 233-246: display name,
    price, a sort by price and the cut to five) is the parameter
    [present]; it cannot throw. *)
(* ================================================================== *)
Module CartEstimate.
Import JSNumber.
Local Open Scope string_scope.

(** A value, or the error thrown in its place. *)
Inductive result (A : Type) : Type :=
| Ok (a : A)
| Throw (e : string).
Arguments Ok {A} a.
Arguments Throw {A} e.

Definition bind {A B : Type} (c : result A) (k : A -> result B) : result B :=
  match c with
  | Ok a => k a
  | Throw e => Throw e
  end.

Notation "x <- c ;; k" := (bind c (fun x => k))
  (at level 61, c at next level, right associativity).

Record CartAddress := {
  country : option string;
  province : option string;
  city : option string;
  zip : option string;
}.

Record CartItem := {
  item_sku : option string;
  item_quantity : number;
}.

Record CartEstimateRequest := {
  shop : option string;
  address : option CartAddress;
  items : option (list CartItem);
}.

Record FreightEstimateResponse := {
  currencyCode : option string;
  distribution : option (list RateCombiner.IngramDistribution);
}.

Record CarrierConfig := {
  cc_carrierCode : string;
  cc_displayName : option string;
}.

(** The request methods.  The framework calls the route's [action] for
    the methods that submit, [POST], [PUT], [PATCH] and [DELETE], and its
    [loader] for the others; both handlers answer the preflight [OPTIONS]
    alike. *)
Inductive method := GET | HEAD | POST | PUT | PATCH | DELETE | OPTIONS.

(** The answers of the collaborators: the parsed body of the request;
    [getCredentials] ([None] for [null]); the SKU resolver; the freight
    estimate ([None] when the answer carries no [freightEstimateResponse]);
    the carrier configuration store. *)
Record Collaborators := {
  json : result CartEstimateRequest;
  getCredentials : string -> result (option FreightEstimate.Credentials);
  getIngramMappingsForSkus :
    string -> list string -> result (list ProductMapping.IngramSkuMapping);
  requestFreightEstimate :
    string -> FreightCacheKey.RateTestInput -> result (option FreightEstimateResponse);
  hasCarrierConfigurations : string -> result bool;
  getEnabledCarrierCodes : string -> result (list string);
  getCarrierConfigurations : string -> result (list CarrierConfig);
}.

Section Action.
Variable Rate : Type.
Variable present :
  string -> list CarrierConfig -> list RateCombiner.CombinedRate -> list Rate.

Record CartEstimateResponse := {
  success : bool;
  rates : option (list Rate);
  error : option string;
}.

Record Response := {
  status : Z;
  body : option CartEstimateResponse;
}.

Definition failure (code : Z) (msg : string) : Response :=
  {| status := code;
     body := Some {| success := false; rates := None; error := Some msg |} |}.

(** Truthiness of a string that may be absent. *)
Definition present_string (s : option string) : bool :=
  match s with
  | Some x => JSString.truthy x
  | None => false
  end.

(** [a || b] for a string that may be absent. *)
Definition or_default (s : option string) (d : string) : string :=
  match s with
  | Some x => JSString.or_else x d
  | None => d
  end.

(** The key [mappingRecord[item.sku]] reads. *)
Definition property_key (s : option string) : string :=
  match s with
  | Some x => x
  | None => "undefined"
  end.

(** [String(index + 1).padStart(3, "0")] *)
Definition customerLineNumber (index : nat) : string :=
  let digits := decimal (Z.of_nat (index + 1)) in
  match String.length digits with
  | 1%nat => "00" ++ digits
  | 2%nat => "0" ++ digits
  | _ => digits
  end.

(** Lines 171-179: reading [mapping.ingramPartNumber] throws a
    [TypeError] when [mappingRecord[item.sku]] is [undefined]; of anything
    else the record yields, the property is read, and is [undefined]
    unless that is a mapping. *)
Fixpoint build_lines (mappingRecord : ProductMapping.MappingRecord)
    (index : nat) (its : list CartItem) : result (list FreightCacheKey.Line) :=
  match its with
  | [] => Ok []
  | item :: rest =>
      match ProductMapping.read mappingRecord (property_key (item_sku item)) with
      | None => Throw "TypeError: Cannot read properties of undefined"
      | Some mapping =>
          lines <- build_lines mappingRecord (S index) rest ;;
          Ok ({| FreightCacheKey.ingramPartNumber :=
                   ProductMapping.part_number mapping;
                 FreightCacheKey.itemNumber := None;
                 FreightCacheKey.customerLineNumber :=
                   Some (customerLineNumber index);
                 FreightCacheKey.sku := None;
                 FreightCacheKey.quantity := Some (item_quantity item) |}
              :: lines)
      end
  end.

(** Lines 127-133. *)
Definition uniqueSkus (its : list CartItem) : list string :=
  JSSet.of_list
    (filter JSString.truthy
            (map (fun item => JSString.trim_or_empty (item_sku item)) its)).

(** Line 148: [uniqueSkus.filter((sku) => !mappingRecord[sku])]. *)
Definition missingSkus (mappingRecord : ProductMapping.MappingRecord)
    (skus : list string) : list string :=
  filter (fun s => negb (ProductMapping.truthy_property
                           (ProductMapping.read mappingRecord s)))
         skus.

(** Lines 161-168. *)
Definition shipToAddress (a : CartAddress) (countryCode : string)
  : FreightCacheKey.Address :=
  {| FreightCacheKey.companyName := "Customer";
     FreightCacheKey.addressLine1 := or_default (city a) "Unknown";
     FreightCacheKey.addressLine2 := None;
     FreightCacheKey.city := or_default (city a) "Unknown";
     FreightCacheKey.state := or_default (province a) countryCode;
     FreightCacheKey.postalCode := or_default (zip a) "00000";
     FreightCacheKey.countryCode := countryCode |}.

(** The [try] block from the SKU resolution on, lines 142-251. *)
Definition quote (env : Collaborators) (shopDomain : string) (addr : CartAddress)
    (countryCode : string) (its : list CartItem) : result Response :=
  let skus := uniqueSkus its in
  mappings <- getIngramMappingsForSkus env shopDomain skus ;;
  let mappingRecord := ProductMapping.mappingArrayToRecord mappings in
  match missingSkus mappingRecord skus with
  | _ :: _ =>
      Ok (failure 200 "Some products are not available for shipping estimate")
  | [] =>
  lines <- build_lines mappingRecord 0 its ;;
  response <-
    requestFreightEstimate env shopDomain
      {| FreightCacheKey.shipToAddress := shipToAddress addr countryCode;
         FreightCacheKey.lines := lines;
         FreightCacheKey.billToAddressId := None;
         FreightCacheKey.shipToAddressId := None |} ;;
  let currency :=
    match response with
    | Some summary => or_default (currencyCode summary) "USD"
    | None => "USD"
    end in
  let distributions :=
    match response with
    | Some summary =>
        match distribution summary with Some ds => ds | None => [] end
    | None => []
    end in
  match distributions with
  | [] => Ok (failure 200 "No shipping options available for this address")
  | _ =>
  let combinedRates := RateCombiner.combineRates distributions in
  match combinedRates with
  | [] => Ok (failure 200 "No common shipping options available")
  | _ =>
  hasConfigs <- hasCarrierConfigurations env shopDomain ;;
  filteredRates <-
    (if hasConfigs : bool then
       enabledCodes <- getEnabledCarrierCodes env shopDomain ;;
       Ok (filter (fun rate =>
                     existsb (String.eqb (RateCombiner.cr_carrierCode rate))
                             enabledCodes)
                  combinedRates)
     else Ok combinedRates) ;;
  carrierConfigs <- getCarrierConfigurations env shopDomain ;;
  Ok {| status := 200;
        body := Some {| success := true;
                        rates := Some (present currency carrierConfigs filteredRates);
                        error := None |} |}
  end end end.

(** The [try] block, lines 93-251: the checks of the request, then the
    quote. *)
Definition estimate (env : Collaborators) : result Response :=
  request <- json env ;;
  match shop request with
  | None => Ok (failure 400 "Missing shop domain")
  | Some shopDomain =>
  if negb (JSString.truthy shopDomain) then Ok (failure 400 "Missing shop domain")
  else
  match address request with
  | None => Ok (failure 400 "Missing address information")
  | Some addr =>
  match country addr with
  | None => Ok (failure 400 "Missing address information")
  | Some countryCode =>
  if negb (JSString.truthy countryCode)
  then Ok (failure 400 "Missing address information")
  else
  match items request with
  | None | Some [] => Ok (failure 400 "No items in cart")
  | Some its =>
  credentials <- getCredentials env shopDomain ;;
  match credentials with
  | None => Ok (failure 400 "Shop not configured")
  | Some _ =>
  match uniqueSkus its with
  | [] => Ok (failure 400 "No valid SKUs in cart")
  | _ => quote env shopDomain addr countryCode its
  end end end end end end.

(** [action]: the preflight answer, or the [try] block under its [catch]
    (lines 252-261). *)
Definition action (m : method) (env : Collaborators) : Response :=
  match m with
  | OPTIONS => {| status := 204; body := None |}
  | _ =>
      match estimate env with
      | Ok response => response
      | Throw _ => failure 200 "Unable to calculate shipping estimate"
      end
  end.

(** [loader] (lines 68-81). *)
Definition loader (m : method) : Response :=
  match m with
  | OPTIONS => {| status := 204; body := None |}
  | _ => failure 405 "Use POST to request cart estimates"
  end.

(** The methods that reach the [try] block of the action. *)
Definition estimated (m : method) : bool :=
  match m with
  | POST | PUT | PATCH | DELETE => true
  | _ => false
  end.

(** The endpoint: the handler the framework calls for the method. *)
Definition route (m : method) (env : Collaborators) : Response :=
  if estimated m then action m env else loader m.

(** ** The outcomes of the claim, read off the collaborators' answers *)







End Action.

Section ActionFacts.
Variable Rate : Type.
Variable present :
  string -> list CarrierConfig -> list RateCombiner.CombinedRate -> list Rate.







(** Whatever the quote returns has status 200. *)
Lemma quote_status (env : Collaborators) (shopDomain : string) (addr : CartAddress)
    (countryCode : string) (its : list CartItem) (r : Response Rate) :
  quote Rate present env shopDomain addr countryCode its = Ok r -> status Rate r = 200.
Proof.
  unfold quote. cbv zeta.
  destruct (getIngramMappingsForSkus env shopDomain (uniqueSkus its)) as [mappings | e];
    cbn [bind]; [|discriminate].
  destruct (missingSkus _ _); [|now intros [= <-]].
  destruct (build_lines _ 0 its) as [lines | e]; cbn [bind]; [|discriminate].
  destruct (requestFreightEstimate env shopDomain _) as [response | e];
    cbn [bind]; [|discriminate].
  destruct (match response with
            | Some summary => match distribution summary with
                              | Some ds => ds
                              | None => []
                              end
            | None => []
            end) as [| d ds]; [now intros [= <-]|].
  destruct (RateCombiner.combineRates (d :: ds)); [now intros [= <-]|].
  destruct (hasCarrierConfigurations env shopDomain) as [hasConfigs | e];
    cbn [bind]; [|discriminate].
  destruct hasConfigs.
  - destruct (getEnabledCarrierCodes env shopDomain) as [codes | e];
      cbn [bind]; [|discriminate].
    destruct (getCarrierConfigurations env shopDomain); cbn [bind]; [|discriminate].
    now intros [= <-].
  - cbn [bind].
    destruct (getCarrierConfigurations env shopDomain); cbn [bind]; [|discriminate].
    now intros [= <-].
Qed.


End ActionFacts.


(** A cart with one SKU the resolver does not know. *)
Definition unmapped_cart : Collaborators :=
  {| json := Ok {| shop := Some "shop.myshopify.com";
                   address := Some {| country := Some "US"; province := Some "TX";
                                      city := Some "Austin"; zip := Some "78701" |};
                   items := Some [ {| item_sku := Some "ABC";
                                      item_quantity := of_Z 1 |} ] |};
     getCredentials := fun _ =>
       Ok (Some {| FreightEstimate.contactEmail := "ops@example.com" |});
     getIngramMappingsForSkus := fun _ _ => Ok [];
     requestFreightEstimate := fun _ _ => Throw "unreachable";
     hasCarrierConfigurations := fun _ => Ok false;
     getEnabledCarrierCodes := fun _ => Ok [];
     getCarrierConfigurations := fun _ => Ok [] |}.






Example unmapped_cart_answer :
  route unit (fun _ _ _ => []) POST unmapped_cart
  = {| status := 200;
       body := Some {| success := false; rates := None;
                       error := Some "Some products are not available for shipping estimate" |} |}.
Proof. vm_compute. reflexivity. Qed.


End CartEstimate.

(* ================================================================== *)
(** * utils/ttl-cache.server.ts: the cache over its lifetime

    The object [createTtlCache] returns is used through its three
    methods; a history is the sequence of calls made on it since it was
    created. *)
(* ================================================================== *)
Module TtlCacheHistory.
Import TtlCache.
Section History.
Context {V : Type}.
Implicit Types (c : cache V) (k : string) (v : V).

Inductive op :=
| Get (now : Z) (key : string)
| Put (now : Z) (key : string) (v : V) (customTtlMs : option Z)
| Delete (key : string).

Definition apply (c : cache V) (o : op) : cache V :=
  match o with
  | Get now key => snd (get now key c)
  | Put now key v customTtlMs => set now key v customTtlMs c
  | Delete key => deleteKey key c
  end.

(** The cache after the calls [ops], made in that order on a new cache. *)
Definition after (ttl : Z) (maxEntries : option Z) (ops : list op) : cache V :=
  fold_left apply ops (createTtlCache ttl maxEntries).

(** The keys are distinct and the entry count is within the bound. *)
Definition bounded (c : cache V) : Prop :=
  NoDup (keys c) /\ size c <= Z.max 0 (maxEntries c).

Lemma size_set (m : JSMap.t (CacheEntry V)) k e :
  JSMap.size (JSMap.set k e m)
  = if JSMap.has k m then JSMap.size m else JSMap.size m + 1.
Proof.
  unfold JSMap.has. induction m as [| [k' e'] m IH]; cbn [JSMap.set JSMap.get].
  - reflexivity.
  - destruct (String.eqb k k'); [reflexivity|].
    unfold JSMap.size in *. cbn [List.length]. rewrite !Nat2Z.inj_succ, IH.
    destruct (JSMap.get k m); lia.
Qed.

Lemma size_delete (m : JSMap.t (CacheEntry V)) k :
  JSMap.size (JSMap.delete k m)
  = if JSMap.has k m then JSMap.size m - 1 else JSMap.size m.
Proof.
  unfold JSMap.has. induction m as [| [k' e'] m IH]; cbn [JSMap.delete JSMap.get].
  - reflexivity.
  - destruct (String.eqb k k').
    + unfold JSMap.size. cbn [List.length]. lia.
    + unfold JSMap.size in *. cbn [List.length]. rewrite !Nat2Z.inj_succ, IH.
      destruct (JSMap.get k m); lia.
Qed.

Lemma size_tl (m : JSMap.t (CacheEntry V)) :
  m <> [] -> JSMap.size (tl m) = JSMap.size m - 1.
Proof.
  destruct m; [contradiction|]. intros _. unfold JSMap.size. cbn [tl List.length]. lia.
Qed.

Lemma size_nonneg (m : JSMap.t (CacheEntry V)) : 0 <= JSMap.size m.
Proof. unfold JSMap.size. lia. Qed.

Lemma set_bounded c now k v ttl : bounded c -> bounded (set now k v ttl c).
Proof.
  intros [Hnd Hsz]. split; [now apply set_NoDup|].
  destruct (set_options c now k v ttl) as [_ ->].
  unfold size in *. rewrite set_store. cbv zeta.
  set (e := {| value := v; expiresAt := _ |}).
  pose proof (size_set (store c) k e) as Hs.
  pose proof (size_nonneg (store c)).
  destruct (JSMap.size (JSMap.set k e (store c)) >? maxEntries c) eqn:Hgt.
  - rewrite size_tl by apply JSMap.set_not_nil.
    destruct (JSMap.has k (store c)); lia.
  - rewrite Z.gtb_ltb in Hgt. apply Z.ltb_ge in Hgt. lia.
Qed.

Lemma get_bounded c now k : bounded c -> bounded (snd (get now k c)).
Proof.
  intros [Hnd Hsz]. split; [now apply get_NoDup|].
  destruct (get_options c now k) as [_ ->].
  unfold get. destruct (JSMap.get k (store c)) as [e |] eqn:Hg; [|assumption].
  destruct (expiresAt e <=? now); [|assumption].
  unfold size in *. cbn [snd with_store store].
  rewrite size_delete. unfold JSMap.has. rewrite Hg. lia.
Qed.

Lemma delete_bounded c k : bounded c -> bounded (deleteKey k c).
Proof.
  intros [Hnd Hsz]. split.
  - unfold keys, deleteKey. cbn [store with_store]. now apply JSMap.NoDup_keys_delete.
  - unfold size, deleteKey in *. cbn [store with_store maxEntries].
    rewrite size_delete. destruct (JSMap.has k (store c)); lia.
Qed.

Lemma apply_bounded c o : bounded c -> bounded (apply c o).
Proof.
  destruct o as [now k | now k v ttl | k]; cbn [apply].
  - apply get_bounded.
  - apply set_bounded.
  - apply delete_bounded.
Qed.

Lemma fold_bounded ops : forall c, bounded c -> bounded (fold_left apply ops c).
Proof.
  induction ops as [| o ops IH]; intros c Hc; cbn [fold_left]; [assumption|].
  apply IH. now apply apply_bounded.
Qed.

Lemma after_bounded ttl maxEntries ops : bounded (after ttl maxEntries ops).
Proof.
  apply fold_bounded. split.
  - constructor.
  - unfold size. cbn. lia.
Qed.

Lemma apply_options c o :
  ttlMs (apply c o) = ttlMs c /\ maxEntries (apply c o) = maxEntries c.
Proof.
  destruct o as [now k | now k v ttl | k]; cbn [apply].
  - apply get_options.
  - apply set_options.
  - split; reflexivity.
Qed.

Lemma after_options ttl maxE ops :
  ttlMs (after ttl maxE ops) = ttl
  /\ maxEntries (after ttl maxE ops) = match maxE with Some n => n | None => 500 end.
Proof.
  unfold after.
  assert (H : forall c, ttlMs (fold_left apply ops c) = ttlMs c
                        /\ maxEntries (fold_left apply ops c) = maxEntries c).
  { induction ops as [| o ops IH]; intros c; cbn [fold_left]; [split; reflexivity|].
    destruct (IH (apply c o)) as [-> ->]. apply apply_options. }
  destruct (H (createTtlCache ttl maxE)) as [-> ->]. split; reflexivity.
Qed.

(** What the store holds at [k] right after [set(k, v, ttl)] on a bounded
    cache: the new entry, unless the cache has no room at all. *)
Lemma set_then_lookup c now k v ttl :
  bounded c ->
  JSMap.get k (store (set now k v ttl c))
  = if maxEntries c <=? 0 then None
    else Some {| value := v;
                 expiresAt := now + match ttl with Some t => t | None => ttlMs c end |}.
Proof.
  intros [Hnd Hsz]. rewrite set_store. cbv zeta.
  set (e := {| value := v; expiresAt := _ |}).
  pose proof (size_set (store c) k e) as Hs.
  pose proof (size_nonneg (store c)) as H0. unfold size in Hsz.
  destruct (maxEntries c <=? 0) eqn:Hm.
  - apply Z.leb_le in Hm.
    assert (Hempty : store c = []).
    { destruct (store c); [reflexivity|]. unfold JSMap.size in *. cbn [List.length] in *. lia. }
    rewrite Hempty. cbn [JSMap.set]. unfold JSMap.size. cbn [List.length].
    replace (Z.of_nat 1 >? maxEntries c) with true
      by (symmetry; apply Z.gtb_lt; lia).
    reflexivity.
  - apply Z.leb_gt in Hm.
    destruct (JSMap.size (JSMap.set k e (store c)) >? maxEntries c) eqn:Hgt;
      [|apply JSMap.get_set_same].
    apply Z.gtb_lt in Hgt.
    (* the key is new, and is not the head of the store *)
    unfold JSMap.has in Hs. destruct (JSMap.get k (store c)) as [e0 |] eqn:Hk; [lia|].
    destruct (store c) as [| [k0 e0] m] eqn:Hst.
    { unfold JSMap.size in *. cbn [JSMap.set List.length] in *. lia. }
    cbn [JSMap.get] in Hk. cbn [JSMap.set].
    destruct (String.eqb k k0); [discriminate|].
    cbn [tl]. apply JSMap.get_set_same.
Qed.

(** What a read answers, by the entry the store holds. *)
Lemma get_expired_or_live c now k :
  fst (get now k c)
  = match JSMap.get k (store c) with
    | Some e => if expiresAt e <=? now then None else Some (value e)
    | None => None
    end.
Proof.
  unfold get. destruct (JSMap.get k (store c)) as [e |]; [|reflexivity].
  now destruct (expiresAt e <=? now).
Qed.

(** X1.  The size bound: whatever calls were made on a cache, it holds at most
    [maxEntries] entries (none at all when [maxEntries] is zero or
    negative), and its keys are distinct. *)
Theorem size_never_exceeds_maxEntries
    (ttl : Z) (maxE : option Z) (ops : list op) :
  size (after ttl maxE ops)
  <= Z.max 0 (match maxE with Some n => n | None => 500 end)
  /\ NoDup (keys (after ttl maxE ops)).
Proof.
  destruct (after_bounded ttl maxE ops) as [Hnd Hsz].
  destruct (after_options ttl maxE ops) as [_ Hm]. rewrite Hm in Hsz.
  split; assumption.
Qed.

(** X2.  Read your write: on a cache with room for at least one entry, whatever
    its history, a [get] of the key just [set] returns the value as long as
    the clock is before the expiry the [set] computed ([now] plus the custom
    TTL, or the cache's TTL), and [undefined] from that instant on.  A cache
    created with [maxEntries] zero or negative returns [undefined] at
    once. *)
Theorem get_after_set
    (ttl : Z) (maxE : option Z) (ops : list op)
    (now : Z) (k : string) (v : V) (customTtlMs : option Z) (later : Z) :
  let c := after ttl maxE ops in
  let limit := match maxE with Some n => n | None => 500 end in
  let expires := now + match customTtlMs with Some t => t | None => ttl end in
  fst (get later k (set now k v customTtlMs c))
  = if limit <=? 0 then None
    else if expires <=? later then None else Some v.
Proof.
  cbv zeta. rewrite get_expired_or_live.
  rewrite set_then_lookup by apply after_bounded.
  destruct (after_options ttl maxE ops) as [-> ->].
  destruct (_ <=? 0); [reflexivity|]. cbn [expiresAt value]. reflexivity.
Qed.

(** X3.  Removal: after [delete(k)], and likewise after a [get(k)] that found
    the entry expired, the key reads as [undefined] at any time, one entry
    fewer is held when the key was there, and every other key reads as it
    did before. *)
Theorem removal_is_exact
    (ttl : Z) (maxE : option Z) (ops : list op) (k : string) (now : Z) :
  let c := after ttl maxE ops in
  (forall later, fst (get later k (deleteKey k c)) = None)
  /\ size (deleteKey k c) = (if JSMap.has k (store c) then size c - 1 else size c)
  /\ (forall later k', k' <> k ->
        fst (get later k' (deleteKey k c)) = fst (get later k' c))
  /\ (forall e, JSMap.get k (store c) = Some e -> expiresAt e <= now ->
        fst (get now k c) = None
        /\ snd (get now k c) = deleteKey k c).
Proof.
  cbv zeta. destruct (after_bounded ttl maxE ops) as [Hnd _].
  set (c := after ttl maxE ops) in *.
  split; [|split; [|split]].
  - intros later. rewrite get_expired_or_live. unfold deleteKey. cbn [store with_store].
    now rewrite JSMap.get_delete_same.
  - unfold size, deleteKey. cbn [store with_store]. apply size_delete.
  - intros later k' Hne. rewrite !get_expired_or_live. unfold deleteKey.
    cbn [store with_store]. now rewrite JSMap.get_delete_other.
  - intros e He Hexp. unfold get. rewrite He.
    apply Z.leb_le in Hexp. rewrite Hexp. split; reflexivity.
Qed.

End History.
End TtlCacheHistory.

(* ================================================================== *)
(** * rate-combiner.server.ts: the shape of what [combineRates] returns *)
(* ================================================================== *)
Module RateCombinerShape.
Import JSNumber RateCombiner.

(** The carrier codes of a sequence of rates, in order. *)
Definition codes (rates : list CombinedRate) : list string :=
  map cr_carrierCode rates.

(** The branch numbers a rate's breakdown lists, in order. *)
Definition branches (r : CombinedRate) : list string :=
  map branchNumber (distributions r).

(** The distinct branch numbers of the input, in order of first
    appearance: the members of [distributionBranches]. *)
Definition distributionBranches (dists : list IngramDistribution) : JSSet.t :=
  JSSet.of_list (map shipFromBranchNumber dists).

Lemma combined_of_code (n : Z) (entry : string * CarrierData) (r : CombinedRate) :
  In r (combined_of n entry) -> cr_carrierCode r = fst entry.
Proof.
  destruct entry as [c data]. intros H.
  apply In_combined_of in H as (_ & _ & ->). reflexivity.
Qed.

Lemma combined_of_short (n : Z) (entry : string * CarrierData) :
  combined_of n entry = []
  \/ exists r, combined_of n entry = [r] /\ cr_carrierCode r = fst entry.
Proof.
  destruct entry as [c data]. unfold combined_of.
  destruct (_ && _); [right | now left].
  eexists. split; reflexivity.
Qed.

Lemma codes_of_carrierMap (n : Z) (m : JSMap.t CarrierData) :
  NoDup (JSMap.keys m) -> NoDup (codes (flat_map (combined_of n) m)).
Proof.
  unfold codes. induction m as [| entry m IH]; cbn [flat_map JSMap.keys map].
  - constructor.
  - intros Hnd. inversion Hnd as [| ? ? Hnot Hnd']; subst.
    destruct (combined_of_short n entry) as [-> | (r & -> & Hr)].
    + now apply IH.
    + cbn [app map]. constructor; [|now apply IH].
      intros Hin. apply in_map_iff in Hin as (r' & Hc & Hin).
      apply in_flat_map in Hin as (entry' & He & Hin).
      apply combined_of_code in Hin.
      apply Hnot. rewrite <- Hr, <- Hc, Hin. now apply in_map.
Qed.

Local Open Scope string_scope.

(** A warehouse that lists UPS twice, at 12 and at 9. *)
Definition one_warehouse : list IngramDistribution :=
  [ {| shipFromBranchNumber := "A";
       carrierList := Some [carrier_ "UPS" 12 2; carrier_ "UPS" 9 5] |} ].

(** X4.  With two or more distributions, no carrier code is returned twice:
    the rates are one per carrier code.  (A single distribution's carriers
    are returned as listed, one rate per usable entry.) *)
Theorem combineRates_one_rate_per_code (dists : list IngramDistribution) :
  (2 <= List.length dists)%nat -> NoDup (codes (combineRates dists)).
Proof.
  intros Hlen. rewrite combineRates_multi by assumption.
  rewrite combine_multi_eq.
  apply (Permutation_NoDup
           (l := codes (flat_map
                          (combined_of (JSSet.size (JSSet.of_list
                                                      (map shipFromBranchNumber dists))))
                          (JSMap.apply_updates merge_carrier (tagged dists)
                                               JSMap.empty)))).
  - unfold codes. apply Permutation_map. symmetry. apply JSArray.sort_perm.
  - apply codes_of_carrierMap. apply carrierMap_NoDup.
Qed.

Lemma combineRates_one_rate_per_code_witness :
  NoDup (codes (combineRates two_warehouses))
  /\ codes (combineRates one_warehouse) = ["UPS"; "UPS"].
Proof.
  split.
  - apply (combineRates_one_rate_per_code two_warehouses). cbn. lia.
  - vm_compute. reflexivity.
Defined.

(** X5.  Every returned rate is marked complete and its breakdown lists each
    branch number of the input exactly once: one entry per distinct
    [shipFromBranchNumber], whatever the number of distributions. *)
Theorem combineRates_breakdown_per_branch
    (dists : list IngramDistribution) (r : CombinedRate) :
  In r (combineRates dists) ->
  isComplete r = true
  /\ NoDup (branches r)
  /\ Permutation (branches r) (distributionBranches dists).
Proof.
  unfold branches, distributionBranches.
  destruct dists as [| d1 [| d2 dists]].
  - intros [].
  - cbn [combineRates]. intros Hin.
    apply combine_single_In in Hin as (carrier & _ & -> & _).
    cbn. split; [reflexivity|]. split; [|reflexivity].
    constructor; [intros [] | constructor].
  - change (combineRates (d1 :: d2 :: dists)) with (combine_multi (d1 :: d2 :: dists)).
    set (ds := d1 :: d2 :: dists). intros Hin.
    apply combine_multi_In in Hin as (_ & Hall & _ & _ & _ & Hd & Hc).
    split; [assumption|]. rewrite Hd, branchNumber_details, keys_kept.
    assert (Hnd : NoDup (branches_of (cr_carrierCode r) ds))
      by apply JSSet.NoDup_of_list.
    split; [assumption|].
    apply NoDup_Permutation; [assumption | apply JSSet.NoDup_of_list |].
    intros b. unfold branches_of. rewrite !JSSet.In_of_list. split.
    + apply entries_branch.
    + apply Hall.
Qed.

Lemma combineRates_breakdown_per_branch_witness :
  Forall (fun r => isComplete r = true
                   /\ NoDup (branches r)
                   /\ Permutation (branches r) (distributionBranches two_warehouses))
         (combineRates two_warehouses).
Proof.
  apply Forall_forall. intros r Hr.
  apply (combineRates_breakdown_per_branch two_warehouses r Hr).
Defined.

End RateCombinerShape.

(* ================================================================== *)
(** * ingram.server.ts: [requestFreightEstimate] over the life of the
    process: what the in-flight map and the cache guarantee together *)
(* ================================================================== *)
Module FreightEstimateSharing.
Import JSNumber FreightEstimate.
Local Open Scope string_scope.
Local Open Scope Z_scope.

(** Every call whose [finally] block has not run yet is the call the
    in-flight map holds for its key. *)
Definition tracked (st : state) : Prop :=
  forall promise c,
    nth_error (calls st) promise = Some c -> call_finalized c = false ->
    JSMap.get (call_key c) (inflightFreightRequests st) = Some promise.

(** The cached estimate a fulfilled call writes. *)
Definition cached_of (r : EstimateResult) : CachedEstimate :=
  {| ingramCorrelationId := correlationId r; ce_response := response r |}.

(** Every entry of the cache was written by a call of the same key that
    was fulfilled with it. *)
Definition cache_sound (st : state) : Prop :=
  forall k e,
    JSMap.get k (TtlCache.store (freightEstimateCache st)) = Some e ->
    exists promise c r,
      nth_error (calls st) promise = Some c
      /\ call_key c = k
      /\ call_promise c = Settled (Fulfilled r)
      /\ TtlCache.value e = cached_of r.

(** The cache keeps its options, its keys are distinct and it is within
    its size bound. *)
Definition cache_ok (st : state) : Prop :=
  TtlCacheHistory.bounded (freightEstimateCache st)
  /\ TtlCache.ttlMs (freightEstimateCache st) = FREIGHT_CACHE_TTL_MS
  /\ TtlCache.maxEntries (freightEstimateCache st) = FREIGHT_CACHE_MAX_ENTRIES.

(** The answer a cache hit gives for a fulfilled call's result. *)
Definition replay (r : EstimateResult) : EstimateResult :=
  {| correlationId := correlationId r; response := response r; cacheHit := true |}.

(** A freight API answering 200. *)
Definition answering_upstream : Upstream :=
  {| up_credentials := Some {| contactEmail := "ops@example.com" |};
     up_accessToken := inr "token";
     up_correlationId := "c-1";
     up_response := inr {| ok := true; http_status := 200; json := "{}" |} |}.

Definition after_answer : state :=
  match settle 2 0 answering_upstream after_request with
  | Some st => st
  | None => after_request
  end.

Section SharingFacts.
Variable Number_toString : number -> string.

Lemma get_store_cases {V : Type} (now : Z) (k k' : string) (c : TtlCache.cache V) :
  NoDup (TtlCache.keys c) ->
  JSMap.get k' (TtlCache.store (snd (TtlCache.get now k c)))
  = JSMap.get k' (TtlCache.store c)
  \/ JSMap.get k' (TtlCache.store (snd (TtlCache.get now k c))) = None.
Proof.
  intros Hnd. unfold TtlCache.get.
  destruct (JSMap.get k (TtlCache.store c)) as [e |]; [|now left].
  destruct (TtlCache.expiresAt e <=? now); [|now left].
  cbn [snd TtlCache.store TtlCache.with_store].
  destruct (string_dec k' k) as [-> | Hne].
  - right. now apply JSMap.get_delete_same.
  - left. now apply JSMap.get_delete_other.
Qed.

Lemma request_calls now shop payload st :
  exists more, calls (snd (request Number_toString now shop payload st))
               = (calls st ++ more)%list.
Proof.
  unfold request.
  destruct (TtlCache.get now _ (freightEstimateCache st)) as [[entry |] cache1].
  - exists []. cbn. now rewrite app_nil_r.
  - destruct (JSMap.get _ (inflightFreightRequests st)).
    + exists []. cbn. now rewrite app_nil_r.
    + eexists. reflexivity.
Qed.

Lemma request_cache now shop payload st :
  freightEstimateCache (snd (request Number_toString now shop payload st))
  = snd (TtlCache.get now
           (FreightCacheKey.buildFreightCacheKey Number_toString shop payload)
           (freightEstimateCache st)).
Proof.
  unfold request.
  destruct (TtlCache.get now _ (freightEstimateCache st)) as [[entry |] cache1];
    [reflexivity|].
  now destruct (JSMap.get _ (inflightFreightRequests st)).
Qed.

Lemma reachable_cache_ok st : reachable Number_toString st -> cache_ok st.
Proof.
  induction 1 as [| st ev st' _ IH Hstep].
  - split; [|split; reflexivity]. split; [constructor|].
    vm_compute. discriminate.
  - destruct IH as (Hb & Ht & Hm).
    destruct ev as [now shop payload | now promise u | promise]; cbn in Hstep.
    + injection Hstep as <-. unfold cache_ok. rewrite request_cache.
      destruct (TtlCache.get_options (freightEstimateCache st) now
                  (FreightCacheKey.buildFreightCacheKey Number_toString shop payload))
        as [-> ->].
      split; [now apply TtlCacheHistory.get_bounded | auto].
    + unfold settle in Hstep.
      destruct (nth_error (calls st) promise) as [[k0 [| o] f] |]; try discriminate.
      injection Hstep as <-. unfold cache_ok. cbn [freightEstimateCache].
      destruct (upstream_outcome u) as [r | e]; [|auto].
      destruct (TtlCache.set_options (freightEstimateCache st) now k0
                  {| ingramCorrelationId := correlationId r;
                     ce_response := response r |} None) as [-> ->].
      split; [now apply TtlCacheHistory.set_bounded | auto].
    + unfold resume in Hstep.
      destruct (nth_error (calls st) promise) as [[k0 [| o] [|]] |]; try discriminate.
      injection Hstep as <-. unfold cache_ok. cbn [freightEstimateCache]. auto.
Qed.

Lemma reachable_tracked st : reachable Number_toString st -> tracked st.
Proof.
  induction 1 as [| st ev st' Hr IH Hstep].
  - intros [| p] c H; discriminate.
  - pose proof (reachable_inflight_ok Number_toString st Hr) as [Hnd Hin].
    destruct ev as [now shop payload | now promise u | promise]; cbn in Hstep.
    + injection Hstep as <-. unfold request.
      set (k0 := FreightCacheKey.buildFreightCacheKey _ _ _).
      destruct (TtlCache.get now k0 (freightEstimateCache st)) as [[entry |] cache1];
        [exact IH|].
      destruct (JSMap.get k0 (inflightFreightRequests st)) as [p0 |] eqn:Hg;
        [exact IH|].
      intros p c Hc Hf. cbn [snd calls inflightFreightRequests] in *.
      destruct (Nat.lt_ge_cases p (List.length (calls st))) as [Hlt | Hge].
      * rewrite nth_error_app1 in Hc by assumption.
        pose proof (IH p c Hc Hf) as Hp.
        destruct (string_dec (call_key c) k0) as [E | Hne]; [congruence|].
        now rewrite JSMap.get_set_other.
      * rewrite nth_error_app2 in Hc by assumption.
        destruct (p - List.length (calls st))%nat as [| [| n]] eqn:E;
          cbn in Hc; try discriminate.
        injection Hc as <-. cbn [call_key]. rewrite JSMap.get_set_same.
        f_equal. lia.
    + unfold settle in Hstep.
      destruct (nth_error (calls st) promise) as [[k0 [| o] f] |] eqn:Hn;
        try discriminate.
      injection Hstep as <-. intros p c Hc Hf.
      cbn [calls inflightFreightRequests] in *.
      rewrite nth_error_set_nth in Hc. destruct (Nat.eqb p promise) eqn:E.
      * apply Nat.eqb_eq in E. subst p. rewrite Hn in Hc. cbn in Hc.
        injection Hc as <-. cbn in *. now apply (IH promise _ Hn).
      * now apply IH.
    + unfold resume in Hstep.
      destruct (nth_error (calls st) promise) as [[k0 [| o] [|]] |] eqn:Hn;
        try discriminate.
      injection Hstep as <-. intros p c Hc Hf.
      cbn [calls inflightFreightRequests] in *.
      rewrite nth_error_set_nth in Hc. destruct (Nat.eqb p promise) eqn:E.
      * rewrite Hn in Hc. cbn in Hc. injection Hc as <-. discriminate.
      * apply Nat.eqb_neq in E. pose proof (IH p c Hc Hf) as Hp.
        pose proof (IH promise _ Hn eq_refl) as Hq. cbn [call_key] in Hq.
        destruct (string_dec (call_key c) k0) as [Ek | Hne].
        -- rewrite Ek in Hp. congruence.
        -- now rewrite JSMap.get_delete_other.
Qed.

Lemma reachable_cache_sound st : reachable Number_toString st -> cache_sound st.
Proof.
  induction 1 as [| st ev st' Hr IH Hstep].
  - intros k e H. discriminate.
  - pose proof (reachable_cache_ok st Hr) as ([Hnd _] & _ & _).
    destruct ev as [now shop payload | now promise u | promise]; cbn in Hstep.
    + injection Hstep as <-. intros k e. rewrite request_cache.
      destruct (request_calls now shop payload st) as (more & ->).
      destruct (get_store_cases now
                  (FreightCacheKey.buildFreightCacheKey Number_toString shop payload)
                  k (freightEstimateCache st) Hnd) as [-> | ->]; [|discriminate].
      intros Hg. destruct (IH k e Hg) as (p & c & r & Hc & Hrest).
      exists p, c, r. split; [|assumption].
      rewrite nth_error_app1; [assumption|]. apply nth_error_Some. congruence.
    + unfold settle in Hstep.
      destruct (nth_error (calls st) promise) as [[k0 [| o] f] |] eqn:Hn;
        try discriminate.
      injection Hstep as <-. intros k e. cbn [calls freightEstimateCache].
      assert (Hold : JSMap.get k (TtlCache.store (freightEstimateCache st)) = Some e ->
                     exists p c r,
                       nth_error
                         (set_nth promise
                            {| call_key := k0;
                               call_promise := Settled (upstream_outcome u);
                               call_finalized := f |} (calls st)) p = Some c
                       /\ call_key c = k
                       /\ call_promise c = Settled (Fulfilled r)
                       /\ TtlCache.value e = cached_of r).
      { intros Hg. destruct (IH k e Hg) as (p & c & r & Hc & Hk & Hp & Hv).
        exists p, c, r. split; [|auto].
        rewrite nth_error_set_nth. destruct (Nat.eqb p promise) eqn:E; [|assumption].
        apply Nat.eqb_eq in E. subst p. rewrite Hn in Hc. injection Hc as <-.
        discriminate. }
      destruct (upstream_outcome u) as [r | err] eqn:Ho; [|exact Hold].
      destruct (string_dec k k0) as [-> | Hne].
      * destruct (TtlCache.cache_get_set_same (freightEstimateCache st) now k0
                    {| ingramCorrelationId := correlationId r;
                       ce_response := response r |} None Hnd) as [-> | ->];
          [|discriminate].
        intros [= <-]. eexists promise, _, r. split.
        -- rewrite nth_error_set_nth, Nat.eqb_refl, Hn. reflexivity.
        -- repeat split.
      * destruct (TtlCache.cache_get_set_other (freightEstimateCache st) now k0 k
                    {| ingramCorrelationId := correlationId r;
                       ce_response := response r |} None Hnd Hne) as [-> | ->];
          [exact Hold | discriminate].
    + unfold resume in Hstep.
      destruct (nth_error (calls st) promise) as [[k0 [| o] [|]] |] eqn:Hn;
        try discriminate.
      injection Hstep as <-. intros k e Hg. cbn [calls freightEstimateCache] in *.
      destruct (IH k e Hg) as (p & c & r & Hc & Hk & Hp & Hv).
      destruct (Nat.eqb p promise) eqn:E.
      * apply Nat.eqb_eq in E. subst p. rewrite Hn in Hc. injection Hc as <-.
        eexists promise, _, r. split.
        -- rewrite nth_error_set_nth, Nat.eqb_refl, Hn. reflexivity.
        -- cbn in *. auto.
      * exists p, c, r. split; [|auto]. now rewrite nth_error_set_nth, E.
Qed.

End SharingFacts.

Lemma after_request_reachable :
  reachable FreightCacheKey.render after_request.
Proof.
  apply (reachable_step _ initial (Request 1 "shop" one_line_request)).
  - apply reachable_initial.
  - reflexivity.
Qed.

Lemma after_answer_reachable :
  reachable FreightCacheKey.render after_answer.
Proof.
  apply (reachable_step _ after_request (Settle 2 0 answering_upstream)).
  - apply after_request_reachable.
  - reflexivity.
Qed.

(** X6.  Single flight.  In every state the stores can reach, the calls whose
    [finally] block has not run yet have pairwise distinct keys, so at most
    one upstream call per cache key is in progress; and a request whose key
    is that of such a call starts no call of its own: it is answered from
    the cache or handed that call's promise. *)
Theorem one_upstream_call_per_key
    (Number_toString : number -> string) (st : state) :
  reachable Number_toString st ->
  (forall p q cp cq,
      nth_error (calls st) p = Some cp -> nth_error (calls st) q = Some cq ->
      call_key cp = call_key cq ->
      call_finalized cp = false -> call_finalized cq = false -> p = q)
  /\ (forall p c now shop payload,
         nth_error (calls st) p = Some c -> call_finalized c = false ->
         FreightCacheKey.buildFreightCacheKey Number_toString shop payload
         = call_key c ->
         calls (snd (request Number_toString now shop payload st)) = calls st
         /\ ((exists r, fst (request Number_toString now shop payload st) = CacheHit r)
             \/ fst (request Number_toString now shop payload st) = Joined p)).
Proof.
  intros Hr. pose proof (reachable_tracked Number_toString st Hr) as Ht. split.
  - intros p q cp cq Hp Hq Hk Hfp Hfq.
    pose proof (Ht p cp Hp Hfp) as H1. pose proof (Ht q cq Hq Hfq) as H2.
    rewrite Hk in H1. congruence.
  - intros p c now shop payload Hc Hf Hk. pose proof (Ht p c Hc Hf) as Hin.
    unfold request. rewrite Hk.
    destruct (TtlCache.get now (call_key c) (freightEstimateCache st))
      as [[entry |] cache1].
    + split; [reflexivity|]. left. eexists. reflexivity.
    + rewrite Hin. split; [reflexivity|]. now right.
Qed.

Lemma one_upstream_call_per_key_witness :
  calls (snd (request FreightCacheKey.render 5 "SHOP" one_line_request after_request))
  = calls after_request
  /\ ((exists r, fst (request FreightCacheKey.render 5 "SHOP" one_line_request
                        after_request) = CacheHit r)
      \/ fst (request FreightCacheKey.render 5 "SHOP" one_line_request after_request)
         = Joined 0%nat).
Proof.
  refine (proj2 (one_upstream_call_per_key FreightCacheKey.render after_request
                   after_request_reachable)
            0%nat
            {| call_key := FreightCacheKey.buildFreightCacheKey
                             FreightCacheKey.render "shop" one_line_request;
               call_promise := Pending;
               call_finalized := false |}
            5 "SHOP" one_line_request _ _ _); reflexivity.
Defined.

(** X7.  Only what upstream delivered is served from the cache.  In every
    state the stores can reach, a request answered from the cache gets,
    with [cacheHit: true], the correlation id and the response an earlier
    call of the same key was fulfilled with; the outcome of a call that
    failed is never cached. *)
Theorem cache_hit_replays_fulfilled_call
    (Number_toString : number -> string) (st : state)
    (now : Z) (shop : string) (payload : FreightCacheKey.RateTestInput)
    (hit : EstimateResult) :
  reachable Number_toString st ->
  fst (request Number_toString now shop payload st) = CacheHit hit ->
  exists promise c r,
    nth_error (calls st) promise = Some c
    /\ call_key c = FreightCacheKey.buildFreightCacheKey Number_toString shop payload
    /\ call_promise c = Settled (Fulfilled r)
    /\ hit = replay r.
Proof.
  intros Hr Hhit. pose proof (reachable_cache_sound Number_toString st Hr) as Hs.
  unfold request in Hhit.
  set (k0 := FreightCacheKey.buildFreightCacheKey _ _ _) in *.
  unfold TtlCache.get in Hhit.
  destruct (JSMap.get k0 (TtlCache.store (freightEstimateCache st))) as [e |] eqn:Hg.
  - destruct (Hs k0 e Hg) as (p & c & r & Hc & Hk & Hp & Hv).
    exists p, c, r. repeat split; try assumption.
    destruct (TtlCache.expiresAt e <=? now).
    + destruct (JSMap.get k0 (inflightFreightRequests st)); discriminate.
    + cbn in Hhit. injection Hhit as <-. rewrite Hv. reflexivity.
  - destruct (JSMap.get k0 (inflightFreightRequests st)); discriminate.
Qed.

Lemma cache_hit_replays_fulfilled_call_witness :
  exists promise c r,
    nth_error (calls after_answer) promise = Some c
    /\ call_key c = FreightCacheKey.buildFreightCacheKey FreightCacheKey.render
                      "shop" one_line_request
    /\ call_promise c = Settled (Fulfilled r)
    /\ {| correlationId := "c-1"; response := "{}"; cacheHit := true |} = replay r.
Proof.
  apply (cache_hit_replays_fulfilled_call FreightCacheKey.render after_answer
           3 "shop" one_line_request
           {| correlationId := "c-1"; response := "{}"; cacheHit := true |}).
  - apply after_answer_reachable.
  - reflexivity.
Defined.

(** X8.  A fulfilled call answers the requests that follow it.  When a pending
    call of a reachable state is fulfilled at time [now], every request of
    the same key made before [now] plus two minutes is answered from the
    cache with the call's correlation id and response, and starts no
    upstream call; from that instant on the entry has expired. *)
Theorem fulfilled_call_is_cached_two_minutes
    (Number_toString : number -> string) (st st1 : state)
    (promise : nat) (c : call) (now : Z) (u : Upstream) (r : EstimateResult)
    (later : Z) (shop : string) (payload : FreightCacheKey.RateTestInput) :
  reachable Number_toString st ->
  nth_error (calls st) promise = Some c ->
  settle now promise u st = Some st1 ->
  upstream_outcome u = Fulfilled r ->
  FreightCacheKey.buildFreightCacheKey Number_toString shop payload = call_key c ->
  (later < now + 120000 ->
   request Number_toString later shop payload st1 = (CacheHit (replay r), st1))
  /\ (now + 120000 <= later ->
      forall hit, fst (request Number_toString later shop payload st1) <> CacheHit hit).
Proof.
  intros Hr Hc Hs Ho Hk.
  destruct (reachable_cache_ok Number_toString st Hr) as (Hb & Ht & Hm).
  unfold settle in Hs. rewrite Hc in Hs.
  destruct c as [k0 [| o] f]; [|discriminate]. cbn [call_key] in Hk.
  rewrite Ho in Hs. injection Hs as <-.
  pose proof (TtlCacheHistory.set_then_lookup (freightEstimateCache st) now k0
                {| ingramCorrelationId := correlationId r;
                   ce_response := response r |} None Hb) as Hget.
  rewrite Hm, Ht in Hget.
  change (FREIGHT_CACHE_MAX_ENTRIES <=? 0) with false in Hget. cbn iota in Hget.
  unfold request. rewrite Hk. cbn [freightEstimateCache].
  unfold TtlCache.get. rewrite Hget. cbn [TtlCache.expiresAt TtlCache.value].
  change FREIGHT_CACHE_TTL_MS with 120000.
  split.
  - intros Hlt. replace (now + 120000 <=? later) with false
      by (symmetry; apply Z.leb_gt; lia).
    reflexivity.
  - intros Hge hit. replace (now + 120000 <=? later) with true
      by (symmetry; apply Z.leb_le; lia).
    cbn [inflightFreightRequests].
    destruct (JSMap.get k0 (inflightFreightRequests st)); discriminate.
Qed.

Lemma fulfilled_call_is_cached_two_minutes_witness :
  (100 < 2 + 120000 ->
   request FreightCacheKey.render 100 "shop" one_line_request after_answer
   = (CacheHit (replay {| correlationId := "c-1"; response := "{}";
                          cacheHit := false |}), after_answer))
  /\ (2 + 120000 <= 100 ->
      forall hit,
        fst (request FreightCacheKey.render 100 "shop" one_line_request after_answer)
        <> CacheHit hit).
Proof.
  apply (fulfilled_call_is_cached_two_minutes FreightCacheKey.render
           after_request after_answer 0%nat
           {| call_key := FreightCacheKey.buildFreightCacheKey
                            FreightCacheKey.render "shop" one_line_request;
              call_promise := Pending;
              call_finalized := false |}
           2 answering_upstream
           {| correlationId := "c-1"; response := "{}"; cacheHit := false |}
           100 "shop" one_line_request).
  - apply after_request_reachable.
  - reflexivity.
  - reflexivity.
  - reflexivity.
  - reflexivity.
Defined.

End FreightEstimateSharing.

(* ================================================================== *)
(** * ingram.server.ts: what [buildFreightCacheKey] does not tell apart *)
(* ================================================================== *)
Module FreightCacheKeySharing.
Import JSNumber FreightCacheKey.

(** A line with its quantity replaced. *)
Definition with_quantity (l : Line) (q : option number) : Line :=
  {| ingramPartNumber := ingramPartNumber l;
     itemNumber := itemNumber l;
     customerLineNumber := customerLineNumber l;
     sku := sku l;
     quantity := q |}.

(** A request with its lines replaced. *)
Definition with_lines (p : RateTestInput) (ls : list Line) : RateTestInput :=
  {| shipToAddress := shipToAddress p;
     lines := ls;
     billToAddressId := billToAddressId p;
     shipToAddressId := shipToAddressId p |}.

(** A request with the company name and the second address line
    replaced. *)
Definition with_addressee (p : RateTestInput) (company : string)
    (line2 : option string) : RateTestInput :=
  let a := shipToAddress p in
  with_address p
    {| companyName := company; addressLine1 := addressLine1 a;
       addressLine2 := line2; city := city a; state := state a;
       postalCode := postalCode a; countryCode := countryCode a |}.

(** The line carries none of the four identifiers the key reads. *)
Definition anonymous (l : Line) : bool :=
  negb (JSString.truthy (normalizeString (ingramPartNumber l)))
  && negb (JSString.truthy (normalizeString (itemNumber l)))
  && negb (JSString.truthy (normalizeString (customerLineNumber l)))
  && negb (JSString.truthy (normalizeString (sku l))).

(** The quantity is one the key reads as 1: absent, NaN, infinite, zero or
    negative. *)
Definition unusable (q : option number) : bool :=
  match q with
  | Some x => negb (isFinite x && gtb x zero)
  | None => true
  end.

Section SharingFacts.
Variable Number_toString : number -> string.

Lemma lineToken_unusable (l : Line) (q : option number) :
  unusable q = true ->
  lineToken Number_toString (with_quantity l q)
  = lineToken Number_toString (with_quantity l (Some (of_Z 1))).
Proof.
  unfold unusable, lineToken. cbn [quantity ingramPartNumber itemNumber
                                     customerLineNumber sku with_quantity].
  replace (isFinite (of_Z 1) && gtb (of_Z 1) zero) with true
    by (vm_compute; reflexivity).
  destruct q as [x |]; [|reflexivity].
  intros Hq. apply negb_true_iff in Hq. now rewrite Hq.
Qed.

Lemma lineToken_anonymous (l : Line) :
  anonymous l = true -> lineToken Number_toString l = ""%string.
Proof.
  unfold anonymous, lineToken. intros H.
  apply andb_prop in H as [H H4]. apply andb_prop in H as [H H3].
  apply andb_prop in H as [H1 H2].
  apply negb_true_iff in H1, H2, H3, H4.
  unfold JSString.or_else. rewrite H1, H2, H3, H4. reflexivity.
Qed.

Lemma lineKey_anonymous (before after : list Line) (l : Line) :
  anonymous l = true ->
  lineKey Number_toString (before ++ l :: after)
  = lineKey Number_toString (before ++ after).
Proof.
  intros H. unfold lineKey.
  rewrite !map_app, !filter_app. cbn [map filter].
  now rewrite (lineToken_anonymous l H).
Qed.

Lemma lineKey_unusable (before after : list Line) (l : Line) (q : option number) :
  unusable q = true ->
  lineKey Number_toString (before ++ with_quantity l q :: after)
  = lineKey Number_toString (before ++ with_quantity l (Some (of_Z 1)) :: after).
Proof.
  intros H. unfold lineKey.
  rewrite !map_app. cbn [map]. now rewrite (lineToken_unusable l q H).
Qed.

End SharingFacts.

(** X9.  What the cache key does not see.  The key is the same whatever
    the company name and the second address line are; with or without a
    line that carries none of the four identifiers; and a line's quantity
    that is absent or unusable (NaN, infinite, zero or negative) is keyed
    as the quantity 1. *)
Theorem buildFreightCacheKey_blind_spots
    (Number_toString : number -> string) (shop : string) (p : RateTestInput) :
  (forall company line2,
        buildFreightCacheKey Number_toString shop (with_addressee p company line2)
        = buildFreightCacheKey Number_toString shop p)
  /\ (forall before after l,
        anonymous l = true ->
        buildFreightCacheKey Number_toString shop
          (with_lines p (before ++ l :: after))
        = buildFreightCacheKey Number_toString shop
            (with_lines p (before ++ after)))
  /\ (forall before after l q,
        unusable q = true ->
        buildFreightCacheKey Number_toString shop
          (with_lines p (before ++ with_quantity l q :: after))
        = buildFreightCacheKey Number_toString shop
            (with_lines p (before ++ with_quantity l (Some (of_Z 1)) :: after))).
Proof.
  split; [|split].
  - intros company line2. reflexivity.
  - intros before after l H. unfold buildFreightCacheKey.
    cbn [lines shipToAddress billToAddressId shipToAddressId with_lines].
    now rewrite (lineKey_anonymous Number_toString before after l H).
  - intros before after l q H. unfold buildFreightCacheKey.
    cbn [lines shipToAddress billToAddressId shipToAddressId with_lines].
    now rewrite (lineKey_unusable Number_toString before after l q H).
Qed.

End FreightCacheKeySharing.

(* ================================================================== *)
(** * ingram.server.ts: access tokens

    [ensureAccessToken], [getCredentialsOrThrow], [testCredentials] and
    [prefetchIngramAuth].  The shop's row of the [ingramCredential] table
    is threaded through ([None]: the shop has no row, and an [update]
    throws); the answer of the token endpoint is an argument (an error
    when [fetch] throws).  A stored [Date] is its time value in
    milliseconds; [new Date(t)] of a number that is not a time value is an
    invalid date, which the store refuses.  Each reading of the clock is a
    field of [Clock]. *)
(* ================================================================== *)
Module IngramAuth.
Import JSNumber.
Local Open Scope string_scope.
Local Open Scope Z_scope.

Definition TOKEN_EXPIRY_BUFFER_SECONDS : Z := 60.

(** The columns of the row the token functions read and write. *)
Record IngramCredential := {
  shopDomain : string;
  clientId : string;
  clientSecret : string;
  accessToken : option string;
  accessTokenExpiresAt : option Z;
  lastValidatedAt : option Z;
  lastValidationStatus : option string;
}.

(** The answer of the token endpoint: [response.ok], [response.status],
    the parsed body ([{}] when it does not parse), [json.expires_in] when
    it is a number and [json.access_token] when it is a string. *)
Record OAuthResponse := {
  ok : bool;
  status : Z;
  json : string;
  expires_in : option number;
  access_token : option string;
}.

Inductive thrown :=
| IngramError (message : string) (status : option Z) (details : option string)
| OtherError (message : string).

Record Clock := {
  now_check : Z;
  now_answer : Z;
  now_update : Z;
}.

(** What a call returns, the row it leaves and the number of requests it
    sent to the token endpoint. *)
Record Outcome (A : Type) := {
  result : thrown + A;
  db_after : option IngramCredential;
  requests : nat;
}.
Arguments result {A} _.
Arguments db_after {A} _.
Arguments requests {A} _.

(** The integer part of a finite number. *)
Definition trunc (x : number) : option Z :=
  match x with
  | S754_zero _ => Some 0
  | S754_finite s m e =>
      Some (cond_Zopp s (if 0 <=? e then Zpos m * 2 ^ e else Zpos m / 2 ^ (- e)))
  | _ => None
  end.

(** [new Date(t)]: the time value, when [t] is finite and within
    8.64e15 ms of the epoch. *)
Definition new_Date (t : number) : option Z :=
  match trunc t with
  | Some n => if Z.abs n <=? 8640000000000000 then Some n else None
  | None => None
  end.

(** [prisma.ingramCredential.update({ where: { shopDomain }, data })] *)
Definition update (data : IngramCredential -> IngramCredential)
    (db : option IngramCredential) : thrown + option IngramCredential :=
  match db with
  | Some row => inr (Some (data row))
  | None => inl (OtherError "Record to update not found.")
  end.

Definition validated (at_ : Z) (st : string) (row : IngramCredential)
  : IngramCredential :=
  {| shopDomain := shopDomain row;
     clientId := clientId row;
     clientSecret := clientSecret row;
     accessToken := accessToken row;
     accessTokenExpiresAt := accessTokenExpiresAt row;
     lastValidatedAt := Some at_;
     lastValidationStatus := Some st |}.

Definition refreshed (token : string) (expiresAt at_ : Z) (row : IngramCredential)
  : IngramCredential :=
  {| shopDomain := shopDomain row;
     clientId := clientId row;
     clientSecret := clientSecret row;
     accessToken := Some token;
     accessTokenExpiresAt := Some expiresAt;
     lastValidatedAt := Some at_;
     lastValidationStatus := Some "Success" |}.

(** The condition of lines 303-309: the token to reuse, if any. *)
Definition reusable_token (now : Z) (credentials : IngramCredential)
    (forceRefresh : bool) : option string :=
  if forceRefresh then None
  else
    match accessToken credentials, accessTokenExpiresAt credentials with
    | Some token, Some expiresAt =>
        if JSString.truthy token
           && (expiresAt >? now + TOKEN_EXPIRY_BUFFER_SECONDS * 1000)
        then Some token
        else None
    | _, _ => None
    end.

(** The expiry the refresh stores:
    [new Date(Date.now() + expiresIn * 1000)]. *)
Definition expiry (now : Z) (response : OAuthResponse) : option Z :=
  let expiresIn :=
    match expires_in response with Some n => n | None => of_Z 3600 end in
  new_Date (add (of_Z now) (mul expiresIn (of_Z 1000))).

Definition ensureAccessToken (clock : Clock) (fetch : thrown + OAuthResponse)
    (credentials : IngramCredential) (forceRefresh : bool)
    (db : option IngramCredential) : Outcome string :=
  match reusable_token (now_check clock) credentials forceRefresh with
  | Some token => {| result := inr token; db_after := db; requests := 0 |}
  | None =>
      match fetch with
      | inl e => {| result := inl e; db_after := db; requests := 1 |}
      | inr response =>
          if negb (ok response) then
            match update (validated (now_update clock) "Failed") db with
            | inl e => {| result := inl e; db_after := db; requests := 1 |}
            | inr db1 =>
                {| result := inl (IngramError "Failed to retrieve access token"
                                    (Some (status response)) (Some (json response)));
                   db_after := db1;
                   requests := 1 |}
            end
          else
            let token :=
              match access_token response with Some s => s | None => "" end in
            if negb (JSString.truthy token) then
              {| result := inl (IngramError "Access token missing from OAuth response"
                                  None (Some (json response)));
                 db_after := db;
                 requests := 1 |}
            else
              match expiry (now_answer clock) response with
              | None =>
                  {| result := inl (OtherError "Provided Date object is invalid.");
                     db_after := db;
                     requests := 1 |}
              | Some expiresAt =>
                  match update (refreshed token expiresAt (now_update clock)) db with
                  | inl e => {| result := inl e; db_after := db; requests := 1 |}
                  | inr db1 =>
                      {| result := inr token; db_after := db1; requests := 1 |}
                  end
              end
      end
  end.

(** [getCredentialsOrThrow] *)
Definition getCredentialsOrThrow (db : option IngramCredential)
  : thrown + IngramCredential :=
  match db with
  | Some credentials => inr credentials
  | None => inl (IngramError "No Ingram Micro credentials configured for shop."
                   None None)
  end.

(** [testCredentials]; [now_tested] is the clock at its own update. *)
Definition testCredentials (clock : Clock) (now_tested : Z)
    (fetch : thrown + OAuthResponse) (db : option IngramCredential)
  : Outcome string :=
  match getCredentialsOrThrow db with
  | inl e => {| result := inl e; db_after := db; requests := 0 |}
  | inr credentials =>
      let o := ensureAccessToken clock fetch credentials true db in
      match result o with
      | inl e => o
      | inr token =>
          match update (validated now_tested
                          (if JSString.truthy token then "Success" else "Failure"))
                       (db_after o) with
          | inl e => {| result := inl e; db_after := db_after o;
                        requests := requests o |}
          | inr db2 => {| result := inr token; db_after := db2;
                          requests := requests o |}
          end
      end
  end.

(** [prefetchIngramAuth] *)
Definition prefetchIngramAuth (clock : Clock) (fetch : thrown + OAuthResponse)
    (db : option IngramCredential) : Outcome (IngramCredential * string) :=
  match getCredentialsOrThrow db with
  | inl e => {| result := inl e; db_after := db; requests := 0 |}
  | inr credentials =>
      let o := ensureAccessToken clock fetch credentials false db in
      {| result := match result o with
                   | inl e => inl e
                   | inr accessToken => inr (credentials, accessToken)
                   end;
         db_after := db_after o;
         requests := requests o |}
  end.

(** ** Examples *)

Definition fresh_row : IngramCredential :=
  {| shopDomain := "shop"; clientId := "id"; clientSecret := "secret";
     accessToken := None; accessTokenExpiresAt := None;
     lastValidatedAt := None; lastValidationStatus := Some "Never run" |}.

Definition granted : OAuthResponse :=
  {| ok := true; status := 200; json := "{...}";
     expires_in := Some (of_Z 7200); access_token := Some "tok-1" |}.

Definition noon : Clock :=
  {| now_check := 1000; now_answer := 1200; now_update := 1201 |}.

Example testCredentials_granted :
  testCredentials noon 1300 (inr granted) (Some fresh_row)
  = {| result := inr "tok-1";
       db_after := Some {| shopDomain := "shop"; clientId := "id";
                           clientSecret := "secret";
                           accessToken := Some "tok-1";
                           accessTokenExpiresAt := Some 7201200;
                           lastValidatedAt := Some 1300;
                           lastValidationStatus := Some "Success" |};
       requests := 1 |}.
Proof. vm_compute. reflexivity. Qed.

(** ** Properties *)

Lemma ensureAccessToken_cases (clock : Clock) (fetch : thrown + OAuthResponse)
    (credentials : IngramCredential) (forceRefresh : bool)
    (db : option IngramCredential) (token : string) :
  result (ensureAccessToken clock fetch credentials forceRefresh db) = inr token ->
  JSString.truthy token = true
  /\ ((reusable_token (now_check clock) credentials forceRefresh = Some token
       /\ ensureAccessToken clock fetch credentials forceRefresh db
          = {| result := inr token; db_after := db; requests := 0 |})
      \/ (reusable_token (now_check clock) credentials forceRefresh = None
          /\ exists response expiresAt row,
               fetch = inr response /\ ok response = true
               /\ access_token response = Some token
               /\ expiry (now_answer clock) response = Some expiresAt
               /\ db = Some row
               /\ ensureAccessToken clock fetch credentials forceRefresh db
                  = {| result := inr token;
                       db_after := Some (refreshed token expiresAt (now_update clock) row);
                       requests := 1 |})).
Proof.
  unfold ensureAccessToken.
  destruct (reusable_token (now_check clock) credentials forceRefresh) as [t |] eqn:Hre.
  - cbn [result]. intros [= <-]. split; [|left; split; reflexivity].
    unfold reusable_token in Hre. destruct forceRefresh; [discriminate|].
    destruct (accessToken credentials) as [t' |]; [|discriminate].
    destruct (accessTokenExpiresAt credentials) as [e |]; [|discriminate].
    destruct (JSString.truthy t') eqn:Ht; cbn [andb] in Hre; [|discriminate].
    destruct (e >? _); [|discriminate]. now injection Hre as <-.
  - destruct fetch as [e | response]; [discriminate|].
    destruct (ok response) eqn:Hok; cbn [negb].
    2:{ destruct (update _ db); discriminate. }
    destruct (access_token response) as [s |] eqn:Ha; [|cbn; discriminate].
    destruct (JSString.truthy s) eqn:Ht; cbn [negb]; [|discriminate].
    destruct (expiry (now_answer clock) response) as [expiresAt |] eqn:He;
      [|discriminate].
    destruct db as [row |]; cbn [update]; [|discriminate].
    cbn [result]. intros [= <-]. split; [assumption|]. right. split; [reflexivity|].
    exists response, expiresAt, row. repeat split; assumption.
Qed.

(** X10.  [ensureAccessToken] never hands out an empty token.  A returned token
    is either the stored one, reused without a request because it stays
    valid for more than 60 seconds and no refresh was forced, or the
    [access_token] of a successful answer of the token endpoint, which is
    then stored with its expiry and the status ["Success"]. *)
Theorem ensureAccessToken_token
    (clock : Clock) (fetch : thrown + OAuthResponse)
    (credentials : IngramCredential) (forceRefresh : bool)
    (db : option IngramCredential) (token : string) :
  let o := ensureAccessToken clock fetch credentials forceRefresh db in
  result o = inr token ->
  token <> ""
  /\ ((forceRefresh = false
       /\ accessToken credentials = Some token
       /\ (exists expiresAt,
             accessTokenExpiresAt credentials = Some expiresAt
             /\ now_check clock + 60000 < expiresAt)
       /\ requests o = 0%nat /\ db_after o = db)
      \/ (exists response expiresAt row,
            fetch = inr response /\ ok response = true
            /\ access_token response = Some token
            /\ expiry (now_answer clock) response = Some expiresAt
            /\ db = Some row
            /\ requests o = 1%nat
            /\ db_after o
               = Some (refreshed token expiresAt (now_update clock) row))).
Proof.
  cbv zeta. intros H.
  destruct (ensureAccessToken_cases clock fetch credentials forceRefresh db token H)
    as [Ht [[Hre Ho] | (Hre & response & expiresAt & row & Hf & Hok & Ha & He & Hd & Ho)]].
  - split; [now apply RateCombiner.truthy_empty|]. left. rewrite Ho. cbn.
    unfold reusable_token in Hre. destruct forceRefresh; [discriminate|].
    destruct (accessToken credentials) as [t' |]; [|discriminate].
    destruct (accessTokenExpiresAt credentials) as [e |]; [|discriminate].
    destruct (JSString.truthy t'); cbn [andb] in Hre; [|discriminate].
    destruct (e >? _) eqn:Hgt; [|discriminate]. injection Hre as <-.
    apply Z.gtb_lt in Hgt. unfold TOKEN_EXPIRY_BUFFER_SECONDS in Hgt.
    repeat split; try reflexivity. exists e. split; [reflexivity | lia].
  - split; [now apply RateCombiner.truthy_empty|]. right. rewrite Ho. cbn.
    exists response, expiresAt, row. repeat split; assumption.
Qed.

Lemma ensureAccessToken_token_witness :
  "tok-1" <> ""
  /\ ((true = false
       /\ accessToken fresh_row = Some "tok-1"
       /\ (exists expiresAt,
             accessTokenExpiresAt fresh_row = Some expiresAt
             /\ now_check noon + 60000 < expiresAt)
       /\ requests (ensureAccessToken noon (inr granted) fresh_row true
                      (Some fresh_row)) = 0%nat
       /\ db_after (ensureAccessToken noon (inr granted) fresh_row true
                      (Some fresh_row)) = Some fresh_row)
      \/ (exists response expiresAt row,
            (inr granted : thrown + OAuthResponse) = inr response /\ ok response = true
            /\ access_token response = Some "tok-1"
            /\ expiry (now_answer noon) response = Some expiresAt
            /\ Some fresh_row = Some row
            /\ requests (ensureAccessToken noon (inr granted) fresh_row true
                           (Some fresh_row)) = 1%nat
            /\ db_after (ensureAccessToken noon (inr granted) fresh_row true
                           (Some fresh_row))
               = Some (refreshed "tok-1" expiresAt (now_update noon) row))).
Proof.
  apply (ensureAccessToken_token noon (inr granted) fresh_row true
           (Some fresh_row) "tok-1").
  reflexivity.
Defined.


(** X12.  A token obtained by a successful test is reused.  After
    [testCredentials] returned a token, the row holds an expiry, and every
    [prefetchIngramAuth] made while that expiry is more than 60 seconds
    away returns the same token with the row as it stands, sends nothing
    to the token endpoint and leaves the row unchanged. *)
Theorem tested_token_is_reused
    (clock : Clock) (now_tested : Z) (fetch : thrown + OAuthResponse)
    (db : option IngramCredential) (token : string) :
  let o := testCredentials clock now_tested fetch db in
  result o = inr token ->
  exists row' expiresAt,
    db_after o = Some row'
    /\ accessTokenExpiresAt row' = Some expiresAt
    /\ forall clock' fetch',
         now_check clock' + 60000 < expiresAt ->
         prefetchIngramAuth clock' fetch' (db_after o)
         = {| result := inr (row', token);
              db_after := db_after o;
              requests := 0 |}.
Proof.
  cbv zeta. unfold testCredentials.
  destruct db as [row |]; cbn [getCredentialsOrThrow]; [|discriminate].
  destruct (result (ensureAccessToken clock fetch row true (Some row)))
    as [e | t] eqn:Hres.
  { rewrite Hres. discriminate. }
  destruct (ensureAccessToken_cases clock fetch row true (Some row) t Hres)
    as [Ht [[Hre _] | (_ & response & expiresAt & row0 & _ & _ & _ & _ & Hd & Ho)]];
    [discriminate|].
  injection Hd as <-. rewrite Ho. cbn [db_after requests update result].
  intros [= <-]. eexists. exists expiresAt. split; [reflexivity|].
  split; [reflexivity|].
  intros clock' fetch' Hlt. unfold prefetchIngramAuth, ensureAccessToken.
  cbn [getCredentialsOrThrow reusable_token validated refreshed accessToken
       accessTokenExpiresAt].
  rewrite Ht. cbn [andb].
  replace (expiresAt >? now_check clock' + TOKEN_EXPIRY_BUFFER_SECONDS * 1000)
    with true
    by (symmetry; apply Z.gtb_lt; unfold TOKEN_EXPIRY_BUFFER_SECONDS; lia).
  reflexivity.
Qed.

Lemma tested_token_is_reused_witness :
  exists row' expiresAt,
    db_after (testCredentials noon 1300 (inr granted) (Some fresh_row)) = Some row'
    /\ accessTokenExpiresAt row' = Some expiresAt
    /\ forall clock' fetch',
         now_check clock' + 60000 < expiresAt ->
         prefetchIngramAuth clock' fetch'
           (db_after (testCredentials noon 1300 (inr granted) (Some fresh_row)))
         = {| result := inr (row', "tok-1");
              db_after := db_after (testCredentials noon 1300 (inr granted)
                                      (Some fresh_row));
              requests := 0 |}.
Proof.
  apply (tested_token_is_reused noon 1300 (inr granted) (Some fresh_row) "tok-1").
  reflexivity.
Defined.

End IngramAuth.

(* ================================================================== *)
(** * ingram.server.ts: carrier configuration

    [upsertCarrierConfiguration] and [syncCarriersFromResponse].  Every
    query of these functions is restricted to one shop, and the table's
    unique key is the pair of shop and carrier code: the table is the
    shop's rows keyed by carrier code.  The map [existingMap], built from
    the rows [getCarrierConfigurations] returns, is that table as it
    stands before the first upsert. *)
(* ================================================================== *)
Module CarrierConfiguration.
Import RateCombiner.
Local Open Scope string_scope.
Local Open Scope Z_scope.

(** The columns of a row beside its key. *)
Record CarrierConfig := {
  carrierName : string;
  carrierMode : string;
  displayName : option string;
  enabled : bool;
  sortOrder : Z;
}.

Definition table := JSMap.t CarrierConfig.

(** The [config] argument of [upsertCarrierConfiguration]. *)
Record UpsertInput := {
  in_carrierCode : string;
  in_carrierName : string;
  in_carrierMode : string;
  in_displayName : option string;
  in_enabled : option bool;
  in_sortOrder : option Z;
}.

(** [upsertCarrierConfiguration]: [create] and [update] write the same
    columns. *)
Definition upsertCarrierConfiguration (config : UpsertInput) (t : table) : table :=
  JSMap.set (in_carrierCode config)
    {| carrierName := in_carrierName config;
       carrierMode := in_carrierMode config;
       displayName := in_displayName config;
       enabled := match in_enabled config with Some b => b | None => true end;
       sortOrder := match in_sortOrder config with Some n => n | None => 0 end |}
    t.

(** What [seenCarriers] holds for a carrier: its name and its mode. *)
Definition seen_as (carrier : IngramCarrier) : string * string :=
  (JSString.or_else (JSString.trim_or_empty (shipVia carrier)) (code_of carrier),
   JSString.trim_or_empty (RateCombiner.carrierMode carrier)).

(** The body of the inner loop of lines 563-573. *)
Definition see (seenCarriers : JSMap.t (string * string)) (carrier : IngramCarrier)
  : JSMap.t (string * string) :=
  let code := JSString.trim_or_empty (carrierCode carrier) in
  if negb (JSString.truthy code) then seenCarriers
  else if negb (JSMap.has code seenCarriers)
       then JSMap.set code (seen_as carrier) seenCarriers
       else seenCarriers.

(** Lines 555-574. *)
Definition seenCarriers (distributions : list IngramDistribution)
  : JSMap.t (string * string) :=
  fold_left (fun seen dist => fold_left see (carriers_of dist) seen)
            distributions JSMap.empty.

(** One round of the loop of lines 581-591: the state is the counter
    [sortOrder] and the table. *)
Definition sync_one (existingMap : table) (acc : Z * table)
    (entry : string * (string * string)) : Z * table :=
  let '(sortOrder_, t) := acc in
  let '(carrierCode_, (name, mode)) := entry in
  let existing := JSMap.get carrierCode_ existingMap in
  let '(order, next) :=
    match existing with
    | Some c => (sortOrder c, sortOrder_)
    | None => (sortOrder_, sortOrder_ + 1)
    end in
  (next,
   upsertCarrierConfiguration
     {| in_carrierCode := carrierCode_;
        in_carrierName := name;
        in_carrierMode := mode;
        in_displayName := None;
        in_enabled := Some match existing with
                           | Some c => enabled c
                           | None => true
                           end;
        in_sortOrder := Some order |}
     t).

(** [syncCarriersFromResponse]: the number it returns and the table it
    leaves. *)
Definition syncCarriersFromResponse (distributions : list IngramDistribution)
    (t : table) : Z * table :=
  let seen := seenCarriers distributions in
  let existingMap := t in
  (JSMap.size seen, snd (fold_left (sync_one existingMap) seen (0, t))).

(** ** The response, read off the input *)

(** The carriers of the response, in order. *)
Definition offers (distributions : list IngramDistribution) : list IngramCarrier :=
  flat_map carriers_of distributions.

(** The distinct carrier codes of the response, trimmed, the empty one
    left out, in order of first appearance. *)
Definition offered_codes (distributions : list IngramDistribution) : list string :=
  JSSet.of_list (filter JSString.truthy (map code_of (offers distributions))).

(** The first carrier of the response with the code [c]. *)
Definition first_offer (c : string) (distributions : list IngramDistribution)
  : option IngramCarrier :=
  find (fun carrier => String.eqb (code_of carrier) c) (offers distributions).

(** The offered codes the shop has no row for, in order. *)
Definition new_codes (distributions : list IngramDistribution) (t : table)
  : list string :=
  filter (fun c => negb (JSMap.has c t)) (offered_codes distributions).

(** The row a sync writes for a carrier. *)
Definition synced_row (carrier : IngramCarrier) (enabled_ : bool) (order : Z)
  : CarrierConfig :=
  {| carrierName := fst (seen_as carrier);
     carrierMode := snd (seen_as carrier);
     displayName := None;
     enabled := enabled_;
     sortOrder := order |}.

Lemma fold_flat_map {A B S : Type} (f : S -> B -> S) (g : A -> list B)
    (l : list A) :
  forall s, fold_left (fun acc a => fold_left f (g a) acc) l s
            = fold_left f (flat_map g l) s.
Proof.
  induction l as [| a l IH]; intros s; cbn [fold_left flat_map]; [reflexivity|].
  now rewrite IH, fold_left_app.
Qed.

Lemma seenCarriers_offers (distributions : list IngramDistribution) :
  seenCarriers distributions = fold_left see (offers distributions) JSMap.empty.
Proof. apply fold_flat_map. Qed.

Lemma has_In {V : Type} (k : string) (m : JSMap.t V) :
  JSMap.has k m = true <-> In k (JSMap.keys m).
Proof.
  unfold JSMap.has. rewrite <- JSMap.get_In_keys.
  destruct (JSMap.get k m); split; intros H; try reflexivity; try discriminate.
  - now contradiction H.
Qed.

Lemma see_keys (cs : list IngramCarrier) :
  forall m,
    JSMap.keys (fold_left see cs m)
    = JSSet.add_all (filter JSString.truthy (map code_of cs)) (JSMap.keys m).
Proof.
  induction cs as [| carrier cs IH]; intros m; [reflexivity|].
  cbn [fold_left map filter]. rewrite IH. unfold see. fold (code_of carrier).
  destruct (JSString.truthy (code_of carrier)) eqn:Ht; cbn [negb]; [|reflexivity].
  cbn [JSSet.add_all fold_left].
  change (fold_left (fun acc x => JSSet.add x acc) ?l ?s) with (JSSet.add_all l s).
  f_equal.
  destruct (JSMap.has (code_of carrier) m) eqn:Hh; cbn [negb].
  - apply has_In in Hh. unfold JSSet.add.
    now destruct (in_dec string_dec (code_of carrier) (JSMap.keys m)).
  - apply JSMap.keys_set.
Qed.

Lemma see_get (c : string) (cs : list IngramCarrier) :
  c <> "" ->
  forall m,
    JSMap.get c (fold_left see cs m)
    = match JSMap.get c m with
      | Some v => Some v
      | None =>
          option_map seen_as
            (find (fun carrier => String.eqb (code_of carrier) c) cs)
      end.
Proof.
  intros Hc. induction cs as [| carrier cs IH]; intros m.
  - cbn. now destruct (JSMap.get c m).
  - cbn [fold_left find]. rewrite IH. unfold see. fold (code_of carrier).
    destruct (String.eqb (code_of carrier) c) eqn:E.
    + apply String.eqb_eq in E. rewrite E.
      apply truthy_empty in Hc. rewrite Hc. cbn [negb].
      unfold JSMap.has. destruct (JSMap.get c m) as [v |] eqn:Hg; cbn [negb].
      * now rewrite Hg.
      * now rewrite JSMap.get_set_same.
    + apply String.eqb_neq in E.
      destruct (JSString.truthy (code_of carrier)); cbn [negb]; [|reflexivity].
      destruct (JSMap.has (code_of carrier) m); cbn [negb]; [reflexivity|].
      rewrite JSMap.get_set_other by congruence. reflexivity.
Qed.

Lemma seenCarriers_keys (distributions : list IngramDistribution) :
  JSMap.keys (seenCarriers distributions) = offered_codes distributions.
Proof. rewrite seenCarriers_offers. apply see_keys. Qed.

Lemma offered_codes_nonempty (c : string) (distributions : list IngramDistribution) :
  In c (offered_codes distributions) -> c <> "".
Proof.
  unfold offered_codes. rewrite JSSet.In_of_list, filter_In.
  intros [_ H]. now apply truthy_empty.
Qed.

Lemma seenCarriers_get (c : string) (distributions : list IngramDistribution) :
  c <> "" ->
  JSMap.get c (seenCarriers distributions)
  = option_map seen_as (first_offer c distributions).
Proof.
  intros Hc. rewrite seenCarriers_offers, (see_get c _ Hc). reflexivity.
Qed.

Lemma first_offer_offered (c : string) (distributions : list IngramDistribution) :
  In c (offered_codes distributions) ->
  exists carrier, first_offer c distributions = Some carrier /\ code_of carrier = c.
Proof.
  intros Hin. pose proof (offered_codes_nonempty c distributions Hin) as Hc.
  rewrite <- seenCarriers_keys in Hin. apply JSMap.get_In_keys in Hin.
  rewrite seenCarriers_get in Hin by assumption.
  destruct (first_offer c distributions) as [carrier |] eqn:Hf;
    [|now contradiction Hin].
  exists carrier. split; [reflexivity|].
  unfold first_offer in Hf. apply find_some in Hf as [_ Hf].
  now apply String.eqb_eq.
Qed.

(** The table after the upserts of the entries [seen]: a code among them
    holds the row written for it, any other code its row of before. *)
Lemma sync_fold_other (existingMap : table) (seen : JSMap.t (string * string)) :
  forall n t c,
    ~ In c (JSMap.keys seen) ->
    JSMap.get c (snd (fold_left (sync_one existingMap) seen (n, t)))
    = JSMap.get c t.
Proof.
  induction seen as [| [c0 [name mode]] seen IH]; intros n t c Hnot; [reflexivity|].
  cbn [fold_left]. cbn [JSMap.keys map fst In] in Hnot.
  unfold sync_one at 2.
  destruct (JSMap.get c0 existingMap) as [ex |];
    (rewrite IH by tauto; unfold upsertCarrierConfiguration; cbn [in_carrierCode];
     apply JSMap.get_set_other; intros ->; tauto).
Qed.

Lemma sync_fold_counter (existingMap : table) (seen : JSMap.t (string * string)) :
  forall n t,
    fst (fold_left (sync_one existingMap) seen (n, t))
    = n + Z.of_nat (List.length
                      (filter (fun c => negb (JSMap.has c existingMap))
                              (JSMap.keys seen))).
Proof.
  induction seen as [| [c0 [name mode]] seen IH]; intros n t.
  - cbn. lia.
  - cbn [fold_left JSMap.keys map fst filter]. unfold sync_one at 2.
    unfold JSMap.has. destruct (JSMap.get c0 existingMap) as [ex |]; cbn [negb].
    + apply IH.
    + rewrite IH. cbn [List.length]. fold (JSMap.keys seen). unfold JSMap.has. lia.
Qed.

Lemma sync_fold_existing (existingMap : table) (seen : JSMap.t (string * string)) :
  NoDup (JSMap.keys seen) ->
  forall n t c name mode ex,
    In (c, (name, mode)) seen ->
    JSMap.get c existingMap = Some ex ->
    JSMap.get c (snd (fold_left (sync_one existingMap) seen (n, t)))
    = Some {| carrierName := name; carrierMode := mode; displayName := None;
              enabled := enabled ex; sortOrder := sortOrder ex |}.
Proof.
  induction seen as [| [c0 [name0 mode0]] seen IH]; intros Hnd n t c name mode ex Hin Hex;
    [contradiction|].
  inversion Hnd as [| ? ? Hnot Hnd']; subst.
  cbn [fold_left]. destruct Hin as [[= -> -> ->] | Hin].
  - unfold sync_one at 2. rewrite Hex.
    rewrite sync_fold_other by assumption.
    unfold upsertCarrierConfiguration. cbn. apply JSMap.get_set_same.
  - destruct (sync_one existingMap (n, t) (c0, (name0, mode0))) as [n1 t1].
    now apply IH.
Qed.

Lemma sync_fold_new (existingMap : table) (seen : JSMap.t (string * string)) :
  NoDup (JSMap.keys seen) ->
  forall n t i c name mode,
    nth_error (filter (fun c => negb (JSMap.has c existingMap)) (JSMap.keys seen)) i
    = Some c ->
    JSMap.get c seen = Some (name, mode) ->
    JSMap.get c (snd (fold_left (sync_one existingMap) seen (n, t)))
    = Some {| carrierName := name; carrierMode := mode; displayName := None;
              enabled := true; sortOrder := n + Z.of_nat i |}.
Proof.
  induction seen as [| [c0 [name0 mode0]] seen IH];
    intros Hnd n t i c name mode Hi Hg.
  - destruct i; discriminate.
  - inversion Hnd as [| ? ? Hnot Hnd']; subst.
    cbn [fold_left]. cbn [JSMap.keys map fst filter] in Hi.
    fold (JSMap.keys seen) in Hi. cbn [JSMap.get] in Hg.
    unfold sync_one at 2. unfold JSMap.has in Hi at 1.
    destruct (JSMap.get c0 existingMap) as [ex |] eqn:Hex; cbn [negb] in Hi.
    + (* the head has a row: it is not new *)
      assert (Hne : c <> c0).
      { intros ->. apply nth_error_In, filter_In in Hi as [Hi _]. contradiction. }
      apply String.eqb_neq in Hne. rewrite Hne in Hg.
      now apply IH.
    + destruct i as [| i]; cbn [nth_error] in Hi.
      * injection Hi as <-. rewrite String.eqb_refl in Hg. injection Hg as <- <-.
        rewrite sync_fold_other by assumption.
        unfold upsertCarrierConfiguration. cbn.
        rewrite JSMap.get_set_same. do 2 f_equal. lia.
      * assert (Hne : c <> c0).
        { intros ->. apply nth_error_In, filter_In in Hi as [Hi _]. contradiction. }
        apply String.eqb_neq in Hne. rewrite Hne in Hg.
        rewrite (IH Hnd' (n + 1) _ i c name mode Hi Hg). do 2 f_equal. lia.
Qed.

Lemma offered_codes_NoDup (distributions : list IngramDistribution) :
  NoDup (offered_codes distributions).
Proof. apply JSSet.NoDup_of_list. Qed.

(** ** Examples *)

(** A shop that has switched UPS off and shows it third under its own
    name. *)
Definition configured : table :=
  [ ("UPS", {| carrierName := "UPS Ground"; carrierMode := "SML";
               displayName := Some "Brown truck"; enabled := false;
               sortOrder := 2 |}) ].

Example sync_two_warehouses :
  syncCarriersFromResponse two_warehouses configured
  = (2, [ ("UPS", {| carrierName := "UPS"; carrierMode := "";
                     displayName := None; enabled := false; sortOrder := 2 |});
          ("FDX", {| carrierName := "FDX"; carrierMode := "";
                     displayName := None; enabled := true; sortOrder := 0 |}) ]).
Proof. vm_compute. reflexivity. Qed.

(** ** Properties *)

(** X13.  A sync keeps the merchant's switches but not the display name.  For a
    carrier code the shop already has a row for: if the response offers
    the code, the row keeps [enabled] and [sortOrder], takes the name and
    the mode of the first carrier offered under the code, and its
    [displayName] is reset to [null]; if the response does not offer it,
    the row is untouched. *)
Theorem sync_keeps_enabled_and_sortOrder
    (distributions : list IngramDistribution) (t : table)
    (c : string) (row : CarrierConfig) :
  JSMap.get c t = Some row ->
  let t' := snd (syncCarriersFromResponse distributions t) in
  (In c (offered_codes distributions) ->
   exists carrier,
     first_offer c distributions = Some carrier
     /\ JSMap.get c t' = Some (synced_row carrier (enabled row) (sortOrder row)))
  /\ (~ In c (offered_codes distributions) -> JSMap.get c t' = Some row).
Proof.
  intros Hrow. cbv zeta. unfold syncCarriersFromResponse. cbn [snd]. split.
  - intros Hin. destruct (first_offer_offered c distributions Hin) as (carrier & Hf & Hc).
    exists carrier. split; [assumption|].
    pose proof (offered_codes_nonempty c distributions Hin) as Hne.
    pose proof (seenCarriers_get c distributions Hne) as Hg. rewrite Hf in Hg.
    cbn [option_map] in Hg.
    assert (Hnd : NoDup (JSMap.keys (seenCarriers distributions)))
      by (rewrite seenCarriers_keys; apply offered_codes_NoDup).
    apply (JSMap.In_get _ c _ Hnd) in Hg.
    destruct (seen_as carrier) as [name mode] eqn:Hs.
    rewrite (sync_fold_existing t _ Hnd 0 t c name mode row Hg Hrow).
    unfold synced_row. now rewrite Hs.
  - intros Hnot. rewrite sync_fold_other; [assumption|].
    now rewrite seenCarriers_keys.
Qed.

Lemma sync_keeps_enabled_and_sortOrder_witness :
  (In "UPS" (offered_codes two_warehouses) ->
   exists carrier,
     first_offer "UPS" two_warehouses = Some carrier
     /\ JSMap.get "UPS" (snd (syncCarriersFromResponse two_warehouses configured))
        = Some (synced_row carrier false 2))
  /\ (~ In "UPS" (offered_codes two_warehouses) ->
      JSMap.get "UPS" (snd (syncCarriersFromResponse two_warehouses configured))
      = Some {| carrierName := "UPS Ground"; carrierMode := "SML";
                displayName := Some "Brown truck"; enabled := false;
                sortOrder := 2 |}).
Proof.
  apply (sync_keeps_enabled_and_sortOrder two_warehouses configured "UPS"
           {| carrierName := "UPS Ground"; carrierMode := "SML";
              displayName := Some "Brown truck"; enabled := false;
              sortOrder := 2 |}).
  reflexivity.
Defined.

(** X14.  A sync adds the carriers the shop has no row for.  It returns the
    number of distinct carrier codes of the response (trimmed, the empty
    code left out); every such code has a row afterwards; and the codes
    that had none get rows that are enabled, without display name, and
    numbered 0, 1, 2, ... in the order the response first offers them,
    whatever sort orders the existing rows hold. *)
Theorem sync_adds_new_carriers
    (distributions : list IngramDistribution) (t : table) :
  let r := syncCarriersFromResponse distributions t in
  fst r = Z.of_nat (List.length (offered_codes distributions))
  /\ (forall c, In c (offered_codes distributions) -> JSMap.has c (snd r) = true)
  /\ (forall i c,
        nth_error (new_codes distributions t) i = Some c ->
        exists carrier,
          first_offer c distributions = Some carrier
          /\ JSMap.get c (snd r) = Some (synced_row carrier true (Z.of_nat i))).
Proof.
  cbv zeta. unfold syncCarriersFromResponse. cbn [fst snd].
  assert (Hnd : NoDup (JSMap.keys (seenCarriers distributions)))
    by (rewrite seenCarriers_keys; apply offered_codes_NoDup).
  assert (Hnew : forall i c,
             nth_error (new_codes distributions t) i = Some c ->
             exists carrier,
               first_offer c distributions = Some carrier
               /\ JSMap.get c (snd (fold_left (sync_one t) (seenCarriers distributions)
                                              (0, t)))
                  = Some (synced_row carrier true (Z.of_nat i))).
  { intros i c Hi. unfold new_codes in Hi.
    assert (Hin : In c (offered_codes distributions)).
    { apply nth_error_In, filter_In in Hi. tauto. }
    destruct (first_offer_offered c distributions Hin) as (carrier & Hf & Hc).
    exists carrier. split; [assumption|].
    pose proof (offered_codes_nonempty c distributions Hin) as Hne.
    pose proof (seenCarriers_get c distributions Hne) as Hg. rewrite Hf in Hg.
    cbn [option_map] in Hg. rewrite <- seenCarriers_keys in Hi.
    destruct (seen_as carrier) as [name mode] eqn:Hs.
    rewrite (sync_fold_new t _ Hnd 0 t i c name mode Hi Hg).
    unfold synced_row. now rewrite Hs. }
  split; [|split; [|exact Hnew]].
  - unfold JSMap.size. rewrite <- seenCarriers_keys. unfold JSMap.keys.
    now rewrite length_map.
  - intros c Hin. unfold JSMap.has.
    destruct (JSMap.get c t) as [row |] eqn:Hrow.
    + destruct (first_offer_offered c distributions Hin) as (carrier & Hf & Hc).
      pose proof (offered_codes_nonempty c distributions Hin) as Hne.
      pose proof (seenCarriers_get c distributions Hne) as Hg. rewrite Hf in Hg.
      cbn [option_map] in Hg. apply (JSMap.In_get _ c _ Hnd) in Hg.
      destruct (seen_as carrier) as [name mode].
      now rewrite (sync_fold_existing t _ Hnd 0 t c name mode row Hg Hrow).
    + assert (Hin' : In c (new_codes distributions t)).
      { apply filter_In. split; [assumption|]. unfold JSMap.has. now rewrite Hrow. }
      apply In_nth_error in Hin' as (i & Hi).
      destruct (Hnew i c Hi) as (carrier & _ & ->). reflexivity.
Qed.

End CarrierConfiguration.

(* ================================================================== *)
(** * product-sync.server.ts and routes/api.cron.sync-products.ts:
    the product sync

    Both files fetch the remote catalogue page by page, keep the first
    part number of every SKU and replace a shop's rows of the local
    [productMapping] table, in batches.  The remote client is an argument:
    the error [getSupabaseClient] throws, or what the table answers to
    [range(offset, offset + PAGE_SIZE - 1)], an error message or the rows.
    The loop over the pages is [while (true)]: it runs on fuel.  The two
    local tables are threaded through.  A call of the database client may
    throw: [Prisma] says which call does, with the message of its error,
    and a call that throws leaves the tables as they were.  A job's [id]
    is its position in the job table. *)
(* ================================================================== *)
Module ProductSync.
Local Open Scope string_scope.
Local Open Scope Z_scope.

Definition PAGE_SIZE : nat := 5000.
Definition BATCH_SIZE : nat := 1000.
Definition STALE_JOB_THRESHOLD_MS : Z := 10 * 60 * 1000.

(** A row of [final_product_table_us], as selected; a column may be
    [null]. *)
Record SupabaseRow := {
  price_vendor_part : option string;
  price_part_nbr : option string;
}.

(** A page request's answer: [error.message], or [data ?? []]. *)
Definition Page := (string + list SupabaseRow)%type.

Definition Supabase := (string + (nat -> Page))%type.

(** [Boolean(row.price_vendor_part) && Boolean(row.price_part_nbr)] *)
Definition is_valid (row : SupabaseRow) : bool :=
  match price_vendor_part row, price_part_nbr row with
  | Some s, Some p => JSString.truthy s && JSString.truthy p
  | _, _ => false
  end.

(** A valid row: its SKU and its part number. *)
Definition as_mapping (row : SupabaseRow) : string * string :=
  (match price_vendor_part row with Some s => s | None => "" end,
   match price_part_nbr row with Some p => p | None => "" end).

Definition validRows (data : list SupabaseRow) : list (string * string) :=
  map as_mapping (filter is_valid data).

(** The loop over the pages, from [offset] with [allRows] fetched so far:
    [inl] is the message of the error thrown (product-sync) or answered
    with status 500 (cron), [None] that the fuel ran out. *)
Fixpoint fetch_pages (fuel : nat) (range : nat -> Page) (offset : nat)
    (allRows : list (string * string)) : option (string + list (string * string)) :=
  match fuel with
  | O => None
  | S fuel' =>
      match range offset with
      | inl message => Some (inl message)
      | inr data =>
          match validRows data with
          | [] => Some (inr allRows)
          | valid =>
              let allRows' := (allRows ++ valid)%list in
              if (List.length valid <? PAGE_SIZE)%nat then Some (inr allRows')
              else fetch_pages fuel' range (offset + PAGE_SIZE) allRows'
          end
      end
  end.

(** The deduplication loop: the first part number of every SKU. *)
Definition keep_first (uniqueMappings : JSMap.t string) (row : string * string)
  : JSMap.t string :=
  if negb (JSMap.has (fst row) uniqueMappings)
  then JSMap.set (fst row) (snd row) uniqueMappings
  else uniqueMappings.

Definition dedupe (rows : list (string * string)) : JSMap.t string :=
  fold_left keep_first rows JSMap.empty.

(** ** The local tables *)

Record ProductSyncJob := {
  shopDomain : string;
  status : string;
  processed : Z;
  total : Z;
  error : option string;
  createdAt : Z;
  finishedAt : option Z;
}.

Record Db := {
  productMapping : list ProductMapping.ProductMappingRow;
  productSyncJob : list ProductSyncJob;
}.

Definition with_jobs (db : Db) (jobs : list ProductSyncJob) : Db :=
  {| productMapping := productMapping db; productSyncJob := jobs |}.

Definition with_mappings (db : Db) (rows : list ProductMapping.ProductMappingRow)
  : Db :=
  {| productMapping := rows; productSyncJob := productSyncJob db |}.

(** The calls of the database client that product-sync.server.ts makes:
    those of [startProductSync], then those of [runProductSyncFast], of
    which [InsertBatch k] and [SetProcessed k] are the [createMany] and
    the update of the progress of the batch number [k], and [SetFailed]
    is the update of the [catch] clause. *)
Inductive Operation :=
| MarkStale
| FindRunning
| CreateJob
| FindJob
| SetTotal
| DeleteMappings
| InsertBatch (k : nat)
| SetProcessed (k : nat)
| SetSuccess
| SetFailed.

(** The database client: the message of the error a call throws, if it
    does, and the message of the error [update] throws when no job has
    the [id]. *)
Record Prisma := {
  throws : Operation -> option string;
  not_found : string;
}.

(** The calls inside the [try] block of [runProductSyncFast]. *)
Definition of_the_try (op : Operation) : bool :=
  match op with
  | SetTotal | DeleteMappings | InsertBatch _ | SetProcessed _ | SetSuccess => true
  | _ => false
  end.

(** What [update] writes when the job is there. *)
Definition update_job (id : nat) (data : ProductSyncJob -> ProductSyncJob)
    (db : Db) : Db :=
  match nth_error (productSyncJob db) id with
  | Some job => with_jobs db (FreightEstimate.set_nth id (data job) (productSyncJob db))
  | None => db
  end.

(** [prisma.productSyncJob.update({ where: { id }, data })], as the call
    [op]: the message of the error thrown, or the tables. *)
Definition update (prisma : Prisma) (op : Operation) (id : nat)
    (data : ProductSyncJob -> ProductSyncJob) (db : Db) : string + Db :=
  match throws prisma op with
  | Some message => inl message
  | None =>
      match nth_error (productSyncJob db) id with
      | Some _ => inr (update_job id data db)
      | None => inl (not_found prisma)
      end
  end.

(** [prisma.productMapping.deleteMany({ where: { shopDomain } })] *)
Definition deleteMany (shop : string) (db : Db) : Db :=
  with_mappings db
    (filter (fun row => negb (String.eqb (ProductMapping.row_shopDomain row) shop))
            (productMapping db)).

Definition same_key (a b : ProductMapping.ProductMappingRow) : bool :=
  String.eqb (ProductMapping.row_shopDomain a) (ProductMapping.row_shopDomain b)
  && String.eqb (ProductMapping.row_sku a) (ProductMapping.row_sku b).

(** [prisma.productMapping.createMany({ data, skipDuplicates: true })]: a
    row whose shop and SKU the table already holds is skipped. *)
Definition createMany (data : list ProductMapping.ProductMappingRow) (db : Db) : Db :=
  with_mappings db
    (fold_left (fun table row =>
                  if existsb (same_key row) table then table
                  else (table ++ [row])%list)
               data (productMapping db)).

Definition mapping_row (shop : string) (entry : string * string)
  : ProductMapping.ProductMappingRow :=
  {| ProductMapping.row_shopDomain := shop;
     ProductMapping.row_sku := fst entry;
     ProductMapping.row_ingramPartNumber := snd entry |}.

(** [array.slice(i, i + BATCH_SIZE)] *)
Definition slice {A : Type} (i : nat) (l : list A) : list A :=
  firstn BATCH_SIZE (skipn i l).

Definition set_processed (n : Z) (job : ProductSyncJob) : ProductSyncJob :=
  {| shopDomain := shopDomain job; status := status job; processed := n;
     total := total job; error := error job; createdAt := createdAt job;
     finishedAt := finishedAt job |}.

Definition set_total (n : Z) (job : ProductSyncJob) : ProductSyncJob :=
  {| shopDomain := shopDomain job; status := status job;
     processed := processed job; total := n; error := error job;
     createdAt := createdAt job; finishedAt := finishedAt job |}.

Definition set_success (processed_ total_ now : Z) (job : ProductSyncJob)
  : ProductSyncJob :=
  {| shopDomain := shopDomain job; status := "success"; processed := processed_;
     total := total_; error := error job; createdAt := createdAt job;
     finishedAt := Some now |}.

Definition set_failed (message : string) (now : Z) (job : ProductSyncJob)
  : ProductSyncJob :=
  {| shopDomain := shopDomain job; status := "failed";
     processed := processed job; total := total job; error := Some message;
     createdAt := createdAt job; finishedAt := Some now |}.

(** The loop over the batches of product-sync.server.ts, from index [i]:
    the state is the count [processed] and the tables; the first
    component of the result is the message of the error thrown, if any.
    The loop makes at most one round per element, which [rounds] counts
    down. *)
Fixpoint insert_batches (rounds : nat) (prisma : Prisma) (jobId : nat)
    (shop : string) (mappingsArray : list (string * string)) (i : nat)
    (acc : Z * Db) : option string * (Z * Db) :=
  match rounds with
  | O => (None, acc)
  | S rounds' =>
      if (i <? List.length mappingsArray)%nat then
        let '(processed_, db) := acc in
        let batch := map (mapping_row shop) (slice i mappingsArray) in
        match throws prisma (InsertBatch (i / BATCH_SIZE)) with
        | Some message => (Some message, acc)
        | None =>
            let db1 := createMany batch db in
            let processed' := processed_ + Z.of_nat (List.length batch) in
            match update prisma (SetProcessed (i / BATCH_SIZE)) jobId
                         (set_processed processed') db1 with
            | inl message => (Some message, (processed', db1))
            | inr db2 =>
                insert_batches rounds' prisma jobId shop mappingsArray
                               (i + BATCH_SIZE) (processed', db2)
            end
        end
      else (None, acc)
  end.

Record Clock := {
  now_stale : Z;
  now_marked : Z;
  now_created : Z;
  now_finished : Z;
}.

(** The [catch] clause of [runProductSyncFast] (lines 196-215), for the
    error [message] thrown with the tables [db]: the job is marked, and
    the error is thrown again; when the update of the job throws, its
    error is the one thrown. *)
Definition caught (clock : Clock) (prisma : Prisma) (jobId : nat)
    (message : string) (db : Db) : option string * Db :=
  match update prisma SetFailed jobId (set_failed message (now_finished clock)) db
  with
  | inl message' => (Some message', db)
  | inr db' => (Some message, db')
  end.

(** [runProductSyncFast]: the message of the error it throws, if any,
    and the tables it leaves. *)
Definition runProductSyncFast (fuel : nat) (clock : Clock) (prisma : Prisma)
    (supabase : Supabase) (jobId : nat) (shop : string) (db : Db)
  : option (option string * Db) :=
  match supabase with
  | inl message => Some (caught clock prisma jobId message db)
  | inr range =>
      match fetch_pages fuel range 0 [] with
      | None => None
      | Some (inl message) =>
          Some (caught clock prisma jobId ("Supabase error: " ++ message) db)
      | Some (inr rows) =>
          let uniqueMappings := dedupe rows in
          let total_ := JSMap.size uniqueMappings in
          match update prisma SetTotal jobId (set_total total_) db with
          | inl message => Some (caught clock prisma jobId message db)
          | inr db1 =>
              match throws prisma DeleteMappings with
              | Some message => Some (caught clock prisma jobId message db1)
              | None =>
                  let db2 := deleteMany shop db1 in
                  match insert_batches (List.length uniqueMappings) prisma jobId
                                       shop uniqueMappings 0 (0, db2) with
                  | (Some message, (_, db3)) =>
                      Some (caught clock prisma jobId message db3)
                  | (None, (processed_, db3)) =>
                      match update prisma SetSuccess jobId
                                   (set_success processed_ total_
                                                (now_finished clock)) db3 with
                      | inl message =>
                          Some (caught clock prisma jobId message db3)
                      | inr db4 => Some (None, db4)
                      end
                  end
              end
          end
      end
  end.

(** [markStaleJobsAsFailed] *)
Definition markStaleJobsAsFailed (clock : Clock) (shop : string) (db : Db) : Db :=
  let staleThreshold := now_stale clock - STALE_JOB_THRESHOLD_MS in
  with_jobs db
    (map (fun job =>
            if String.eqb (shopDomain job) shop
               && String.eqb (status job) "running"
               && (createdAt job <? staleThreshold)
            then {| shopDomain := shopDomain job; status := "failed";
                    processed := processed job; total := total job;
                    error := Some "Sync timed out - job was running too long";
                    createdAt := createdAt job;
                    finishedAt := Some (now_marked clock) |}
            else job)
         (productSyncJob db)).

(** [findFirst({ where: { shopDomain, status: "running" },
    orderBy: { createdAt: "desc" } })]: the latest running job of the
    shop (the earliest row among equals). *)
Definition is_running (shop : string) (job : ProductSyncJob) : bool :=
  String.eqb (shopDomain job) shop && String.eqb (status job) "running".

Definition latest (jobs : list ProductSyncJob) : option ProductSyncJob :=
  fold_left (fun best job =>
               match best with
               | Some b => if createdAt b <? createdAt job then Some job else best
               | None => Some job
               end)
            jobs None.

Definition findRunning (shop : string) (db : Db) : option ProductSyncJob :=
  latest (filter (is_running shop) (productSyncJob db)).

(** [startProductSync]: the job it returns, or the message of the error
    it throws, and the tables it leaves.  Every error thrown inside is
    caught and thrown again with its message (lines 76-81). *)
Definition startProductSync (fuel : nat) (clock : Clock) (prisma : Prisma)
    (supabase : Supabase) (shop : string) (db : Db)
  : option ((string + option ProductSyncJob) * Db) :=
  match throws prisma MarkStale with
  | Some message => Some (inl message, db)
  | None =>
      let db1 := markStaleJobsAsFailed clock shop db in
      match throws prisma FindRunning with
      | Some message => Some (inl message, db1)
      | None =>
          match findRunning shop db1 with
          | Some existing => Some (inr (Some existing), db1)
          | None =>
              match throws prisma CreateJob with
              | Some message => Some (inl message, db1)
              | None =>
                  let jobId := List.length (productSyncJob db1) in
                  let db2 :=
                    with_jobs db1
                      (productSyncJob db1
                       ++ [ {| shopDomain := shop; status := "running";
                               processed := 0; total := 0; error := None;
                               createdAt := now_created clock;
                               finishedAt := None |} ])%list in
                  match runProductSyncFast fuel clock prisma supabase jobId shop
                                           db2 with
                  | None => None
                  | Some (Some message, db3) => Some (inl message, db3)
                  | Some (None, db3) =>
                      match throws prisma FindJob with
                      | Some message => Some (inl message, db3)
                      | None =>
                          Some (inr (nth_error (productSyncJob db3) jobId), db3)
                      end
                  end
              end
          end
      end
  end.

(** ** A remote table that answers every page request from the same rows *)

(** [range(offset, offset + PAGE_SIZE - 1)] on the rows [table]. *)
Definition range_of (table : list SupabaseRow) (offset : nat) : Page :=
  inr (firstn PAGE_SIZE (skipn offset table)).

(** ** Facts about the page loop *)

Lemma validRows_app (a b : list SupabaseRow) :
  validRows (a ++ b) = (validRows a ++ validRows b)%list.
Proof. unfold validRows. now rewrite filter_app, map_app. Qed.

Lemma validRows_length (data : list SupabaseRow) :
  (List.length (validRows data) <= List.length data)%nat.
Proof. unfold validRows. rewrite length_map. apply filter_length_le. Qed.

Lemma validRows_all (data : list SupabaseRow) :
  forallb is_valid data = true -> validRows data = map as_mapping data.
Proof.
  intros H. unfold validRows. f_equal.
  induction data as [| row data IH]; [reflexivity|].
  cbn in *. apply andb_prop in H as [Hr Hd]. rewrite Hr. f_equal. now apply IH.
Qed.

Lemma firstn_app_exact {A : Type} (n : nat) (a b : list A) :
  List.length a = n -> firstn n (a ++ b) = a.
Proof.
  intros <-. rewrite firstn_app, Nat.sub_diag, firstn_all. cbn. apply app_nil_r.
Qed.

Lemma skipn_app_exact {A : Type} (n : nat) (a b : list A) :
  List.length a = n -> skipn n (a ++ b) = b.
Proof.
  intros <-. rewrite skipn_app, Nat.sub_diag, skipn_all. reflexivity.
Qed.

(** The loop, from an offset after which the table holds [pages] full
    pages of valid rows, then a page [last] with fewer than [PAGE_SIZE]
    valid rows, then [rest]: it fetches the full pages and [last], and
    stops. *)
Lemma fetch_pages_from (table : list SupabaseRow) (pages : nat) :
  forall (fuel offset : nat) (allRows : list (string * string))
         (full last rest : list SupabaseRow),
    skipn offset table = (full ++ last ++ rest)%list ->
    forallb is_valid full = true ->
    List.length full = (pages * PAGE_SIZE)%nat ->
    (List.length last <= PAGE_SIZE)%nat ->
    (rest <> [] -> List.length last = PAGE_SIZE) ->
    (List.length (validRows last) < PAGE_SIZE)%nat ->
    (pages < fuel)%nat ->
    fetch_pages fuel (range_of table) offset allRows
    = Some (inr (allRows ++ validRows (full ++ last))%list).
Proof.
  induction pages as [| pages IH];
    intros fuel offset allRows full last rest Hskip Hvalid Hlen Hlast Hrest Hshort Hfuel.
  - destruct fuel as [| fuel]; [lia|].
    destruct full; [|discriminate]. cbn [app] in *.
    cbn [fetch_pages]. unfold range_of. rewrite Hskip.
    assert (Hpage : firstn PAGE_SIZE (last ++ rest) = last).
    { destruct rest as [| r rest].
      - rewrite app_nil_r. now apply firstn_all2.
      - apply firstn_app_exact. apply Hrest. discriminate. }
    rewrite Hpage.
    destruct (validRows last) as [| v vs] eqn:Hv.
    + now rewrite app_nil_r.
    + apply Nat.ltb_lt in Hshort. now rewrite Hshort.
  - destruct fuel as [| fuel]; [lia|].
    set (page := firstn PAGE_SIZE full).
    set (full' := skipn PAGE_SIZE full).
    assert (Hsplit : full = (page ++ full')%list)
      by (symmetry; apply firstn_skipn).
    assert (Hpl : List.length page = PAGE_SIZE).
    { unfold page. rewrite length_firstn. lia. }
    assert (Hfl : List.length full' = (pages * PAGE_SIZE)%nat).
    { unfold full'. rewrite length_skipn, Hlen. lia. }
    rewrite Hsplit in Hvalid. rewrite forallb_app in Hvalid.
    apply andb_prop in Hvalid as [Hvp Hvf].
    cbn [fetch_pages]. unfold range_of at 1. rewrite Hskip, Hsplit.
    rewrite <- app_assoc, (firstn_app_exact PAGE_SIZE page _ Hpl).
    rewrite (validRows_all page Hvp).
    destruct (map as_mapping page) as [| v vs] eqn:Hm.
    { apply (f_equal (@List.length _)) in Hm. rewrite length_map, Hpl in Hm.
      discriminate. }
    replace (List.length (v :: vs) <? PAGE_SIZE)%nat with false.
    2:{ symmetry. apply Nat.ltb_ge. rewrite <- Hm, length_map, Hpl. lia. }
    rewrite (IH fuel (offset + PAGE_SIZE)%nat (allRows ++ v :: vs)%list
               full' last rest); try assumption; try lia.
    + rewrite <- Hm, <- (validRows_all page Hvp), <- !app_assoc.
      now rewrite <- validRows_app, app_assoc.
    + rewrite Nat.add_comm, <- skipn_skipn, Hskip, Hsplit, <- app_assoc.
      now apply skipn_app_exact.
Qed.

(** ** Facts about the deduplication *)

Lemma dedupe_keys (rows : list (string * string)) :
  forall m,
    JSMap.keys (fold_left keep_first rows m)
    = JSSet.add_all (map fst rows) (JSMap.keys m).
Proof.
  induction rows as [| row rows IH]; intros m; [reflexivity|].
  cbn [fold_left map]. rewrite IH. unfold keep_first.
  cbn [JSSet.add_all fold_left].
  change (fold_left (fun acc x => JSSet.add x acc) ?l ?s) with (JSSet.add_all l s).
  f_equal.
  destruct (JSMap.has (fst row) m) eqn:Hh; cbn [negb].
  - apply CarrierConfiguration.has_In in Hh. unfold JSSet.add.
    now destruct (in_dec string_dec (fst row) (JSMap.keys m)).
  - apply JSMap.keys_set.
Qed.

Lemma dedupe_get (k : string) (rows : list (string * string)) :
  forall m,
    JSMap.get k (fold_left keep_first rows m)
    = match JSMap.get k m with
      | Some v => Some v
      | None => option_map snd (find (fun row => String.eqb (fst row) k) rows)
      end.
Proof.
  induction rows as [| row rows IH]; intros m.
  - cbn. now destruct (JSMap.get k m).
  - cbn [fold_left find]. rewrite IH. unfold keep_first.
    destruct (String.eqb (fst row) k) eqn:E.
    + apply String.eqb_eq in E. rewrite E.
      unfold JSMap.has. destruct (JSMap.get k m) as [v |] eqn:Hg; cbn [negb].
      * now rewrite Hg.
      * now rewrite JSMap.get_set_same.
    + apply String.eqb_neq in E.
      destruct (JSMap.has (fst row) m); cbn [negb]; [reflexivity|].
      rewrite JSMap.get_set_other by congruence. reflexivity.
Qed.

Lemma validRows_short (data : list SupabaseRow) :
  existsb (fun row => negb (is_valid row)) data = true ->
  (List.length (validRows data) < List.length data)%nat.
Proof.
  unfold validRows. rewrite length_map.
  induction data as [| row data IH]; [discriminate|].
  cbn [existsb filter List.length]. intros H.
  destruct (is_valid row); cbn [negb orb] in H.
  - cbn [List.length]. apply IH in H. lia.
  - pose proof (filter_length_le is_valid data). lia.
Qed.

(** ** Facts about the local tables *)

Lemma update_job_mappings (id : nat) (data : ProductSyncJob -> ProductSyncJob)
    (db : Db) : productMapping (update_job id data db) = productMapping db.
Proof. unfold update_job. now destruct (nth_error (productSyncJob db) id). Qed.

Lemma update_job_at (id : nat) (data : ProductSyncJob -> ProductSyncJob) (db : Db) :
  nth_error (productSyncJob (update_job id data db)) id
  = option_map data (nth_error (productSyncJob db) id).
Proof.
  unfold update_job. destruct (nth_error (productSyncJob db) id) as [job |] eqn:Hj.
  - cbn [productSyncJob with_jobs].
    now rewrite FreightEstimate.nth_error_set_nth, Nat.eqb_refl, Hj.
  - now rewrite Hj.
Qed.

Lemma update_job_other (id id' : nat) (data : ProductSyncJob -> ProductSyncJob)
    (db : Db) :
  id' <> id ->
  nth_error (productSyncJob (update_job id data db)) id'
  = nth_error (productSyncJob db) id'.
Proof.
  intros Hne. unfold update_job.
  destruct (nth_error (productSyncJob db) id) as [job |]; [|reflexivity].
  cbn [productSyncJob with_jobs]. rewrite FreightEstimate.nth_error_set_nth.
  apply Nat.eqb_neq in Hne. now rewrite Hne.
Qed.

Definition insert_row (table : list ProductMapping.ProductMappingRow)
    (row : ProductMapping.ProductMappingRow) : list ProductMapping.ProductMappingRow :=
  if existsb (same_key row) table then table else (table ++ [row])%list.

Lemma createMany_app (a b : list ProductMapping.ProductMappingRow) (db : Db) :
  createMany (a ++ b) db = createMany b (createMany a db).
Proof. unfold createMany. cbn [productMapping with_mappings]. now rewrite fold_left_app. Qed.

(** Rows of one shop with distinct SKUs, none of which the table holds
    for that shop, are all inserted, in order. *)
Lemma createMany_fresh (shop : string) (entries : list (string * string)) :
  NoDup (map fst entries) ->
  forall table,
    (forall row, In row table ->
                 ProductMapping.row_shopDomain row = shop ->
                 ~ In (ProductMapping.row_sku row) (map fst entries)) ->
    fold_left insert_row (map (mapping_row shop) entries) table
    = (table ++ map (mapping_row shop) entries)%list.
Proof.
  induction entries as [| e entries IH]; intros Hnd table Hfresh.
  - cbn. now rewrite app_nil_r.
  - inversion Hnd as [| ? ? Hnot Hnd']; subst.
    cbn [map fold_left]. unfold insert_row at 2.
    assert (Hno : existsb (same_key (mapping_row shop e)) table = false).
    { apply not_true_is_false. intros H. apply existsb_exists in H as (row & Hin & Hk).
      unfold same_key in Hk. cbn in Hk. apply andb_prop in Hk as [Hs Hsku].
      apply String.eqb_eq in Hs, Hsku.
      apply (Hfresh row Hin (eq_sym Hs)). left. congruence. }
    rewrite Hno, IH; [now rewrite <- app_assoc | assumption |].
    intros row Hin Hs Hsku. apply in_app_or in Hin as [Hin | [<- | []]].
    + apply (Hfresh row Hin Hs). now right.
    + cbn in Hsku. contradiction.
Qed.

Lemma update_inv (prisma : Prisma) (op : Operation) (id : nat)
    (data : ProductSyncJob -> ProductSyncJob) (db : Db) (job : ProductSyncJob) :
  nth_error (productSyncJob db) id = Some job ->
  match throws prisma op with
  | Some message => update prisma op id data db = inl message
  | None => update prisma op id data db = inr (update_job id data db)
  end.
Proof. intros Hj. unfold update. rewrite Hj. now destruct (throws prisma op). Qed.

(** The fields of a job that the update of the progress keeps. *)
Definition same_but_progress (a b : ProductSyncJob) : Prop :=
  shopDomain a = shopDomain b /\ status a = status b /\ total a = total b
  /\ error a = error b /\ createdAt a = createdAt b /\ finishedAt a = finishedAt b.

(** The loop over the batches inserts the batches in order and counts
    their rows; it stops early only when a call throws, and then the
    batches before it are in place. *)
Lemma insert_batches_spec (prisma : Prisma) (jobId : nat) (shop : string)
    (mappingsArray : list (string * string)) (rounds : nat) :
  forall (i : nat) (processed_ : Z) (db : Db) (job : ProductSyncJob)
         (thrown : option string) (processed' : Z) (db' : Db),
    insert_batches rounds prisma jobId shop mappingsArray i (processed_, db)
    = (thrown, (processed', db')) ->
    nth_error (productSyncJob db) jobId = Some job ->
    exists done rest job',
      skipn i mappingsArray = (done ++ rest)%list
      /\ productMapping db'
         = productMapping (createMany (map (mapping_row shop) done) db)
      /\ (forall id, id <> jobId ->
            nth_error (productSyncJob db') id = nth_error (productSyncJob db) id)
      /\ nth_error (productSyncJob db') jobId = Some job'
      /\ same_but_progress job' job
      /\ (thrown = None ->
          (List.length mappingsArray - i <= rounds)%nat ->
          rest = [] /\ processed' = processed_ + Z.of_nat (List.length done))
      /\ (forall message, thrown = Some message ->
            exists op, of_the_try op = true /\ throws prisma op = Some message)
      /\ ((forall op, of_the_try op = true -> throws prisma op = None) ->
          thrown = None).
Proof.
  assert (Hstop : forall i processed_ db job,
             nth_error (productSyncJob db) jobId = Some job ->
             exists done rest job',
               skipn i mappingsArray = (done ++ rest)%list
               /\ productMapping db
                  = productMapping (createMany (map (mapping_row shop) done) db)
               /\ (forall id, id <> jobId ->
                     nth_error (productSyncJob db) id
                     = nth_error (productSyncJob db) id)
               /\ nth_error (productSyncJob db) jobId = Some job'
               /\ same_but_progress job' job
               /\ done = []
               /\ rest = skipn i mappingsArray
               /\ processed_ = processed_ + Z.of_nat (List.length done)).
  { intros i processed_ db job Hj.
    exists [], (skipn i mappingsArray), job. cbn.
    repeat split; try reflexivity; try assumption. lia. }
  induction rounds as [| rounds IH];
    intros i processed_ db job thrown processed' db' H Hjob.
  - cbn in H. injection H as <- <- <-.
    destruct (Hstop i processed_ db job Hjob)
      as (done & rest & job' & H1 & H2 & H3 & H4 & H5 & -> & -> & H8).
    exists [], (skipn i mappingsArray), job'.
    repeat (split; [assumption|]). split; [|split; [discriminate | reflexivity]].
    intros _ Hr. split; [apply skipn_all2; lia | assumption].
  - cbn [insert_batches] in H.
    destruct (i <? List.length mappingsArray)%nat eqn:Hi.
    + destruct (throws prisma (InsertBatch (i / BATCH_SIZE))) as [message |] eqn:Hb.
      * injection H as <- <- <-.
        destruct (Hstop i processed_ db job Hjob)
          as (done & rest & job' & H1 & H2 & H3 & H4 & H5 & -> & -> & H8).
        exists [], (skipn i mappingsArray), job'.
        repeat (split; [assumption|]). split; [discriminate|]. split.
        -- intros m [= <-]. now exists (InsertBatch (i / BATCH_SIZE)).
        -- intros Hno. now rewrite (Hno (InsertBatch (i / BATCH_SIZE))) in Hb.
      * set (batch := map (mapping_row shop) (slice i mappingsArray)) in *.
        set (p' := processed_ + Z.of_nat (List.length batch)) in *.
        assert (Hcut : skipn i mappingsArray
                       = (slice i mappingsArray
                          ++ skipn (i + BATCH_SIZE) mappingsArray)%list).
        { unfold slice. rewrite Nat.add_comm, <- skipn_skipn.
          symmetry. apply firstn_skipn. }
        assert (Hjob1 : nth_error (productSyncJob (createMany batch db)) jobId
                        = Some job) by exact Hjob.
        pose proof (update_inv prisma (SetProcessed (i / BATCH_SIZE)) jobId
                      (set_processed p') (createMany batch db) job Hjob1) as Hu.
        destruct (throws prisma (SetProcessed (i / BATCH_SIZE)))
          as [message |] eqn:Hp; rewrite Hu in H.
        -- injection H as <- <- <-.
           exists (slice i mappingsArray), (skipn (i + BATCH_SIZE) mappingsArray), job.
           split; [assumption|]. split; [reflexivity|]. split; [reflexivity|].
           split; [assumption|]. split; [repeat split|].
           split; [discriminate|]. split.
           ++ intros m [= <-]. now exists (SetProcessed (i / BATCH_SIZE)).
           ++ intros Hno. now rewrite (Hno (SetProcessed (i / BATCH_SIZE))) in Hp.
        -- assert (Hjob2 : nth_error (productSyncJob
                                        (update_job jobId (set_processed p')
                                                    (createMany batch db))) jobId
                           = Some (set_processed p' job)).
           { now rewrite update_job_at, Hjob1. }
           destruct (IH _ _ _ _ _ _ _ H Hjob2)
             as (done & rest & job' & Hsplit & Hm & Ho & Hj & Hsame & Hall & Hsome & Hno).
           exists (slice i mappingsArray ++ done)%list, rest, job'.
           split; [now rewrite Hcut, Hsplit, app_assoc|].
           split.
           { rewrite Hm, map_app, createMany_app.
             unfold createMany at 1 3. cbn [productMapping with_mappings].
             now rewrite update_job_mappings. }
           split.
           { intros id Hne. rewrite (Ho id Hne).
             now rewrite update_job_other. }
           split; [assumption|]. split; [exact Hsame|].
           split; [|split; assumption].
           intros Hnone Hr. destruct (Hall Hnone) as [-> ->].
           { unfold BATCH_SIZE. lia. }
           split; [reflexivity|]. unfold p', batch.
           rewrite length_app, length_map. lia.
    + injection H as <- <- <-. apply Nat.ltb_ge in Hi.
      destruct (Hstop i processed_ db job Hjob)
        as (done & rest & job' & H1 & H2 & H3 & H4 & H5 & -> & -> & H8).
      exists [], (skipn i mappingsArray), job'.
      repeat (split; [assumption|]). split; [|split; [discriminate | reflexivity]].
      intros _ _. split; [apply skipn_all2; lia | assumption].
Qed.

(** The [catch] clause: the error thrown again is the one caught, with
    the job marked, or the error of the update of the job, with the
    tables as they were. *)
Lemma caught_spec (clock : Clock) (prisma : Prisma) (jobId : nat)
    (message : string) (db : Db) (job : ProductSyncJob) :
  nth_error (productSyncJob db) jobId = Some job ->
  caught clock prisma jobId message db
  = match throws prisma SetFailed with
    | Some message' => (Some message', db)
    | None => (Some message,
               update_job jobId (set_failed message (now_finished clock)) db)
    end.
Proof.
  intros Hjob. unfold caught.
  pose proof (update_inv prisma SetFailed jobId
                (set_failed message (now_finished clock)) db job Hjob) as Hu.
  destruct (throws prisma SetFailed); now rewrite Hu.
Qed.

Lemma latest_In (jobs : list ProductSyncJob) (job : ProductSyncJob) :
  latest jobs = Some job -> In job jobs.
Proof.
  unfold latest.
  assert (H : forall best,
             fold_left (fun best job =>
                          match best with
                          | Some b => if createdAt b <? createdAt job
                                      then Some job else best
                          | None => Some job
                          end) jobs best = Some job ->
             best = Some job \/ In job jobs).
  { induction jobs as [| j jobs IH]; intros best Hf; cbn in Hf; [now left|].
    apply IH in Hf as [Hf | Hf]; [|right; now right].
    destruct best as [b |].
    - destruct (createdAt b <? createdAt j).
      + injection Hf as <-. right. now left.
      + now left.
    - injection Hf as <-. right. now left. }
  intros Hf. destruct (H None Hf) as [[=] | Hin]. assumption.
Qed.

Lemma latest_Some (jobs : list ProductSyncJob) :
  jobs <> [] -> exists job, latest jobs = Some job.
Proof.
  unfold latest.
  assert (H : forall best,
             best <> None \/ jobs <> [] ->
             exists job,
               fold_left (fun best job =>
                            match best with
                            | Some b => if createdAt b <? createdAt job
                                        then Some job else best
                            | None => Some job
                            end) jobs best = Some job).
  { induction jobs as [| j jobs IH]; intros best Hb; cbn.
    - destruct Hb as [Hb | Hb]; [|contradiction].
      destruct best as [b |]; [now exists b | contradiction].
    - apply IH. left. destruct best as [b |]; [|discriminate].
      destruct (createdAt b <? createdAt j); discriminate. }
  intros Hne. apply H. now right.
Qed.

(** ** Examples *)

Definition good (k : string) (p : string) : SupabaseRow :=
  {| price_vendor_part := Some k; price_part_nbr := Some p |}.

(** A page that is full, but for one row without part number, followed by
    one more row. *)
Definition holed_page : list SupabaseRow :=
  (repeat (good "A" "1") 4999
   ++ [ {| price_vendor_part := Some "B"; price_part_nbr := None |} ])%list.

Definition beyond : list SupabaseRow := [good "C" "3"].

Definition failing_range : nat -> Page := fun _ => inl "timeout".

Definition one_job : Db :=
  {| productMapping :=
       [ {| ProductMapping.row_shopDomain := "shop";
            ProductMapping.row_sku := "OLD";
            ProductMapping.row_ingramPartNumber := "0" |};
         {| ProductMapping.row_shopDomain := "other";
            ProductMapping.row_sku := "A";
            ProductMapping.row_ingramPartNumber := "9" |} ];
     productSyncJob :=
       [ {| shopDomain := "shop"; status := "running"; processed := 0;
            total := 0; error := None; createdAt := 1000;
            finishedAt := None |} ] |}.

Definition at_start : Clock :=
  {| now_stale := 2000; now_marked := 2000; now_created := 2001;
     now_finished := 2500 |}.

(** A database client none of whose calls throws, and one that cannot
    insert the batch number [k]. *)
Definition healthy : Prisma :=
  {| throws := fun _ => None; not_found := "Record to update not found." |}.

Definition full_disk (k : nat) : Prisma :=
  {| throws := fun op =>
       match op with
       | InsertBatch j => if (j =? k)%nat then Some "disk full" else None
       | _ => None
       end;
     not_found := "Record to update not found." |}.

Example sync_small_table :
  option_map
    (fun r => (fst r, productMapping (snd r),
               map (fun job => (status job, processed job, total job))
                   (productSyncJob (snd r))))
    (runProductSyncFast 1 at_start healthy
       (inr (range_of [good "A" "1"; good "B" "2"; good "A" "3"])) 0 "shop" one_job)
  = Some (None,
          [ {| ProductMapping.row_shopDomain := "other";
               ProductMapping.row_sku := "A";
               ProductMapping.row_ingramPartNumber := "9" |};
            {| ProductMapping.row_shopDomain := "shop";
               ProductMapping.row_sku := "A";
               ProductMapping.row_ingramPartNumber := "1" |};
            {| ProductMapping.row_shopDomain := "shop";
               ProductMapping.row_sku := "B";
               ProductMapping.row_ingramPartNumber := "2" |} ],
          [("success", 2, 2)]).
Proof. vm_compute. reflexivity. Qed.

(** ** Properties *)

(** X15.  A remote table whose rows all have a SKU and a part number is fetched
    whole, in order, by one page request more than it has full pages. *)
Theorem fetch_pages_whole_table (table : list SupabaseRow) (fuel : nat) :
  forallb is_valid table = true ->
  (List.length table / PAGE_SIZE < fuel)%nat ->
  fetch_pages fuel (range_of table) 0 [] = Some (inr (map as_mapping table)).
Proof.
  intros Hvalid Hfuel.
  set (pages := (List.length table / PAGE_SIZE)%nat) in *.
  assert (Hdiv : (pages * PAGE_SIZE <= List.length table
                  /\ List.length table < pages * PAGE_SIZE + PAGE_SIZE)%nat).
  { unfold pages, PAGE_SIZE.
    pose proof (Nat.div_mod_eq (List.length table) 5000).
    pose proof (Nat.mod_upper_bound (List.length table) 5000). lia. }
  rewrite (fetch_pages_from table pages fuel 0 []
             (firstn (pages * PAGE_SIZE) table)
             (skipn (pages * PAGE_SIZE) table) []).
  - cbn [app]. rewrite firstn_skipn. now rewrite validRows_all.
  - cbn [skipn]. now rewrite app_nil_r, firstn_skipn.
  - rewrite <- (firstn_skipn (pages * PAGE_SIZE) table), forallb_app in Hvalid.
    now apply andb_prop in Hvalid as [H _].
  - rewrite length_firstn. lia.
  - rewrite length_skipn. lia.
  - intros H. now contradiction H.
  - pose proof (validRows_length (skipn (pages * PAGE_SIZE) table)) as H.
    rewrite length_skipn in H. lia.
  - assumption.
Qed.

Lemma fetch_pages_whole_table_witness :
  fetch_pages 1 (range_of [good "A" "1"; good "B" "2"; good "A" "3"]) 0 []
  = Some (inr (map as_mapping [good "A" "1"; good "B" "2"; good "A" "3"])).
Proof.
  apply (fetch_pages_whole_table [good "A" "1"; good "B" "2"; good "A" "3"] 1).
  - reflexivity.
  - vm_compute. lia.
Defined.

(** X16.  The page loop stops at the first page that yields fewer than
    [PAGE_SIZE] valid rows.  When the remote table consists of full pages
    of valid rows, then a full page holding a row without SKU or part
    number, then any rows [rest], the loop returns the valid rows up to
    the end of that page and never requests the rows of [rest]. *)
Theorem fetch_pages_stops_at_invalid_row
    (full last rest : list SupabaseRow) (pages fuel : nat) :
  forallb is_valid full = true ->
  List.length full = (pages * PAGE_SIZE)%nat ->
  List.length last = PAGE_SIZE ->
  existsb (fun row => negb (is_valid row)) last = true ->
  (pages < fuel)%nat ->
  fetch_pages fuel (range_of (full ++ last ++ rest)) 0 []
  = Some (inr (validRows (full ++ last))).
Proof.
  intros Hvalid Hlen Hlast Hbad Hfuel.
  rewrite (fetch_pages_from (full ++ last ++ rest) pages fuel 0 [] full last rest);
    try assumption; try reflexivity.
  - lia.
  - intros _. assumption.
  - apply validRows_short in Hbad. lia.
Qed.

Lemma fetch_pages_stops_at_invalid_row_witness :
  fetch_pages 1 (range_of ([] ++ holed_page ++ beyond)) 0 []
  = Some (inr (validRows ([] ++ holed_page))).
Proof.
  apply (fetch_pages_stops_at_invalid_row [] holed_page beyond 0 1).
  - reflexivity.
  - reflexivity.
  - vm_compute. reflexivity.
  - vm_compute. reflexivity.
  - lia.
Defined.

Lemma dedupe_NoDup (rows : list (string * string)) :
  NoDup (JSMap.keys (dedupe rows)).
Proof.
  unfold dedupe. rewrite dedupe_keys. apply JSSet.NoDup_add_all. constructor.
Qed.

(** X17.  Deduplication keeps the first occurrence: the map holds the distinct
    SKUs of the rows, in order of first appearance, each with the part
    number of the first row bearing it. *)
Theorem dedupe_keeps_first (rows : list (string * string)) :
  JSMap.keys (dedupe rows) = JSSet.of_list (map fst rows)
  /\ NoDup (JSMap.keys (dedupe rows))
  /\ forall k,
       JSMap.get k (dedupe rows)
       = option_map snd (find (fun row => String.eqb (fst row) k) rows).
Proof.
  split; [apply dedupe_keys|]. split.
  - apply dedupe_NoDup.
  - intros k. unfold dedupe. now rewrite dedupe_get.
Qed.

(** What [runProductSyncFast] leaves of the tables [db] when it has
    fetched [rows] and ends by throwing [thrown], or normally, with the
    tables [db']. *)
Definition sync_outcome (clock : Clock) (prisma : Prisma) (jobId : nat)
    (shop : string) (db : Db) (rows : list (string * string))
    (job : ProductSyncJob) (thrown : option string) (db' : Db) : Prop :=
  ((forall op, of_the_try op = true -> throws prisma op = None) -> thrown = None)
  /\ (thrown = None ->
      productMapping db'
      = (filter (fun row => negb (String.eqb (ProductMapping.row_shopDomain row) shop))
                (productMapping db)
         ++ map (mapping_row shop) (dedupe rows))%list
      /\ nth_error (productSyncJob db') jobId
         = Some (set_success (JSMap.size (dedupe rows)) (JSMap.size (dedupe rows))
                             (now_finished clock) job))
  /\ (forall message, thrown = Some message ->
      (exists op, throws prisma op = Some message)
      /\ (productMapping db' = productMapping db
          \/ exists done rest,
               dedupe rows = (done ++ rest)%list
               /\ productMapping db'
                  = (filter (fun row =>
                               negb (String.eqb (ProductMapping.row_shopDomain row)
                                                shop))
                            (productMapping db)
                     ++ map (mapping_row shop) done)%list)
      /\ (throws prisma SetFailed = None ->
          exists job',
            nth_error (productSyncJob db') jobId = Some job'
            /\ status job' = "failed"
            /\ error job' = Some message
            /\ finishedAt job' = Some (now_finished clock)
            /\ shopDomain job' = shopDomain job
            /\ createdAt job' = createdAt job))
  /\ forall id, id <> jobId ->
       nth_error (productSyncJob db') id = nth_error (productSyncJob db) id.

(** The outcome of the [catch] clause, entered with the error of a call
    of the [try] block. *)
Lemma caught_outcome (clock : Clock) (prisma : Prisma) (jobId : nat)
    (shop : string) (db : Db) (rows : list (string * string))
    (job : ProductSyncJob) (op : Operation) (message : string) (db1 : Db)
    (job1 : ProductSyncJob) :
  of_the_try op = true ->
  throws prisma op = Some message ->
  nth_error (productSyncJob db1) jobId = Some job1 ->
  shopDomain job1 = shopDomain job ->
  createdAt job1 = createdAt job ->
  (forall id, id <> jobId ->
     nth_error (productSyncJob db1) id = nth_error (productSyncJob db) id) ->
  (productMapping db1 = productMapping db
   \/ exists done rest,
        dedupe rows = (done ++ rest)%list
        /\ productMapping db1
           = (filter (fun row =>
                        negb (String.eqb (ProductMapping.row_shopDomain row) shop))
                     (productMapping db)
              ++ map (mapping_row shop) done)%list) ->
  sync_outcome clock prisma jobId shop db rows job
    (fst (caught clock prisma jobId message db1))
    (snd (caught clock prisma jobId message db1)).
Proof.
  intros Htry Hop Hjob1 Hshop Hcreated Hothers Hrows.
  rewrite (caught_spec clock prisma jobId message db1 job1 Hjob1).
  unfold sync_outcome.
  destruct (throws prisma SetFailed) as [message' |] eqn:Hf; cbn [fst snd].
  - split; [intros Hno; now rewrite (Hno op Htry) in Hop|].
    split; [discriminate|]. split; [|assumption].
    intros m [= <-]. split; [now exists SetFailed|]. split; [assumption|].
    discriminate.
  - split; [intros Hno; now rewrite (Hno op Htry) in Hop|].
    split; [discriminate|]. split.
    + intros m [= <-]. split; [now exists op|]. split.
      * now rewrite update_job_mappings.
      * intros _. exists (set_failed message (now_finished clock) job1).
        rewrite update_job_at, Hjob1. cbn. repeat split; assumption.
    + intros id Hne. rewrite update_job_other by assumption. now apply Hothers.
Qed.

(** X18.  What a sync that fetched its rows does to the tables.  When the
    page loop returns [rows], [runProductSyncFast] ends.  If no call of
    the database client inside its [try] block throws, it throws nothing.
    If it throws nothing, the table holds the rows of the other shops as
    they were, followed by one row of the shop per distinct SKU of [rows],
    with the first part number fetched for it, and the job is set to
    ["success"] with [processed] and [total] both the number of distinct
    SKUs.  If it throws, the message is that of a call of the database
    client; the mapping table is as it was, or holds the rows of the other
    shops followed by the rows of the first batches; and, unless the
    update in the [catch] clause throws as well, the job is set to
    ["failed"] with the message.  No other job is touched. *)
Theorem sync_replaces_the_shop_mappings
    (fuel : nat) (clock : Clock) (prisma : Prisma) (range : nat -> Page)
    (jobId : nat) (shop : string) (db : Db) (rows : list (string * string))
    (job : ProductSyncJob) :
  fetch_pages fuel range 0 [] = Some (inr rows) ->
  nth_error (productSyncJob db) jobId = Some job ->
  exists thrown db',
    runProductSyncFast fuel clock prisma (inr range) jobId shop db
    = Some (thrown, db')
    /\ ((forall op, of_the_try op = true -> throws prisma op = None) ->
        thrown = None)
    /\ (thrown = None ->
        productMapping db'
        = (filter (fun row =>
                     negb (String.eqb (ProductMapping.row_shopDomain row) shop))
                  (productMapping db)
           ++ map (mapping_row shop) (dedupe rows))%list
        /\ nth_error (productSyncJob db') jobId
           = Some (set_success (JSMap.size (dedupe rows)) (JSMap.size (dedupe rows))
                               (now_finished clock) job))
    /\ (forall message, thrown = Some message ->
        (exists op, throws prisma op = Some message)
        /\ (productMapping db' = productMapping db
            \/ exists done rest,
                 dedupe rows = (done ++ rest)%list
                 /\ productMapping db'
                    = (filter (fun row =>
                                 negb (String.eqb
                                         (ProductMapping.row_shopDomain row) shop))
                              (productMapping db)
                       ++ map (mapping_row shop) done)%list)
        /\ (throws prisma SetFailed = None ->
            exists job',
              nth_error (productSyncJob db') jobId = Some job'
              /\ status job' = "failed"
              /\ error job' = Some message
              /\ finishedAt job' = Some (now_finished clock)
              /\ shopDomain job' = shopDomain job
              /\ createdAt job' = createdAt job))
    /\ forall id, id <> jobId ->
         nth_error (productSyncJob db') id = nth_error (productSyncJob db) id.
Proof.
  intros Hfetch Hjob.
  enough (H : exists thrown db',
             runProductSyncFast fuel clock prisma (inr range) jobId shop db
             = Some (thrown, db')
             /\ sync_outcome clock prisma jobId shop db rows job thrown db')
    by exact H.
  assert (Hcaught : forall r,
             runProductSyncFast fuel clock prisma (inr range) jobId shop db
             = Some r ->
             sync_outcome clock prisma jobId shop db rows job (fst r) (snd r) ->
             exists thrown db',
               runProductSyncFast fuel clock prisma (inr range) jobId shop db
               = Some (thrown, db')
               /\ sync_outcome clock prisma jobId shop db rows job thrown db').
  { intros [t d] Hr Ho. now exists t, d. }
  unfold runProductSyncFast in *. rewrite Hfetch in *. cbv zeta in *.
  set (unique := dedupe rows) in *.
  pose proof (update_inv prisma SetTotal jobId (set_total (JSMap.size unique)) db
                job Hjob) as Hu.
  destruct (throws prisma SetTotal) as [message |] eqn:Ht; rewrite Hu in *.
  { apply (Hcaught _ eq_refl).
    apply (caught_outcome clock prisma jobId shop db rows job SetTotal message db
             job); auto. }
  set (db1 := update_job jobId (set_total (JSMap.size unique)) db) in *.
  assert (Hj1 : nth_error (productSyncJob db1) jobId
                = Some (set_total (JSMap.size unique) job)).
  { unfold db1. now rewrite update_job_at, Hjob. }
  assert (Ho1 : forall id, id <> jobId ->
                  nth_error (productSyncJob db1) id
                  = nth_error (productSyncJob db) id).
  { intros id Hne. unfold db1. now rewrite update_job_other. }
  assert (Hm1 : productMapping db1 = productMapping db)
    by apply update_job_mappings.
  destruct (throws prisma DeleteMappings) as [message |] eqn:Hd.
  { apply (Hcaught _ eq_refl).
    apply (caught_outcome clock prisma jobId shop db rows job DeleteMappings
             message db1 (set_total (JSMap.size unique) job)); auto. }
  set (db2 := deleteMany shop db1) in *.
  assert (Hj2 : nth_error (productSyncJob db2) jobId
                = Some (set_total (JSMap.size unique) job)) by exact Hj1.
  destruct (insert_batches (List.length unique) prisma jobId shop unique 0 (0, db2))
    as [thrown [processed_ db3]] eqn:Hloop.
  destruct (insert_batches_spec prisma jobId shop unique (List.length unique)
              0 0 db2 _ thrown processed_ db3 Hloop Hj2)
    as (done & rest & job3 & Hsplit & Hm & Ho & Hj3 & Hsame & Hall & Hsome & Hno).
  cbn [skipn] in Hsplit.
  destruct Hsame as (Hs1 & Hs2 & Hs3 & Hs4 & Hs5 & Hs6). cbn in Hs1, Hs4, Hs5, Hs6.
  assert (Hm3 : productMapping db3
                = (filter (fun row =>
                             negb (String.eqb (ProductMapping.row_shopDomain row)
                                              shop))
                          (productMapping db)
                   ++ map (mapping_row shop) done)%list).
  { rewrite Hm. unfold createMany. cbn [productMapping with_mappings].
    change (fun table row => if existsb (same_key row) table then table
                             else (table ++ [row])%list) with insert_row.
    unfold db2, deleteMany. cbn [productMapping with_mappings]. rewrite Hm1.
    apply createMany_fresh.
    - apply (NoDup_app_remove_r _ (map fst rest)). rewrite <- map_app, <- Hsplit.
      apply dedupe_NoDup.
    - intros row Hin Hshop _. apply filter_In in Hin as [_ Hin].
      apply negb_true_iff, String.eqb_neq in Hin. contradiction. }
  assert (Ho3 : forall id, id <> jobId ->
                  nth_error (productSyncJob db3) id
                  = nth_error (productSyncJob db) id).
  { intros id Hne. rewrite (Ho id Hne). now apply Ho1. }
  destruct thrown as [message |].
  { destruct (Hsome message eq_refl) as (op & Hop1 & Hop2).
    apply (Hcaught _ eq_refl).
    apply (caught_outcome clock prisma jobId shop db rows job op message db3 job3);
      auto.
    right. now exists done, rest. }
  destruct (Hall eq_refl) as [-> ->]; [lia|].
  rewrite app_nil_r in Hsplit. subst done.
  pose proof (update_inv prisma SetSuccess jobId
                (set_success (0 + Z.of_nat (List.length unique)) (JSMap.size unique)
                             (now_finished clock)) db3 job3 Hj3) as Hu3.
  destruct (throws prisma SetSuccess) as [message |] eqn:Hsucc; rewrite Hu3 in *.
  { apply (Hcaught _ eq_refl).
    apply (caught_outcome clock prisma jobId shop db rows job SetSuccess message
             db3 job3); auto.
    right. exists unique, []. now rewrite app_nil_r. }
  eexists. eexists. split; [reflexivity|]. unfold sync_outcome.
  split; [reflexivity|]. split; [|split; [discriminate|]].
  - intros _. split.
    + now rewrite update_job_mappings.
    + rewrite update_job_at, Hj3. cbn [option_map]. f_equal.
      unfold set_success. rewrite Hs1, Hs4, Hs5. reflexivity.
  - intros id Hne. rewrite update_job_other by assumption. now apply Ho3.
Qed.

Lemma sync_replaces_the_shop_mappings_witness :
  (exists thrown db',
     runProductSyncFast 1 at_start healthy
       (inr (range_of [good "A" "1"; good "B" "2"; good "A" "3"])) 0 "shop" one_job
     = Some (thrown, db')
     /\ sync_outcome at_start healthy 0 "shop" one_job
          [("A", "1"); ("B", "2"); ("A", "3")]
          {| shopDomain := "shop"; status := "running"; processed := 0;
             total := 0; error := None; createdAt := 1000; finishedAt := None |}
          thrown db'
     /\ thrown = None
     /\ map (fun row => (ProductMapping.row_shopDomain row,
                         ProductMapping.row_sku row,
                         ProductMapping.row_ingramPartNumber row))
            (productMapping db')
        = [("other", "A", "9"); ("shop", "A", "1"); ("shop", "B", "2")]
     /\ map (fun job => (status job, processed job, total job))
            (productSyncJob db')
        = [("success", 2, 2)])
  /\ (exists thrown db',
        runProductSyncFast 1 at_start (full_disk 0)
          (inr (range_of [good "A" "1"; good "B" "2"; good "A" "3"])) 0 "shop"
          one_job
        = Some (thrown, db')
        /\ sync_outcome at_start (full_disk 0) 0 "shop" one_job
             [("A", "1"); ("B", "2"); ("A", "3")]
             {| shopDomain := "shop"; status := "running"; processed := 0;
                total := 0; error := None; createdAt := 1000; finishedAt := None |}
             thrown db'
        /\ thrown = Some "disk full"
        /\ map (fun row => (ProductMapping.row_shopDomain row,
                            ProductMapping.row_sku row,
                            ProductMapping.row_ingramPartNumber row))
               (productMapping db')
           = [("other", "A", "9")]
        /\ map (fun job => (status job, processed job, total job, error job))
               (productSyncJob db')
           = [("failed", 0, 2, Some "disk full")]).
Proof.
  split.
  - destruct (sync_replaces_the_shop_mappings 1 at_start healthy
                (range_of [good "A" "1"; good "B" "2"; good "A" "3"]) 0 "shop"
                one_job [("A", "1"); ("B", "2"); ("A", "3")]
                {| shopDomain := "shop"; status := "running"; processed := 0;
                   total := 0; error := None; createdAt := 1000;
                   finishedAt := None |} eq_refl eq_refl)
      as (thrown & db' & Hrun & Hout).
    exists thrown, db'. split; [exact Hrun|]. split; [exact Hout|].
    vm_compute in Hrun. injection Hrun as <- <-.
    repeat split.
  - destruct (sync_replaces_the_shop_mappings 1 at_start (full_disk 0)
                (range_of [good "A" "1"; good "B" "2"; good "A" "3"]) 0 "shop"
                one_job [("A", "1"); ("B", "2"); ("A", "3")]
                {| shopDomain := "shop"; status := "running"; processed := 0;
                   total := 0; error := None; createdAt := 1000;
                   finishedAt := None |} eq_refl eq_refl)
      as (thrown & db' & Hrun & Hout).
    exists thrown, db'. split; [exact Hrun|]. split; [exact Hout|].
    vm_compute in Hrun. injection Hrun as <- <-.
    repeat split.
Defined.

(** A sync of 1001 SKUs whose second batch cannot be inserted: the error
    is thrown, the job is marked, and the shop is left with the first
    thousand mappings in place of the one it had. *)
Example sync_interrupted :
  option_map
    (fun r => (fst r, List.length (productMapping (snd r)),
               map (fun job => (status job, processed job, total job, error job))
                   (productSyncJob (snd r))))
    (runProductSyncFast 1 at_start (full_disk 1)
       (inr (range_of (map (fun n => good (NilEmpty.string_of_uint (Nat.to_uint n)) "1")
                           (seq 0 1001))))
       0 "shop" one_job)
  = Some (Some "disk full", 1001%nat,
          [("failed", 1000, 1001, Some "disk full")]).
Proof. vm_compute. reflexivity. Qed.

(** X19.  A sync that cannot fetch changes no mapping.  When the remote client
    cannot be created, or a page request is answered with an error,
    [runProductSyncFast] throws, leaves every row of the mapping table in
    place, and records the message on the job, set to ["failed"], and
    throws the error again; if that update of the job throws, its error is
    the one thrown, and the tables are as they were. *)
Theorem failed_fetch_keeps_the_mappings
    (fuel : nat) (clock : Clock) (prisma : Prisma) (supabase : Supabase)
    (jobId : nat) (shop : string) (db : Db) (message : string)
    (job : ProductSyncJob) :
  match supabase with
  | inl m => message = m
  | inr range =>
      exists m, fetch_pages fuel range 0 [] = Some (inl m)
                /\ message = "Supabase error: " ++ m
  end ->
  nth_error (productSyncJob db) jobId = Some job ->
  exists thrown db',
    runProductSyncFast fuel clock prisma supabase jobId shop db
    = Some (Some thrown, db')
    /\ productMapping db' = productMapping db
    /\ match throws prisma SetFailed with
       | None =>
           thrown = message
           /\ nth_error (productSyncJob db') jobId
              = Some (set_failed message (now_finished clock) job)
       | Some message' => thrown = message' /\ db' = db
       end.
Proof.
  intros Hs Hjob.
  assert (H : runProductSyncFast fuel clock prisma supabase jobId shop db
              = Some (caught clock prisma jobId message db)).
  { unfold runProductSyncFast. destruct supabase as [m | range].
    - now subst m.
    - destruct Hs as (m & -> & ->). reflexivity. }
  rewrite H, (caught_spec clock prisma jobId message db job Hjob).
  destruct (throws prisma SetFailed) as [message' |].
  - exists message', db. auto.
  - eexists. eexists. split; [reflexivity|]. split.
    + apply update_job_mappings.
    + split; [reflexivity|]. now rewrite update_job_at, Hjob.
Qed.

Lemma failed_fetch_keeps_the_mappings_witness :
  exists thrown db',
    runProductSyncFast 1 at_start healthy (inr failing_range) 0 "shop" one_job
    = Some (Some thrown, db')
    /\ productMapping db' = productMapping one_job
    /\ match throws healthy SetFailed with
       | None =>
           thrown = "Supabase error: timeout"
           /\ nth_error (productSyncJob db') 0
              = Some (set_failed "Supabase error: timeout" (now_finished at_start)
                        {| shopDomain := "shop"; status := "running";
                           processed := 0; total := 0; error := None;
                           createdAt := 1000; finishedAt := None |})
       | Some message' => thrown = message' /\ db' = one_job
       end.
Proof.
  apply (failed_fetch_keeps_the_mappings 1 at_start healthy (inr failing_range) 0
           "shop" one_job "Supabase error: timeout").
  - exists "timeout". split; reflexivity.
  - reflexivity.
Defined.

(** X20.  One sync at a time.  While the shop has a running job created less
    than ten minutes before, [startProductSync] returns a running job of
    the shop and starts nothing: no request is sent to the remote (no fuel
    is used), no job is created and no mapping is changed.  If the update
    of the stale jobs or the search for the running job throws, the error
    is thrown in place of the job, and as little is started. *)
Theorem running_job_blocks_a_second_sync
    (fuel : nat) (clock : Clock) (prisma : Prisma) (supabase : Supabase)
    (shop : string) (db : Db) (job : ProductSyncJob) :
  In job (productSyncJob db) ->
  is_running shop job = true ->
  now_stale clock - STALE_JOB_THRESHOLD_MS <= createdAt job ->
  exists outcome db',
    startProductSync fuel clock prisma supabase shop db = Some (outcome, db')
    /\ productMapping db' = productMapping db
    /\ List.length (productSyncJob db') = List.length (productSyncJob db)
    /\ match throws prisma MarkStale, throws prisma FindRunning with
       | None, None =>
           exists existing,
             outcome = inr (Some existing)
             /\ is_running shop existing = true
             /\ In existing (productSyncJob db')
       | Some message, _ => outcome = inl message
       | None, Some message => outcome = inl message
       end.
Proof.
  intros Hin Hrun Hfresh. unfold startProductSync.
  destruct (throws prisma MarkStale) as [message |].
  { exists (inl message), db. auto. }
  set (db1 := markStaleJobsAsFailed clock shop db).
  assert (Hlen : List.length (productSyncJob db1) = List.length (productSyncJob db)).
  { unfold db1, markStaleJobsAsFailed. cbn [productSyncJob with_jobs].
    apply length_map. }
  destruct (throws prisma FindRunning) as [message |].
  { exists (inl message), db1. auto. }
  assert (Hin1 : In job (filter (is_running shop) (productSyncJob db1))).
  { apply filter_In. split; [|assumption].
    unfold db1, markStaleJobsAsFailed. cbn [productSyncJob with_jobs].
    apply in_map_iff. exists job. split; [|assumption].
    replace (createdAt job <? now_stale clock - STALE_JOB_THRESHOLD_MS) with false
      by (symmetry; apply Z.ltb_ge; lia).
    now rewrite andb_false_r. }
  destruct (latest_Some (filter (is_running shop) (productSyncJob db1)))
    as (existing & Hl).
  { intros E. rewrite E in Hin1. contradiction. }
  unfold findRunning. rewrite Hl. exists (inr (Some existing)), db1.
  apply latest_In, filter_In in Hl as [Hl1 Hl2].
  split; [reflexivity|]. split; [reflexivity|]. split; [assumption|].
  exists existing. auto.
Qed.

Lemma running_job_blocks_a_second_sync_witness :
  exists outcome db',
    startProductSync 0 at_start healthy (inr failing_range) "shop" one_job
    = Some (outcome, db')
    /\ productMapping db' = productMapping one_job
    /\ List.length (productSyncJob db') = List.length (productSyncJob one_job)
    /\ match throws healthy MarkStale, throws healthy FindRunning with
       | None, None =>
           exists existing,
             outcome = inr (Some existing)
             /\ is_running "shop" existing = true
             /\ In existing (productSyncJob db')
       | Some message, _ => outcome = inl message
       | None, Some message => outcome = inl message
       end.
Proof.
  apply (running_job_blocks_a_second_sync 0 at_start healthy (inr failing_range)
           "shop" one_job
           {| shopDomain := "shop"; status := "running"; processed := 0;
              total := 0; error := None; createdAt := 1000;
              finishedAt := None |}).
  - now left.
  - reflexivity.
  - vm_compute. discriminate.
Defined.

End ProductSync.

(* ================================================================== *)
(** * routes/api.cart-estimate.ts: the answers of the endpoint *)
(* ================================================================== *)
Module CartEstimateAnswers.
Import JSNumber CartEstimate.
Local Open Scope string_scope.
Local Open Scope Z_scope.

(** The messages of the answers with status 400 (lines 96-140). *)
Definition rejections : list string :=
  [ "Missing shop domain"; "Missing address information"; "No items in cart";
    "Shop not configured"; "No valid SKUs in cart" ].


(** ** Facts about [trim] *)









(** ** Facts about the record of mappings *)




Section AnswerFacts.
Variable Rate : Type.
Variable present :
  string -> list CarrierConfig -> list RateCombiner.CombinedRate -> list Rate.

Lemma estimate_status (env : Collaborators) (r : Response Rate) :
  estimate Rate present env = Ok r ->
  status Rate r = 200
  \/ exists request msg,
       json env = Ok request /\ In msg rejections /\ r = failure Rate 400 msg.
Proof.
  unfold estimate.
  destruct (json env) as [request | e]; cbn [bind]; [|discriminate].
  assert (Hrej : forall msg, In msg rejections ->
                   Ok (failure Rate 400 msg) = Ok r ->
                   status Rate r = 200
                   \/ exists request0 msg0,
                        Ok request = Ok request0 /\ In msg0 rejections
                        /\ r = failure Rate 400 msg0).
  { intros msg Hin [= <-]. right. exists request, msg. auto. }
  destruct (shop request) as [shopDomain |];
    [|apply (Hrej "Missing shop domain"); cbn; auto].
  destruct (JSString.truthy shopDomain); cbn [negb];
    [|apply (Hrej "Missing shop domain"); cbn; auto].
  destruct (address request) as [addr |];
    [|apply (Hrej "Missing address information"); cbn; auto].
  destruct (country addr) as [countryCode |];
    [|apply (Hrej "Missing address information"); cbn; auto].
  destruct (JSString.truthy countryCode); cbn [negb];
    [|apply (Hrej "Missing address information"); cbn; auto].
  destruct (items request) as [[| item its] |];
    [apply (Hrej "No items in cart"); cbn; auto | |
     apply (Hrej "No items in cart"); cbn; auto].
  destruct (getCredentials env shopDomain) as [[credentials |] | e]; cbn [bind];
    [| apply (Hrej "Shop not configured"); cbn; auto 6 | discriminate].
  destruct (uniqueSkus (item :: its));
    [apply (Hrej "No valid SKUs in cart"); cbn; auto 7|].
  intros Hq. left. now apply quote_status in Hq.
Qed.

End AnswerFacts.


(** X21.  The status codes of the endpoint.  The preflight is answered 204.
    A GET or HEAD request, and any other request that goes to the loader,
    is answered 405 with the message to use POST.  A request that goes to
    the action (POST, PUT, PATCH, DELETE) is answered 200 or 400, never
    with a server error; and 400 is answered only to a request whose body
    was read, with one of the five messages of the request checks. *)
Theorem cart_estimate_status_codes (Rate : Type)
    (present : string -> list CarrierConfig ->
               list RateCombiner.CombinedRate -> list Rate)
    (m : method) (env : Collaborators) :
  let r := route Rate present m env in
  (loader Rate OPTIONS = {| status := 204; body := None |}
   /\ action Rate present OPTIONS env = {| status := 204; body := None |})
  /\ match m with
     | OPTIONS => r = {| status := 204; body := None |}
     | GET | HEAD => r = failure Rate 405 "Use POST to request cart estimates"
     | POST | PUT | PATCH | DELETE =>
         status Rate r = 200
         \/ exists request msg,
              json env = Ok request /\ In msg rejections
              /\ r = failure Rate 400 msg
     end.
Proof.
  cbv zeta. split; [split; reflexivity|].
  destruct m; try reflexivity; unfold route, action; cbn [estimated];
    (destruct (estimate Rate present env) as [r | e] eqn:He;
     [now apply (estimate_status Rate present env) | now left]).
Qed.



End CartEstimateAnswers.

(* ================================================================== *)
(** * ingram.server.ts: [getIngramMappingsForSkus] with the remote fallback *)
(* ================================================================== *)
Module ProductMappingFallback.
Import ProductMapping.
Local Open Scope string_scope.
Local Open Scope Z_scope.

(** What the last loop returns for the SKUs asked of the remote: for each
    SKU, in order, the last fetched row bearing it, if any. *)
Definition remote_hits (fetched : list IngramSkuMapping) (missing : list string)
  : list IngramSkuMapping :=
  flat_map (fun s => match fetched_for fetched s with
                     | Some mapping => [mapping]
                     | None => []
                     end)
           missing.

(** The fallback is taken: the option is absent or [true]. *)
Definition fallback_allowed (allowSupabaseFallback : option bool) : bool :=
  match allowSupabaseFallback with
  | Some false => false
  | _ => true
  end.

Lemma cache_remote_fold (now : Z) (shopDomain : string)
    (fetched : list IngramSkuMapping) (ms : list string) :
  forall cachedResults cache,
    fst (fold_left (cache_remote now shopDomain fetched) ms (cachedResults, cache))
    = (cachedResults ++ remote_hits fetched ms)%list.
Proof.
  unfold remote_hits.
  induction ms as [| s ms IH]; intros cr cache; cbn [fold_left flat_map].
  - now rewrite app_nil_r.
  - unfold cache_remote at 2. destruct (fetched_for fetched s) as [mapping |].
    + rewrite IH. now rewrite <- app_assoc.
    + now rewrite IH.
Qed.

Lemma remote_hits_asked (fetched : list IngramSkuMapping) (missing : list string)
    (mapping : IngramSkuMapping) :
  In mapping (remote_hits fetched missing) ->
  In (sku mapping) missing /\ In mapping fetched.
Proof.
  unfold remote_hits. rewrite in_flat_map. intros (s & Hs & Hm).
  unfold fetched_for in Hm.
  destruct (find _ (rev fetched)) as [found |] eqn:Hf; [|contradiction].
  destruct Hm as [<- | []]. apply find_some in Hf as [Hin Heq].
  apply String.eqb_eq in Heq. subst s. split; [assumption|].
  now apply in_rev.
Qed.

(** A shop whose local store knows [ABC]; the remote answers with two
    rows for [XYZ] and one for a SKU that was not asked for. *)
Definition with_remote : Collaborators :=
  {| productMapping :=
       Some [ {| row_shopDomain := "shop"; row_sku := "ABC";
                 row_ingramPartNumber := "IM-1" |} ];
     supabase := inr (fun _ =>
       Some [ {| price_vendor_part := "XYZ"; price_part_nbr := "IM-2" |};
              {| price_vendor_part := "OTHER"; price_part_nbr := "IM-9" |};
              {| price_vendor_part := "XYZ"; price_part_nbr := "IM-3" |} ]) |}.

(** The same shop while the remote is not configured. *)
Definition without_remote : Collaborators :=
  {| productMapping := productMapping with_remote;
     supabase := inl "SUPABASE_URL is not set" |}.

Example resolve_with_fallback :
  let R := getIngramMappingsForSkus with_remote at_noon "shop"
             [" ABC"; "XYZ"; ""; "ABC"] None skuCache in
  returned R = inr [ {| sku := "ABC"; ingramPartNumber := "IM-1" |};
                     {| sku := "XYZ"; ingramPartNumber := "IM-3" |} ]
  /\ remoteQueries R = [["XYZ"]]
  /\ List.length (writtenThrough R) = 3%nat
  /\ map (fun e => (fst e, TtlCache.value (snd e), TtlCache.expiresAt (snd e)))
         (TtlCache.store (cache_after R))
     = [ ("shop::ABC", Some {| sku := "ABC"; ingramPartNumber := "IM-1" |}, 301005);
         ("shop::XYZ", Some {| sku := "XYZ"; ingramPartNumber := "IM-3" |}, 301200) ].
Proof. vm_compute. repeat split. Qed.

Example resolve_without_remote :
  let R := getIngramMappingsForSkus without_remote at_noon "shop"
             [" ABC"; "XYZ"; ""; "ABC"] None skuCache in
  returned R = inl "SUPABASE_URL is not set"
  /\ remoteQueries R = []
  /\ writtenThrough R = []
  /\ TtlCache.keys (cache_after R) = ["shop::ABC"].
Proof. vm_compute. repeat split. Qed.

(** X23.  With the fallback allowed (the option absent or [true]) and a
    well-formed cache, the remote is asked at most once per call, and only
    for the SKUs that neither the cache nor the local store resolved:
    the requested SKUs (input SKUs, trimmed, the blank ones left out) for
    which the cache has no live entry and the local store no row.
    - When none is left, nothing is asked or written through and the call
      returns the cache hits followed by the local rows.
    - When some are left and the remote client cannot be created, the
      call throws the error of [getSupabaseClient], also when other SKUs
      were resolved; nothing is asked or written through.
    - When the remote answers with an error, the call throws, and nothing
      is written through.
    - Otherwise the call returns the cache hits, the local rows and then,
      for each SKU asked, the last remote row bearing it; every mapping
      taken from the remote is for a SKU that was asked; and all remote
      rows, asked for or not, are handed to the local store when it is
      available. *)
Theorem fallback_asks_remote_for_unresolved (env : Collaborators) (t : Times)
    (shopDomain : string) (skus : list string)
    (allowSupabaseFallback : option bool) (cache : SkuCache) :
  fallback_allowed allowSupabaseFallback = true ->
  NoDup (TtlCache.keys cache) ->
  let R := getIngramMappingsForSkus env t shopDomain skus allowSupabaseFallback
             cache in
  let done := resolved env t shopDomain cache skus in
  let missing := unresolved env t shopDomain cache skus in
  (forall s,
      In s missing
      <-> requested skus s
          /\ cached_at t shopDomain cache s = None
          /\ forall row, ~ local_row env shopDomain s row)
  /\ (missing = [] ->
      remoteQueries R = [] /\ writtenThrough R = [] /\ returned R = inr done)
  /\ (missing <> [] ->
      match supabase env with
      | inl message =>
          remoteQueries R = [] /\ writtenThrough R = []
          /\ returned R = inl message
      | inr query =>
          remoteQueries R = [missing]
          /\ (query missing = None ->
              returned R = inl "Unable to retrieve SKU mappings from Supabase"
              /\ writtenThrough R = [])
          /\ (forall data, query missing = Some data ->
              exists taken,
                returned R = inr (done ++ taken)%list
                /\ taken = remote_hits (map of_remote data) missing
                /\ (forall mapping, In mapping taken ->
                      In (sku mapping) missing /\ In mapping (map of_remote data))
                /\ writtenThrough R
                   = match productMapping env with
                     | Some _ => map of_remote data
                     | None => []
                     end)
      end).
Proof.
  intros Hopt Hnd R done missing.
  destruct (resolution_shape env t shopDomain skus allowSupabaseFallback cache Hnd)
    as (cache2 & _ & _ & _ & _ & Heq).
  fold R in Heq. cbv zeta in Heq. fold done missing in Heq.
  split; [apply unresolved_In|]. split.
  - intros E. rewrite E in Heq. rewrite Heq. repeat split.
  - intros Hne. destruct missing as [| m ms] eqn:Em; [now contradiction Hne|].
    assert (Heq' : R = match supabase env with
                       | inl message =>
                           {| returned := inl message; cache_after := cache2;
                              remoteQueries := []; writtenThrough := [] |}
                       | inr query =>
                           match query (m :: ms) with
                           | None =>
                               {| returned :=
                                    inl "Unable to retrieve SKU mappings from Supabase";
                                  cache_after := cache2;
                                  remoteQueries := [m :: ms];
                                  writtenThrough := [] |}
                           | Some data =>
                               let after :=
                                 fold_left (cache_remote (now_remote t) shopDomain
                                                         (map of_remote data))
                                           (m :: ms) (done, cache2) in
                               {| returned := inr (fst after);
                                  cache_after := snd after;
                                  remoteQueries := [m :: ms];
                                  writtenThrough :=
                                    match productMapping env with
                                    | Some _ => map of_remote data
                                    | None => []
                                    end |}
                           end
                       end).
    { rewrite Heq. destruct allowSupabaseFallback as [[] |];
        [reflexivity | discriminate | reflexivity]. }
    rewrite Heq'. destruct (supabase env) as [message | query].
    + repeat split.
    + destruct (query (m :: ms)) as [data |] eqn:Hq.
      * cbv zeta. cbn [returned remoteQueries writtenThrough].
        split; [reflexivity|]. split; [discriminate|].
        intros data' [= <-].
        exists (remote_hits (map of_remote data) (m :: ms)).
        split; [now rewrite cache_remote_fold|]. split; [reflexivity|].
        split; [|reflexivity].
        intros mapping. apply remote_hits_asked.
      * cbn [returned remoteQueries writtenThrough].
        split; [reflexivity|]. split; [auto | discriminate].
Qed.

Lemma fallback_asks_remote_for_unresolved_witness :
  (let skus := [" ABC"; "XYZ"; ""; "ABC"] in
   let R := getIngramMappingsForSkus with_remote at_noon "shop" skus None
              skuCache in
   let done := resolved with_remote at_noon "shop" skuCache skus in
   let missing := unresolved with_remote at_noon "shop" skuCache skus in
   missing = ["XYZ"]
   /\ remoteQueries R = [missing]
   /\ exists taken,
        returned R = inr (done ++ taken)%list
        /\ taken = [ {| sku := "XYZ"; ingramPartNumber := "IM-3" |} ])
  /\ (let skus := [" ABC"; "XYZ"; ""; "ABC"] in
      let R := getIngramMappingsForSkus without_remote at_noon "shop" skus None
                 skuCache in
      remoteQueries R = [] /\ writtenThrough R = []
      /\ returned R = inl "SUPABASE_URL is not set").
Proof.
  split.
  - cbv zeta.
    destruct (fallback_asks_remote_for_unresolved with_remote at_noon "shop"
                [" ABC"; "XYZ"; ""; "ABC"] None skuCache eq_refl (NoDup_nil _))
      as (_ & _ & H).
    assert (Hmissing : unresolved with_remote at_noon "shop" skuCache
                         [" ABC"; "XYZ"; ""; "ABC"] = ["XYZ"])
      by (vm_compute; reflexivity).
    split; [exact Hmissing|].
    assert (Hne : unresolved with_remote at_noon "shop" skuCache
                    [" ABC"; "XYZ"; ""; "ABC"] <> [])
      by (rewrite Hmissing; discriminate).
    destruct (H Hne) as (Hq & _ & Hdata). split; [exact Hq|].
    destruct (Hdata _ eq_refl) as (taken & Hret & Htaken & _).
    exists taken. split; [exact Hret|]. rewrite Htaken, Hmissing.
    vm_compute. reflexivity.
  - cbv zeta.
    destruct (fallback_asks_remote_for_unresolved without_remote at_noon "shop"
                [" ABC"; "XYZ"; ""; "ABC"] None skuCache eq_refl (NoDup_nil _))
      as (_ & _ & H).
    apply H. vm_compute. discriminate.
Defined.

End ProductMappingFallback.

(* ================================================================== *)
(** * fallback-rate.server.ts and [getFallbackRateResponse] *)
(* ================================================================== *)
(** The table [fallbackRateSettings] holds at most one row per shop
    domain ([findUnique] and [upsert] address it by [shopDomain]): a map
    from the shop domain to the row.  [None] stands for a table Prisma
    cannot reach, every operation on which throws.  [upsert] leaves alone
    the columns whose value in [update] is [undefined]. *)
Module FallbackRate.
Import JSNumber.
Local Open Scope string_scope.
Local Open Scope Z_scope.

Record FallbackRateSettings := {
  shopDomain : string;
  enabled : bool;
  price : number;
  title : string;
  description : string;
}.

(** [{ shopDomain, ...DEFAULT_SETTINGS }] *)
Definition DEFAULT_SETTINGS (shopDomain : string) : FallbackRateSettings :=
  {| shopDomain := shopDomain;
     enabled := true;
     price := of_Z 999;
     title := "Shipping Unavailable";
     description := "Please contact support before placing this order" |}.

(** A row: the four columns the code reads and [updatedAt], which
    [create] leaves to the schema ([None]). *)
Record Row := {
  row_enabled : bool;
  row_price : number;
  row_title : string;
  row_description : string;
  row_updatedAt : option Z;
}.

Definition Table := option (JSMap.t Row).

Definition settings_of (shopDomain : string) (row : Row) : FallbackRateSettings :=
  {| shopDomain := shopDomain;
     enabled := row_enabled row;
     price := row_price row;
     title := row_title row;
     description := row_description row |}.

(** [getFallbackRateSettings] (lines 50-79). *)
Definition getFallbackRateSettings (db : Table) (shopDomain : string)
  : FallbackRateSettings :=
  match db with
  | Some table =>
      match JSMap.get shopDomain table with
      | Some settings => settings_of shopDomain settings
      | None => DEFAULT_SETTINGS shopDomain
      end
  | None => DEFAULT_SETTINGS shopDomain
  end.

(** [Partial<Omit<FallbackRateSettings, "shopDomain">>] *)
Record PartialSettings := {
  data_enabled : option bool;
  data_price : option number;
  data_title : option string;
  data_description : option string;
}.

(** [a ?? b] *)
Definition nullish {A : Type} (a : option A) (b : A) : A :=
  match a with
  | Some x => x
  | None => b
  end.

(** [saveFallbackRateSettings] (lines 81-110) at the time [now] of
    [new Date()]: the settings returned, [None] when Prisma throws, and the
    table afterwards. *)
Definition saveFallbackRateSettings (now : Z) (db : Table) (shopDomain : string)
    (data : PartialSettings) : option FallbackRateSettings * Table :=
  match db with
  | None => (None, None)
  | Some table =>
      let settings :=
        match JSMap.get shopDomain table with
        | None =>
            let d := DEFAULT_SETTINGS shopDomain in
            {| row_enabled := nullish (data_enabled data) (enabled d);
               row_price := nullish (data_price data) (price d);
               row_title := nullish (data_title data) (title d);
               row_description := nullish (data_description data) (description d);
               row_updatedAt := None |}
        | Some row =>
            {| row_enabled := nullish (data_enabled data) (row_enabled row);
               row_price := nullish (data_price data) (row_price row);
               row_title := nullish (data_title data) (row_title row);
               row_description :=
                 nullish (data_description data) (row_description row);
               row_updatedAt := Some now |}
        end in
      (Some (settings_of shopDomain settings),
       Some (JSMap.set shopDomain settings table))
  end.

Record ShopifyRate := {
  service_name : string;
  service_code : string;
  total_price : option string;
  rate_description : string;
  currency : string;
}.

(** [formatFallbackRateForShopify] (lines 115-135); [String] of a number
    as [JSNumber.toString]. *)
Definition formatFallbackRateForShopify (settings : FallbackRateSettings)
    (currency : string) : ShopifyRate :=
  let priceInCents := Math_round (mul (price settings) (of_Z 100)) in
  {| service_name := title settings;
     service_code := "FALLBACK_RATE";
     total_price := toString priceInCents;
     rate_description := description settings;
     currency := currency |}.

(** [getFallbackRateResponse] of the rates endpoint: the list [rates]. *)
Definition getFallbackRateResponse (db : Table) (shopDomain : string)
    (currency : string) : list ShopifyRate :=
  let settings := getFallbackRateSettings db shopDomain in
  if negb (enabled settings) then []
  else [formatFallbackRateForShopify settings currency].

(** The settings with the fields given in [data] replaced. *)
Definition overridden (settings : FallbackRateSettings) (data : PartialSettings)
  : FallbackRateSettings :=
  {| shopDomain := shopDomain settings;
     enabled := nullish (data_enabled data) (enabled settings);
     price := nullish (data_price data) (price settings);
     title := nullish (data_title data) (title settings);
     description := nullish (data_description data) (description settings) |}.

(** The binary64 value of the literal [-19.995]. *)
Definition charge_minus_19_995 : number :=
  S754_finite true 5628092159329567 (-48).

Lemma round_string (p : number) (s : bool) (m : positive) (e : Z) :
  p = S754_finite s m e ->
  Z.abs (round_half_up s m e) < 2 ^ 53 ->
  toString (Math_round p) = Some (decimal (round_half_up s m e)).
Proof.
  intros -> Hb. unfold Math_round, round_half_up in *.
  destruct (0 <=? e) eqn:He.
  - unfold toString, to_Z. rewrite He.
    replace (Z.abs (cond_Zopp s (Zpos m) * 2 ^ e) <=? 2 ^ 53) with true;
      [reflexivity|].
    symmetry. apply Z.leb_le. lia.
  - set (n := (2 * cond_Zopp s (Zpos m) + 2 ^ (- e)) / 2 ^ (1 - e)) in *.
    destruct (n =? 0) eqn:Hn.
    + apply Z.eqb_eq in Hn. rewrite Hn. reflexivity.
    + apply Z.eqb_neq in Hn. destruct n as [| q | q]; [lia | |].
      * destruct (of_Z_exact false q) as (m' & e' & Hof & Hz); [lia|].
        cbn [cond_Zopp] in Hof, Hz. rewrite Hof.
        unfold toString. rewrite Hz.
        replace (Z.abs (Zpos q) <=? 2 ^ 53) with true
          by (symmetry; apply Z.leb_le; lia).
        reflexivity.
      * destruct (of_Z_exact true q) as (m' & e' & Hof & Hz); [lia|].
        cbn [cond_Zopp] in Hof, Hz.
        change (- Zpos q) with (Zneg q) in Hof, Hz. rewrite Hof.
        unfold toString. rewrite Hz.
        replace (Z.abs (Zneg q) <=? 2 ^ 53) with true
          by (symmetry; apply Z.leb_le; lia).
        reflexivity.
Qed.

(** X24.  Saved settings are read back.  On a reachable table,
    [saveFallbackRateSettings] returns what [getFallbackRateSettings]
    answers afterwards, and that is what it answered before (the stored row,
    or the defaults for a shop without one) with the fields given replaced
    and the others kept; the settings of every other shop are unchanged.  On
    an unreachable table the save throws while the read answers the
    defaults. *)
Theorem saved_settings_are_read_back (now : Z) (db : Table) (shop : string)
    (data : PartialSettings) :
  let '(saved, db') := saveFallbackRateSettings now db shop data in
  match db with
  | Some _ =>
      saved = Some (getFallbackRateSettings db' shop)
      /\ getFallbackRateSettings db' shop
         = overridden (getFallbackRateSettings db shop) data
      /\ forall other, other <> shop ->
           getFallbackRateSettings db' other = getFallbackRateSettings db other
  | None =>
      saved = None /\ db' = None
      /\ getFallbackRateSettings db shop = DEFAULT_SETTINGS shop
  end.
Proof.
  destruct db as [table |]; cbn [saveFallbackRateSettings]; [|repeat split].
  cbn [getFallbackRateSettings]. rewrite JSMap.get_set_same.
  split; [reflexivity|]. split.
  - destruct (JSMap.get shop table); reflexivity.
  - intros other Hne. now rewrite JSMap.get_set_other.
Qed.

(** X25.  The fallback rate offered to a shop.  There is at most one.  There
    is none exactly when the table is reachable and holds a row of the shop
    that is disabled.  A rate offered has the service code
    [FALLBACK_RATE], the currency asked for and the title and description
    in force; and a shop without a row, or any shop while the table is
    unreachable, is offered the default rate, priced ["99900"]. *)
Theorem getFallbackRateResponse_rates (db : Table) (shop cur : string) :
  let rates := getFallbackRateResponse db shop cur in
  (rates = []
   <-> exists table row,
         db = Some table /\ JSMap.get shop table = Some row
         /\ row_enabled row = false)
  /\ (forall rate, In rate rates ->
        rates = [rate]
        /\ service_code rate = "FALLBACK_RATE"
        /\ currency rate = cur
        /\ service_name rate = title (getFallbackRateSettings db shop)
        /\ rate_description rate = description (getFallbackRateSettings db shop))
  /\ ((db = None \/ exists table, db = Some table /\ JSMap.get shop table = None) ->
      rates = [ {| service_name := "Shipping Unavailable";
                   service_code := "FALLBACK_RATE";
                   total_price := Some "99900";
                   rate_description :=
                     "Please contact support before placing this order";
                   currency := cur |} ]).
Proof.
  cbv zeta. unfold getFallbackRateResponse. split; [|split].
  - split.
    + intros H.
      destruct (negb (enabled (getFallbackRateSettings db shop))) eqn:E;
        [|discriminate].
      apply negb_true_iff in E. unfold getFallbackRateSettings in E.
      destruct db as [table |]; [|discriminate].
      destruct (JSMap.get shop table) as [row |] eqn:Hrow; [|discriminate].
      exists table, row. auto.
    + intros (table & row & -> & Hrow & Hen).
      cbn [getFallbackRateSettings]. rewrite Hrow. cbn. now rewrite Hen.
  - intros rate Hin.
    destruct (negb (enabled (getFallbackRateSettings db shop))); [contradiction|].
    destruct Hin as [<- | []]. repeat split.
  - assert (Hd : getFallbackRateSettings db shop = DEFAULT_SETTINGS shop
                 -> (if negb (enabled (getFallbackRateSettings db shop))
                     then []
                     else [formatFallbackRateForShopify
                             (getFallbackRateSettings db shop) cur])
                    = [ {| service_name := "Shipping Unavailable";
                           service_code := "FALLBACK_RATE";
                           total_price := Some "99900";
                           rate_description :=
                             "Please contact support before placing this order";
                           currency := cur |} ]).
    { intros ->. vm_compute. reflexivity. }
    intros [-> | (table & -> & Hrow)]; apply Hd; cbn [getFallbackRateSettings];
      [reflexivity | now rewrite Hrow].
Qed.

(** X26.  The fallback price is not floored at zero.
    [formatFallbackRateForShopify] prices the settings at the integer
    nearest to the binary64 product [price * 100] (ties going up), printed
    in decimal with its sign: unlike a carrier's rate, a negative price
    stays negative. *)
Theorem formatFallbackRateForShopify_total_price
    (settings : FallbackRateSettings) (cur : string)
    (s : bool) (m : positive) (e : Z) :
  mul (price settings) (of_Z 100) = S754_finite s m e ->
  Z.abs (round_half_up s m e) < 2 ^ 53 ->
  nearest_integer s m e (round_half_up s m e)
  /\ total_price (formatFallbackRateForShopify settings cur)
     = Some (decimal (round_half_up s m e)).
Proof.
  intros Hp Hb. split; [apply round_half_up_nearest|].
  cbn [formatFallbackRateForShopify total_price]. now apply round_string.
Qed.

Lemma formatFallbackRateForShopify_total_price_witness :
  nearest_integer true 8793893998952448 (-42)
    (round_half_up true 8793893998952448 (-42))
  /\ total_price (formatFallbackRateForShopify
                    {| shopDomain := "shop"; enabled := true;
                       price := charge_minus_19_995;
                       title := "Flat"; description := "" |} "USD")
     = Some (decimal (round_half_up true 8793893998952448 (-42))).
Proof.
  apply (formatFallbackRateForShopify_total_price
           {| shopDomain := "shop"; enabled := true;
              price := charge_minus_19_995;
              title := "Flat"; description := "" |} "USD"%string
           true 8793893998952448%positive (-42)).
  - vm_compute. reflexivity.
  - vm_compute. reflexivity.
Defined.

Example negative_price_stays_negative :
  total_price (formatFallbackRateForShopify
                 {| shopDomain := "shop"; enabled := true;
                    price := charge_minus_19_995;
                    title := "Flat"; description := "" |} "USD")
  = Some "-1999".
Proof. vm_compute. reflexivity. Qed.

End FallbackRate.

(* ================================================================== *)
(** * routes/api.cron.sync-products.ts: the weekly sync of all shops *)
(* ================================================================== *)
(** The loader shares the page loop, the deduplication and the tables with
    product-sync.server.ts.  Here a local operation may throw: per shop, a
    [Fault] names the operation that does and the message of its error. *)
Module CronSync.
Import ProductSync.
Local Open Scope string_scope.
Local Open Scope Z_scope.

(** The two headers the loader reads. *)
Record Request := {
  authorization : option string;
  x_vercel_cron : option string;
}.

(** [headers.get(name) === value] *)
Definition header_is (header : option string) (value : string) : bool :=
  match header with
  | Some h => String.eqb h value
  | None => false
  end.

(** [verifyCronRequest] (lines 14-26). *)
Definition verifyCronRequest (CRON_SECRET : option string) (request : Request)
  : bool :=
  let isVercelCron := header_is (x_vercel_cron request) "true" in
  match CRON_SECRET with
  | Some cronSecret =>
      if JSString.truthy cronSecret
      then header_is (authorization request) ("Bearer " ++ cronSecret)
      else isVercelCron
  | None => isVercelCron
  end.

(** The operation of a shop's sync that throws: [deleteMany], the
    [createMany] of batch [k], or the creation of the job. *)
Inductive Fault :=
| AtDelete (message : string)
| AtBatch (k : nat) (message : string)
| AtJob (message : string).

Record ShopResult := {
  shop : string;
  synced : Z;
  result_error : option string;
}.

(** The loop over the batches (lines 121-128), from index [i]; the first
    component is the message of the error thrown, if any. *)
Fixpoint insert_loop (rounds : nat) (fault : option Fault)
    (mappingsToInsert : list ProductMapping.ProductMappingRow) (i : nat)
    (acc : Z * Db) : option string * (Z * Db) :=
  match rounds with
  | O => (None, acc)
  | S rounds' =>
      if (i <? List.length mappingsToInsert)%nat then
        let '(inserted, db) := acc in
        let batch := slice i mappingsToInsert in
        let thrown :=
          match fault with
          | Some (AtBatch k message) =>
              if (k =? i / BATCH_SIZE)%nat then Some message else None
          | _ => None
          end in
        match thrown with
        | Some message => (Some message, acc)
        | None =>
            insert_loop rounds' fault mappingsToInsert (i + BATCH_SIZE)
              (inserted + Z.of_nat (List.length batch), createMany batch db)
        end
      else (None, acc)
  end.

(** The times of the calls of [new Date()] and of the default of
    [createdAt], for the shop at each position of the list. *)
Record Times := {
  job_created : nat -> Z;
  job_finished : nat -> Z;
  timestamp : Z;
}.

(** The job created at the end of a shop's sync (lines 131-139). *)
Definition success_job (times : Times) (index : nat) (shopDomain : string)
    (inserted : Z) : ProductSyncJob :=
  {| shopDomain := shopDomain; status := "success"; processed := inserted;
     total := inserted; error := None; createdAt := job_created times index;
     finishedAt := Some (job_finished times index) |}.

(** The body of the loop over the shops (lines 104-149). *)
Definition sync_shop (times : Times) (index : nat) (fault : option Fault)
    (uniqueMappings : JSMap.t string) (shopDomain : string) (db : Db)
  : ShopResult * Db :=
  let caught message db' :=
    ({| shop := shopDomain; synced := 0; result_error := Some message |}, db') in
  match fault with
  | Some (AtDelete message) => caught message db
  | _ =>
      let db1 := deleteMany shopDomain db in
      let mappingsToInsert := map (mapping_row shopDomain) uniqueMappings in
      match insert_loop (List.length mappingsToInsert) fault mappingsToInsert 0
                        (0, db1) with
      | (Some message, (_, db2)) => caught message db2
      | (None, (inserted, db2)) =>
          match fault with
          | Some (AtJob message) => caught message db2
          | _ =>
              ({| shop := shopDomain; synced := inserted; result_error := None |},
               with_jobs db2
                 (productSyncJob db2
                  ++ [success_job times index shopDomain inserted])%list)
          end
      end
  end.

(** The loop over the shops, from the position [index]. *)
Fixpoint sync_shops (times : Times) (faults : nat -> option Fault)
    (uniqueMappings : JSMap.t string) (index : nat) (shops : list string)
    (db : Db) : list ShopResult * Db :=
  match shops with
  | [] => ([], db)
  | shopDomain :: shops' =>
      let '(result, db1) :=
        sync_shop times index (faults index) uniqueMappings shopDomain db in
      let '(results, db2) :=
        sync_shops times faults uniqueMappings (S index) shops' db1 in
      (result :: results, db2)
  end.

Inductive Body :=
| Unauthorized
| NoShops
| Failure (message : string)
| Synced (at_ : Z) (shops : list ShopResult).

Record Response := {
  http_status : Z;
  body : Body;
}.

(** [loader] (lines 28-172).  [credentials] is the answer of
    [ingramCredential.findMany]: the shop domains, or the message of the
    error thrown.  [None]: the fuel of the page loop ran out. *)
Definition loader (fuel : nat) (times : Times) (CRON_SECRET : option string)
    (faults : nat -> option Fault) (credentials : string + list string)
    (supabase : Supabase) (request : Request) (db : Db)
  : option (Response * Db) :=
  if negb (verifyCronRequest CRON_SECRET request)
  then Some ({| http_status := 401; body := Unauthorized |}, db)
  else
    match credentials with
    | inl message => Some ({| http_status := 500; body := Failure message |}, db)
    | inr [] => Some ({| http_status := 200; body := NoShops |}, db)
    | inr shops =>
        match supabase with
        | inl message =>
            Some ({| http_status := 500; body := Failure message |}, db)
        | inr range =>
            match fetch_pages fuel range 0 [] with
            | None => None
            | Some (inl _) =>
                Some ({| http_status := 500;
                         body := Failure "Failed to fetch from Supabase" |}, db)
            | Some (inr rows) =>
                let uniqueMappings := dedupe rows in
                let '(results, db') :=
                  sync_shops times faults uniqueMappings 0 shops db in
                Some ({| http_status := 200;
                         body := Synced (timestamp times) results |}, db')
            end
        end
    end.

(** ** What a run leaves to a shop *)

Definition of_shop (s : string) (table : list ProductMapping.ProductMappingRow)
  : list ProductMapping.ProductMappingRow :=
  filter (fun row => String.eqb (ProductMapping.row_shopDomain row) s) table.

(** The mappings of the shop [s]. *)
Definition rows_of (s : string) (db : Db) : list ProductMapping.ProductMappingRow :=
  of_shop s (productMapping db).

Definition succeeded (r : ShopResult) : bool :=
  match result_error r with
  | None => true
  | Some _ => false
  end.

(** What the result [r] of the shop [s] says of the shop's mappings, which
    were [before] and are [after]: without error, they are the fetched
    mappings, all counted; with an error, nothing is counted, and they are
    as before or a part of the fetched mappings, from the first on. *)
Definition shop_outcome (uniqueMappings : JSMap.t string) (s : string)
    (r : ShopResult) (before after : list ProductMapping.ProductMappingRow)
  : Prop :=
  shop r = s
  /\ (result_error r = None ->
      synced r = JSMap.size uniqueMappings
      /\ after = map (mapping_row s) uniqueMappings)
  /\ (result_error r <> None ->
      synced r = 0
      /\ (after = before
          \/ exists done rest,
               uniqueMappings = (done ++ rest)%list
               /\ after = map (mapping_row s) done)).

Lemma of_shop_app (s : string) (a b : list ProductMapping.ProductMappingRow) :
  of_shop s (a ++ b) = (of_shop s a ++ of_shop s b)%list.
Proof. apply filter_app. Qed.

Lemma of_shop_own (s : string) (entries : list (string * string)) :
  of_shop s (map (mapping_row s) entries) = map (mapping_row s) entries.
Proof.
  unfold of_shop. induction entries as [| e entries IH]; [reflexivity|].
  cbn. rewrite String.eqb_refl. now f_equal.
Qed.

Lemma of_shop_foreign (s s' : string) (entries : list (string * string)) :
  s' <> s -> of_shop s' (map (mapping_row s) entries) = [].
Proof.
  intros Hne. unfold of_shop. induction entries as [| e entries IH]; [reflexivity|].
  cbn. apply not_eq_sym, String.eqb_neq in Hne. now rewrite Hne.
Qed.

Lemma rows_of_deleted (s : string) (db : Db) : rows_of s (deleteMany s db) = [].
Proof.
  unfold rows_of, of_shop, deleteMany. cbn [productMapping with_mappings].
  induction (productMapping db) as [| row table IH]; [reflexivity|].
  cbn [filter].
  destruct (String.eqb (ProductMapping.row_shopDomain row) s) eqn:E; cbn [negb];
    [assumption|].
  cbn [filter]. now rewrite E.
Qed.

Lemma rows_of_deleted_other (s s' : string) (db : Db) :
  s' <> s -> rows_of s' (deleteMany s db) = rows_of s' db.
Proof.
  intros Hne. unfold rows_of, of_shop, deleteMany. cbn [productMapping with_mappings].
  induction (productMapping db) as [| row table IH]; [reflexivity|].
  cbn [filter].
  destruct (String.eqb (ProductMapping.row_shopDomain row) s) eqn:E; cbn [negb].
  - apply String.eqb_eq in E.
    assert (E' : String.eqb (ProductMapping.row_shopDomain row) s' = false).
    { apply String.eqb_neq. congruence. }
    now rewrite E'.
  - cbn [filter]. now rewrite IH.
Qed.

Lemma deleted_has_none (s : string) (db : Db) (row : ProductMapping.ProductMappingRow) :
  In row (productMapping (deleteMany s db)) -> ProductMapping.row_shopDomain row <> s.
Proof.
  unfold deleteMany. cbn [productMapping with_mappings]. intros H.
  apply filter_In in H as [_ H]. now apply negb_true_iff, String.eqb_neq in H.
Qed.

Lemma createMany_rows (data : list ProductMapping.ProductMappingRow) (db : Db) :
  productMapping (createMany data db) = fold_left insert_row data (productMapping db).
Proof. reflexivity. Qed.

(** The loop inserts the batches in order; it stops early only when a
    batch throws, and then the batches before it are in place. *)
Lemma insert_loop_spec (fault : option Fault)
    (mappingsToInsert : list ProductMapping.ProductMappingRow) (rounds : nat) :
  forall (i : nat) (inserted : Z) (db : Db) (thrown : option string)
         (inserted' : Z) (db' : Db),
    insert_loop rounds fault mappingsToInsert i (inserted, db)
    = (thrown, (inserted', db')) ->
    exists done rest,
      skipn i mappingsToInsert = (done ++ rest)%list
      /\ productMapping db' = fold_left insert_row done (productMapping db)
      /\ productSyncJob db' = productSyncJob db
      /\ (thrown = None ->
          (List.length mappingsToInsert - i <= rounds)%nat ->
          rest = [] /\ inserted' = inserted + Z.of_nat (List.length done))
      /\ ((forall k message, fault <> Some (AtBatch k message)) -> thrown = None).
Proof.
  induction rounds as [| rounds IH]; intros i inserted db thrown inserted' db' H.
  - cbn in H. injection H as <- <- <-.
    exists [], (skipn i mappingsToInsert). cbn.
    split; [reflexivity|]. split; [reflexivity|]. split; [reflexivity|].
    split; [|reflexivity].
    intros _ Hr. split; [|lia]. apply skipn_all2. lia.
  - cbn [insert_loop] in H.
    destruct (i <? List.length mappingsToInsert)%nat eqn:Hi.
    + destruct (match fault with
                | Some (AtBatch k message) =>
                    if (k =? i / BATCH_SIZE)%nat then Some message else None
                | _ => None
                end) as [message |] eqn:Hthrown.
      * injection H as <- <- <-.
        exists [], (skipn i mappingsToInsert). cbn.
        split; [reflexivity|]. split; [reflexivity|]. split; [reflexivity|].
        split; [discriminate|].
        intros Hno. destruct fault as [[m | k m | m] |]; try discriminate.
        now contradiction (Hno k m).
      * apply IH in H as (done & rest & Hsplit & Hm & Hj & Hall & Hno).
        assert (Hcut : skipn i mappingsToInsert
                       = (slice i mappingsToInsert
                          ++ skipn (i + BATCH_SIZE) mappingsToInsert)%list).
        { unfold slice. rewrite Nat.add_comm, <- skipn_skipn.
          symmetry. apply firstn_skipn. }
        exists (slice i mappingsToInsert ++ done)%list, rest.
        split; [now rewrite Hcut, Hsplit, app_assoc|].
        split; [now rewrite Hm, createMany_rows, fold_left_app|].
        split; [now rewrite Hj|]. split; [|assumption].
        intros Hnone Hr. destruct (Hall Hnone) as [-> ->].
        { unfold BATCH_SIZE. lia. }
        split; [reflexivity|]. rewrite length_app. lia.
    + injection H as <- <- <-. apply Nat.ltb_ge in Hi.
      exists [], (skipn i mappingsToInsert). cbn.
      split; [reflexivity|]. split; [reflexivity|]. split; [reflexivity|].
      split; [|reflexivity].
      intros _ _. split; [|lia]. apply skipn_all2. lia.
Qed.

Lemma NoDup_app_l {A : Type} (a b : list A) : NoDup (a ++ b) -> NoDup a.
Proof.
  induction a as [| x a IH]; intros H; [constructor|].
  cbn in H. inversion H as [| ? ? Hnot Hnd]; subst. constructor.
  - intros Hin. apply Hnot, in_or_app. now left.
  - now apply IH.
Qed.

(** One shop's sync: what it reports, what it leaves to the shop and to
    the others, and the job it adds. *)
Lemma sync_shop_spec (times : Times) (index : nat) (fault : option Fault)
    (uniqueMappings : JSMap.t string) (s : string) (db : Db) :
  NoDup (JSMap.keys uniqueMappings) ->
  let r := fst (sync_shop times index fault uniqueMappings s db) in
  let db' := snd (sync_shop times index fault uniqueMappings s db) in
  shop_outcome uniqueMappings s r (rows_of s db) (rows_of s db')
  /\ (fault = None -> result_error r = None)
  /\ (forall s', s' <> s -> rows_of s' db' = rows_of s' db)
  /\ productSyncJob db'
     = (productSyncJob db
        ++ if succeeded r then [success_job times index s (synced r)] else [])%list.
Proof.
  intros Hnd. cbv zeta.
  assert (Hcaught : forall message db',
             (rows_of s db' = rows_of s db
              \/ exists done rest,
                   uniqueMappings = (done ++ rest)%list
                   /\ rows_of s db' = map (mapping_row s) done) ->
             (forall s', s' <> s -> rows_of s' db' = rows_of s' db) ->
             productSyncJob db' = productSyncJob db ->
             fault <> None ->
             let r := {| shop := s; synced := 0; result_error := Some message |} in
             shop_outcome uniqueMappings s r (rows_of s db) (rows_of s db')
             /\ (fault = None -> result_error r = None)
             /\ (forall s', s' <> s -> rows_of s' db' = rows_of s' db)
             /\ productSyncJob db'
                = (productSyncJob db
                   ++ if succeeded r then [success_job times index s (synced r)]
                      else [])%list).
  { intros message db' Hrows Hframe Hjobs Hf. cbv zeta.
    split; [|split; [|split]].
    - split; [reflexivity|]. split; [discriminate|]. intros _. now split.
    - intros E. contradiction.
    - assumption.
    - cbn. now rewrite app_nil_r. }
  assert (Hbody :
            (forall message, fault <> Some (AtDelete message)) ->
            let r := fst (let db1 := deleteMany s db in
                          let mappingsToInsert := map (mapping_row s) uniqueMappings in
                          match insert_loop (List.length mappingsToInsert) fault
                                            mappingsToInsert 0 (0, db1) with
                          | (Some message, (_, db2)) =>
                              ({| shop := s; synced := 0;
                                  result_error := Some message |}, db2)
                          | (None, (inserted, db2)) =>
                              match fault with
                              | Some (AtJob message) =>
                                  ({| shop := s; synced := 0;
                                      result_error := Some message |}, db2)
                              | _ =>
                                  ({| shop := s; synced := inserted;
                                      result_error := None |},
                                   with_jobs db2
                                     (productSyncJob db2
                                      ++ [success_job times index s inserted])%list)
                              end
                          end) in
            let db' := snd (let db1 := deleteMany s db in
                          let mappingsToInsert := map (mapping_row s) uniqueMappings in
                          match insert_loop (List.length mappingsToInsert) fault
                                            mappingsToInsert 0 (0, db1) with
                          | (Some message, (_, db2)) =>
                              ({| shop := s; synced := 0;
                                  result_error := Some message |}, db2)
                          | (None, (inserted, db2)) =>
                              match fault with
                              | Some (AtJob message) =>
                                  ({| shop := s; synced := 0;
                                      result_error := Some message |}, db2)
                              | _ =>
                                  ({| shop := s; synced := inserted;
                                      result_error := None |},
                                   with_jobs db2
                                     (productSyncJob db2
                                      ++ [success_job times index s inserted])%list)
                              end
                          end) in
            shop_outcome uniqueMappings s r (rows_of s db) (rows_of s db')
            /\ (fault = None -> result_error r = None)
            /\ (forall s', s' <> s -> rows_of s' db' = rows_of s' db)
            /\ productSyncJob db'
               = (productSyncJob db
                  ++ if succeeded r then [success_job times index s (synced r)]
                     else [])%list).
  { intros Hnodel. cbv zeta.
    destruct (insert_loop (List.length (map (mapping_row s) uniqueMappings)) fault
                          (map (mapping_row s) uniqueMappings) 0
                          (0, deleteMany s db))
      as [thrown [inserted db2]] eqn:Hloop.
    apply insert_loop_spec in Hloop
      as (done & rest & Hsplit & Hm & Hj & Hall & Hno).
    cbn [skipn] in Hsplit.
    apply map_eq_app in Hsplit as (u1 & u2 & Hu & Hdone & Hrest).
    assert (Htable : productMapping db2
                     = (productMapping (deleteMany s db)
                        ++ map (mapping_row s) u1)%list).
    { rewrite Hm, <- Hdone. apply createMany_fresh.
      - unfold JSMap.keys in Hnd. rewrite Hu, map_app in Hnd.
        now apply NoDup_app_l in Hnd.
      - intros row Hin Hs _. now apply deleted_has_none in Hin. }
    assert (Hown : rows_of s db2 = map (mapping_row s) u1).
    { unfold rows_of. rewrite Htable, of_shop_app, of_shop_own.
      fold (rows_of s (deleteMany s db)). now rewrite rows_of_deleted. }
    assert (Hframe : forall s', s' <> s -> rows_of s' db2 = rows_of s' db).
    { intros s' Hne. unfold rows_of. rewrite Htable, of_shop_app.
      rewrite of_shop_foreign by assumption. rewrite app_nil_r.
      fold (rows_of s' (deleteMany s db)). now apply rows_of_deleted_other. }
    assert (Hjobs : productSyncJob db2 = productSyncJob db) by (now rewrite Hj).
    destruct thrown as [message |].
    - cbn [fst snd]. apply Hcaught; auto.
      + right. now exists u1, u2.
      + intros ->. assert (E : Some message = None); [|discriminate].
        apply Hno. discriminate.
    - destruct Hall as [Hnil Hins]; [reflexivity | rewrite length_map; lia |].
      rewrite Hnil in Hrest. apply map_eq_nil in Hrest. subst u2.
      rewrite app_nil_r in Hu. subst u1.
      assert (Hsize : inserted = JSMap.size uniqueMappings).
      { rewrite Hins, <- Hdone, length_map. unfold JSMap.size. lia. }
      destruct fault as [[m | k m | m] |].
      + now contradiction (Hnodel m).
      + cbn [fst snd]. split; [|split; [|split]].
        * split; [reflexivity|]. split; [|intros H; now contradiction H].
          intros _. split; [assumption|]. exact Hown.
        * discriminate.
        * exact Hframe.
        * cbn. now rewrite Hjobs.
      + cbn [fst snd]. apply Hcaught; auto; [|discriminate].
        right. exists uniqueMappings, []. now rewrite app_nil_r.
      + cbn [fst snd]. split; [|split; [|split]].
        * split; [reflexivity|]. split; [|intros H; now contradiction H].
          intros _. split; [assumption|]. exact Hown.
        * reflexivity.
        * exact Hframe.
        * cbn. now rewrite Hjobs. }
  unfold sync_shop.
  destruct fault as [[m | k m | m] |].
  - cbn [fst snd]. apply Hcaught; auto. discriminate.
  - apply Hbody. discriminate.
  - apply Hbody. discriminate.
  - apply Hbody. discriminate.
Qed.

(** The jobs a run adds: one per shop synced without error. *)
Fixpoint jobs_added (times : Times) (index : nat) (results : list ShopResult)
  : list ProductSyncJob :=
  match results with
  | [] => []
  | r :: results' =>
      ((if succeeded r then [success_job times index (shop r) (synced r)] else [])
       ++ jobs_added times (S index) results')%list
  end.

Lemma sync_shops_spec (times : Times) (faults : nat -> option Fault)
    (uniqueMappings : JSMap.t string) (shops : list string) :
  NoDup (JSMap.keys uniqueMappings) ->
  NoDup shops ->
  forall (index : nat) (db : Db),
    let results := fst (sync_shops times faults uniqueMappings index shops db) in
    let db' := snd (sync_shops times faults uniqueMappings index shops db) in
    map shop results = shops
    /\ (forall j s r,
          nth_error shops j = Some s -> nth_error results j = Some r ->
          shop_outcome uniqueMappings s r (rows_of s db) (rows_of s db')
          /\ (faults (index + j)%nat = None -> result_error r = None))
    /\ (forall s, ~ In s shops -> rows_of s db' = rows_of s db)
    /\ productSyncJob db'
       = (productSyncJob db ++ jobs_added times index results)%list.
Proof.
  intros Hnd. induction shops as [| s shops IH]; intros Hshops index db; cbv zeta.
  - cbn. split; [reflexivity|]. split; [|split; [reflexivity|]].
    + intros [| j] s r H; discriminate.
    + now rewrite app_nil_r.
  - inversion Hshops as [| ? ? Hnot Hshops']; subst.
    cbn [sync_shops].
    pose proof (sync_shop_spec times index (faults index) uniqueMappings s db Hnd)
      as Hone.
    cbv zeta in Hone.
    destruct (sync_shop times index (faults index) uniqueMappings s db)
      as [r db1].
    cbn [fst snd] in Hone. destruct Hone as (Hout & Hfault & Hframe & Hjob).
    specialize (IH Hshops' (S index) db1). cbv zeta in IH.
    destruct (sync_shops times faults uniqueMappings (S index) shops db1)
      as [results db2].
    cbn [fst snd] in IH |- *. destruct IH as (Hmap & Hnth & Hrest & Hjobs).
    split; [|split; [|split]].
    + cbn [map]. destruct Hout as (Hs & _). now rewrite Hs, Hmap.
    + intros [| j] s' r' Hs' Hr'; cbn [nth_error] in Hs', Hr'.
      * injection Hs' as <-. injection Hr' as <-.
        rewrite (Hrest s Hnot), Nat.add_0_r. split; assumption.
      * destruct (Hnth j s' r' Hs' Hr') as (Ho & Hf).
        assert (Hne : s' <> s).
        { intros ->. apply Hnot. now apply nth_error_In in Hs'. }
        rewrite (Hframe s' Hne) in Ho.
        split; [assumption|]. now rewrite Nat.add_succ_r.
    + intros s' Hs'. rewrite Hrest by (intros H; apply Hs'; now right).
      apply Hframe. intros ->. apply Hs'. now left.
    + rewrite Hjobs, Hjob. cbn [jobs_added]. destruct Hout as (-> & _).
      now rewrite <- app_assoc.
Qed.

(** ** Examples *)

Definition two_rows : nat -> Page :=
  range_of [good "A" "1"; good "B" "2"; good "A" "3"].

Definition monday : Times :=
  {| job_created := fun i => 3000 + Z.of_nat i;
     job_finished := fun i => 3000 + Z.of_nat i;
     timestamp := 3010 |}.

(** The job table of the second shop is unreachable for its [createMany]. *)
Definition second_fails : nat -> option Fault :=
  fun i => if (i =? 1)%nat then Some (AtBatch 0 "connection lost") else None.

Definition from_cron : Request :=
  {| authorization := Some "Bearer s3cret"; x_vercel_cron := None |}.

Definition from_anyone : Request :=
  {| authorization := None; x_vercel_cron := Some "true" |}.

Example sync_two_shops :
  option_map
    (fun r => (fst r, productMapping (snd r),
               map (fun job => (shopDomain job, status job, processed job))
                   (productSyncJob (snd r))))
    (loader 1 monday (Some "s3cret") second_fails (inr ["other"; "shop"])
            (inr two_rows) from_cron one_job)
  = Some ({| http_status := 200;
             body := Synced 3010
                       [ {| shop := "other"; synced := 2; result_error := None |};
                         {| shop := "shop"; synced := 0;
                            result_error := Some "connection lost" |} ] |},
          [ {| ProductMapping.row_shopDomain := "other";
               ProductMapping.row_sku := "A";
               ProductMapping.row_ingramPartNumber := "1" |};
            {| ProductMapping.row_shopDomain := "other";
               ProductMapping.row_sku := "B";
               ProductMapping.row_ingramPartNumber := "2" |} ],
          [ ("shop", "running", 0); ("other", "success", 2) ]).
Proof. vm_compute. reflexivity. Qed.

(** ** Properties *)

(** What the loader answers before it reaches the shops. *)
Definition refused : Response := {| http_status := 401; body := Unauthorized |}.

Definition failed (message : string) : Response :=
  {| http_status := 500; body := Failure message |}.

(** X27.  A run that is refused or fails before the shops changes nothing.
    A request that is not verified is answered 401, with no table changed;
    with a secret configured, so is a request without exactly that bearer,
    whatever its other header says.  A verified request is answered, with
    no table changed: 500 with the message when the credentials cannot be
    read; 200 when no shop is configured; 500 with the message when the
    remote client cannot be created; 500 when a page request is answered
    with an error.  When the pages are fetched the answer is 200, and the
    loader gives no answer only when the page loop does not end within
    the fuel.  Of every answer: the status is 200, 401 or 500; it is 401
    exactly when the request is not verified; and when it is not 200, or
    no shop is configured, no table is changed. *)
Theorem cron_refusal_changes_nothing (fuel : nat) (times : Times)
    (CRON_SECRET : option string) (faults : nat -> option Fault)
    (credentials : string + list string) (supabase : Supabase)
    (request : Request) (db : Db) :
  let answer :=
    loader fuel times CRON_SECRET faults credentials supabase request db in
  (verifyCronRequest CRON_SECRET request = false -> answer = Some (refused, db))
  /\ (forall cronSecret,
        CRON_SECRET = Some cronSecret -> cronSecret <> "" ->
        authorization request <> Some ("Bearer " ++ cronSecret) ->
        answer = Some (refused, db))
  /\ (verifyCronRequest CRON_SECRET request = true ->
      (forall message,
          credentials = inl message -> answer = Some (failed message, db))
      /\ (credentials = inr [] ->
          answer = Some ({| http_status := 200; body := NoShops |}, db))
      /\ (forall s shops,
            credentials = inr (s :: shops) ->
            match supabase with
            | inl message => answer = Some (failed message, db)
            | inr range =>
                match fetch_pages fuel range 0 [] with
                | None => answer = None
                | Some (inl _) =>
                    answer = Some (failed "Failed to fetch from Supabase", db)
                | Some (inr rows) =>
                    exists results db',
                      answer
                      = Some ({| http_status := 200;
                                 body := Synced (timestamp times) results |}, db')
                end
            end))
  /\ (forall response db',
        answer = Some (response, db') ->
        (http_status response = 200 \/ http_status response = 401
         \/ http_status response = 500)
        /\ (http_status response = 401
            <-> verifyCronRequest CRON_SECRET request = false)
        /\ (http_status response <> 200 \/ body response = NoShops -> db' = db)).
Proof.
  cbv zeta.
  assert (Hsecret : forall cronSecret,
             CRON_SECRET = Some cronSecret -> cronSecret <> "" ->
             authorization request <> Some ("Bearer " ++ cronSecret) ->
             verifyCronRequest CRON_SECRET request = false).
  { intros cronSecret -> Hne Hauth. unfold verifyCronRequest.
    assert (Ht : JSString.truthy cronSecret = true).
    { unfold JSString.truthy. apply negb_true_iff. now apply String.eqb_neq. }
    rewrite Ht. unfold header_is.
    destruct (authorization request) as [h |]; [|reflexivity].
    apply String.eqb_neq. intros ->. now contradiction Hauth. }
  assert (Hrefused : verifyCronRequest CRON_SECRET request = false ->
                     loader fuel times CRON_SECRET faults credentials supabase
                            request db
                     = Some (refused, db)).
  { intros Hv. unfold loader. now rewrite Hv. }
  split; [exact Hrefused|]. split; [|split].
  - intros cronSecret Hs Hne Hauth. apply Hrefused.
    now apply (Hsecret cronSecret).
  - intros Hv. unfold loader. rewrite Hv. cbn [negb].
    split; [now intros message ->|]. split; [now intros ->|].
    intros s shops ->. destruct supabase as [message | range]; [reflexivity|].
    destruct (fetch_pages fuel range 0 []) as [[message | rows] |];
      try reflexivity.
    destruct (sync_shops times faults (dedupe rows) 0 (s :: shops) db)
      as [results db2].
    now exists results, db2.
  - intros response db' H. unfold loader in H.
    destruct (verifyCronRequest CRON_SECRET request) eqn:Hv; cbn [negb] in H.
    + assert (Hgoal : (http_status response = 200 \/ http_status response = 500)
                      /\ (http_status response <> 200 \/ body response = NoShops
                          -> db' = db)).
      { destruct credentials as [message | [| s shops]].
        - injection H as <- <-. cbn. split; [now right|]. reflexivity.
        - injection H as <- <-. cbn. split; [now left|]. reflexivity.
        - destruct supabase as [message | range].
          + injection H as <- <-. cbn. split; [now right|]. reflexivity.
          + destruct (fetch_pages fuel range 0 []) as [[message | rows] |];
              [| |discriminate].
            * injection H as <- <-. cbn. split; [now right|]. reflexivity.
            * destruct (sync_shops times faults (dedupe rows) 0 (s :: shops) db)
                as [results db2].
              injection H as <- <-. cbn. split; [now left|].
              intros [Hc | Hc]; [now contradiction Hc | discriminate]. }
      destruct Hgoal as (Hst & Hdb).
      split; [destruct Hst; auto|]. split; [|assumption].
      split; [|discriminate]. intros E. destruct Hst as [Hs | Hs]; rewrite Hs in E;
        discriminate.
    + injection H as <- <-. cbn.
      split; [auto|]. split; [split; reflexivity|]. reflexivity.
Qed.

(** A request without the bearer, against a configured secret, and a
    verified request while the credentials cannot be read. *)
Lemma cron_refusal_changes_nothing_witness :
  loader 1 monday (Some "s3cret") second_fails (inr ["other"; "shop"])
         (inr two_rows) from_anyone one_job
  = Some (refused, one_job)
  /\ loader 1 monday (Some "s3cret") second_fails (inl "database is locked")
            (inr two_rows) from_cron one_job
     = Some (failed "database is locked", one_job).
Proof.
  split.
  - apply (proj1 (cron_refusal_changes_nothing 1 monday (Some "s3cret")
                    second_fails (inr ["other"; "shop"]) (inr two_rows)
                    from_anyone one_job)).
    reflexivity.
  - apply (proj1 (proj1 (proj2 (proj2 (cron_refusal_changes_nothing 1 monday
                                         (Some "s3cret") second_fails
                                         (inl "database is locked")
                                         (inr two_rows) from_cron one_job)))
                        eq_refl)).
    reflexivity.
Defined.

(** X28.  One shop's failure does not stop the run.  When the request is
    verified, the shops of the credentials are distinct and the remote table
    is fetched, the loader answers 200 with [success: true] and one result
    per shop, in order, whatever fails afterwards.  A shop whose operations
    do not throw is reported without error and with the number of distinct
    fetched SKUs, and holds exactly one mapping per such SKU, as if it were
    the only shop.  A shop reported with an error counts 0, and holds its
    mappings as before or only a first part of the fetched ones.  Shops
    without credentials keep their mappings; and the run adds one job, with
    status [success], per shop reported without error and none for the
    others. *)
Theorem cron_shop_failure_is_isolated (fuel : nat) (times : Times)
    (CRON_SECRET : option string) (faults : nat -> option Fault)
    (shops : list string) (range : nat -> Page) (request : Request) (db : Db)
    (rows : list (string * string)) :
  verifyCronRequest CRON_SECRET request = true ->
  shops <> [] ->
  NoDup shops ->
  fetch_pages fuel range 0 [] = Some (inr rows) ->
  exists results db',
    loader fuel times CRON_SECRET faults (inr shops) (inr range) request db
    = Some ({| http_status := 200; body := Synced (timestamp times) results |}, db')
    /\ map shop results = shops
    /\ (forall j s r,
          nth_error shops j = Some s -> nth_error results j = Some r ->
          shop_outcome (dedupe rows) s r (rows_of s db) (rows_of s db')
          /\ (faults j = None -> result_error r = None))
    /\ (forall s, ~ In s shops -> rows_of s db' = rows_of s db)
    /\ productSyncJob db'
       = (productSyncJob db ++ jobs_added times 0 results)%list.
Proof.
  intros Hv Hne Hnd Hfetch.
  pose proof (sync_shops_spec times faults (dedupe rows) shops
                (dedupe_NoDup rows) Hnd 0%nat db) as Hspec.
  cbv zeta in Hspec.
  unfold loader. rewrite Hv. cbn [negb]. rewrite Hfetch.
  destruct shops as [| s shops]; [now contradiction Hne|].
  destruct (sync_shops times faults (dedupe rows) 0 (s :: shops) db)
    as [results db'].
  cbn [fst snd] in Hspec. exists results, db'.
  split; [reflexivity|]. exact Hspec.
Qed.

Lemma cron_shop_failure_is_isolated_witness :
  exists results db',
    loader 1 monday (Some "s3cret") second_fails (inr ["other"; "shop"])
           (inr two_rows) from_cron one_job
    = Some ({| http_status := 200; body := Synced (timestamp monday) results |}, db')
    /\ map shop results = ["other"; "shop"]
    /\ (forall j s r,
          nth_error ["other"; "shop"] j = Some s -> nth_error results j = Some r ->
          shop_outcome (dedupe [("A", "1"); ("B", "2"); ("A", "3")]) s r
                       (rows_of s one_job) (rows_of s db')
          /\ (second_fails j = None -> result_error r = None))
    /\ (forall s, ~ In s ["other"; "shop"] -> rows_of s db' = rows_of s one_job)
    /\ productSyncJob db'
       = (productSyncJob one_job ++ jobs_added monday 0 results)%list.
Proof.
  apply (cron_shop_failure_is_isolated 1 monday (Some "s3cret") second_fails
           ["other"; "shop"] two_rows from_cron one_job
           [("A", "1"); ("B", "2"); ("A", "3")]).
  - reflexivity.
  - discriminate.
  - repeat constructor; cbn; intuition discriminate.
  - reflexivity.
Defined.

End CronSync.

(* ================================================================== *)
(** * ingram.server.ts: switching carriers on and off *)
(* ================================================================== *)
(** The rows of one shop, as in [CarrierConfiguration]: the table has the
    unique key [shopDomain_carrierCode], so a shop's rows have distinct
    codes. *)
Module CarrierSwitches.
Import RateCombiner CarrierConfiguration.
Local Open Scope string_scope.
Local Open Scope Z_scope.

Definition set_enabled (enabled_ : bool) (row : CarrierConfig) : CarrierConfig :=
  {| carrierName := carrierName row;
     carrierMode := CarrierConfiguration.carrierMode row;
     displayName := displayName row;
     enabled := enabled_;
     sortOrder := sortOrder row |}.

(** [prisma.carrierConfiguration.updateMany({ where: { shopDomain,
    carrierCode }, data: { enabled } })]: the count and the table. *)
Definition updateMany (carrierCode_ : string) (enabled_ : bool) (t : table)
  : Z * table :=
  match JSMap.get carrierCode_ t with
  | Some row => (1, JSMap.set carrierCode_ (set_enabled enabled_ row) t)
  | None => (0, t)
  end.

(** [updateCarrierEnabledStatus] (lines 599-613).  The updates are started
    together; they are applied here in the order of the array. *)
Definition updateCarrierEnabledStatus (updates : list (string * bool)) (t : table)
  : Z * table :=
  fold_left (fun acc update =>
               let '(count, t') := updateMany (fst update) (snd update) (snd acc) in
               (fst acc + count, t'))
            updates (0, t).

(** [getEnabledCarrierCodes] (lines 478-487). *)
Definition getEnabledCarrierCodes (t : table) : JSSet.t :=
  JSSet.of_list (map fst (filter (fun entry => enabled (snd entry)) t)).

(** [hasCarrierConfigurations] (lines 492-499). *)
Definition hasCarrierConfigurations (t : table) : bool := 0 <? JSMap.size t.

(** The table after the syncs of the responses, one after the other. *)
Definition syncs (responses : list (list IngramDistribution)) (t : table) : table :=
  fold_left (fun t distributions => snd (syncCarriersFromResponse distributions t))
            responses t.

(** The switch the updates hold for a code. *)
Definition asked (updates : list (string * bool)) (code : string) : option bool :=
  option_map snd (find (fun update => String.eqb (fst update) code) updates).

(** A row as the updates leave it. *)
Definition switched (updates : list (string * bool))
    (entry : string * CarrierConfig) : string * CarrierConfig :=
  (fst entry,
   match asked updates (fst entry) with
   | Some enabled_ => set_enabled enabled_ (snd entry)
   | None => snd entry
   end).

(** The updates that find a row. *)
Definition matching (updates : list (string * bool)) (t : table)
  : list (string * bool) :=
  filter (fun update => JSMap.has (fst update) t) updates.

Lemma keys_switched (updates : list (string * bool)) (t : table) :
  JSMap.keys (map (switched updates) t) = JSMap.keys t.
Proof. unfold JSMap.keys. rewrite map_map. reflexivity. Qed.

Lemma get_switched (updates : list (string * bool)) (t : table) (c : string) :
  JSMap.get c (map (switched updates) t)
  = option_map (fun row => snd (switched updates (c, row))) (JSMap.get c t).
Proof.
  induction t as [| [k row] t IH]; [reflexivity|].
  cbn [map JSMap.get switched fst snd].
  destruct (String.eqb c k) eqn:E; [|exact IH].
  apply String.eqb_eq in E. subst k. reflexivity.
Qed.

Lemma matching_switched (updates updates' : list (string * bool)) (t : table) :
  matching updates' (map (switched updates) t) = matching updates' t.
Proof.
  unfold matching. apply filter_ext. intros u. unfold JSMap.has.
  rewrite get_switched. now destruct (JSMap.get (fst u) t).
Qed.

(** One update, on a table with distinct codes. *)
Lemma updateMany_switched (code : string) (b : bool) (t : table) :
  NoDup (JSMap.keys t) ->
  updateMany code b t
  = (if JSMap.has code t then 1 else 0, map (switched [(code, b)]) t).
Proof.
  unfold updateMany, JSMap.has. intros Hnd.
  assert (Hmap : forall row,
             JSMap.get code t = Some row ->
             JSMap.set code (set_enabled b row) t = map (switched [(code, b)]) t).
  { induction t as [| [k r] t IH]; intros row Hrow; [discriminate|].
    inversion Hnd as [| ? ? Hnot Hnd']; subst.
    cbn [JSMap.get] in Hrow. cbn [JSMap.set map].
    unfold switched at 1, asked. cbn [fst snd find].
    destruct (String.eqb code k) eqn:E.
    - injection Hrow as <-. apply String.eqb_eq in E. subst k.
      cbn [option_map snd]. f_equal.
      rewrite <- (map_id t) at 1. apply map_ext_in. intros [k' r'] Hin.
      unfold switched, asked. cbn [fst snd find].
      assert (Hne : String.eqb code k' = false).
      { apply String.eqb_neq. intros ->. apply Hnot.
        apply in_map_iff. exists (k', r'). now split. }
      now rewrite Hne.
    - cbn [option_map]. f_equal. now apply IH. }
  assert (Hnone : JSMap.get code t = None -> map (switched [(code, b)]) t = t).
  { intros Hg. rewrite <- (map_id t) at 2. apply map_ext_in. intros [k r] Hin.
    unfold switched, asked. cbn [fst snd find].
    assert (Hne : String.eqb code k = false).
    { apply String.eqb_neq. intros ->. apply JSMap.get_None_keys in Hg. apply Hg.
      apply in_map_iff. exists (k, r). now split. }
    now rewrite Hne. }
  destruct (JSMap.get code t) as [row |] eqn:Hrow.
  - now rewrite (Hmap row).
  - now rewrite Hnone.
Qed.

Lemma switched_twice (code : string) (b : bool) (updates : list (string * bool))
    (t : table) :
  ~ In code (map fst updates) ->
  map (switched updates) (map (switched [(code, b)]) t)
  = map (switched ((code, b) :: updates)) t.
Proof.
  intros Hnot. rewrite map_map. apply map_ext. intros [k r].
  unfold switched, asked. cbn [fst snd find].
  destruct (String.eqb code k) eqn:E.
  - apply String.eqb_eq in E. subst k. cbn [option_map snd].
    destruct (find (fun update => String.eqb (fst update) code) updates)
      as [u |] eqn:Hf; [|reflexivity].
    apply find_some in Hf as [Hin Heq]. apply String.eqb_eq in Heq.
    contradiction Hnot. apply in_map_iff. now exists u.
  - cbn [option_map]. reflexivity.
Qed.

Lemma update_fold (updates : list (string * bool)) :
  NoDup (map fst updates) ->
  forall (sum : Z) (t : table),
    NoDup (JSMap.keys t) ->
    fold_left (fun acc update =>
                 let '(count, t') :=
                   updateMany (fst update) (snd update) (snd acc) in
                 (fst acc + count, t'))
              updates (sum, t)
    = (sum + Z.of_nat (List.length (matching updates t)),
       map (switched updates) t).
Proof.
  induction updates as [| [code b] updates IH]; intros Hu sum t Ht.
  - cbn. f_equal; [lia|]. rewrite <- (map_id t) at 1. apply map_ext.
    now intros [k r].
  - inversion Hu as [| ? ? Hnot Hu']; subst.
    cbn [fold_left fst snd]. rewrite (updateMany_switched code b t Ht).
    rewrite IH; [|assumption | now rewrite keys_switched].
    rewrite matching_switched, (switched_twice code b updates t Hnot).
    f_equal. unfold matching. cbn [filter fst].
    destruct (JSMap.has code t); cbn [List.length]; lia.
Qed.

Lemma asked_In (updates : list (string * bool)) (code : string) (b : bool) :
  NoDup (map fst updates) ->
  (asked updates code = Some b <-> In (code, b) updates).
Proof.
  unfold asked. induction updates as [| [k v] updates IH]; intros Hnd.
  - cbn. split; [discriminate | contradiction].
  - inversion Hnd as [| ? ? Hnot Hnd']; subst. cbn [find fst].
    destruct (String.eqb k code) eqn:E.
    + apply String.eqb_eq in E. subst k. cbn [option_map snd]. split.
      * intros [= ->]. now left.
      * intros [[= ->] | Hin]; [reflexivity|].
        contradiction Hnot. apply in_map_iff. now exists (code, b).
    + rewrite (IH Hnd'). split; [now right|].
      intros [[= -> ->] | Hin]; [|assumption].
      rewrite String.eqb_refl in E. discriminate.
Qed.

Lemma asked_permuted (updates updates' : list (string * bool)) (code : string) :
  NoDup (map fst updates) ->
  Permutation updates updates' ->
  asked updates' code = asked updates code.
Proof.
  intros Hnd Hp.
  assert (Hnd' : NoDup (map fst updates')).
  { apply (Permutation_NoDup (l := map fst updates)); [|assumption].
    now apply Permutation_map. }
  destruct (asked updates code) as [b |] eqn:E.
  - apply (asked_In updates' code b Hnd'). apply (Permutation_in _ Hp).
    now apply (asked_In updates code b Hnd).
  - destruct (asked updates' code) as [b |] eqn:E'; [|reflexivity].
    apply (asked_In updates' code b Hnd') in E'.
    apply (Permutation_in _ (Permutation_sym Hp)) in E'.
    apply (asked_In updates code b Hnd) in E'. congruence.
Qed.

Lemma filter_length_permuted {A : Type} (f : A -> bool) (l l' : list A) :
  Permutation l l' -> List.length (filter f l) = List.length (filter f l').
Proof.
  induction 1 as [| x l l' Hp IH | x y l | l l' l'' Hp1 IH1 Hp2 IH2]; cbn.
  - reflexivity.
  - destruct (f x); cbn; now rewrite IH.
  - destruct (f x), (f y); reflexivity.
  - congruence.
Qed.

(** ** A sync keeps a row's switch *)

Lemma sync_fold_NoDup (existingMap : table) (seen : JSMap.t (string * string)) :
  forall n t,
    NoDup (JSMap.keys t) ->
    NoDup (JSMap.keys (snd (fold_left (sync_one existingMap) seen (n, t)))).
Proof.
  induction seen as [| [c0 [name mode]] seen IH]; intros n t Ht; [assumption|].
  cbn [fold_left]. unfold sync_one at 2.
  destruct (JSMap.get c0 existingMap) as [ex |];
    apply IH; unfold upsertCarrierConfiguration; now apply JSMap.NoDup_keys_set.
Qed.

Lemma sync_enabled_kept (distributions : list IngramDistribution) (t : table)
    (c : string) (row : CarrierConfig) :
  JSMap.get c t = Some row ->
  exists row',
    JSMap.get c (snd (syncCarriersFromResponse distributions t)) = Some row'
    /\ enabled row' = enabled row.
Proof.
  intros Hrow. unfold syncCarriersFromResponse. cbn [snd].
  destruct (in_dec string_dec c (offered_codes distributions)) as [Hin | Hnot].
  - destruct (first_offer_offered c distributions Hin) as (carrier & Hf & Hc).
    pose proof (offered_codes_nonempty c distributions Hin) as Hne.
    pose proof (seenCarriers_get c distributions Hne) as Hg. rewrite Hf in Hg.
    cbn [option_map] in Hg.
    assert (Hnd : NoDup (JSMap.keys (seenCarriers distributions)))
      by (rewrite seenCarriers_keys; apply offered_codes_NoDup).
    apply (JSMap.In_get _ c _ Hnd) in Hg.
    destruct (seen_as carrier) as [name mode] eqn:Hs.
    rewrite (sync_fold_existing t _ Hnd 0 t c name mode row Hg Hrow).
    eexists. split; reflexivity.
  - exists row. split; [|reflexivity].
    rewrite sync_fold_other; [assumption|]. now rewrite seenCarriers_keys.
Qed.

Lemma syncs_enabled_kept (responses : list (list IngramDistribution)) :
  forall (t : table) (c : string) (row : CarrierConfig),
    NoDup (JSMap.keys t) ->
    JSMap.get c t = Some row ->
    NoDup (JSMap.keys (syncs responses t))
    /\ exists row',
         JSMap.get c (syncs responses t) = Some row'
         /\ enabled row' = enabled row.
Proof.
  unfold syncs.
  induction responses as [| d responses IH]; intros t c row Hnd Hrow.
  - cbn. split; [assumption|]. now exists row.
  - cbn [fold_left].
    destruct (sync_enabled_kept d t c row Hrow) as (row1 & Hrow1 & He1).
    destruct (IH (snd (syncCarriersFromResponse d t)) c row1) as (Hnd' & row2 & H2 & He2).
    + unfold syncCarriersFromResponse. cbn [snd]. now apply sync_fold_NoDup.
    + assumption.
    + split; [assumption|]. exists row2. split; [assumption | congruence].
Qed.

Lemma enabled_code_row (t : table) (c : string) :
  NoDup (JSMap.keys t) ->
  (In c (getEnabledCarrierCodes t)
   <-> exists row, JSMap.get c t = Some row /\ enabled row = true).
Proof.
  intros Hnd. unfold getEnabledCarrierCodes.
  rewrite JSSet.In_of_list, in_map_iff. split.
  - intros ([k row] & <- & Hin). apply filter_In in Hin as [Hin He].
    exists row. split; [|assumption]. now apply JSMap.In_get.
  - intros (row & Hg & He). exists (c, row). split; [reflexivity|].
    apply filter_In. split; [|assumption]. now apply JSMap.In_get.
Qed.

(** ** Examples *)

(** A shop with two carriers, both switched on. *)
Definition two_carriers : table :=
  [ ("UPS", {| carrierName := "UPS Ground";
               CarrierConfiguration.carrierMode := "SML";
               displayName := None; enabled := true; sortOrder := 0 |});
    ("FDX", {| carrierName := "FedEx";
               CarrierConfiguration.carrierMode := "SML";
               displayName := None; enabled := true; sortOrder := 1 |}) ].

Example switch_off_ups :
  let r := updateCarrierEnabledStatus [("UPS", false); ("DHL", false)] two_carriers in
  fst r = 1
  /\ getEnabledCarrierCodes (snd r) = ["FDX"]
  /\ getEnabledCarrierCodes (syncs [two_warehouses] (snd r)) = ["FDX"].
Proof. vm_compute. repeat split. Qed.

(** ** Properties *)

(** X29.  The switches change rows that exist, and nothing else.  For updates
    with distinct codes on a table with distinct codes,
    [updateCarrierEnabledStatus] returns the number of updates whose code
    has a row; it leaves the rows in place and in order, each with its
    [enabled] replaced if an update names its code and otherwise as it was;
    an update for a code without a row creates nothing; and the outcome is
    the same in whatever order the updates are applied. *)
Theorem updateCarrierEnabledStatus_switches_rows
    (updates : list (string * bool)) (t : table) :
  NoDup (map fst updates) ->
  NoDup (JSMap.keys t) ->
  let r := updateCarrierEnabledStatus updates t in
  fst r = Z.of_nat (List.length (matching updates t))
  /\ snd r = map (switched updates) t
  /\ JSMap.keys (snd r) = JSMap.keys t
  /\ (forall c row,
        JSMap.get c t = Some row ->
        JSMap.get c (snd r)
        = Some match asked updates c with
               | Some enabled_ => set_enabled enabled_ row
               | None => row
               end)
  /\ (forall updates',
        Permutation updates updates' ->
        updateCarrierEnabledStatus updates' t = r).
Proof.
  intros Hu Ht. cbv zeta. unfold updateCarrierEnabledStatus.
  rewrite (update_fold updates Hu 0 t Ht). cbn [fst snd].
  split; [lia|]. split; [reflexivity|]. split; [apply keys_switched|]. split.
  - intros c row Hrow. rewrite get_switched, Hrow. reflexivity.
  - intros updates' Hp.
    assert (Hu' : NoDup (map fst updates')).
    { apply (Permutation_NoDup (l := map fst updates)); [|assumption].
      now apply Permutation_map. }
    rewrite (update_fold updates' Hu' 0 t Ht). f_equal.
    + unfold matching. now rewrite (filter_length_permuted _ _ _ Hp).
    + apply map_ext. intros [k r]. unfold switched. cbn [fst snd].
      now rewrite (asked_permuted updates updates' k Hu Hp).
Qed.

Lemma updateCarrierEnabledStatus_switches_rows_witness :
  let r := updateCarrierEnabledStatus [("UPS", false); ("DHL", false)] two_carriers in
  fst r = Z.of_nat (List.length (matching [("UPS", false); ("DHL", false)] two_carriers))
  /\ snd r = map (switched [("UPS", false); ("DHL", false)]) two_carriers
  /\ JSMap.keys (snd r) = JSMap.keys two_carriers
  /\ (forall c row,
        JSMap.get c two_carriers = Some row ->
        JSMap.get c (snd r)
        = Some match asked [("UPS", false); ("DHL", false)] c with
               | Some enabled_ => set_enabled enabled_ row
               | None => row
               end)
  /\ (forall updates',
        Permutation [("UPS", false); ("DHL", false)] updates' ->
        updateCarrierEnabledStatus updates' two_carriers = r).
Proof.
  apply (updateCarrierEnabledStatus_switches_rows
           [("UPS", false); ("DHL", false)] two_carriers).
  - repeat constructor; cbn; intuition discriminate.
  - repeat constructor; cbn; intuition discriminate.
Defined.

(** X30.  A carrier switched off stays off.  When the shop has a row for a code
    and an update (among updates with distinct codes) switches it off, then
    after any number of syncs of carrier responses the code is not among the
    enabled codes, whatever the responses offer; and the shop still has
    carrier configurations. *)
Theorem switched_off_carrier_stays_off
    (updates : list (string * bool)) (t : table) (c : string)
    (responses : list (list IngramDistribution)) :
  NoDup (map fst updates) ->
  NoDup (JSMap.keys t) ->
  JSMap.has c t = true ->
  In (c, false) updates ->
  let t' := syncs responses (snd (updateCarrierEnabledStatus updates t)) in
  ~ In c (getEnabledCarrierCodes t')
  /\ hasCarrierConfigurations t' = true.
Proof.
  intros Hu Ht Hhas Hin. cbv zeta. unfold updateCarrierEnabledStatus.
  rewrite (update_fold updates Hu 0 t Ht). cbn [snd].
  unfold JSMap.has in Hhas.
  destruct (JSMap.get c t) as [row |] eqn:Hrow; [|discriminate].
  assert (Hoff : JSMap.get c (map (switched updates) t)
                 = Some (set_enabled false row)).
  { rewrite get_switched, Hrow. cbn [option_map switched fst snd].
    apply (asked_In updates c false Hu) in Hin. now rewrite Hin. }
  destruct (syncs_enabled_kept responses (map (switched updates) t) c
              (set_enabled false row))
    as (Hnd & row' & Hrow' & He); [now rewrite keys_switched | assumption |].
  cbn [enabled set_enabled] in He. split.
  - intros Hen. apply (enabled_code_row _ c Hnd) in Hen as (row2 & Hg & He2).
    congruence.
  - unfold hasCarrierConfigurations, JSMap.size.
    destruct (syncs responses (map (switched updates) t)); [discriminate|].
    cbn [List.length]. apply Z.ltb_lt. lia.
Qed.

Lemma switched_off_carrier_stays_off_witness :
  let t' := syncs [two_warehouses]
              (snd (updateCarrierEnabledStatus [("UPS", false); ("DHL", false)]
                      two_carriers)) in
  ~ In "UPS" (getEnabledCarrierCodes t')
  /\ hasCarrierConfigurations t' = true.
Proof.
  apply (switched_off_carrier_stays_off [("UPS", false); ("DHL", false)]
           two_carriers "UPS" [two_warehouses]).
  - repeat constructor; cbn; intuition discriminate.
  - repeat constructor; cbn; intuition discriminate.
  - reflexivity.
  - now left.
Defined.

End CarrierSwitches.
